(** * Mode-decision core: candidate derivation and best-mode ledger

    A shallow embedding of the parts of [UnitTools.cpp] (merge and AMVP
    candidate derivation, temporal motion-vector scaling) and of [EncCu.cpp]
    (the accept/rollback ledger [xCheckBestMode], the tail of
    [xCheckModeSplit], the finishing block of [xCompressCU]) that the
    testable properties of the specification talk about, and of further
    routines of the two files: QP prediction, coded block flags, the GBi
    index, the restriction of bi-prediction, the affine merge candidate,
    the intra mode lists, the limit on the merge candidates to test and the
    delta QP check.

    Conventions.
    - C++ [int] is a 32-bit two's complement integer: values are [Z], and
      the wrap-around of an arithmetic result is written out with [wrap32].
    - A C array is a total map from index to element ([Z -> A]) updated with
      [upd]; its capacity ([MRG_MAX_NUM_CANDS], [AMVP_MAX_NUM_CANDS_MEM])
      lives in a header that is not among the sources.
    - A two-element array indexed by a reference picture list is a pair.
    - A routine that can raise ([CHECK], [THROW]) or run into behaviour the
      language leaves undefined returns an [outcome].
    - Preprocessor switches and the bodies of [Mv]'s member functions are
      declared in headers outside the sources; they are collected in the
      classes [BuildConfig] and [MvOps] and every definition is generic in
      them. *)

From Stdlib Require Import ZArith List Bool Lia String Floats.
Import ListNotations.
Open Scope Z_scope.

(** ** Machine integers and outcomes *)

Definition wrap32 (z : Z) : Z := (z + 2147483648) mod 4294967296 - 2147483648.

Definition add32 (a b : Z) : Z := wrap32 (a + b).
Definition sub32 (a b : Z) : Z := wrap32 (a - b).
Definition mul32 (a b : Z) : Z := wrap32 (a * b).
Definition shl32 (a n : Z) : Z := wrap32 (Z.shiftl a n).

(** [unsigned & int] as in [PosType( _pos.x & mask )]: both operands are
    taken modulo 2^32, the result is converted back to [int]. *)
Definition and32 (a b : Z) : Z :=
  wrap32 (Z.land (a mod 4294967296) (b mod 4294967296)).

(** Modelled from the spec: [Clip3] is a template of CommonDef.h, which is
    not among the sources; the spec calls its use a ratio "clipped to a
    bounded range". *)
Definition Clip3 (minVal maxVal a : Z) : Z := Z.min (Z.max minVal a) maxVal.

Inductive outcome (A : Type) : Type :=
| Normal (a : A)
| Thrown (msg : string)
| Undefined (why : string).
Arguments Normal {A} a.
Arguments Thrown {A} msg.
Arguments Undefined {A} why.

Definition obind {A B : Type} (o : outcome A) (k : A -> outcome B) : outcome B :=
  match o with
  | Normal a => k a
  | Thrown msg => Thrown msg
  | Undefined why => Undefined why
  end.

Notation "x <- o ;; k" := (obind o (fun x => k))
  (at level 61, o at next level, right associativity).
Notation "' p <- o ;; k" := (obind o (fun p => k))
  (at level 61, p pattern, o at next level, right associativity).

(** [CHECK( cond, msg )] throws when [cond] holds. *)
Definition CHECK (cond : bool) (msg : string) : outcome unit :=
  if cond then Thrown msg else Normal tt.

Definition upd {A : Type} (f : Z -> A) (i : Z) (v : A) : Z -> A :=
  fun j => if j =? i then v else f j.

(** Conversion of an [int] to [unsigned], as the usual arithmetic
    conversions do when the other operand is unsigned. *)
Definition u32 (z : Z) : Z := z mod 4294967296.

(** [for( ui = 0; ui < n; ++ui ) body]: the body sees the counter. *)
Fixpoint forUpTo {S : Type} (n : nat) (body : Z -> S -> S) (s : S) : S :=
  match n with
  | O => s
  | Datatypes.S k => body (Z.of_nat k) (forUpTo k body s)
  end.

(** ** Build configuration and motion vectors *)

Class BuildConfig : Type := {
  JVET_L0090_PAIR_AVG : bool;
  HM_JEM_MERGE_CANDS : bool;
  JVET_L0646_GBI : bool;
  REMOVE_MV_ADAPT_PREC : bool;
  AMVP_DECIMATION_FACTOR : Z;
  AMVP_MAX_NUM_CANDS_MEM : Z;
  VCEG_AZ07_MV_ADD_PRECISION_BIT_FOR_STORE : Z;
  GBI_DEFAULT : Z;
  g_GbiWeightBase : Z;
  getGbiWeight : Z -> Z -> Z;
  MAX_CU_DEPTH : Z;
  g_aucLog2 : Z -> Z;
}.

Inductive RefPicList : Type := REF_PIC_LIST_0 | REF_PIC_LIST_1.

Definition RefPicList_eqb (a b : RefPicList) : bool :=
  match a, b with
  | REF_PIC_LIST_0, REF_PIC_LIST_0 | REF_PIC_LIST_1, REF_PIC_LIST_1 => true
  | _, _ => false
  end.

(** [RefPicList( 1 - l )] *)
Definition otherList (l : RefPicList) : RefPicList :=
  match l with REF_PIC_LIST_0 => REF_PIC_LIST_1 | REF_PIC_LIST_1 => REF_PIC_LIST_0 end.

Definition listIdx (l : RefPicList) : Z :=
  match l with REF_PIC_LIST_0 => 0 | REF_PIC_LIST_1 => 1 end.

Definition sel {A : Type} (p : A * A) (l : RefPicList) : A :=
  match l with REF_PIC_LIST_0 => fst p | REF_PIC_LIST_1 => snd p end.

Definition setSel {A : Type} (p : A * A) (l : RefPicList) (v : A) : A * A :=
  match l with REF_PIC_LIST_0 => (v, snd p) | REF_PIC_LIST_1 => (fst p, v) end.

Definition NOT_VALID : Z := -1.

(** The fields the sources read and write directly: [mv.hor], [mv.ver] and,
    when [REMOVE_MV_ADAPT_PREC] is off, [mv.highPrec]. *)
Record Mv : Type := mkMv { hor : Z; ver : Z; highPrec : bool }.

(** [Mv()] and [Mv( 0, 0 )] *)
Definition Mv0 : Mv := mkMv 0 0 false.

Definition setHor (m : Mv) (h : Z) : Mv := mkMv h (ver m) (highPrec m).
Definition setVer (m : Mv) (v : Z) : Mv := mkMv (hor m) v (highPrec m).

Record MvField : Type := mkMvField { mv : Mv; refIdx : Z }.

(** [MvField::setMvField( mv, refIdx )] overwrites both members. *)
Definition setMvField (m : Mv) (r : Z) : MvField := mkMvField m r.

Record MotionInfo : Type := mkMotionInfo {
  isInter : bool;
  interDir : Z;
  sliceIdx : Z;
  mi_mv : Mv * Mv;
  mi_refIdx : Z * Z;
}.

(** [MotionInfo()] : not inter, no direction, both reference indices
    [NOT_VALID]. *)
Definition MotionInfo0 : MotionInfo :=
  mkMotionInfo false 0 0 (Mv0, Mv0) (NOT_VALID, NOT_VALID).

(** Member functions and operators of [Mv], [MvField] and [MotionInfo] whose
    bodies are in Mv.h and MotionInfo.h. *)
Class MvOps : Type := {
  Mv_eqb : Mv -> Mv -> bool;
  Mv_add : Mv -> Mv -> Mv;
  Mv_sub : Mv -> Mv -> Mv;
  scaleMv : Mv -> Z -> Mv;
  setHighPrec : Mv -> Mv;
  setLowPrec : Mv -> Mv;
  roundMV2SignalPrecision : Mv -> Mv;
  roundMV : Mv -> Z -> Mv;
  roundAffineMv : Z -> Z -> Z -> Z * Z;
  Mv_set : Mv -> Z -> Z -> Mv;
  MvField_eqb : MvField -> MvField -> bool;
  MotionInfo_eqb : MotionInfo -> MotionInfo -> bool;
}.

Record Position : Type := mkPosition { pos_x : Z; pos_y : Z }.

(** [Position::offset( dx, dy )] *)
Definition offset (p : Position) (dx dy : Z) : Position :=
  mkPosition (add32 (pos_x p) dx) (add32 (pos_y p) dy).

(** ** Slices, pictures and the coding structure a unit lives in *)

Record Slice : Type := mkSlice {
  getPOC : Z;
  isInterB : bool;
  getColFromL0Flag : bool;
  getColRefIdx : Z;
  getCheckLDC : bool;
  getEnableTMVPFlag : bool;
  getMaxNumMergeCand : Z;
  getNumRefIdx : RefPicList -> Z;
  getRefPOC : RefPicList -> Z -> Z;
  getIsUsedAsLongTerm : RefPicList -> Z -> bool;
  getIndependentSliceIdx : Z;
}.

(** A reference picture: [poc] (also read through [getPOC()]), [longTerm],
    the motion field of its coding structure ([cs->getMotionInfo]) and its
    slices.  [pic_addr] stands for the address pictures are compared by. *)
Record Picture : Type := mkPicture {
  pic_addr : Z;
  poc : Z;
  longTerm : bool;
  pic_getMotionInfo : Position -> MotionInfo;
  slices : list Slice;
}.

Record PreCalcValues : Type := mkPCV {
  noMotComp : bool;
  minCUWidth : Z;
  minCUHeight : Z;
  lumaWidth : Z;
  lumaHeight : Z;
  maxCUWidth : Z;
  maxCUHeight : Z;
  maxCUWidthMask : Z;
  maxCUHeightMask : Z;
}.

Record SPSNext : Type := mkSPSNext {
  getUseSubPuMvp : bool;
  getUseATMVP : bool;
  getUseHighPrecMv : bool;
}.

Inductive PredMode : Type := MODE_INTER | MODE_INTRA | NUMBER_OF_PREDICTION_MODES.

Inductive AffineModel : Type := AFFINEMODEL_4PARAM | AFFINEMODEL_6PARAM.

Record CodingUnit : Type := mkCU {
  cu_addr : Z;
  predMode : PredMode;
  cu_GBiIdx : Z;
  affine : bool;
  affineType : AffineModel;
  imv : Z;
}.

(** [CU::isInter] *)
Definition CU_isInter (cu : CodingUnit) : bool :=
  match predMode cu with MODE_INTER => true | _ => false end.

(** The luma block [pu.Y()] is kept through the corner and centre positions
    and the size the derivations ask it for. *)
Record PredictionUnit : Type := mkPU {
  cu : CodingUnit;
  lumaPos : Position;
  Y_topLeft : Position;
  Y_topRight : Position;
  Y_bottomLeft : Position;
  Y_bottomRight : Position;
  Y_center : Position;
  Y_width : Z;
  Y_height : Z;
  getMotionInfo : Position -> MotionInfo;
  pu_interDir : Z;
  pu_refIdx : Z * Z;
}.

(** [pu.cs] with the members the derivations reach through it.
    [getRefPic] is [Slice::getRefPic] of [slice]; [getPURestricted pos] is
    [cs.getPURestricted( pos, pu, pu.chType )] for the unit being derived. *)
Record CodingStructure : Type := mkCS {
  slice : Slice;
  getRefPic : RefPicList -> Z -> option Picture;
  spsNext : SPSNext;
  getLog2ParallelMergeLevelMinus2 : Z;
  pcv : PreCalcValues;
  getPURestricted : Position -> option PredictionUnit;
}.

(** ** Temporal motion-vector scaling *)

(** [xGetDistScaleFactor].  [iTDD] is the divisor of an integer division;
    the language leaves a division by zero undefined. *)
Definition xGetDistScaleFactor (iCurrPOC iCurrRefPOC iColPOC iColRefPOC : Z)
  : outcome Z :=
  let iDiffPocD := sub32 iColPOC iColRefPOC in
  let iDiffPocB := sub32 iCurrPOC iCurrRefPOC in
  if iDiffPocD =? iDiffPocB then Normal 4096
  else
    let iTDB := Clip3 (-128) 127 iDiffPocB in
    let iTDD := Clip3 (-128) 127 iDiffPocD in
    if iTDD =? 0 then Undefined "division by zero"
    else
      let iX := Z.quot (16384 + Z.abs (Z.quot iTDD 2)) iTDD in
      let iScale := Clip3 (-4096) 4095 (Z.shiftr (iTDB * iX + 32) 6) in
      Normal iScale.

Section Colocated.
Context {cfg : BuildConfig} {ops : MvOps}.

(** The collocated picture: [slice.getRefPic( RefPicList( slice.isInterB()
    ? 1 - slice.getColFromL0Flag() : 0 ), slice.getColRefIdx() )]. *)
Definition colPicList (s : Slice) : RefPicList :=
  if isInterB s
  then (if getColFromL0Flag s then REF_PIC_LIST_0 else REF_PIC_LIST_1)
  else REF_PIC_LIST_0.

Definition getColPic (cs : CodingStructure) : option Picture :=
  getRefPic cs (colPicList (slice cs)) (getColRefIdx (slice cs)).

(** [RefPicList( slice.getColFromL0Flag() )] *)
Definition colFromL0List (s : Slice) : RefPicList :=
  if getColFromL0Flag s then REF_PIC_LIST_1 else REF_PIC_LIST_0.

Definition mvCompressionScale (cs : CodingStructure) : Z :=
  if noMotComp (pcv cs) then 1
  else 4 * Z.max 1 (Z.quot (4 * AMVP_DECIMATION_FACTOR) 4).

Definition compressPos (cs : CodingStructure) (p : Position) : Position :=
  let mask := Z.lnot (mvCompressionScale cs - 1) in
  mkPosition (and32 (pos_x p) mask) (and32 (pos_y p) mask).

(** The list and index of the collocated reference: the preferred list,
    else the other one, else none (the routine returns [false]). *)
Definition colRefOf (cs : CodingStructure) (eRefPicList : RefPicList)
           (mi : MotionInfo) : option (RefPicList * Z) :=
  let eColRefPicList :=
    if getCheckLDC (slice cs) then eRefPicList else colFromL0List (slice cs) in
  let iColRefIdx := sel (mi_refIdx mi) eColRefPicList in
  if iColRefIdx <? 0 then
    let eColRefPicList := otherList eColRefPicList in
    let iColRefIdx := sel (mi_refIdx mi) eColRefPicList in
    if iColRefIdx <? 0 then None else Some (eColRefPicList, iColRefIdx)
  else Some (eColRefPicList, iColRefIdx).

(** The slice of the collocated picture the motion belongs to. *)
Definition findColSlice (pColPic : Picture) (mi : MotionInfo) : option Slice :=
  find (fun s => getIndependentSliceIdx s =? sliceIdx mi) (slices pColPic).

(** [PU::getColocatedMVP].  [Some mv] is a return of [true] with [rcMv]
    set to [mv]; [None] is a return of [false], [rcMv] untouched. *)
Definition getColocatedMVP (cs : CodingStructure) (eRefPicList : RefPicList)
           (_pos : Position) (refIdx : Z) : outcome (option Mv) :=
  let pos := compressPos cs _pos in
  let slice := slice cs in
  match getColPic cs with
  | None => Normal None
  | Some pColPic =>
    let mi := pic_getMotionInfo pColPic pos in
    if negb (isInter mi) then Normal None
    else
      match colRefOf cs eRefPicList mi with
      | None => Normal None
      | Some (eColRefPicList, iColRefIdx) =>
        match findColSlice pColPic mi with
        | None => Thrown "Slice segment not found"
        | Some colSlice =>
          match getRefPic cs eRefPicList refIdx with
          | None => Undefined "null reference picture"
          | Some currRef =>
            let bIsCurrRefLongTerm := longTerm currRef in
            let bIsColRefLongTerm :=
              getIsUsedAsLongTerm colSlice eColRefPicList iColRefIdx in
            if negb (Bool.eqb bIsCurrRefLongTerm bIsColRefLongTerm)
            then Normal None
            else
              let cColMv := sel (mi_mv mi) eColRefPicList in
              if bIsCurrRefLongTerm then Normal (Some cColMv)
              else
                let currPOC := getPOC slice in
                let colPOC := getPOC colSlice in
                let colRefPOC := getRefPOC colSlice eColRefPicList iColRefIdx in
                let currRefPOC := poc currRef in
                distscale <- xGetDistScaleFactor currPOC currRefPOC colPOC colRefPOC ;;
                if distscale =? 4096 then Normal (Some cColMv)
                else
                  let cColMv :=
                    if negb REMOVE_MV_ADAPT_PREC && getUseHighPrecMv (spsNext cs)
                    then setHighPrec cColMv else cColMv in
                  Normal (Some (scaleMv cColMv distscale))
          end
        end
      end
  end.
(** The path of [getColocatedMVP] up to the long-term test: the collocated
    picture, its motion at the compressed position, the collocated
    reference that motion selects, the slice it belongs to, and the current
    reference picture. *)
Definition reachesLongTermTest (cs : CodingStructure) (eRefPicList : RefPicList)
           (pos : Position) (refIdx : Z) (pColPic : Picture) (eCol : RefPicList)
           (iCol : Z) (colSlice : Slice) (currRef : Picture) : Prop :=
  getColPic cs = Some pColPic
  /\ isInter (pic_getMotionInfo pColPic (compressPos cs pos)) = true
  /\ colRefOf cs eRefPicList (pic_getMotionInfo pColPic (compressPos cs pos))
     = Some (eCol, iCol)
  /\ findColSlice pColPic (pic_getMotionInfo pColPic (compressPos cs pos))
     = Some colSlice
  /\ getRefPic cs eRefPicList refIdx = Some currRef.

End Colocated.

(** ** Merge candidate list *)

Inductive MergeType : Type := MRG_TYPE_DEFAULT_N | MRG_TYPE_SUBPU_ATMVP.

Record MotionBuf : Type := mkMotionBuf {
  mb_area : Z;
  mb_buf : bool;
  mb_at : Position -> MotionInfo;
}.

Record MergeCtx : Type := mkMergeCtx {
  mvFieldNeighbours : Z -> MvField;
  GBiIdx : Z -> Z;
  interDirNeighbours : Z -> Z;
  mrgTypeNeighbours : Z -> MergeType;
  numValidMergeCand : Z;
  subPuMvpMiBuf : MotionBuf;
}.

Definition set_mvField (m : MergeCtx) (i : Z) (v : MvField) : MergeCtx :=
  mkMergeCtx (upd (mvFieldNeighbours m) i v) (GBiIdx m) (interDirNeighbours m)
             (mrgTypeNeighbours m) (numValidMergeCand m) (subPuMvpMiBuf m).
Definition set_GBiIdx (m : MergeCtx) (i : Z) (v : Z) : MergeCtx :=
  mkMergeCtx (mvFieldNeighbours m) (upd (GBiIdx m) i v) (interDirNeighbours m)
             (mrgTypeNeighbours m) (numValidMergeCand m) (subPuMvpMiBuf m).
Definition set_interDir (m : MergeCtx) (i : Z) (v : Z) : MergeCtx :=
  mkMergeCtx (mvFieldNeighbours m) (GBiIdx m) (upd (interDirNeighbours m) i v)
             (mrgTypeNeighbours m) (numValidMergeCand m) (subPuMvpMiBuf m).
Definition set_mrgType (m : MergeCtx) (i : Z) (v : MergeType) : MergeCtx :=
  mkMergeCtx (mvFieldNeighbours m) (GBiIdx m) (interDirNeighbours m)
             (upd (mrgTypeNeighbours m) i v) (numValidMergeCand m) (subPuMvpMiBuf m).
Definition set_numValid (m : MergeCtx) (v : Z) : MergeCtx :=
  mkMergeCtx (mvFieldNeighbours m) (GBiIdx m) (interDirNeighbours m)
             (mrgTypeNeighbours m) v (subPuMvpMiBuf m).
Definition set_subPuBuf (m : MergeCtx) (b : MotionBuf) : MergeCtx :=
  mkMergeCtx (mvFieldNeighbours m) (GBiIdx m) (interDirNeighbours m)
             (mrgTypeNeighbours m) (numValidMergeCand m) b.

(** [mvFieldNeighbours[i].refIdx = r], the vector left as it is. *)
Definition set_refIdx (m : MergeCtx) (i : Z) (r : Z) : MergeCtx :=
  set_mvField m i (mkMvField (mv (mvFieldNeighbours m i)) r).

(** What [getInterMergeCandidates] carries from step to step: the context
    being filled, [cnt], and (without pairwise averaging) [isCandInter]. *)
Record MrgState : Type := mkMrgState {
  mrgCtx : MergeCtx;
  cnt : Z;
  isCandInter : Z -> bool;
}.

(** Conversion to [unsigned char], the element type of
    [interDirNeighbours]. *)
Definition u8 (z : Z) : Z := z mod 256.

(** A step either goes on with the state or leaves the routine ([return]). *)
Inductive flow : Type := Go (s : MrgState) | Ret (m : MergeCtx).

Definition fbind (o : outcome flow) (k : MrgState -> outcome MergeCtx)
  : outcome MergeCtx :=
  match o with
  | Normal (Go s) => k s
  | Normal (Ret m) => Normal m
  | Thrown msg => Thrown msg
  | Undefined why => Undefined why
  end.

Notation "s <~ o ;; k" := (fbind o (fun s => k))
  (at level 61, o at next level, right associativity).

(** What the sub-block temporal derivation samples from the collocated
    picture at the displaced position the neighbours in the list select:
    whether the centre block is inter, [deriveScaledMotionTemporal] at the
    centre for each list, and the per-sub-block motion the last loop of
    [getInterMergeSubPuMvpCand] stores in the buffer. *)
Record SubPuSampling : Type := mkSubPuSampling {
  centerIsInter : outcome bool;
  deriveCenter : RefPicList -> outcome (option Mv);
  subBlockMotion : outcome (Position -> MotionInfo);
}.

Section Merge.
Context {cfg : BuildConfig} {ops : MvOps}.
Variable cs : CodingStructure.
Variable pu : PredictionUnit.
Variable sampleSubPu : MergeCtx -> Z -> SubPuSampling.
Variable mrgCandIdx : Z.

Definition maxNumMergeCand : Z := getMaxNumMergeCand (slice cs).
Definition canFastExit : bool := getLog2ParallelMergeLevelMinus2 cs =? 0.

(** [PU::isDiffMER] *)
Definition isDiffMER (pu1 pu2 : PredictionUnit) : bool :=
  let xN := u32 (pos_x (lumaPos pu1)) in
  let yN := u32 (pos_y (lumaPos pu1)) in
  let xP := u32 (pos_x (lumaPos pu2)) in
  let yP := u32 (pos_y (lumaPos pu2)) in
  let plevel := getLog2ParallelMergeLevelMinus2 cs + 2 in
  if negb (Z.shiftr xN plevel =? Z.shiftr xP plevel) then true
  else if negb (Z.shiftr yN plevel =? Z.shiftr yP plevel) then true
  else false.

(** The body of the first loop, for one [ui]. *)
Definition initCand (ui : Z) (st : MrgState) : MrgState :=
  let c := mrgCtx st in
  let c := if JVET_L0646_GBI then set_GBiIdx c ui GBI_DEFAULT else c in
  let c := set_interDir c ui 0 in
  let c := set_mrgType c ui MRG_TYPE_DEFAULT_N in
  let c := set_refIdx c (Z.shiftl ui 1) NOT_VALID in
  let c := set_refIdx c (Z.shiftl ui 1 + 1) NOT_VALID in
  mkMrgState c (cnt st)
             (if JVET_L0090_PAIR_AVG then isCandInter st
              else upd (isCandInter st) ui false).

(** The block every spatial neighbour goes through once it is accepted. *)
Definition addSpatialCand (st : MrgState) (mi : MotionInfo)
           (neib : PredictionUnit) : outcome flow :=
  let cnt := cnt st in
  let c := mrgCtx st in
  let c := set_interDir c cnt (interDir mi) in
  let c := if JVET_L0646_GBI
           then set_GBiIdx c cnt
                  (if interDirNeighbours c cnt =? 3 then cu_GBiIdx (cu neib)
                   else GBI_DEFAULT)
           else c in
  let c := set_mvField c (Z.shiftl cnt 1)
             (setMvField (fst (mi_mv mi)) (fst (mi_refIdx mi))) in
  let c := if isInterB (slice cs)
           then set_mvField c (Z.shiftl cnt 1 + 1)
                  (setMvField (snd (mi_mv mi)) (snd (mi_refIdx mi)))
           else c in
  let cand := if JVET_L0090_PAIR_AVG then isCandInter st
              else upd (isCandInter st) cnt true in
  if (mrgCandIdx =? cnt) && canFastExit then Normal (Ret c)
  else Normal (Go (mkMrgState c (cnt + 1) cand)).

(** [if( cnt == maxNumMergeCand ) return;] *)
Definition earlyTermination (st : MrgState) : outcome flow :=
  if cnt st =? maxNumMergeCand then Normal (Ret (mrgCtx st)) else Normal (Go st).

(** [puX && isDiffMER( pu, *puX )] followed by the rest of the test. *)
Definition availableDiffMER (neib : option PredictionUnit)
           (rest : PredictionUnit -> bool) : bool :=
  match neib with
  | None => false
  | Some n => isDiffMER pu n && rest n
  end.

(** [puX->getMotionInfo( pos )] of an available neighbour; a neighbour that
    is not available leaves the local [MotionInfo] default-constructed. *)
Definition neibMotion (avail : bool) (neib : option PredictionUnit)
           (pos : Position) : MotionInfo :=
  match neib with
  | Some n => if avail then getMotionInfo n pos else MotionInfo0
  | None => MotionInfo0
  end.

Definition MotionInfo_neqb (a b : MotionInfo) : bool := negb (MotionInfo_eqb a b).
Definition MvField_neqb (a b : MvField) : bool := negb (MvField_eqb a b).

(** A spatial step: the neighbour is tested, and added when [keep] holds. *)
Definition spatialStep (st : MrgState) (avail keep : bool) (mi : MotionInfo)
           (neib : option PredictionUnit) : outcome flow :=
  match neib with
  | Some n => if avail && keep then addSpatialCand st mi n else Normal (Go st)
  | None => Normal (Go st)
  end.

(** One list of the centre block in [PU::getInterMergeSubPuMvpCand]. *)
Definition subPuCenterList (count : Z) (smp : SubPuSampling)
           (acc : bool * MergeCtx) (l : RefPicList) : outcome (bool * MergeCtx) :=
  let '(found, c) := acc in
  r <- deriveCenter smp l ;;
  match r with
  | Some cColMv =>
    let c := set_mvField c (Z.shiftl count 1 + listIdx l) (setMvField cColMv 0) in
    let c := set_interDir c count
               (u8 (Z.lor (interDirNeighbours c count) (Z.shiftl 1 (listIdx l)))) in
    let c := if JVET_L0646_GBI then set_GBiIdx c count GBI_DEFAULT else c in
    Normal (true, c)
  | None =>
    let c := set_mvField c (Z.shiftl count 1 + listIdx l) (setMvField Mv0 NOT_VALID) in
    let c := set_interDir c count
               (u8 (Z.land (interDirNeighbours c count)
                           (Z.lnot (Z.shiftl 1 (listIdx l))))) in
    Normal (found, c)
  end.

(** [PU::getInterMergeSubPuMvpCand]: what it writes to the merge context and
    what it returns. *)
Definition getInterMergeSubPuMvpCand (c : MergeCtx) (count : Z)
  : outcome (bool * MergeCtx) :=
  let smp := sampleSubPu c count in
  inter <- centerIsInter smp ;;
  '(found, c) <-
     (if inter : bool then
        acc <- subPuCenterList count smp (false, c) REF_PIC_LIST_0 ;;
        if isInterB (slice cs)
        then subPuCenterList count smp acc REF_PIC_LIST_1
        else Normal acc
      else Normal (false, c)) ;;
  if negb found then Normal (false, c)
  else
    data <- subBlockMotion smp ;;
    let b := subPuMvpMiBuf c in
    Normal (true, set_subPuBuf c (mkMotionBuf (mb_area b) (mb_buf b) data)).

(** The sub-block temporal step.  Besides the flow it reports
    [isAvailableSubPu] and [subPuMvpPos]. *)
Definition subPuStep (st : MrgState) : outcome (flow * bool * Z) :=
  let enableSubPuMvp := getUseSubPuMvp (spsNext cs) in
  c <- (if enableSubPuMvp then
          let b := subPuMvpMiBuf (mrgCtx st) in
          _ <- CHECK ((mb_area b =? 0) || negb (mb_buf b)) "Buffer not initialized" ;;
          Normal (set_subPuBuf (mrgCtx st)
                    (mkMotionBuf (mb_area b) (mb_buf b) (fun _ => MotionInfo0)))
        else Normal (mrgCtx st)) ;;
  if enableSubPuMvp && getEnableTMVPFlag (slice cs) then
    let bMrgIdxMatchATMVPCan := mrgCandIdx =? cnt st in
    '(isAvailableSubPu, c) <-
       (if getUseATMVP (spsNext cs)
        then getInterMergeSubPuMvpCand c (cnt st)
        else Normal (false, c)) ;;
    if isAvailableSubPu : bool then
      let cand := if JVET_L0090_PAIR_AVG then isCandInter st
                  else upd (isCandInter st) (cnt st) true in
      let c := set_mrgType c (cnt st) MRG_TYPE_SUBPU_ATMVP in
      if bMrgIdxMatchATMVPCan then Normal (Ret c, true, 0)
      else
        let subPuMvpPos := cnt st in
        let cnt' := cnt st + 1 in
        if cnt' =? maxNumMergeCand then Normal (Ret c, true, subPuMvpPos)
        else Normal (Go (mkMrgState c cnt' cand), true, subPuMvpPos)
    else Normal (Go (mkMrgState c (cnt st) (isCandInter st)), false, 0)
  else Normal (Go (mkMrgState c (cnt st) (isCandInter st)), false, 0).

(** [( C0Avail && getColocatedMVP( .., posC0, .. ) ) ||
    getColocatedMVP( .., posC1, .. )] *)
Definition colocatedC0C1 (eRefPicList : RefPicList) (C0Avail : bool)
           (posC0 posC1 : Position) (iRefIdx : Z) : outcome (option Mv) :=
  if C0Avail then
    r <- getColocatedMVP cs eRefPicList posC0 iRefIdx ;;
    match r with
    | Some m => Normal (Some m)
    | None => getColocatedMVP cs eRefPicList posC1 iRefIdx
    end
  else getColocatedMVP cs eRefPicList posC1 iRefIdx.

(** The position test shared by the temporal steps: is the bottom-right
    candidate position [posC0] usable. *)
Definition C0Available (posRB : Position) : bool :=
  let p := pcv cs in
  if (u32 (pos_x posRB + minCUWidth p) <? lumaWidth p)
     && (u32 (pos_y posRB + minCUHeight p) <? lumaHeight p)
  then
    let posInCtu := mkPosition (and32 (pos_x posRB) (maxCUWidthMask p))
                               (and32 (pos_y posRB) (maxCUHeightMask p)) in
    if (u32 (add32 (pos_x posInCtu) 4) <? maxCUWidth p)
       && (u32 (add32 (pos_y posInCtu) 4) <? maxCUHeight p) then true
    else if u32 (add32 (pos_x posInCtu) 4) <? maxCUWidth p then false
    else if u32 (add32 (pos_y posInCtu) 4) <? maxCUHeight p then true
    else false
  else false.

(** The redundancy test of the temporal candidate against the sub-block
    temporal one: the loop over the two lists with its [break]. *)
Definition tmvpDiffersFromSubPu (c : MergeCtx) (cnt subPuMvpPos dir : Z) : bool :=
  if negb (dir =? interDirNeighbours c subPuMvpPos) then true
  else
    let differs (refList : Z) : bool :=
      negb (Z.land dir (Z.shiftl 1 refList) =? 0)
      && MvField_neqb (mvFieldNeighbours c (Z.shiftl cnt 1 + refList))
                      (mvFieldNeighbours c (Z.shiftl subPuMvpPos 1 + refList)) in
    differs 0 || differs 1.

(** The loop of the extended redundancy mode over the candidates before
    [uiArrayAddr]: any motion-identical one clears [addTMvp]. *)
Definition tmvpSpanCheck (c : MergeCtx) (iSpanCand uiArrayAddr dir : Z)
           (addTMvp : bool) : bool :=
  forUpTo (Z.to_nat iSpanCand)
    (fun i add =>
       if (interDirNeighbours c i =? dir)
          && MvField_eqb (mvFieldNeighbours c (Z.shiftl i 1))
                         (mvFieldNeighbours c (Z.shiftl uiArrayAddr 1))
          && MvField_eqb (mvFieldNeighbours c (Z.shiftl i 1 + 1))
                         (mvFieldNeighbours c (Z.shiftl uiArrayAddr 1 + 1))
       then false else add)
    addTMvp.

(** The temporal (TMVP) step. *)
Definition tmvpStep (st : MrgState) (isAvailableSubPu : bool) (subPuMvpPos : Z)
  : outcome flow :=
  if getEnableTMVPFlag (slice cs) then
    let posRB := offset (Y_bottomRight pu) (-3) (-3) in
    let posC1 := Y_center pu in
    let C0Avail := C0Available posRB in
    let posC0 := offset posRB 4 4 in
    let iRefIdx := 0 in
    let dir := 0 in
    let uiArrayAddr := cnt st in
    let c := mrgCtx st in
    bExistMV <- colocatedC0C1 REF_PIC_LIST_0 C0Avail posC0 posC1 iRefIdx ;;
    let '(dir, c) :=
      match bExistMV with
      | Some cColMv =>
        (Z.lor dir 1, set_mvField c (2 * uiArrayAddr) (setMvField cColMv iRefIdx))
      | None => (dir, c)
      end in
    '(dir, c) <-
       (if isInterB (slice cs) then
          bExistMV <- colocatedC0C1 REF_PIC_LIST_1 C0Avail posC0 posC1 iRefIdx ;;
          match bExistMV with
          | Some cColMv =>
            Normal (Z.lor dir 2,
                    set_mvField c (2 * uiArrayAddr + 1) (setMvField cColMv iRefIdx))
          | None => Normal (dir, c)
          end
        else Normal (dir, c)) ;;
    if negb (dir =? 0) then
      let addTMvp := negb (getUseSubPuMvp (spsNext cs) && isAvailableSubPu) in
      let addTMvp :=
        if negb addTMvp then tmvpDiffersFromSubPu c (cnt st) subPuMvpPos dir
        else addTMvp in
      let addTMvp :=
        if HM_JEM_MERGE_CANDS then
          let iSpanCand := if isAvailableSubPu then cnt st - 1 else cnt st in
          tmvpSpanCheck c iSpanCand uiArrayAddr dir addTMvp
        else addTMvp in
      if addTMvp then
        let c := set_interDir c uiArrayAddr dir in
        let cand := if JVET_L0090_PAIR_AVG then isCandInter st
                    else upd (isCandInter st) uiArrayAddr true in
        let c := if JVET_L0646_GBI then set_GBiIdx c uiArrayAddr GBI_DEFAULT else c in
        if (mrgCandIdx =? cnt st) && canFastExit then Normal (Ret c)
        else Normal (Go (mkMrgState c (cnt st + 1) cand))
      else Normal (Go (mkMrgState c (cnt st) (isCandInter st)))
    else Normal (Go (mkMrgState c (cnt st) (isCandInter st)))
  else Normal (Go st).

(** One reference list of one pairwise-average candidate. *)
Definition pairAvgList (i j : Z) (acc : Z * MergeCtx * Z) (refListId : Z)
  : Z * MergeCtx * Z :=
  let '(interDir, c, cnt) := acc in
  let refIdxI := refIdx (mvFieldNeighbours c (i * 2 + refListId)) in
  let refIdxJ := refIdx (mvFieldNeighbours c (j * 2 + refListId)) in
  let high (m : Mv) : Mv :=
    if negb REMOVE_MV_ADAPT_PREC && getUseHighPrecMv (spsNext cs)
    then setHighPrec m else m in
  if (refIdxI =? NOT_VALID) && (refIdxJ =? NOT_VALID) then acc
  else
    let interDir := u8 (interDir + Z.shiftl 1 refListId) in
    if negb (refIdxI =? NOT_VALID) && negb (refIdxJ =? NOT_VALID) then
      let MvI := mv (mvFieldNeighbours c (i * 2 + refListId)) in
      let MvJ := mv (mvFieldNeighbours c (j * 2 + refListId)) in
      let avgMv := high MvI in
      let avgMv := Mv_add avgMv MvJ in
      let avgMv := setHor avgMv (Z.quot (hor avgMv) 2) in
      let avgMv := setVer avgMv (Z.quot (ver avgMv) 2) in
      (interDir, set_mvField c (cnt * 2 + refListId) (setMvField avgMv refIdxI), cnt)
    else if negb (refIdxI =? NOT_VALID) then
      let singleMv := high (mv (mvFieldNeighbours c (i * 2 + refListId))) in
      (interDir, set_mvField c (cnt * 2 + refListId) (setMvField singleMv refIdxI), cnt)
    else if negb (refIdxJ =? NOT_VALID) then
      let singleMv := high (mv (mvFieldNeighbours c (j * 2 + refListId))) in
      (interDir, set_mvField c (cnt * 2 + refListId) (setMvField singleMv refIdxJ), cnt)
    else (interDir, c, cnt).

(** The body of the pairwise-average loop for the pair [(i, j)]; the loop
    condition [cnt != maxNumMergeCand] is tested first. *)
Definition pairAvgBody (st : MrgState) (ij : Z * Z) : MrgState :=
  if cnt st =? maxNumMergeCand then st
  else
    let '(i, j) := ij in
    let cnt := cnt st in
    let c := mrgCtx st in
    let c := set_mvField c (cnt * 2) (setMvField Mv0 NOT_VALID) in
    let c := set_mvField c (cnt * 2 + 1) (setMvField Mv0 NOT_VALID) in
    let acc := pairAvgList i j (0, c, cnt) 0 in
    let '(interDir, c, _) :=
      if isInterB (slice cs) then pairAvgList i j acc 1 else acc in
    let c := set_interDir c cnt interDir in
    mkMrgState c (if interDir >? 0 then cnt + 1 else cnt) (isCandInter st).

Definition PRIORITY_LIST : list (Z * Z) :=
  [(0, 1); (0, 2); (1, 2); (0, 3); (1, 3); (2, 3)].

(** The pairwise-average block. *)
Definition pairAvgStep (st : MrgState) : outcome flow :=
  let cutoff := Z.min (cnt st) 4 in
  let end_ := Z.quot (cutoff * (cutoff - 1)) 2 in
  let st := fold_left pairAvgBody (firstn (Z.to_nat end_) PRIORITY_LIST) st in
  earlyTermination st.

(** [CU::deriveGbiIdx] *)
Definition deriveGbiIdx (gbiLO gbiL1 : Z) : Z :=
  if gbiLO =? gbiL1 then gbiLO
  else
    let w0 := getGbiWeight gbiLO 0 in
    let w1 := getGbiWeight gbiL1 1 in
    let th := Z.shiftr g_GbiWeightBase 1 in
    let off := 1 in
    if (w0 =? w1) || ((w0 <? th - off) && (w1 <? th - off))
       || ((w0 >? th + off) && (w1 >? th + off))
    then GBI_DEFAULT
    else if w0 >? w1 then (if w0 >=? th then gbiLO else gbiL1)
    else (if w1 >=? th then gbiL1 else gbiLO).

Definition uiPriorityList : list (Z * Z) :=
  [(0, 1); (1, 0); (0, 2); (2, 0); (1, 2); (2, 1);
   (0, 3); (3, 0); (1, 3); (3, 1); (2, 3); (3, 2)].

(** The body of the combined bi-predictive loop (built without pairwise
    averaging) for the pair [(i, j)]; [cnt] of the state is [uiArrayAddr]. *)
Definition combinedBody (st : MrgState) (ij : Z * Z) : MrgState :=
  if cnt st =? maxNumMergeCand then st
  else
    let '(i, j) := ij in
    let uiArrayAddr := cnt st in
    let c := mrgCtx st in
    if isCandInter st i && isCandInter st j
       && negb (Z.land (interDirNeighbours c i) 1 =? 0)
       && negb (Z.land (interDirNeighbours c j) 2 =? 0)
    then
      let c := set_interDir c uiArrayAddr 3 in
      let c := if JVET_L0646_GBI
               then set_GBiIdx c uiArrayAddr (deriveGbiIdx (GBiIdx c i) (GBiIdx c j))
               else c in
      let c := set_mvField c (Z.shiftl uiArrayAddr 1)
                 (setMvField (mv (mvFieldNeighbours c (Z.shiftl i 1)))
                             (refIdx (mvFieldNeighbours c (Z.shiftl i 1)))) in
      let c := set_mvField c (Z.shiftl uiArrayAddr 1 + 1)
                 (setMvField (mv (mvFieldNeighbours c (Z.shiftl j 1 + 1)))
                             (refIdx (mvFieldNeighbours c (Z.shiftl j 1 + 1)))) in
      let iRefPOCL0 := getRefPOC (slice cs) REF_PIC_LIST_0
                         (refIdx (mvFieldNeighbours c (Z.shiftl uiArrayAddr 1))) in
      let iRefPOCL1 := getRefPOC (slice cs) REF_PIC_LIST_1
                         (refIdx (mvFieldNeighbours c (Z.shiftl uiArrayAddr 1 + 1))) in
      if (iRefPOCL0 =? iRefPOCL1)
         && Mv_eqb (mv (mvFieldNeighbours c (Z.shiftl uiArrayAddr 1)))
                   (mv (mvFieldNeighbours c (Z.shiftl uiArrayAddr 1 + 1)))
      then mkMrgState c uiArrayAddr (upd (isCandInter st) uiArrayAddr false)
      else mkMrgState c (uiArrayAddr + 1) (upd (isCandInter st) uiArrayAddr true)
    else st.

(** The combined bi-predictive block with its early termination. *)
Definition combinedStep (st : MrgState) : outcome flow :=
  let uiCutoff := Z.min (cnt st) 4 in
  let st :=
    if isInterB (slice cs)
    then fold_left combinedBody
           (firstn (Z.to_nat (uiCutoff * (uiCutoff - 1))) uiPriorityList) st
    else st in
  earlyTermination st.

(** The zero-motion fill: [fuel] bounds the iterations of the [while]. *)
Fixpoint zeroFill (fuel : nat) (c : MergeCtx) (uiArrayAddr r refcnt iNumRefIdx : Z)
  : MergeCtx * Z :=
  match fuel with
  | O => (c, uiArrayAddr)
  | S fuel' =>
    if uiArrayAddr <? maxNumMergeCand then
      let c := set_interDir c uiArrayAddr 1 in
      let c := if JVET_L0646_GBI then set_GBiIdx c uiArrayAddr GBI_DEFAULT else c in
      let c := set_mvField c (Z.shiftl uiArrayAddr 1) (setMvField Mv0 r) in
      let c := if isInterB (slice cs)
               then set_mvField (set_interDir c uiArrayAddr 3)
                      (Z.shiftl uiArrayAddr 1 + 1) (setMvField Mv0 r)
               else c in
      let uiArrayAddr := uiArrayAddr + 1 in
      if refcnt =? iNumRefIdx - 1
      then zeroFill fuel' c uiArrayAddr 0 refcnt iNumRefIdx
      else zeroFill fuel' c uiArrayAddr (r + 1) (refcnt + 1) iNumRefIdx
    else (c, uiArrayAddr)
  end.

Definition zeroFillStep (st : MrgState) : MergeCtx :=
  let iNumRefIdx :=
    if isInterB (slice cs)
    then Z.min (getNumRefIdx (slice cs) REF_PIC_LIST_0)
               (getNumRefIdx (slice cs) REF_PIC_LIST_1)
    else getNumRefIdx (slice cs) REF_PIC_LIST_0 in
  let '(c, uiArrayAddr) :=
    zeroFill (Z.to_nat (maxNumMergeCand - cnt st)) (mrgCtx st) (cnt st) 0 0
             iNumRefIdx in
  set_numValid c uiArrayAddr.

(** The state after the first loop and [numValidMergeCand =
    maxNumMergeCand; cnt = 0].  [cand0] is the uninitialised local array
    [isCandInter]. *)
Definition initMerge (mrgCtx0 : MergeCtx) (cand0 : Z -> bool) : MrgState :=
  let st := forUpTo (Z.to_nat maxNumMergeCand) initCand
                    (mkMrgState mrgCtx0 0 cand0) in
  mkMrgState (set_numValid (mrgCtx st) maxNumMergeCand) 0 (isCandInter st).

(** The neighbours the routine looks at, in the order it does. *)
Definition puLeft : option PredictionUnit :=
  getPURestricted cs (offset (Y_bottomLeft pu) (-1) 0).
Definition puAbove : option PredictionUnit :=
  getPURestricted cs (offset (Y_topRight pu) 0 (-1)).
Definition puAboveRight : option PredictionUnit :=
  getPURestricted cs (offset (Y_topRight pu) 1 (-1)).
Definition puLeftBottom : option PredictionUnit :=
  getPURestricted cs (offset (Y_bottomLeft pu) (-1) 1).
Definition puAboveLeft : option PredictionUnit :=
  getPURestricted cs (offset (Y_topLeft pu) (-1) (-1)).

Definition notSameCUInter (n : PredictionUnit) : bool :=
  negb (cu_addr (cu pu) =? cu_addr (cu n)) && CU_isInter (cu n).
Definition isInterPU (n : PredictionUnit) : bool := CU_isInter (cu n).

Definition isAvailableA1 : bool := availableDiffMER puLeft notSameCUInter.
Definition isAvailableB1 : bool := availableDiffMER puAbove notSameCUInter.
Definition isAvailableB0 : bool := availableDiffMER puAboveRight isInterPU.
Definition isAvailableA0 : bool := availableDiffMER puLeftBottom isInterPU.
Definition isAvailableB2 : bool := availableDiffMER puAboveLeft isInterPU.

Definition miLeft : MotionInfo :=
  neibMotion isAvailableA1 puLeft (offset (Y_bottomLeft pu) (-1) 0).
Definition miAbove : MotionInfo :=
  neibMotion isAvailableB1 puAbove (offset (Y_topRight pu) 0 (-1)).
Definition miAboveRight : MotionInfo :=
  neibMotion isAvailableB0 puAboveRight (offset (Y_topRight pu) 1 (-1)).
Definition miBelowLeft : MotionInfo :=
  neibMotion isAvailableA0 puLeftBottom (offset (Y_bottomLeft pu) (-1) 1).
Definition miAboveLeft : MotionInfo :=
  neibMotion isAvailableB2 puAboveLeft (offset (Y_topLeft pu) (-1) (-1)).

(** The redundancy conditions of the four pruned spatial candidates. *)
Definition keepB1 : bool := negb isAvailableA1 || MotionInfo_neqb miAbove miLeft.
Definition keepB0 : bool :=
  if HM_JEM_MERGE_CANDS
  then (negb isAvailableB1 || MotionInfo_neqb miAbove miAboveRight)
       && (negb isAvailableA1 || MotionInfo_neqb miLeft miAboveRight)
  else negb isAvailableB1 || MotionInfo_neqb miAbove miAboveRight.
Definition keepA0 : bool :=
  if HM_JEM_MERGE_CANDS
  then (negb isAvailableA1 || MotionInfo_neqb miBelowLeft miLeft)
       && (negb isAvailableB1 || MotionInfo_neqb miBelowLeft miAbove)
       && (negb isAvailableB0 || MotionInfo_neqb miBelowLeft miAboveRight)
  else negb isAvailableA1 || MotionInfo_neqb miBelowLeft miLeft.
Definition keepB2 : bool :=
  if HM_JEM_MERGE_CANDS
  then (negb isAvailableA1 || MotionInfo_neqb miLeft miAboveLeft)
       && (negb isAvailableB1 || MotionInfo_neqb miAbove miAboveLeft)
       && (negb isAvailableA0 || MotionInfo_neqb miBelowLeft miAboveLeft)
       && (negb isAvailableB0 || MotionInfo_neqb miAboveRight miAboveLeft)
  else (negb isAvailableA1 || MotionInfo_neqb miLeft miAboveLeft)
       && (negb isAvailableB1 || MotionInfo_neqb miAbove miAboveLeft).

(** The four spatial steps A1, B1, B0, A0, each with its early
    termination. *)
Definition spatialSteps (st : MrgState) (k : MrgState -> outcome MergeCtx)
  : outcome MergeCtx :=
  st <~ spatialStep st isAvailableA1 true miLeft puLeft ;;
  st <~ earlyTermination st ;;
  st <~ spatialStep st isAvailableB1 keepB1 miAbove puAbove ;;
  st <~ earlyTermination st ;;
  st <~ spatialStep st isAvailableB0 keepB0 miAboveRight puAboveRight ;;
  st <~ earlyTermination st ;;
  st <~ spatialStep st isAvailableA0 keepA0 miBelowLeft puLeftBottom ;;
  st <~ earlyTermination st ;;
  k st.

(** The above-left step, entered only below the size limit. *)
Definition aboveLeftStep (st : MrgState) : outcome flow :=
  if cnt st <? (if getUseSubPuMvp (spsNext cs) then 6 else 4)
  then spatialStep st isAvailableB2 keepB2 miAboveLeft puAboveLeft
  else Normal (Go st).

(** [PU::getInterMergeCandidates] *)
Definition getInterMergeCandidates (mrgCtx0 : MergeCtx) (cand0 : Z -> bool)
  : outcome MergeCtx :=
  spatialSteps (initMerge mrgCtx0 cand0) (fun st =>
  r <- subPuStep st ;;
  let '(f, isAvailableSubPu, subPuMvpPos) := r in
  st <~ Normal f ;;
  st <~ aboveLeftStep st ;;
  st <~ earlyTermination st ;;
  st <~ tmvpStep st isAvailableSubPu subPuMvpPos ;;
  st <~ earlyTermination st ;;
  st <~ (if JVET_L0090_PAIR_AVG then pairAvgStep st else combinedStep st) ;;
  Normal (zeroFillStep st)).

End Merge.

(** ** AMVP candidate list *)

(** Modelled from the spec: the constant is declared in CommonDef.h, outside
    the sources; the spec fixes the capacity of the list, "exactly their
    fixed capacity (2) of entries". *)
Definition AMVP_MAX_NUM_CANDS : Z := 2.

Record AMVPInfo : Type := mkAMVPInfo {
  mvCand : Z -> Mv;
  numCand : Z;
}.

(** A local [AMVPInfo] before anything is stored in it: the vectors are
    default-constructed. *)
Definition AMVPInfo0 : AMVPInfo := mkAMVPInfo (fun _ => Mv0) 0.

Inductive MvpDir : Type :=
  MD_LEFT | MD_ABOVE | MD_ABOVE_RIGHT | MD_BELOW_LEFT | MD_ABOVE_LEFT.

Definition neibPosOf (pos : Position) (eDir : MvpDir) : Position :=
  match eDir with
  | MD_LEFT => offset pos (-1) 0
  | MD_ABOVE => offset pos 0 (-1)
  | MD_ABOVE_RIGHT => offset pos 1 (-1)
  | MD_BELOW_LEFT => offset pos (-1) 1
  | MD_ABOVE_LEFT => offset pos (-1) (-1)
  end.

(** [info.mvCand[info.numCand++] = m] *)
Definition pushCand (info : AMVPInfo) (m : Mv) : AMVPInfo :=
  mkAMVPInfo (upd (mvCand info) (numCand info) m) (numCand info + 1).

(** [for( i = 0; i < info.numCand; i++ ) if( info.mvCand[i] == m ) break;]
    followed by [i == info.numCand]: no stored candidate equals [m]. *)
Definition notInCands {ops : MvOps} (info : AMVPInfo) (m : Mv) : bool :=
  forUpTo (Z.to_nat (numCand info))
          (fun i fresh => fresh && negb (Mv_eqb (mvCand info i) m)) true.

Section Amvp.
Context {cfg : BuildConfig} {ops : MvOps}.
Variable cs : CodingStructure.
Variable pu : PredictionUnit.

(** One [predictorSource] of [addMVPCandUnscaled]: [Some info'] when the
    candidate was stored. *)
Definition unscaledFromList (currRefPOC : Z) (neibMi : MotionInfo)
           (eRefPicListIndex : RefPicList) (info : AMVPInfo) (affine_ : bool)
  : option AMVPInfo :=
  let neibRefIdx := sel (mi_refIdx neibMi) eRefPicListIndex in
  if (neibRefIdx >=? 0)
     && (currRefPOC =? getRefPOC (slice cs) eRefPicListIndex neibRefIdx)
  then
    let m := sel (mi_mv neibMi) eRefPicListIndex in
    if affine_ then
      if notInCands info m then Some (pushCand info m) else None
    else Some (pushCand info m)
  else None.

(** [PU::addMVPCandUnscaled] *)
Definition addMVPCandUnscaled (eRefPicList : RefPicList) (iRefIdx : Z)
           (pos : Position) (eDir : MvpDir) (info : AMVPInfo) (affine_ : bool)
  : outcome (bool * AMVPInfo) :=
  let neibPos := neibPosOf pos eDir in
  match getPURestricted cs neibPos with
  | None => Normal (false, info)
  | Some neibPU =>
    if negb (CU_isInter (cu neibPU)) then Normal (false, info)
    else
      let neibMi := getMotionInfo neibPU neibPos in
      match getRefPic cs eRefPicList iRefIdx with
      | None => Undefined "null reference picture"
      | Some currRef =>
        let currRefPOC := poc currRef in
        let eRefPicList2nd := otherList eRefPicList in
        match unscaledFromList currRefPOC neibMi eRefPicList info affine_ with
        | Some info' => Normal (true, info')
        | None =>
          match unscaledFromList currRefPOC neibMi eRefPicList2nd info affine_ with
          | Some info' => Normal (true, info')
          | None => Normal (false, info)
          end
        end
      end
  end.

(** One [predictorSource] of [addMVPCandWithScaling]. *)
Definition scaledFromList (currPOC currRefPOC : Z) (bIsCurrRefLongTerm : bool)
           (neibMi : MotionInfo) (eRefPicListIndex : RefPicList)
           (info : AMVPInfo) (affine_ : bool) : outcome (option AMVPInfo) :=
  let neibPOC := currPOC in
  let neibRefIdx := sel (mi_refIdx neibMi) eRefPicListIndex in
  if neibRefIdx >=? 0 then
    match getRefPic cs eRefPicListIndex neibRefIdx with
    | None => Undefined "null reference picture"
    | Some neibRef =>
      let bIsNeibRefLongTerm := longTerm neibRef in
      if Bool.eqb bIsCurrRefLongTerm bIsNeibRefLongTerm then
        let cMv := sel (mi_mv neibMi) eRefPicListIndex in
        cMv <-
          (if negb bIsCurrRefLongTerm then
             let neibRefPOC := getRefPOC (slice cs) eRefPicListIndex neibRefIdx in
             scale <- xGetDistScaleFactor currPOC currRefPOC neibPOC neibRefPOC ;;
             if negb (scale =? 4096) then
               let cMv :=
                 if negb REMOVE_MV_ADAPT_PREC && getUseHighPrecMv (spsNext cs)
                 then setHighPrec cMv else cMv in
               Normal (scaleMv cMv scale)
             else Normal cMv
           else Normal cMv) ;;
        if affine_ then
          if notInCands info cMv then Normal (Some (pushCand info cMv))
          else Normal None
        else Normal (Some (pushCand info cMv))
      else Normal None
    end
  else Normal None.

(** [PU::addMVPCandWithScaling] *)
Definition addMVPCandWithScaling (eRefPicList : RefPicList) (iRefIdx : Z)
           (pos : Position) (eDir : MvpDir) (info : AMVPInfo) (affine_ : bool)
  : outcome (bool * AMVPInfo) :=
  let neibPos := neibPosOf pos eDir in
  match getPURestricted cs neibPos with
  | None => Normal (false, info)
  | Some neibPU =>
    if negb (CU_isInter (cu neibPU)) then Normal (false, info)
    else
      let neibMi := getMotionInfo neibPU neibPos in
      let eRefPicList2nd := otherList eRefPicList in
      let currPOC := getPOC (slice cs) in
      match getRefPic cs eRefPicList iRefIdx with
      | None => Undefined "null reference picture"
      | Some currRef =>
        let currRefPOC := poc currRef in
        let bIsCurrRefLongTerm := longTerm currRef in
        r <- scaledFromList currPOC currRefPOC bIsCurrRefLongTerm neibMi
                            eRefPicList info affine_ ;;
        match r with
        | Some info' => Normal (true, info')
        | None =>
          r <- scaledFromList currPOC currRefPOC bIsCurrRefLongTerm neibMi
                              eRefPicList2nd info affine_ ;;
          match r with
          | Some info' => Normal (true, info')
          | None => Normal (false, info)
          end
        end
      end
  end.

(** [tmpPU != NULL && CU::isInter( *tmpPU->cu )] *)
Definition interAt (p : Position) : bool :=
  match getPURestricted cs p with
  | Some tmpPU => CU_isInter (cu tmpPU)
  | None => false
  end.

(** Chains of attempts: the next one is made only when the one before added
    nothing. *)
Definition orElse (a : outcome (bool * AMVPInfo))
           (next : AMVPInfo -> outcome (bool * AMVPInfo))
  : outcome (bool * AMVPInfo) :=
  '(bAdded, info) <- a ;;
  if bAdded : bool then Normal (true, info) else next info.

(** [for( i = 0; i < numCand; i++ ) roundMV( mvCand[i], imvShift )] *)
Definition roundCands (info : AMVPInfo) (imvShift : Z) : AMVPInfo :=
  forUpTo (Z.to_nat (numCand info))
          (fun i inf => mkAMVPInfo (upd (mvCand inf) i (roundMV (mvCand inf i) imvShift))
                                   (numCand inf))
          info.

(** The rounding to storage precision written out in the sources. *)
Definition roundToStore (v : Z) : Z :=
  let nShift := VCEG_AZ07_MV_ADD_PRECISION_BIT_FOR_STORE in
  let nOffset := Z.shiftl 1 (nShift - 1) in
  if v >=? 0 then Z.shiftr (add32 v nOffset) nShift
  else sub32 0 (Z.shiftr (add32 (sub32 0 v) nOffset) nShift).

Definition roundMvToStore (m : Mv) : Mv :=
  mkMv (roundToStore (hor m)) (roundToStore (ver m)) (highPrec m).

(** [for( Mv &mv : pInfo->mvCand )] runs over the whole array. *)
Definition forAllCands (mem : Z) (f : Mv -> Mv) (info : AMVPInfo) : AMVPInfo :=
  forUpTo (Z.to_nat mem)
          (fun i inf => mkAMVPInfo (upd (mvCand inf) i (f (mvCand inf i))) (numCand inf))
          info.

Definition lowerIfHigh (m : Mv) : Mv := if highPrec m then setLowPrec m else m.

(** The [while] that pads the list; [fuel] bounds its iterations. *)
Fixpoint padCands (fuel : nat) (info : AMVPInfo) : AMVPInfo :=
  match fuel with
  | O => info
  | S fuel' =>
    if numCand info <? AMVP_MAX_NUM_CANDS then
      let z := if REMOVE_MV_ADAPT_PREC then Mv0
               else mkMv 0 0 (highPrec (mvCand info (numCand info))) in
      padCands fuel' (pushCand info z)
    else info
  end.

(** The temporal predictor of [fillMvpCand]. *)
Definition temporalCand (eRefPicList : RefPicList) (refIdx : Z) (info : AMVPInfo)
  : outcome AMVPInfo :=
  if getEnableTMVPFlag (slice cs) then
    let refIdx_Col := refIdx in
    let posRB := offset (Y_bottomRight pu) (-3) (-3) in
    let C0Avail := C0Available cs posRB in
    let posC0 := offset posRB 4 4 in
    let posC1 := Y_center pu in
    r <- colocatedC0C1 cs eRefPicList C0Avail posC0 posC1 refIdx_Col ;;
    match r with
    | Some cColMv => Normal (pushCand info cColMv)
    | None => Normal info
    end
  else Normal info.

(** [PU::fillMvpCand]; [amvpInfo] is the caller's structure as it comes in. *)
Definition fillMvpCand (eRefPicList : RefPicList) (refIdx : Z) (amvpInfo : AMVPInfo)
  : outcome AMVPInfo :=
  let info := mkAMVPInfo (mvCand amvpInfo) 0 in
  if refIdx <? 0 then Normal info
  else
    let posLT := Y_topLeft pu in
    let posRT := Y_topRight pu in
    let posLB := Y_bottomLeft pu in
    let isScaledFlagLX :=
      if interAt (offset posLB (-1) 1) then true else interAt (offset posLB (-1) 0) in
    '(_, info) <-
      (if isScaledFlagLX then
         orElse (addMVPCandUnscaled eRefPicList refIdx posLB MD_BELOW_LEFT info false)
           (fun info =>
         orElse (addMVPCandUnscaled eRefPicList refIdx posLB MD_LEFT info false)
           (fun info =>
         orElse (addMVPCandWithScaling eRefPicList refIdx posLB MD_BELOW_LEFT info false)
           (fun info =>
         addMVPCandWithScaling eRefPicList refIdx posLB MD_LEFT info false)))
       else Normal (false, info)) ;;
    '(_, info) <-
      orElse (addMVPCandUnscaled eRefPicList refIdx posRT MD_ABOVE_RIGHT info false)
        (fun info =>
      orElse (addMVPCandUnscaled eRefPicList refIdx posRT MD_ABOVE info false)
        (fun info =>
      addMVPCandUnscaled eRefPicList refIdx posLT MD_ABOVE_LEFT info false)) ;;
    '(_, info) <-
      (if negb isScaledFlagLX then
         orElse (addMVPCandWithScaling eRefPicList refIdx posRT MD_ABOVE_RIGHT info false)
           (fun info =>
         orElse (addMVPCandWithScaling eRefPicList refIdx posRT MD_ABOVE info false)
           (fun info =>
         addMVPCandWithScaling eRefPicList refIdx posLT MD_ABOVE_LEFT info false))
       else Normal (false, info)) ;;
    let info :=
      if negb (imv (cu pu) =? 0) then
        let imvShift := Z.shiftl (imv (cu pu)) 1 in
        let imvShift := if REMOVE_MV_ADAPT_PREC
                        then imvShift + VCEG_AZ07_MV_ADD_PRECISION_BIT_FOR_STORE
                        else imvShift in
        roundCands info imvShift
      else info in
    let info :=
      if (numCand info =? 2) && Mv_eqb (mvCand info 0) (mvCand info 1)
      then mkAMVPInfo (mvCand info) 1 else info in
    info <- temporalCand eRefPicList refIdx info ;;
    let info :=
      if numCand info >? AMVP_MAX_NUM_CANDS
      then mkAMVPInfo (mvCand info) AMVP_MAX_NUM_CANDS else info in
    let info := padCands (Z.to_nat (AMVP_MAX_NUM_CANDS - numCand info)) info in
    let info :=
      if REMOVE_MV_ADAPT_PREC
      then forAllCands AMVP_MAX_NUM_CANDS_MEM roundMvToStore info
      else if getUseHighPrecMv (spsNext cs)
           then forAllCands AMVP_MAX_NUM_CANDS_MEM lowerIfHigh info
           else info in
    let info :=
      if negb (imv (cu pu) =? 0)
      then roundCands info (Z.shiftl (imv (cu pu)) 1) else info in
    let info :=
      if negb REMOVE_MV_ADAPT_PREC && getUseHighPrecMv (spsNext cs)
      then forAllCands AMVP_MAX_NUM_CANDS_MEM lowerIfHigh info else info in
    Normal info.

(** *** Affine AMVP list *)

Record AffineAMVPInfo : Type := mkAffineAMVPInfo {
  mvCandLT : Z -> Mv;
  mvCandRT : Z -> Mv;
  mvCandLB : Z -> Mv;
  aff_numCand : Z;
}.

(** [getAvailableAffineNeighbours]: the affine neighbours in scan order. *)
Definition getAvailableAffineNeighbours : list PredictionUnit :=
  let affineAt (p : Position) : list PredictionUnit :=
    match getPURestricted cs p with
    | Some n => if affine (cu n) then [n] else []
    | None => []
    end in
  affineAt (offset (Y_bottomLeft pu) (-1) 0)
  ++ affineAt (offset (Y_topRight pu) 0 (-1))
  ++ affineAt (offset (Y_topRight pu) 1 (-1))
  ++ affineAt (offset (Y_bottomLeft pu) (-1) 1)
  ++ affineAt (offset (Y_topLeft pu) (-1) (-1)).

Definition is6Param (c : CodingUnit) : bool :=
  match affineType c with AFFINEMODEL_6PARAM => true | AFFINEMODEL_4PARAM => false end.

(** How a corner vector is stored: member-wise, or as a fresh
    high-precision vector. *)
Definition storeCorner (old : Mv) (h v : Z) : Mv :=
  if REMOVE_MV_ADAPT_PREC then mkMv h v (highPrec old) else mkMv h v true.

(** [PU::xInheritedAffineMv]; [rcMv] is the array as it comes in. *)
Definition xInheritedAffineMv (puNeighbour : PredictionUnit)
           (eRefPicList : RefPicList) (rcMv : Mv * Mv * Mv) : Mv * Mv * Mv :=
  let '(rc0, rc1, rc2) := rcMv in
  let posNeiX := pos_x (Y_topLeft puNeighbour) in
  let posNeiY := pos_y (Y_topLeft puNeighbour) in
  let posCurX := pos_x (Y_topLeft pu) in
  let posCurY := pos_y (Y_topLeft pu) in
  let neiW := Y_width puNeighbour in
  let curW := Y_width pu in
  let neiH := Y_height puNeighbour in
  let curH := Y_height pu in
  let mvLT := sel (mi_mv (getMotionInfo puNeighbour (Y_topLeft puNeighbour))) eRefPicList in
  let mvRT := sel (mi_mv (getMotionInfo puNeighbour (Y_topRight puNeighbour))) eRefPicList in
  let mvLB := sel (mi_mv (getMotionInfo puNeighbour (Y_bottomLeft puNeighbour))) eRefPicList in
  let shift := MAX_CU_DEPTH in
  let iDMvHorX := shl32 (hor (Mv_sub mvRT mvLT)) (shift - g_aucLog2 neiW) in
  let iDMvHorY := shl32 (ver (Mv_sub mvRT mvLT)) (shift - g_aucLog2 neiW) in
  let '(iDMvVerX, iDMvVerY) :=
    if is6Param (cu puNeighbour)
    then (shl32 (hor (Mv_sub mvLB mvLT)) (shift - g_aucLog2 neiH),
          shl32 (ver (Mv_sub mvLB mvLT)) (shift - g_aucLog2 neiH))
    else (sub32 0 iDMvHorY, iDMvHorX) in
  let iMvScaleHor := shl32 (hor mvLT) shift in
  let iMvScaleVer := shl32 (ver mvLT) shift in
  let corner (dx dy : Z) : Z * Z :=
    let horTmp := add32 (add32 iMvScaleHor (mul32 iDMvHorX dx)) (mul32 iDMvVerX dy) in
    let verTmp := add32 (add32 iMvScaleVer (mul32 iDMvHorY dx)) (mul32 iDMvVerY dy) in
    roundAffineMv horTmp verTmp shift in
  let '(h0, v0) := corner (sub32 posCurX posNeiX) (sub32 posCurY posNeiY) in
  let '(h1, v1) := corner (sub32 (add32 posCurX curW) posNeiX) (sub32 posCurY posNeiY) in
  let rc0 := storeCorner rc0 h0 v0 in
  let rc1 := storeCorner rc1 h1 v1 in
  if is6Param (cu pu) then
    let '(h2, v2) := corner (sub32 posCurX posNeiX) (sub32 (add32 posCurY curH) posNeiY) in
    (rc0, rc1, storeCorner rc2 h2 v2)
  else (rc0, rc1, rc2).

(** The test that lets a corner triple into the list: the list is empty, or
    the triple differs from the first entry in a corner the model uses. *)
Definition affineIsNew (a : AffineAMVPInfo) (out : Mv * Mv * Mv) : bool :=
  let '(o0, o1, o2) := out in
  (aff_numCand a =? 0)
  || (negb (is6Param (cu pu))
      && (negb (Mv_eqb o0 (mvCandLT a 0)) || negb (Mv_eqb o1 (mvCandRT a 0))))
  || (is6Param (cu pu)
      && (negb (Mv_eqb o0 (mvCandLT a 0)) || negb (Mv_eqb o1 (mvCandRT a 0))
          || negb (Mv_eqb o2 (mvCandLB a 0)))).

Definition pushAffine (a : AffineAMVPInfo) (out : Mv * Mv * Mv) : AffineAMVPInfo :=
  let '(o0, o1, o2) := out in
  mkAffineAMVPInfo (upd (mvCandLT a) (aff_numCand a) o0)
                   (upd (mvCandRT a) (aff_numCand a) o1)
                   (upd (mvCandLB a) (aff_numCand a) o2)
                   (aff_numCand a + 1).

(** The body of the inner loop over the affine neighbours, with the loop
    condition [numCand < AMVP_MAX_NUM_CANDS] tested first. *)
Definition inheritedBody (targetRefPOC : Z) (eTestRefPicList : RefPicList)
           (acc : AffineAMVPInfo * (Mv * Mv * Mv)) (puNeighbour : PredictionUnit)
  : AffineAMVPInfo * (Mv * Mv * Mv) :=
  let '(a, out) := acc in
  if negb (aff_numCand a <? AMVP_MAX_NUM_CANDS) then acc
  else if (Z.land (pu_interDir puNeighbour) (listIdx eTestRefPicList + 1) =? 0)
          || negb (getRefPOC (slice cs) eTestRefPicList
                             (sel (pu_refIdx puNeighbour) eTestRefPicList)
                   =? targetRefPOC)
  then acc
  else
    let '(o0, o1, o2) := xInheritedAffineMv puNeighbour eTestRefPicList out in
    let o0 := roundMV2SignalPrecision o0 in
    let o1 := roundMV2SignalPrecision o1 in
    let o2 := if is6Param (cu pu) then roundMV2SignalPrecision o2 else o2 in
    let out := (o0, o1, o2) in
    if affineIsNew a out then (pushAffine a out, out) else (a, out).

(** The two nested loops that collect the inherited candidates. *)
Definition inheritedCands (eRefPicList : RefPicList) (targetRefPOC : Z)
           (acc : AffineAMVPInfo * (Mv * Mv * Mv))
  : AffineAMVPInfo * (Mv * Mv * Mv) :=
  fold_left
    (fun acc eTestRefPicList =>
       if negb (aff_numCand (fst acc) <? AMVP_MAX_NUM_CANDS) then acc
       else fold_left (inheritedBody targetRefPOC eTestRefPicList)
                      getAvailableAffineNeighbours acc)
    [eRefPicList; otherList eRefPicList] acc.

(** The rounding of every stored corner to storage precision. *)
Definition roundAffineCands (a : AffineAMVPInfo) : AffineAMVPInfo :=
  forUpTo (Z.to_nat (aff_numCand a))
    (fun i a =>
       mkAffineAMVPInfo (upd (mvCandLT a) i (roundMvToStore (mvCandLT a i)))
                        (upd (mvCandRT a) i (roundMvToStore (mvCandRT a i)))
                        (upd (mvCandLB a) i (roundMvToStore (mvCandLB a i)))
                        (aff_numCand a))
    a.

(** One corner of the constructed candidate: the positions are tried in
    order until one stores a vector. *)
Fixpoint cornerCand (eRefPicList : RefPicList) (refIdx : Z) (pos : Position)
         (dirs : list MvpDir) (info : AMVPInfo) : outcome AMVPInfo :=
  match dirs with
  | [] => Normal info
  | d :: rest =>
    if numCand info <? 1 then
      '(_, info) <- addMVPCandUnscaled eRefPicList refIdx pos d info true ;;
      cornerCand eRefPicList refIdx pos rest info
    else Normal info
  end.

(** The third corner derived from the other two (patterns 3 and 5). *)
Definition deriveV2 (out : Mv * Mv * Mv) : Mv * Mv * Mv :=
  let '(o0, o1, o2) := out in
  let shift := MAX_CU_DEPTH in
  let sh := shift + g_aucLog2 (Y_height pu) - g_aucLog2 (Y_width pu) in
  let vx2 := sub32 (shl32 (hor o0) shift) (shl32 (sub32 (ver o1) (ver o0)) sh) in
  let vy2 := add32 (shl32 (ver o0) shift) (shl32 (sub32 (hor o1) (hor o0)) sh) in
  let '(vx2, vy2) := roundAffineMv vx2 vy2 shift in
  (o0, o1, roundMV2SignalPrecision (Mv_set o2 vx2 vy2)).

Definition deriveV1 (out : Mv * Mv * Mv) : Mv * Mv * Mv :=
  let '(o0, o1, o2) := out in
  let shift := MAX_CU_DEPTH in
  let sh := shift + g_aucLog2 (Y_width pu) - g_aucLog2 (Y_height pu) in
  let vx1 := add32 (shl32 (hor o0) shift) (shl32 (sub32 (ver o2) (ver o0)) sh) in
  let vy1 := sub32 (shl32 (ver o0) shift) (shl32 (sub32 (hor o2) (hor o0)) sh) in
  let '(vx1, vy1) := roundAffineMv vx1 vy1 shift in
  (o0, roundMV2SignalPrecision (Mv_set o1 vx1 vy1), o2).

(** The constructed candidate. *)
Definition constructedCand (eRefPicList : RefPicList) (refIdx : Z)
           (a : AffineAMVPInfo) : outcome AffineAMVPInfo :=
  let posLT := Y_topLeft pu in
  let posRT := Y_topRight pu in
  let posLB := Y_bottomLeft pu in
  amvpInfo0 <- cornerCand eRefPicList refIdx posLT [MD_ABOVE_LEFT; MD_ABOVE; MD_LEFT]
                          AMVPInfo0 ;;
  let cornerMVPattern := Z.lor 0 (numCand amvpInfo0) in
  amvpInfo1 <- cornerCand eRefPicList refIdx posRT [MD_ABOVE; MD_ABOVE_RIGHT] AMVPInfo0 ;;
  let cornerMVPattern := Z.lor cornerMVPattern (Z.shiftl (numCand amvpInfo1) 1) in
  amvpInfo2 <- cornerCand eRefPicList refIdx posLB [MD_LEFT; MD_BELOW_LEFT] AMVPInfo0 ;;
  let cornerMVPattern := Z.lor cornerMVPattern (Z.shiftl (numCand amvpInfo2) 2) in
  let prep (m : Mv) : Mv :=
    roundMV2SignalPrecision (if REMOVE_MV_ADAPT_PREC then m else setHighPrec m) in
  let out := (prep (mvCand amvpInfo0 0), prep (mvCand amvpInfo1 0),
              prep (mvCand amvpInfo2 0)) in
  if (cornerMVPattern =? 7) || (cornerMVPattern =? 3) || (cornerMVPattern =? 5) then
    let out := if (cornerMVPattern =? 3) && is6Param (cu pu) then deriveV2 out else out in
    let out := if cornerMVPattern =? 5 then deriveV1 out else out in
    if affineIsNew a out then Normal (pushAffine a out) else Normal a
  else Normal a.

(** The last loop: ordinary AMVP candidates replicated to all corners. *)
Definition appendAmvp (a : AffineAMVPInfo) (amvpInfo : AMVPInfo) : AffineAMVPInfo :=
  let iAdd := numCand amvpInfo - aff_numCand a in
  forUpTo (Z.to_nat iAdd)
    (fun i a =>
       let m := if REMOVE_MV_ADAPT_PREC then mvCand amvpInfo i
                else setHighPrec (mvCand amvpInfo i) in
       pushAffine a (m, m, m))
    a.

(** [PU::fillAffineMvpCand]; [affiAMVPInfo] is the caller's structure as it
    comes in. *)
Definition fillAffineMvpCand (eRefPicList : RefPicList) (refIdx : Z)
           (affiAMVPInfo : AffineAMVPInfo) : outcome AffineAMVPInfo :=
  let a := mkAffineAMVPInfo (mvCandLT affiAMVPInfo) (mvCandRT affiAMVPInfo)
                            (mvCandLB affiAMVPInfo) 0 in
  if refIdx <? 0 then Normal a
  else
    let outputAffineMv := (Mv0, Mv0, Mv0) in
    let targetRefPOC := getRefPOC (slice cs) eRefPicList refIdx in
    let '(a, _) := inheritedCands eRefPicList targetRefPOC (a, outputAffineMv) in
    if aff_numCand a >=? AMVP_MAX_NUM_CANDS then
      Normal (if REMOVE_MV_ADAPT_PREC then roundAffineCands a else a)
    else
      a <- constructedCand eRefPicList refIdx a ;;
      let a := if REMOVE_MV_ADAPT_PREC then roundAffineCands a else a in
      if aff_numCand a <? 2 then
        amvpInfo <- fillMvpCand eRefPicList refIdx AMVPInfo0 ;;
        Normal (appendAmvp a amvpInfo)
      else Normal a.

End Amvp.

(** ** The two parts of the AMVP derivations

    [fillMvpCand] and [fillAffineMvpCand] first collect candidates and then
    bring the list to its two entries.  The parts are named here so that
    the filling can be stated; that the routines are their parts in
    sequence is proved with the properties. *)

Section AmvpParts.
Context {cfg : BuildConfig} {ops : MvOps}.
Variable cs : CodingStructure.
Variable pu : PredictionUnit.

(** The first part of [fillMvpCand] for [refIdx >= 0], up to and including
    the temporal predictor: the candidates found. *)
Definition mvpCandsFound (eRefPicList : RefPicList) (refIdx : Z) (amvpInfo : AMVPInfo)
  : outcome AMVPInfo :=
  let info := mkAMVPInfo (mvCand amvpInfo) 0 in
  let posLT := Y_topLeft pu in
  let posRT := Y_topRight pu in
  let posLB := Y_bottomLeft pu in
  let isScaledFlagLX :=
    if interAt cs (offset posLB (-1) 1) then true else interAt cs (offset posLB (-1) 0) in
  '(_, info) <-
    (if isScaledFlagLX then
       orElse (addMVPCandUnscaled cs eRefPicList refIdx posLB MD_BELOW_LEFT info false)
         (fun info =>
       orElse (addMVPCandUnscaled cs eRefPicList refIdx posLB MD_LEFT info false)
         (fun info =>
       orElse (addMVPCandWithScaling cs eRefPicList refIdx posLB MD_BELOW_LEFT info false)
         (fun info =>
       addMVPCandWithScaling cs eRefPicList refIdx posLB MD_LEFT info false)))
     else Normal (false, info)) ;;
  '(_, info) <-
    orElse (addMVPCandUnscaled cs eRefPicList refIdx posRT MD_ABOVE_RIGHT info false)
      (fun info =>
    orElse (addMVPCandUnscaled cs eRefPicList refIdx posRT MD_ABOVE info false)
      (fun info =>
    addMVPCandUnscaled cs eRefPicList refIdx posLT MD_ABOVE_LEFT info false)) ;;
  '(_, info) <-
    (if negb isScaledFlagLX then
       orElse (addMVPCandWithScaling cs eRefPicList refIdx posRT MD_ABOVE_RIGHT info false)
         (fun info =>
       orElse (addMVPCandWithScaling cs eRefPicList refIdx posRT MD_ABOVE info false)
         (fun info =>
       addMVPCandWithScaling cs eRefPicList refIdx posLT MD_ABOVE_LEFT info false))
     else Normal (false, info)) ;;
  let info :=
    if negb (imv (cu pu) =? 0) then
      let imvShift := Z.shiftl (imv (cu pu)) 1 in
      let imvShift := if REMOVE_MV_ADAPT_PREC
                      then imvShift + VCEG_AZ07_MV_ADD_PRECISION_BIT_FOR_STORE
                      else imvShift in
      roundCands info imvShift
    else info in
  let info :=
    if (numCand info =? 2) && Mv_eqb (mvCand info 0) (mvCand info 1)
    then mkAMVPInfo (mvCand info) 1 else info in
  temporalCand cs pu eRefPicList refIdx info.

(** The second part of [fillMvpCand]: the cut to [AMVP_MAX_NUM_CANDS], the
    padding, and the roundings of the stored vectors. *)
Definition finishMvpCands (info : AMVPInfo) : AMVPInfo :=
  let info :=
    if numCand info >? AMVP_MAX_NUM_CANDS
    then mkAMVPInfo (mvCand info) AMVP_MAX_NUM_CANDS else info in
  let info := padCands (Z.to_nat (AMVP_MAX_NUM_CANDS - numCand info)) info in
  let info :=
    if REMOVE_MV_ADAPT_PREC
    then forAllCands AMVP_MAX_NUM_CANDS_MEM roundMvToStore info
    else if getUseHighPrecMv (spsNext cs)
         then forAllCands AMVP_MAX_NUM_CANDS_MEM lowerIfHigh info
         else info in
  let info :=
    if negb (imv (cu pu) =? 0)
    then roundCands info (Z.shiftl (imv (cu pu)) 1) else info in
  let info :=
    if negb REMOVE_MV_ADAPT_PREC && getUseHighPrecMv (spsNext cs)
    then forAllCands AMVP_MAX_NUM_CANDS_MEM lowerIfHigh info else info in
  info.

(** The first part of [fillAffineMvpCand] for [refIdx >= 0]: the inherited
    candidates and the constructed one, rounded for storage. *)
Definition affineCandsFound (eRefPicList : RefPicList) (refIdx : Z)
           (affiAMVPInfo : AffineAMVPInfo) : outcome AffineAMVPInfo :=
  let a := mkAffineAMVPInfo (mvCandLT affiAMVPInfo) (mvCandRT affiAMVPInfo)
                            (mvCandLB affiAMVPInfo) 0 in
  let outputAffineMv := (Mv0, Mv0, Mv0) in
  let targetRefPOC := getRefPOC (slice cs) eRefPicList refIdx in
  let '(a, _) := inheritedCands cs pu eRefPicList targetRefPOC (a, outputAffineMv) in
  if aff_numCand a >=? AMVP_MAX_NUM_CANDS then
    Normal (if REMOVE_MV_ADAPT_PREC then roundAffineCands a else a)
  else
    a <- constructedCand cs pu eRefPicList refIdx a ;;
    Normal (if REMOVE_MV_ADAPT_PREC then roundAffineCands a else a).

(** The second part of [fillAffineMvpCand]: a list of fewer than two
    entries is filled up from the list of [fillMvpCand]. *)
Definition fillFromAmvp (eRefPicList : RefPicList) (refIdx : Z)
           (a : AffineAMVPInfo) : outcome AffineAMVPInfo :=
  if aff_numCand a <? 2 then
    amvpInfo <- fillMvpCand cs pu eRefPicList refIdx AMVPInfo0 ;;
    Normal (appendAmvp a amvpInfo)
  else Normal a.

(** The vector an AMVP candidate becomes in a slot of the affine list. *)
Definition affineFill (m : Mv) : Mv :=
  if REMOVE_MV_ADAPT_PREC then m else setHighPrec m.

End AmvpParts.

(** A zero vector, whatever its precision flag. *)
Definition isZeroMv (m : Mv) : Prop := hor m = 0 /\ ver m = 0.

(** The roundings of [Mv], whose bodies are in Mv.h, keep a zero vector
    zero, and the shift of the storage rounding is a shift of an [int]. *)
Definition zeroStaysZero {cfg : BuildConfig} {ops : MvOps} : Prop :=
  (forall m s, isZeroMv m -> isZeroMv (roundMV m s))
  /\ (forall m, isZeroMv m -> isZeroMv (setLowPrec m))
  /\ 0 <= VCEG_AZ07_MV_ADD_PRECISION_BIT_FOR_STORE <= 31.

(** ** Relations between AMVP structures, used to state the properties *)

(** Two AMVP structures hold the same list: the same count and the same
    entries below it. *)
Definition sameList (a b : AMVPInfo) : Prop :=
  numCand a = numCand b
  /\ forall i, 0 <= i < numCand a -> mvCand a i = mvCand b i.

Definition sameAffineList (a b : AffineAMVPInfo) : Prop :=
  aff_numCand a = aff_numCand b
  /\ forall i, 0 <= i < aff_numCand a ->
       mvCandLT a i = mvCandLT b i /\ mvCandRT a i = mvCandRT b i
       /\ mvCandLB a i = mvCandLB b i.

(** Two outcomes agree: both return, with related values, or both raise the
    same message, or both are undefined for the same reason. *)
Definition orel {A B : Type} (R : A -> B -> Prop) (o : outcome A) (o' : outcome B)
  : Prop :=
  match o, o' with
  | Normal a, Normal b => R a b
  | Thrown m, Thrown m' => m = m'
  | Undefined w, Undefined w' => w = w'
  | _, _ => False
  end.

(** What two runs of [fillMvpCand] on the same neighbourhood share while
    the candidates are collected: the count, every slot stored so far, and,
    for a slot not yet stored, the precision flag the padding reads (built
    with [REMOVE_MV_ADAPT_PREC], the padding reads nothing). *)
Definition sameSoFar {cfg : BuildConfig} (a b : AMVPInfo) : Prop :=
  0 <= numCand a /\ numCand a = numCand b
  /\ forall i, 0 <= i ->
       mvCand a i = mvCand b i
       \/ (numCand a <= i
           /\ (REMOVE_MV_ADAPT_PREC = true
               \/ highPrec (mvCand a i) = highPrec (mvCand b i))).

(** What one attempt to add a candidate does to the count. *)
Definition addsAtMostOne (info : AMVPInfo) (o : outcome (bool * AMVPInfo)) : Prop :=
  forall b info', o = Normal (b, info') ->
    numCand info' = numCand info + (if b : bool then 1 else 0).

(** Two attempts agree on whether they added and on the list so far. *)
Definition sameAdded {cfg : BuildConfig} (r r' : bool * AMVPInfo) : Prop :=
  fst r = fst r' /\ sameSoFar (snd r) (snd r').

(** Two runs of the inherited-candidate loops agree so far. *)
Definition sameInherited (s s' : AffineAMVPInfo * (Mv * Mv * Mv)) : Prop :=
  0 <= aff_numCand (fst s) /\ sameAffineList (fst s) (fst s') /\ snd s = snd s'.

(** ** The best-mode ledger and the search driver (EncCu.cpp) *)

Module EncCu.

Inductive ChannelType : Type := LUMA | CHROMA.
Inductive ModeType : Type := MODE_TYPE_ALL | MODE_TYPE_INTER | MODE_TYPE_INTRA.

Record PredictionUnit : Type := mkPU { mergeFlag : bool }.

Record CodingUnit : Type := mkCU {
  skip : bool;
  firstPU : option PredictionUnit;
  predMode : PredMode;
  qp : Z;
  chType : ChannelType;
  tileIdx : Z;
  rootCbf : bool;
  lumaSizeArea : Z;
}.

(** A coding structure with the members the ledger and the finishing block
    read or write.  [cost] and [costDbOffset] are C++ [double]s. *)
Record CodingStructure : Type := mkCS {
  cus : list CodingUnit;
  cost : float;
  fracBits : Z;
  dist : Z;
  costDbOffset : float;
  useDbCost : bool;
  prevQP : ChannelType -> Z;
  isDualITree : bool;
  areaTileIdx : Z;
  areaLumaSizeArea : Z;
}.

Definition set_cost (c : CodingStructure) (v : float) : CodingStructure :=
  mkCS (cus c) v (fracBits c) (dist c) (costDbOffset c) (useDbCost c) (prevQP c)
       (isDualITree c) (areaTileIdx c) (areaLumaSizeArea c).
Definition set_costDbOffset (c : CodingStructure) (v : float) : CodingStructure :=
  mkCS (cus c) (cost c) (fracBits c) (dist c) v (useDbCost c) (prevQP c)
       (isDualITree c) (areaTileIdx c) (areaLumaSizeArea c).
Definition set_useDbCost (c : CodingStructure) (v : bool) : CodingStructure :=
  mkCS (cus c) (cost c) (fracBits c) (dist c) (costDbOffset c) v (prevQP c)
       (isDualITree c) (areaTileIdx c) (areaLumaSizeArea c).
Definition set_prevQP (c : CodingStructure) (t : ChannelType) (v : Z)
  : CodingStructure :=
  mkCS (cus c) (cost c) (fracBits c) (dist c) (costDbOffset c) (useDbCost c)
       (fun t' => match t, t' with
                  | LUMA, LUMA | CHROMA, CHROMA => v
                  | _, _ => prevQP c t'
                  end)
       (isDualITree c) (areaTileIdx c) (areaLumaSizeArea c).

Section Ledger.
(** The entropy-coder context, the mode controller, a test mode and the
    partitioner are collaborators; only what the ledger does with them is
    described. *)
Variable Ctx : Type.
Variable ModeCtrl : Type.
Variable EncTestMode : Type.
Variable Partitioner : Type.

(** [*m_CurrCtx]: the checkpoint taken at node entry and the one taken at
    the last acceptance. *)
Record CtxPair : Type := mkCtxPair { start : Ctx; best : Ctx }.

(** The encoder state the ledger touches.  [objects] holds the coding
    structures by address; [tempCS] and [bestCS] of the routines below are
    addresses into it. *)
Record EncCuState : Type := mkEncCu {
  objects : Z -> CodingStructure;
  m_CABACEstimator_ctx : Ctx;
  m_CurrCtx : CtxPair;
  m_bestModeUpdated : bool;
  m_modeCtrl : ModeCtrl;
}.

(** [m_modeCtrl->useModeResult( encTestMode, tempCS, partitioner )]: the
    decision, the controller afterwards, and the structure [tempCS] points
    to as the controller leaves it. *)
Variable useModeResult :
  ModeCtrl -> EncTestMode -> CodingStructure -> Partitioner ->
  bool * ModeCtrl * CodingStructure.

(** The [CHECK] on a structure holding a single unit. *)
Definition checkSkipMerge (temp : CodingStructure) : outcome unit :=
  match cus temp with
  | [cu] =>
    if skip cu then
      match firstPU cu with
      | None => Undefined "null firstPU"
      | Some pu =>
        CHECK (negb (mergeFlag pu)) "Skip flag without a merge flag is not allowed!"
      end
    else Normal tt
  | _ => Normal tt
  end.

(** [EncCu::xCheckBestMode]: the value returned, the two pointers after the
    call (they are passed by reference) and the state after it. *)
Definition xCheckBestMode (s : EncCuState) (tempCS bestCS : Z)
           (partitioner : Partitioner) (encTestMode : EncTestMode)
  : outcome (bool * Z * Z * EncCuState) :=
  '(bestCSUpdated, tempCS', bestCS', s) <-
    (match cus (objects s tempCS) with
     | [] => Normal (false, tempCS, bestCS, s)
     | _ :: _ =>
       _ <- checkSkipMerge (objects s tempCS) ;;
       let '(use, ctrl, temp') :=
         useModeResult (m_modeCtrl s) encTestMode (objects s tempCS) partitioner in
       let s := mkEncCu (upd (objects s) tempCS temp') (m_CABACEstimator_ctx s)
                        (m_CurrCtx s) (m_bestModeUpdated s) ctrl in
       if use then
         Normal (true, bestCS, tempCS,
                 mkEncCu (objects s) (m_CABACEstimator_ctx s)
                         (mkCtxPair (start (m_CurrCtx s)) (m_CABACEstimator_ctx s))
                         true (m_modeCtrl s))
       else Normal (false, tempCS, bestCS, s)
     end) ;;
  Normal (bestCSUpdated, tempCS', bestCS',
          mkEncCu (objects s) (start (m_CurrCtx s)) (m_CurrCtx s)
                  (m_bestModeUpdated s) (m_modeCtrl s)).

(** The constant [MAX_DOUBLE] (CommonDef.h) and the collaborators of the two
    routines below. *)
Variable MAX_DOUBLE : float.
Variable calcRdCost : Z -> Z -> float.
Variable getUseEncDbOpt : bool.
Variable getPartSplit : EncTestMode -> Z.
Variable xCheckDQP :
  CodingStructure -> Partitioner -> Ctx -> outcome (CodingStructure * Ctx).
Variable finishCULevel : ModeCtrl -> Partitioner -> ModeCtrl.

Definition set_object (s : EncCuState) (p : Z) (c : CodingStructure) : EncCuState :=
  mkEncCu (upd (objects s) p c) (m_CABACEstimator_ctx s) (m_CurrCtx s)
          (m_bestModeUpdated s) (m_modeCtrl s).

(** [areaSizeNoResiCu >= ( tempCS->area.lumaSize().area() >> 1 )] *)
Definition halfWithoutResidual (temp : CodingStructure) : bool :=
  let areaSizeNoResiCu :=
    fold_left (fun acc cu => acc + (if rootCbf cu then 0 else lumaSizeArea cu))
              (cus temp) 0 in
  areaSizeNoResiCu >=? Z.shiftr (areaLumaSizeArea temp) 1.

(** The end of [EncCu::xCheckModeSplit], once the children are resolved and
    the split-signalling bits are added: the cost of the split is computed
    and offered to the ledger.  The result carries [skipInterPass] and
    [splitRdCostBest] besides what [xCheckBestMode] returns. *)
Definition xCheckModeSplit_tail (s : EncCuState) (tempCS bestCS : Z)
           (partitioner : Partitioner) (encTestMode : EncTestMode)
           (modeTypeParent modeTypeChild : ModeType) (qgEnableChildren : bool)
           (skipInterPass : bool) (splitRdCostBest : Z -> float)
  : outcome (bool * Z * Z * EncCuState * bool * (Z -> float)) :=
  let temp := objects s tempCS in
  let s := set_object s tempCS (set_cost temp (calcRdCost (fracBits temp) (dist temp))) in
  s <- (if negb qgEnableChildren then
          '(temp', ctx') <- xCheckDQP (objects s tempCS) partitioner
                                      (m_CABACEstimator_ctx s) ;;
          Normal (mkEncCu (upd (objects s) tempCS temp') ctx' (m_CurrCtx s)
                          (m_bestModeUpdated s) (m_modeCtrl s))
        else Normal s) ;;
  let s :=
    if negb (PrimFloat.eqb (cost (objects s bestCS)) MAX_DOUBLE) then s
    else set_object s bestCS (set_costDbOffset (objects s bestCS) 0%float) in
  let s := set_object s tempCS (set_useDbCost (objects s tempCS) getUseEncDbOpt) in
  let temp := objects s tempCS in
  let skipInterPass :=
    if (0 <? Z.of_nat (List.length (cus temp)))
       && match modeTypeParent, modeTypeChild with
          | MODE_TYPE_ALL, MODE_TYPE_INTER => true
          | _, _ => false
          end
    then (if halfWithoutResidual temp then true else skipInterPass)
    else skipInterPass in
  let splitRdCostBest := upd splitRdCostBest (getPartSplit encTestMode) (cost temp) in
  '(updated, tempCS', bestCS', s) <-
     xCheckBestMode s tempCS bestCS partitioner encTestMode ;;
  Normal (updated, tempCS', bestCS', s, skipInterPass, splitRdCostBest).

(** How the finishing block of [xCompressCU] ends when it returns. *)
Inductive Finish : Type :=
| NotFinalized (s : EncCuState)
| Finalized (s : EncCuState).

(** The finishing block of [EncCu::xCompressCU], after the modes are
    enumerated.  The palette and buffer copies between the statements kept
    here touch members this model does not carry. *)
Definition xCompressCU_finish (s : EncCuState) (tempCS bestCS : Z)
           (partitioner : Partitioner) (partitioner_chType : ChannelType)
  : outcome Finish :=
  let temp := objects s tempCS in
  let bestC := objects s bestCS in
  if PrimFloat.eqb (cost temp) MAX_DOUBLE && PrimFloat.eqb (cost bestC) MAX_DOUBLE
  then
    Normal (NotFinalized
              (mkEncCu (objects s) (m_CABACEstimator_ctx s) (m_CurrCtx s)
                       (m_bestModeUpdated s) (finishCULevel (m_modeCtrl s) partitioner)))
  else
    let s := mkEncCu (objects s) (best (m_CurrCtx s)) (m_CurrCtx s)
                     (m_bestModeUpdated s) (m_modeCtrl s) in
    let numCUInThisNode := Z.of_nat (List.length (cus bestC)) in
    match last (map Some (cus bestC)) None with
    | None => Undefined "back() of an empty vector"
    | Some back =>
      lastQp <-
        (if (numCUInThisNode >? 1)
            && match chType back with CHROMA => true | LUMA => false end
            && negb (isDualITree bestC)
         then
           match nth_error (cus bestC) (Z.to_nat (numCUInThisNode - 2)) with
           | None => Undefined "index out of range"
           | Some cu2 =>
             _ <- CHECK (match chType cu2 with LUMA => false | CHROMA => true end)
                        "wrong chType" ;;
             Normal (qp cu2)
           end
         else Normal (qp back)) ;;
      let s := set_object s bestCS (set_prevQP bestC partitioner_chType lastQp) in
      let s := mkEncCu (objects s) (m_CABACEstimator_ctx s) (m_CurrCtx s)
                       (m_bestModeUpdated s) (finishCULevel (m_modeCtrl s) partitioner) in
      match cus bestC with
      | [] => Undefined "front() of an empty vector"
      | cu0 :: rest =>
        _ <- (match rest with
              | [] => CHECK (negb (tileIdx cu0 =? areaTileIdx bestC)) "Wrong tile index!"
              | _ => Normal tt
              end) ;;
        _ <- CHECK (match cus bestC with [] => true | _ => false end)
                   "No possible encoding found" ;;
        _ <- CHECK (match predMode cu0 with
                    | NUMBER_OF_PREDICTION_MODES => true
                    | _ => false
                    end) "No possible encoding found" ;;
        _ <- CHECK (PrimFloat.eqb (cost bestC) MAX_DOUBLE) "No possible encoding found" ;;
        Normal (Finalized s)
      end
    end.

End Ledger.

Arguments start {Ctx} c.
Arguments best {Ctx} c.
Arguments objects {Ctx ModeCtrl} e _.
Arguments m_CABACEstimator_ctx {Ctx ModeCtrl} e.
Arguments m_CurrCtx {Ctx ModeCtrl} e.
Arguments m_bestModeUpdated {Ctx ModeCtrl} e.
Arguments m_modeCtrl {Ctx ModeCtrl} e.
Arguments mkEncCu {Ctx ModeCtrl} _ _ _ _ _.
Arguments mkCtxPair {Ctx} _ _.
Arguments set_object {Ctx ModeCtrl} s p c.
Arguments NotFinalized {Ctx ModeCtrl} s.
Arguments Finalized {Ctx ModeCtrl} s.
Arguments xCheckBestMode {Ctx ModeCtrl EncTestMode Partitioner} _ _ _ _ _ _.
Arguments xCheckModeSplit_tail {Ctx ModeCtrl EncTestMode Partitioner} _ _ _ _ _ _ _ _ _ _ _ _ _ _ _.
Arguments xCompressCU_finish {Ctx ModeCtrl Partitioner} _ _ _ _ _ _ _.

(** Modelled from the spec: [EncModeCtrl::useModeResult] is defined in
    EncModeCtrl.cpp, which is not among the sources.  The spec: "a trial is
    accepted iff its cost is strictly better under the ModeController's
    comparison (simple cost ordering, with ties broken by trial order —
    first-found wins)".  The controller remembers the cost of the best
    result so far. *)
Definition useModeResult_spec {EncTestMode Partitioner : Type}
           (bestCost : float) (encTestMode : EncTestMode)
           (temp : CodingStructure) (partitioner : Partitioner)
  : bool * float * CodingStructure :=
  if PrimFloat.ltb (cost temp) bestCost then (true, cost temp, temp)
  else (false, bestCost, temp).

(** The messages a [CHECK] of the finishing block can raise. *)
Definition finishMessage (msg : string) : Prop :=
  msg = "No possible encoding found"%string
  \/ msg = "wrong chType"%string \/ msg = "Wrong tile index!"%string.

End EncCu.

(** ** What every merge list satisfies *)

(** A property of the value a computation returns, if it returns one. *)
Definition post {A : Type} (Q : A -> Prop) (o : outcome A) : Prop :=
  match o with Normal a => Q a | _ => True end.

Definition flowPost (P : MrgState -> Prop) (Q : MergeCtx -> Prop) (o : outcome flow)
  : Prop :=
  match o with
  | Normal (Go s) => P s
  | Normal (Ret m) => Q m
  | _ => True
  end.

(** The part of a merge context only the first loop, the sub-block step and
    the last assignment write. *)
Definition sameFrame (a b : MergeCtx) : Prop :=
  numValidMergeCand a = numValidMergeCand b
  /\ mrgTypeNeighbours a = mrgTypeNeighbours b.

(** The three switches that let the sub-block temporal candidate in. *)
Definition subPuEnabled (cs : CodingStructure) : Prop :=
  getUseSubPuMvp (spsNext cs) = true
  /\ getEnableTMVPFlag (slice cs) = true
  /\ getUseATMVP (spsNext cs) = true.

(** The merge types after the sub-block step: as before, or, with the tool
    enabled, with the type of the slot at [cnt] set. *)
Definition subPuTypes (cs : CodingStructure) (st : MrgState) (m : MergeCtx) : Prop :=
  numValidMergeCand m = numValidMergeCand (mrgCtx st)
  /\ (mrgTypeNeighbours m = mrgTypeNeighbours (mrgCtx st)
      \/ (subPuEnabled cs
          /\ mrgTypeNeighbours m
             = upd (mrgTypeNeighbours (mrgCtx st)) (cnt st) MRG_TYPE_SUBPU_ATMVP)).

(** What holds of every list [getInterMergeCandidates] returns: the count
    is the signalled maximum, and a slot below it has the sub-block temporal
    type only with the tool enabled, and then it is the slot that follows
    the spatial candidates (at most four of them). *)
Definition mergeListOk (cs : CodingStructure) (m : MergeCtx) : Prop :=
  numValidMergeCand m = getMaxNumMergeCand (slice cs)
  /\ forall i, 0 <= i < getMaxNumMergeCand (slice cs) ->
       mrgTypeNeighbours m i = MRG_TYPE_SUBPU_ATMVP ->
       subPuEnabled cs /\ i <= 4.

(** The reference index of the [j]-th slot the zero-motion fill writes when
    it starts from [r] and [refcnt]: it counts up while [refcnt] has not
    reached [iNumRefIdx - 1], and is 0 from then on. *)
Definition zeroFillRefIdx (r refcnt iNumRefIdx j : Z) : Z :=
  if refcnt + j <=? iNumRefIdx - 1 then r + j else 0.

(** [iNumRefIdx] of the zero-motion fill. *)
Definition iNumRefIdxOf (cs : CodingStructure) : Z :=
  if isInterB (slice cs)
  then Z.min (getNumRefIdx (slice cs) REF_PIC_LIST_0)
             (getNumRefIdx (slice cs) REF_PIC_LIST_1)
  else getNumRefIdx (slice cs) REF_PIC_LIST_0.

(** The slots below [n] of [b] are those of [a]: the inter directions and
    both motion fields of every candidate before [n]. *)
Definition keepsBelow (n : Z) (a b : MergeCtx) : Prop :=
  (forall k, k < n -> interDirNeighbours b k = interDirNeighbours a k)
  /\ (forall i, i < 2 * n -> mvFieldNeighbours b i = mvFieldNeighbours a i).

(** A step leaves the candidates stored so far alone and does not take the
    count back. *)
Definition keepsSlots (st : MrgState) (o : outcome flow) : Prop :=
  flowPost (fun s => keepsBelow (cnt st) (mrgCtx st) (mrgCtx s) /\ cnt st <= cnt s)
           (fun m => keepsBelow (cnt st) (mrgCtx st) m) o.

(** Slot [k] of a list holds the motion [mi]: its inter direction, its
    list-0 field and, in a B slice, its list-1 field. *)
Definition slotHolds (cs : CodingStructure) (m : MergeCtx) (k : Z) (mi : MotionInfo)
  : Prop :=
  interDirNeighbours m k = interDir mi
  /\ mvFieldNeighbours m (2 * k) = mkMvField (fst (mi_mv mi)) (fst (mi_refIdx mi))
  /\ (isInterB (slice cs) = true ->
      mvFieldNeighbours m (2 * k + 1)
      = mkMvField (snd (mi_mv mi)) (snd (mi_refIdx mi))).

(** What a spatial step contributes: the neighbour's motion when it is
    available and passes its redundancy test, nothing otherwise. *)
Definition keptCand (avail keep : bool) (mi : MotionInfo) : list MotionInfo :=
  if avail && keep then [mi] else [].

(** The motion of the spatial neighbours A1, B1, B0 and A0 that pass their
    tests, in the order of the steps. *)
Definition spatialCandidates {cfg : BuildConfig} {ops : MvOps}
           (cs : CodingStructure) (pu : PredictionUnit) : list MotionInfo :=
  keptCand (isAvailableA1 cs pu) true (miLeft cs pu)
  ++ keptCand (isAvailableB1 cs pu) (keepB1 cs pu) (miAbove cs pu)
  ++ keptCand (isAvailableB0 cs pu) (keepB0 cs pu) (miAboveRight cs pu)
  ++ keptCand (isAvailableA0 cs pu) (keepA0 cs pu) (miBelowLeft cs pu).

(** Slot [k] does not lie beyond the candidate of a fast exit: when the
    fast exit is allowed and [mrgCandIdx] names a candidate, the routine
    returns as soon as that candidate is stored, so [k] is not after it. *)
Definition beforeFastExit {cfg : BuildConfig} (cs : CodingStructure)
           (mrgCandIdx k : Z) : Prop :=
  canFastExit cs = true -> 0 <= mrgCandIdx -> k <= mrgCandIdx.

(** The spatial candidates stored so far: [l], in the slots from 0 on. *)
Definition holdsSpatial (cs : CodingStructure) (l : list MotionInfo) (st : MrgState)
  : Prop :=
  cnt st = Z.of_nat (List.length l)
  /\ forall k mi, nth_error l k = Some mi -> slotHolds cs (mrgCtx st) (Z.of_nat k) mi.

(** What a returned list holds of the spatial candidates [l]: every one of
    them that has a slot below the signalled maximum, up to the candidate
    of a fast exit. *)
Definition startsWith {cfg : BuildConfig} (cs : CodingStructure) (mrgCandIdx : Z)
           (l : list MotionInfo) (m : MergeCtx) : Prop :=
  forall k mi,
    nth_error l k = Some mi ->
    Z.of_nat k < getMaxNumMergeCand (slice cs) ->
    beforeFastExit cs mrgCandIdx (Z.of_nat k) ->
    slotHolds cs m (Z.of_nat k) mi.

(** No temporal candidate: the tool is off for the slice, or the collocated
    picture offers no motion at either of the two positions the temporal
    step looks at, for list 0 and, in a B slice, for list 1. *)
Definition noTemporalCand {cfg : BuildConfig} {ops : MvOps}
           (cs : CodingStructure) (pu : PredictionUnit) : Prop :=
  getEnableTMVPFlag (slice cs) = false
  \/ (let posRB := offset (Y_bottomRight pu) (-3) (-3) in
      colocatedC0C1 cs REF_PIC_LIST_0 (C0Available cs posRB) (offset posRB 4 4)
                    (Y_center pu) 0 = Normal None
      /\ (isInterB (slice cs) = true ->
          colocatedC0C1 cs REF_PIC_LIST_1 (C0Available cs posRB) (offset posRB 4 4)
                        (Y_center pu) 0 = Normal None)).

(** No sub-block candidate for the slot [count]: the sub-block tools are
    off, or, with the caller's buffer allocated, the sub-block temporal
    derivation is not run (no temporal prediction in the slice, or ATMVP
    off) or finds nothing. *)
Definition noSubPuCand {cfg : BuildConfig} (cs : CodingStructure)
           (sampleSubPu : MergeCtx -> Z -> SubPuSampling) (mrgCtx0 : MergeCtx)
           (count : Z) : Prop :=
  getUseSubPuMvp (spsNext cs) = false
  \/ ((mb_area (subPuMvpMiBuf mrgCtx0) =? 0) || negb (mb_buf (subPuMvpMiBuf mrgCtx0))
      = false
      /\ (getEnableTMVPFlag (slice cs) = false
          \/ getUseATMVP (spsNext cs) = false
          \/ forall c, exists c',
               getInterMergeSubPuMvpCand cs sampleSubPu c count = Normal (false, c'))).

(** The scenario of a block whose only available spatial neighbour is the
    left one, with no temporal and no sub-block candidate to be had, and
    without the fast exit on the first candidate. *)
Definition onlyLeftNeighbour {cfg : BuildConfig} {ops : MvOps}
           (cs : CodingStructure) (pu : PredictionUnit)
           (sampleSubPu : MergeCtx -> Z -> SubPuSampling) (mrgCandIdx : Z)
           (mrgCtx0 : MergeCtx) : Prop :=
  isAvailableA1 cs pu = true
  /\ isAvailableB1 cs pu = false /\ isAvailableB0 cs pu = false
  /\ isAvailableA0 cs pu = false /\ isAvailableB2 cs pu = false
  /\ noTemporalCand cs pu
  /\ noSubPuCand cs sampleSubPu mrgCtx0 1
  /\ (mrgCandIdx =? 0) && canFastExit cs = false.

(** What a step that adds at most one candidate guarantees. *)
Definition stepsOne (st : MrgState) (o : outcome flow) : Prop :=
  flowPost (fun s => sameFrame (mrgCtx st) (mrgCtx s) /\ cnt st <= cnt s <= cnt st + 1)
           (fun m => sameFrame (mrgCtx st) m) o.

(** A step that ends with the early-termination test: what goes on is below
    the maximum. *)
Definition stepsBelowMax (cs : CodingStructure) (st : MrgState) (o : outcome flow) : Prop :=
  flowPost (fun s => sameFrame (mrgCtx st) (mrgCtx s)
                     /\ cnt st <= cnt s < maxNumMergeCand cs)
           (fun m => sameFrame (mrgCtx st) m) o.

(** ** Sample inputs

    One interpretation of the build switches and of the [Mv] operations,
    and a few small pictures and neighbourhoods, on which the definitions
    above are evaluated. *)

Module Sample.

Definition cfg : BuildConfig :=
  {| JVET_L0090_PAIR_AVG := true;
     HM_JEM_MERGE_CANDS := false;
     JVET_L0646_GBI := true;
     REMOVE_MV_ADAPT_PREC := true;
     AMVP_DECIMATION_FACTOR := 2;
     AMVP_MAX_NUM_CANDS_MEM := 3;
     VCEG_AZ07_MV_ADD_PRECISION_BIT_FOR_STORE := 2;
     GBI_DEFAULT := 2;
     g_GbiWeightBase := 8;
     getGbiWeight := fun idx _ => idx;
     MAX_CU_DEPTH := 7;
     g_aucLog2 := Z.log2 |}.

Definition mvEq (a b : Mv) : bool := (hor a =? hor b) && (ver a =? ver b).
Definition mvFieldEq (a b : MvField) : bool :=
  (refIdx a =? refIdx b) && mvEq (mv a) (mv b).
Definition motionInfoEq (a b : MotionInfo) : bool :=
  Bool.eqb (isInter a) (isInter b)
  && (negb (isInter a)
      || ((sliceIdx a =? sliceIdx b) && (interDir a =? interDir b)
          && ((interDir a =? 2)
              || ((fst (mi_refIdx a) =? fst (mi_refIdx b))
                  && mvEq (fst (mi_mv a)) (fst (mi_mv b))))
          && ((interDir a =? 1)
              || ((snd (mi_refIdx a) =? snd (mi_refIdx b))
                  && mvEq (snd (mi_mv a)) (snd (mi_mv b)))))).

Definition scale1 (iScale v : Z) : Z :=
  Clip3 (-32768) 32767
        (Z.shiftr (iScale * v + 127 + (if iScale * v <? 0 then 1 else 0)) 8).

Definition ops : MvOps :=
  {| Mv_eqb := mvEq;
     Mv_add := fun a b => mkMv (add32 (hor a) (hor b)) (add32 (ver a) (ver b)) (highPrec a);
     Mv_sub := fun a b => mkMv (sub32 (hor a) (hor b)) (sub32 (ver a) (ver b)) (highPrec a);
     scaleMv := fun m s => mkMv (scale1 s (hor m)) (scale1 s (ver m)) (highPrec m);
     setHighPrec := fun m => m;
     setLowPrec := fun m => m;
     roundMV2SignalPrecision := fun m => m;
     roundMV := fun m _ => m;
     roundAffineMv := fun h v _ => (h, v);
     Mv_set := fun m h v => mkMv h v (highPrec m);
     MvField_eqb := mvFieldEq;
     MotionInfo_eqb := motionInfoEq |}.

(** A P slice at POC 8 with two reference pictures, at POC 4 (index 0,
    short-term) and POC 0 (index 1, long-term); the collocated picture is
    the one at POC 4, whose own reference is at POC 0. *)
Definition colSlice : Slice :=
  mkSlice 4 false true 0 false true 6 (fun _ => 1) (fun _ _ => 0)
          (fun _ _ => false) 0.

Definition colMotion : MotionInfo :=
  mkMotionInfo true 1 0 (mkMv 4 0 false, Mv0) (0, NOT_VALID).

Definition colPic : Picture := mkPicture 1 4 false (fun _ => colMotion) [colSlice].
Definition longTermPic : Picture := mkPicture 2 0 true (fun _ => MotionInfo0) [].

Definition slice (maxCand numRef : Z) (tmvp : bool) : Slice :=
  mkSlice 8 false true 0 false tmvp maxCand (fun _ => numRef)
          (fun _ i => if i =? 0 then 4 else 0) (fun _ i => i =? 1) 0.

Definition refPics (l : RefPicList) (i : Z) : option Picture :=
  if i =? 0 then Some colPic else if i =? 1 then Some longTermPic else None.

Definition pcv64 : PreCalcValues := mkPCV false 4 4 1920 1080 64 64 63 63.

(** A 16x16 block at (16, 16), coded with quarter-pel vectors. *)
Definition block : PredictionUnit :=
  mkPU (mkCU 100 MODE_INTER 2 false AFFINEMODEL_4PARAM 0)
       (mkPosition 16 16) (mkPosition 16 16) (mkPosition 31 16) (mkPosition 16 31)
       (mkPosition 31 31) (mkPosition 24 24) 16 16 (fun _ => MotionInfo0) 0
       (NOT_VALID, NOT_VALID).

(** A coding structure in which no neighbour is available. *)
Definition csAlone (maxCand numRef : Z) (tmvp : bool) : CodingStructure :=
  mkCS (slice maxCand numRef tmvp) refPics (mkSPSNext false false false) 0 pcv64
       (fun _ => None).

(** The same with a collocated picture whose reference is long-term. *)
Definition colSliceLT : Slice :=
  mkSlice 4 false true 0 false true 6 (fun _ => 1) (fun _ _ => 0)
          (fun _ _ => true) 0.
Definition colPicLT : Picture := mkPicture 3 4 false (fun _ => colMotion) [colSliceLT].
Definition csLongTerm : CodingStructure :=
  mkCS (slice 6 2 true)
       (fun _ i => if i =? 0 then Some colPicLT
                   else if i =? 1 then Some longTermPic else None)
       (mkSPSNext false false false) 0 pcv64 (fun _ => None).

End Sample.

Module SampleEncCu.
Import EncCu.

(** [MAX_DOUBLE = 1.7e+308], as the nearest binary64 value. *)
Definition MAX_DOUBLE : float := 0x1.e42d130773b76p+1023%float.

Definition mergedSkip : CodingUnit :=
  mkCU true (Some (mkPU true)) MODE_INTER 30 LUMA 0 false 256.

Definition region (c : float) (units : list CodingUnit) : CodingStructure :=
  mkCS units c 100 50 0%float false (fun _ => 30) false 0 256.

(** Two structures at the addresses 1 (temp) and 2 (best); the coder's
    context is 7, the node's checkpoints are 3 (start) and 5 (best); the
    controller remembers the cost of the best structure. *)
Definition node (tempCost bestCost : float) (tempUnits bestUnits : list CodingUnit)
  : EncCuState Z float :=
  mkEncCu (fun p => if p =? 1 then region tempCost tempUnits
                    else region bestCost bestUnits)
          7 (mkCtxPair 3 5) false bestCost.

(** Collaborators that leave everything as it is, and a cost function that
    prices the sample structures at 12. *)
Definition calcRdCost (bits dist : Z) : float :=
  if (bits =? 100) && (dist =? 50) then 12%float else 0%float.
Definition xCheckDQP (c : CodingStructure) (_ : unit) (ctx : Z)
  : outcome (CodingStructure * Z) := Normal (c, ctx).
Definition finishCULevel (m : float) (_ : unit) : float := m.

End SampleEncCu.

(** Environments for the merge list: the sample block with neighbours. *)
Module SampleMerge.

(** A merge context as [MergeCtx] is constructed, with an allocated
    sub-block buffer, and the array [isCandInter] before the routine. *)
Definition mrgCtx0 : MergeCtx :=
  mkMergeCtx (fun _ => mkMvField Mv0 0) (fun _ => 0) (fun _ => 0)
             (fun _ => MRG_TYPE_DEFAULT_N) 0
             (mkMotionBuf 256 true (fun _ => MotionInfo0)).
Definition cand0 : Z -> bool := fun _ => false.

(** An inter-coded neighbour of another coding unit, lying in another merge
    estimation region, whose motion is list 0, vector ([h], 0), index 0. *)
Definition neighbour (addr x y h : Z) : PredictionUnit :=
  mkPU (mkCU addr MODE_INTER 2 false AFFINEMODEL_4PARAM 0)
       (mkPosition x y) (mkPosition x y) (mkPosition (x + 15) y)
       (mkPosition x (y + 15)) (mkPosition (x + 15) (y + 15))
       (mkPosition (x + 8) (y + 8)) 16 16
       (fun _ => mkMotionInfo true 1 0 (mkMv h 0 false, Mv0) (0, NOT_VALID)) 1
       (0, NOT_VALID).

Definition at_ (p : Position) (x y : Z) : bool := (pos_x p =? x) && (pos_y p =? y).

(** Only the left neighbour A1, at (15, 31), exists. *)
Definition leftOnly (p : Position) : option PredictionUnit :=
  if at_ p 15 31 then Some (neighbour 99 0 16 4) else None.

Definition csLeftOnly (maxCand numRef : Z) : CodingStructure :=
  mkCS (Sample.slice maxCand numRef false) Sample.refPics
       (mkSPSNext false false false) 0 Sample.pcv64 leftOnly.

(** The neighbours A1 (15, 31), B1 (31, 15), B0 (32, 15) and A0 (15, 32)
    exist and carry four different vectors; B2 does not exist. *)
Definition fourNeighbours (p : Position) : option PredictionUnit :=
  if at_ p 15 31 then Some (neighbour 99 0 16 4)
  else if at_ p 31 15 then Some (neighbour 98 16 0 8)
  else if at_ p 32 15 then Some (neighbour 97 32 0 12)
  else if at_ p 15 32 then Some (neighbour 96 0 32 16)
  else None.

(** The neighbours A1 (15, 31) and B1 (31, 15) exist and carry the same
    vector, B0 (32, 15) carries another one; A0 and B2 do not exist. *)
Definition sameLeftAbove (p : Position) : option PredictionUnit :=
  if at_ p 15 31 then Some (neighbour 99 0 16 4)
  else if at_ p 31 15 then Some (neighbour 98 16 0 4)
  else if at_ p 32 15 then Some (neighbour 97 32 0 12)
  else None.

Definition csSameLeftAbove : CodingStructure :=
  mkCS (Sample.slice 6 2 false) Sample.refPics (mkSPSNext false false false) 0
       Sample.pcv64 sameLeftAbove.

(** Six candidates signalled, the sub-block tools and the temporal
    candidate enabled. *)
Definition csFour : CodingStructure :=
  mkCS (Sample.slice 6 2 true) Sample.refPics (mkSPSNext true true false) 0
       Sample.pcv64 fourNeighbours.

(** A collocated field in which the centre block is inter and has a
    vector for list 0. *)
Definition sampleSubPu (_ : MergeCtx) (_ : Z) : SubPuSampling :=
  mkSubPuSampling (Normal true) (fun _ => Normal (Some (mkMv 1 1 false)))
                  (Normal (fun _ => Sample.colMotion)).

(** No sub-block motion is found. *)
Definition noSubPu (_ : MergeCtx) (_ : Z) : SubPuSampling :=
  mkSubPuSampling (Normal false) (fun _ => Normal None)
                  (Normal (fun _ => MotionInfo0)).

(** The left neighbour only, with the temporal candidate and the sub-block
    tools enabled, next to a collocated picture that is intra coded: there
    is no motion for either of them to take. *)
Definition intraColPic : Picture :=
  mkPicture 1 4 false (fun _ => MotionInfo0) [Sample.colSlice].
Definition csLeftOnlyNoMotion (maxCand numRef : Z) : CodingStructure :=
  mkCS (Sample.slice maxCand numRef true)
       (fun _ i => if i =? 0 then Some intraColPic
                   else if i =? 1 then Some Sample.longTermPic else None)
       (mkSPSNext true true false) 0 Sample.pcv64 leftOnly.

End SampleMerge.

(** ** Further tools of [UnitTools.cpp] *)

(** [PU::isBiPredFromDifferentDir]; [s] is [pu.cu->slice]. *)
Definition isBiPredFromDifferentDir (s : Slice) (pu : PredictionUnit) : bool :=
  if (fst (pu_refIdx pu) >=? 0) && (snd (pu_refIdx pu) >=? 0) then
    let iPOC0 := getRefPOC s REF_PIC_LIST_0 (fst (pu_refIdx pu)) in
    let iPOC1 := getRefPOC s REF_PIC_LIST_1 (snd (pu_refIdx pu)) in
    let iPOC := getPOC s in
    if mul32 (sub32 iPOC iPOC0) (sub32 iPOC iPOC1) <? 0 then true else false
  else false.

(** [clipColBlkMv]: [ctuSize] is [getCTUSize()], [picWidth] and [picHeight]
    are [(int) getPicWidthInLumaSamples()] and [(int)
    getPicHeightInLumaSamples()] of the sequence parameter set.  The block
    size is unsigned, so that the subtraction is done modulo 2^32 and
    converted back to [int]. *)
Definition clipColBlkMv (mvX mvY : Z) (pu : PredictionUnit)
           (ctuSize picWidth picHeight : Z) : outcome (Z * Z) :=
  let puPos := lumaPos pu in
  if ctuSize =? 0 then Undefined "division by zero"
  else
    let ctuX := mul32 (Z.quot (pos_x puPos) ctuSize) ctuSize in
    let ctuY := mul32 (Z.quot (pos_y puPos) ctuSize) ctuSize in
    let horMax := wrap32 (Z.min picWidth (add32 (add32 ctuX ctuSize) 4) - Y_width pu) in
    let horMin := Z.max 0 ctuX in
    let verMax := wrap32 (Z.min picHeight (add32 ctuY ctuSize) - Y_height pu) in
    let verMin := Z.min 0 ctuY in
    let horMax := sub32 horMax (pos_x puPos) in
    let horMin := sub32 horMin (pos_x puPos) in
    let verMax := sub32 verMax (pos_y puPos) in
    let verMin := sub32 verMin (pos_y puPos) in
    Normal (Z.min horMax (Z.max horMin mvX), Z.min verMax (Z.max verMin mvY)).

(** The [while] of [CU::getIntraSizeIdx]: [uiWidth] is a [uint8_t], [uiCnt]
    a [uint32_t]; [fuel] bounds the iterations. *)
Fixpoint countWidthBits (fuel : nat) (uiWidth uiCnt : Z) : Z :=
  match fuel with
  | O => uiCnt
  | S fuel' =>
    if uiWidth =? 0 then uiCnt
    else countWidthBits fuel' (u8 (Z.shiftr uiWidth 1)) (u32 (uiCnt + 1))
  end.

(** [CU::getIntraSizeIdx] of a unit whose [lumaSize().width] is [width]; a
    [uint8_t] is 0 after eight shifts. *)
Definition getIntraSizeIdx (width : Z) : Z :=
  let uiWidth := u8 width in
  let uiCnt := countWidthBits 8 uiWidth 0 in
  let uiCnt := u32 (uiCnt - 2) in
  if uiCnt >? 6 then 6 else uiCnt.

(** [getCtuAddr( pos, pcv )]: the coordinates are [int]s, [widthInCtus] is
    unsigned, and so is the result. *)
Definition getCtuAddr (pos : Position) (maxCUWidthLog2 maxCUHeightLog2 widthInCtus : Z)
  : Z :=
  u32 (Z.shiftr (pos_x pos) maxCUWidthLog2
       + Z.shiftr (pos_y pos) maxCUHeightLog2 * widthInCtus).

(** *** Quantisation parameter prediction *)

Section PredictQP.
(** The switch [ENABLE_WPP_PARALLELISM] and what [CU::predictQP] reads of
    its unit [cu] and of [cu.cs]: the position [cu.blocks[cu.chType]], the
    masks of [pcv] shifted by [getChannelTypeScaleX/Y( cu.chType,
    cu.chromaFormat )], the [qp] of the unit [getCU] or [getCURestricted]
    finds at a position (if any), and the slice's [getSliceQpBase()]. *)
Variable ENABLE_WPP_PARALLELISM : bool.
Variable getUseNextDQP : bool.
Variable blockPos : Position.
Variable maxCUWidthMask maxCUHeightMask : Z.
Variable scaleX scaleY : Z.
Variable getCU_qp : Position -> option Z.
Variable getCURestricted_qp : Position -> option Z.
Variable getSliceQpBase : Z.

(** [cs.getCU( pos, chType )->qp]; there is no test of the pointer. *)
Definition qpAt (p : Position) : outcome Z :=
  match getCU_qp p with
  | Some q => Normal q
  | None => Undefined "null pointer dereference"
  end.

Definition restrictedQp (p : Position) : Z :=
  match getCURestricted_qp p with Some q => q | None => getSliceQpBase end.

(** [CU::predictQP] *)
Definition predictQP (prevQP : Z) : outcome Z :=
  if ENABLE_WPP_PARALLELISM && getUseNextDQP then
    let a := restrictedQp (offset blockPos 0 (-1)) in
    let b := restrictedQp (offset blockPos (-1) 0) in
    let c := restrictedQp (offset blockPos (-1) (-1)) in
    Normal (Clip3 (if a <? b then a else b) (if a >? b then a else b)
                  (sub32 (add32 a b) c))
  else
    a <- (if negb (Z.land (u32 (pos_y blockPos))
                          (Z.shiftr (u32 maxCUHeightMask) scaleY) =? 0)
          then qpAt (offset blockPos 0 (-1)) else Normal prevQP) ;;
    b <- (if negb (Z.land (u32 (pos_x blockPos))
                          (Z.shiftr (u32 maxCUWidthMask) scaleX) =? 0)
          then qpAt (offset blockPos (-1) 0) else Normal prevQP) ;;
    Normal (Z.shiftr (add32 (add32 a b) 1) 1).

End PredictQP.

(** *** Coded block flags *)

Section Cbf.
(** [tu.cbf[compID]] is an unsigned integer of [cbfBits] bits, fewer than
    those of an [int]; its type is declared in a header outside the
    sources. *)
Variable cbfBits : Z.

(** [TU::getCbfAtDepth] on the stored flags [cbf]; a shift by the width of
    [int] or more is undefined. *)
Definition getCbfAtDepth (cbf depth : Z) : outcome bool :=
  if 32 <=? depth then Undefined "shift count"
  else Normal (Z.land (Z.shiftr cbf depth) 1 =? 1).

(** [TU::setCbfAtDepth]: the new value of [tu.cbf[compID]].  [1 << depth]
    is an [int]; a shift of the 1 into the sign bit or past it is left
    out. *)
Definition setCbfAtDepth (cbf depth : Z) (flag : bool) : outcome Z :=
  if 31 <=? depth then Undefined "shift count"
  else
    let cbf := Z.land cbf (Z.lnot (Z.shiftl 1 depth)) mod 2 ^ cbfBits in
    Normal (Z.lor cbf (Z.shiftl (if flag then 1 else 0) depth) mod 2 ^ cbfBits).

(** [TU::getCbf] with its two bodies; [tuDepth] is [tu.depth]. *)
Definition getCbf (ENABLE_BMS : bool) (cbf tuDepth : Z) : outcome bool :=
  if ENABLE_BMS then getCbfAtDepth cbf tuDepth
  else Normal (negb (cbf =? 0)).

End Cbf.

(** *** Generalised bi-prediction index *)

Module Gbi.

(** [cu.firstPU] and [cu] with the members the three routines read. *)
Record PredictionUnit : Type := mkPU {
  interDir : Z;
  mergeFlag : bool;
  mergeType : MergeType;
}.

Record CodingUnit : Type := mkCU {
  firstPU : PredictionUnit;
  GBiIdx : Z;
  predMode : PredMode;
  lwidth : Z;
  lheight : Z;
}.

Definition set_GBiIdx (cu : CodingUnit) (v : Z) : CodingUnit :=
  mkCU (firstPU cu) v (predMode cu) (lwidth cu) (lheight cu).

Definition isDefaultMerge (t : MergeType) : bool :=
  match t with MRG_TYPE_DEFAULT_N => true | _ => false end.
Definition isSubPuMerge (t : MergeType) : bool :=
  match t with MRG_TYPE_SUBPU_ATMVP => true | _ => false end.

Section Routines.
Context {cfg : BuildConfig}.

(** [CU::getValidGbiIdx] *)
Definition getValidGbiIdx (cu : CodingUnit) : outcome Z :=
  let pu := firstPU cu in
  if (interDir pu =? 3) && negb (mergeFlag pu) then Normal (GBiIdx cu)
  else
    _ <- (if (interDir pu =? 3) && mergeFlag pu && isDefaultMerge (mergeType pu)
          then Normal tt
          else if mergeFlag pu && isSubPuMerge (mergeType pu)
          then CHECK (negb (GBiIdx cu =? GBI_DEFAULT)) " cu.GBiIdx != GBI_DEFAULT "
          else CHECK (negb (GBiIdx cu =? GBI_DEFAULT)) " cu.GBiIdx != GBI_DEFAULT ") ;;
    Normal GBI_DEFAULT.

(** [CU::setGbiIdx]; [uh] is a [uint8_t], as [cu.GBiIdx] is.  The unit
    written before the final [CHECK] raises is not kept. *)
Definition setGbiIdx (cu : CodingUnit) (uh : Z) : outcome CodingUnit :=
  let pu := firstPU cu in
  let '(cu, uhCnt) :=
    if (interDir pu =? 3) && negb (mergeFlag pu) then (set_GBiIdx cu uh, 1)
    else if (interDir pu =? 3) && mergeFlag pu && isDefaultMerge (mergeType pu)
    then (cu, 0)
    else if mergeFlag pu && isSubPuMerge (mergeType pu)
    then (set_GBiIdx cu GBI_DEFAULT, 0)
    else (set_GBiIdx cu GBI_DEFAULT, 0) in
  _ <- CHECK (uhCnt <=? 0) " uhCnt <= 0 " ;;
  Normal cu.

(** [CU::isGBiIdxCoded]; [getUseGBi] is the flag of the sequence parameter
    set, [isInterP] that of the slice, [GBI_SIZE_CONSTRAINT] a constant of a
    header outside the sources. *)
Definition isGBiIdxCoded (getUseGBi isInterP : bool) (GBI_SIZE_CONSTRAINT : Z)
           (cu : CodingUnit) : outcome bool :=
  if negb getUseGBi then
    _ <- CHECK (negb (GBiIdx cu =? GBI_DEFAULT)) "Error: cu.GBiIdx != GBI_DEFAULT" ;;
    Normal false
  else if (match predMode cu with MODE_INTRA => true | _ => false end) || isInterP
  then Normal false
  else if u32 (lwidth cu * lheight cu) <? u32 GBI_SIZE_CONSTRAINT then Normal false
  else if (interDir (firstPU cu) =? 3) && negb (mergeFlag (firstPU cu))
  then Normal true
  else Normal false.

End Routines.
End Gbi.

(** Inputs for the further tools. *)
Module SampleTools.

(** A B slice at POC 8 whose list 0 refers to POC 4 and list 1 to POC 12,
    and the sample block predicted from both. *)
Definition sliceB : Slice :=
  mkSlice 8 true true 0 false true 6 (fun _ => 1)
          (fun l _ => match l with REF_PIC_LIST_0 => 4 | REF_PIC_LIST_1 => 12 end)
          (fun _ _ => false) 0.

Definition blockBi : PredictionUnit :=
  mkPU (mkCU 100 MODE_INTER 2 false AFFINEMODEL_4PARAM 0)
       (mkPosition 16 16) (mkPosition 16 16) (mkPosition 31 16) (mkPosition 16 31)
       (mkPosition 31 31) (mkPosition 24 24) 16 16 (fun _ => MotionInfo0) 3 (0, 0).

(** The units above and to the left of the position (8, 8) carry the QPs
    30 and 34; no other unit is found. *)
Definition qpNeighbours (p : Position) : option Z :=
  if (pos_x p =? 8) && (pos_y p =? 7) then Some 30
  else if (pos_x p =? 7) && (pos_y p =? 8) then Some 34
  else None.

(** A bi-predicted unit that is not merged, of 16x16 luma samples. *)
Definition gbiUnit (idx : Z) : Gbi.CodingUnit :=
  Gbi.mkCU (Gbi.mkPU 3 false MRG_TYPE_DEFAULT_N) idx MODE_INTER 16 16.

End SampleTools.

(** ** Restricting bi-prediction in a merge list *)

Section BipredRestriction.
Context {cfg : BuildConfig}.
(** [pcv->only2Nx2N] and [pu.cu->lumaSize().width]. *)
Variable only2Nx2N : bool.
Variable cuLumaWidth : Z.
Variable cs : CodingStructure.
Variable pu : PredictionUnit.

(** [PU::isBipredRestriction] *)
Definition isBipredRestriction : bool :=
  if negb only2Nx2N && negb (getUseSubPuMvp (spsNext cs)) && (cuLumaWidth =? 8)
     && ((Y_width pu <? 8) || (Y_height pu <? 8))
  then true else false.

(** The body of the loop of [PU::restrictBiPredMergeCands]. *)
Definition restrictCand (mergeCand : Z) (m : MergeCtx) : MergeCtx :=
  if interDirNeighbours m mergeCand =? 3 then
    let m := set_interDir m mergeCand 1 in
    let m := set_mvField m (Z.shiftl mergeCand 1 + 1) (setMvField Mv0 (-1)) in
    if JVET_L0646_GBI then set_GBiIdx m mergeCand GBI_DEFAULT else m
  else m.

(** [PU::restrictBiPredMergeCands]; the counter is a [uint32_t], so that
    the count of the list is compared as an unsigned number. *)
Definition restrictBiPredMergeCands (m : MergeCtx) : MergeCtx :=
  if isBipredRestriction
  then forUpTo (Z.to_nat (u32 (numValidMergeCand m))) restrictCand m
  else m.

End BipredRestriction.

(** ** The affine merge candidate *)

Section AffineMerge.
Context {cfg : BuildConfig} {ops : MvOps}.
Variable cs : CodingStructure.
Variable pu : PredictionUnit.
(** [pu.getMotionInfo()] without a position; its body is in a file outside
    the sources. *)
Variable motionInfoOf : PredictionUnit -> MotionInfo.

Definition affineNeighbour (n : option PredictionUnit) : option PredictionUnit :=
  match n with
  | Some p => if affine (cu p) then Some p else None
  | None => None
  end.

(** [getFirstAvailableAffineNeighbour] *)
Definition getFirstAvailableAffineNeighbour : option PredictionUnit :=
  match affineNeighbour (puLeft cs pu) with
  | Some p => Some p
  | None =>
  match affineNeighbour (puAbove cs pu) with
  | Some p => Some p
  | None =>
  match affineNeighbour (puAboveRight cs pu) with
  | Some p => Some p
  | None =>
  match affineNeighbour (puLeftBottom cs pu) with
  | Some p => Some p
  | None => affineNeighbour (puAboveLeft cs pu)
  end end end end.

(** [PU::isAffineMrgFlagCoded]; the size is [pu.cu->lumaSize()]. *)
Definition isAffineMrgFlagCoded (cuLumaWidth cuLumaHeight : Z) : bool :=
  if (cuLumaWidth <? 8) || (cuLumaHeight <? 8) then false
  else match getFirstAvailableAffineNeighbour with Some _ => true | None => false end.

(** What [PU::getAffineMergeCand] writes: the corner fields of the two
    lists, the three reference arguments, and [pu.cu->affineType]. *)
Record AffineMergeCand : Type := mkAffineMergeCand {
  am_mvField : (MvField * MvField * MvField) * (MvField * MvField * MvField);
  am_interDir : Z;
  am_gbiIdx : Z;
  am_numValid : Z;
  am_affineType : AffineModel;
}.

Definition withAffineType (p : PredictionUnit) (t : AffineModel) : PredictionUnit :=
  mkPU (mkCU (cu_addr (cu p)) (predMode (cu p)) (cu_GBiIdx (cu p)) (affine (cu p)) t
             (imv (cu p)))
       (lumaPos p) (Y_topLeft p) (Y_topRight p) (Y_bottomLeft p) (Y_bottomRight p)
       (Y_center p) (Y_width p) (Y_height p) (getMotionInfo p) (pu_interDir p)
       (pu_refIdx p).

Definition cornerFields (c : Mv * Mv * Mv) (r : Z) : MvField * MvField * MvField :=
  let '(c0, c1, c2) := c in (setMvField c0 r, setMvField c1 r, setMvField c2 r).

(** The three corners after [setMvField( Mv(), -1 )]. *)
Definition noAffineFields : MvField * MvField * MvField :=
  (setMvField Mv0 (-1), setMvField Mv0 (-1), setMvField Mv0 (-1)).

Definition sameRefIdx (f : MvField * MvField * MvField) : Prop :=
  let '(f0, f1, f2) := f in refIdx f0 = refIdx f1 /\ refIdx f0 = refIdx f2.

(** [PU::getAffineMergeCand]; [interDir0] and [gbiIdx0] are the reference
    arguments as they come in. *)
Definition getAffineMergeCand (interDir0 gbiIdx0 : Z) : AffineMergeCand :=
  let none := noAffineFields in
  match getFirstAvailableAffineNeighbour with
  | None =>
    mkAffineMergeCand (none, none) interDir0
                      (if JVET_L0646_GBI then GBI_DEFAULT else gbiIdx0) (-1)
                      (affineType (cu pu))
  | Some n =>
    let interDir := u8 (interDir (motionInfoOf n)) in
    let pu' := withAffineType pu (affineType (cu n)) in
    let cMv := (Mv0, Mv0, Mv0) in
    let '(f0, cMv) :=
      if negb (interDir =? 2) then
        let cMv := xInheritedAffineMv pu' n REF_PIC_LIST_0 cMv in
        (cornerFields cMv (fst (pu_refIdx n)), cMv)
      else (none, cMv) in
    let f1 :=
      if isInterB (slice cs) && negb (interDir =? 1)
      then cornerFields (xInheritedAffineMv pu' n REF_PIC_LIST_1 cMv) (snd (pu_refIdx n))
      else none in
    mkAffineMergeCand (f0, f1) interDir
                      (if JVET_L0646_GBI then cu_GBiIdx (cu n) else gbiIdx0) 1
                      (affineType (cu n))
  end.

End AffineMerge.

(** Inputs for the restriction and for the affine merge candidate. *)
Module SampleRestrict.

(** An 8x4 prediction unit at (16, 16) in a coding unit 8 samples wide. *)
Definition smallBlock : PredictionUnit :=
  mkPU (mkCU 100 MODE_INTER 2 false AFFINEMODEL_4PARAM 0)
       (mkPosition 16 16) (mkPosition 16 16) (mkPosition 23 16) (mkPosition 16 19)
       (mkPosition 23 19) (mkPosition 20 18) 8 4 (fun _ => MotionInfo0) 0
       (NOT_VALID, NOT_VALID).

(** Two valid candidates: the first bi-predictive, the second from list 0. *)
Definition twoCands : MergeCtx :=
  mkMergeCtx (fun i => mkMvField (mkMv i 0 false) 0) (fun _ => 1)
             (fun k => if k =? 0 then 3 else 1) (fun _ => MRG_TYPE_DEFAULT_N) 2
             (mkMotionBuf 256 true (fun _ => MotionInfo0)).

(** An affine neighbour to the left of the sample block, with a 6-parameter
    model, predicted from list 0 with reference index 1. *)
Definition affineLeft : PredictionUnit :=
  mkPU (mkCU 99 MODE_INTER 2 true AFFINEMODEL_6PARAM 0)
       (mkPosition 0 16) (mkPosition 0 16) (mkPosition 15 16) (mkPosition 0 31)
       (mkPosition 15 31) (mkPosition 8 24) 16 16
       (fun _ => mkMotionInfo true 1 0 (mkMv 4 0 false, Mv0) (1, NOT_VALID)) 1
       (1, NOT_VALID).

Definition csAffineLeft : CodingStructure :=
  mkCS (Sample.slice 6 2 false) Sample.refPics (mkSPSNext false false false) 0
       Sample.pcv64
       (fun p => if (pos_x p =? 15) && (pos_y p =? 31) then Some affineLeft else None).

Definition motionInfoOf (p : PredictionUnit) : MotionInfo :=
  getMotionInfo p (lumaPos p).

End SampleRestrict.

(** ** Intra mode lists *)

Module Intra.

(** The mode numbers and the switch the three routines use; they are
    declared in headers outside the sources. *)
Class IntraModes : Type := {
  PLANAR_IDX : Z;
  DC_IDX : Z;
  HOR_IDX : Z;
  VER_IDX : Z;
  VDIA_IDX : Z;
  NUM_LUMA_MODE : Z;
  LM_CHROMA_IDX : Z;
  MDLM_L_IDX : Z;
  MDLM_T_IDX : Z;
  DM_CHROMA_IDX : Z;
  JVET_L0338_MDLM : bool;
  g_aiNonLMPosThrs : Z -> Z;
}.

Inductive ChannelType : Type := CHANNEL_TYPE_LUMA | CHANNEL_TYPE_CHROMA.

Definition isChroma (c : ChannelType) : bool :=
  match c with CHANNEL_TYPE_CHROMA => true | CHANNEL_TYPE_LUMA => false end.

(** A prediction unit with what the routines read: whether its coding unit
    is intra, the luma position of that unit, the two [intraDir] (unsigned),
    the position of its block in a channel, and the corners of [pu.Cb()]. *)
Record PredictionUnit : Type := mkPU {
  cu_isIntra : bool;
  cu_lumaPos : Position;
  intraDir : ChannelType -> Z;
  blockPos : ChannelType -> Position;
  Cb_topLeft : Position;
  Cb_topRight : Position;
  Cb_bottomLeft : Position;
}.

Section Routines.
Context {cfg : BuildConfig} {modes : IntraModes}.
(** [cs->pcv->numMPMs], [cs->sps->getMaxCUWidth()], and
    [cs->getPURestricted( pos, pu, channelType )] for the unit at hand. *)
Variable numMPMs : Z.
Variable getMaxCUWidth : Z.
Variable getPURestricted : Position -> ChannelType -> option PredictionUnit.

(** [CU::isSameCtu] *)
Definition isSameCtu (cu cu2 : PredictionUnit) : bool :=
  let ctuSizeBit := u32 (g_aucLog2 getMaxCUWidth) in
  (Z.shiftr (pos_x (cu_lumaPos cu)) ctuSizeBit
   =? Z.shiftr (pos_x (cu_lumaPos cu2)) ctuSizeBit)
  && (Z.shiftr (pos_y (cu_lumaPos cu)) ctuSizeBit
      =? Z.shiftr (pos_y (cu_lumaPos cu2)) ctuSizeBit).

(** The intra direction taken from a neighbour: an [int] read from the
    unsigned [intraDir]. *)
Definition neighbourDir (n : PredictionUnit) (channelType : ChannelType) : Z :=
  let d := wrap32 (intraDir n channelType) in
  if isChroma channelType && (d =? DM_CHROMA_IDX)
  then wrap32 (intraDir n CHANNEL_TYPE_LUMA) else d.

Definition leftIntraDirOf (pu : PredictionUnit) (channelType : ChannelType) : Z :=
  match getPURestricted (offset (blockPos pu channelType) (-1) 0) channelType with
  | Some n => if cu_isIntra n then neighbourDir n channelType else DC_IDX
  | None => DC_IDX
  end.

Definition aboveIntraDirOf (pu : PredictionUnit) (channelType : ChannelType) : Z :=
  match getPURestricted (offset (blockPos pu channelType) 0 (-1)) channelType with
  | Some n => if cu_isIntra n && isSameCtu pu n then neighbourDir n channelType
              else DC_IDX
  | None => DC_IDX
  end.

(** [PU::getIntraMPMs]: the value returned and the array [mpm], whose
    elements are unsigned. *)
Definition getIntraMPMs (pu : PredictionUnit) (mpm : Z -> Z) (channelType : ChannelType)
  : outcome (Z * (Z -> Z)) :=
  let leftIntraDir := leftIntraDirOf pu channelType in
  let aboveIntraDir := aboveIntraDirOf pu channelType in
  _ <- CHECK (2 >=? u32 numMPMs) "Invalid number of most probable modes" ;;
  let offset := 61 in
  let mod_ := 64 in
  let '(numCand, mpm) :=
    if leftIntraDir =? aboveIntraDir then
      if leftIntraDir >? DC_IDX then
        (1, upd (upd (upd mpm 0 (u32 leftIntraDir))
                     1 (u32 (add32 (Z.rem (add32 leftIntraDir offset) mod_) 2)))
                2 (u32 (add32 (Z.rem (sub32 leftIntraDir 1) mod_) 2)))
      else
        (1, upd (upd (upd mpm 0 (u32 PLANAR_IDX)) 1 (u32 DC_IDX)) 2 (u32 VER_IDX))
    else
      let mpm := upd (upd mpm 0 (u32 leftIntraDir)) 1 (u32 aboveIntraDir) in
      if negb (leftIntraDir =? 0) && negb (aboveIntraDir =? 0)
      then (2, upd mpm 2 (u32 PLANAR_IDX))
      else (2, upd mpm 2 (u32 (if add32 leftIntraDir aboveIntraDir <? 2
                               then VER_IDX else DC_IDX))) in
  _ <- CHECK (existsb (fun i => mpm i >=? u32 NUM_LUMA_MODE)
                      (map Z.of_nat (seq 0 (Z.to_nat (u32 numMPMs)))))
             "Invalid MPM" ;;
  _ <- CHECK (numCand =? 0) "No candidates found" ;;
  Normal (numCand, mpm).

(** [PU::getIntraChromaCandModes]: the array [modeList] after the call.
    [lumaPUOfPicture] is what [pu.cs->picture->cs->getPU( .., CHANNEL_TYPE_LUMA
    )] finds in a dual tree. *)
Definition chromaCandDefaults (modeList : Z -> Z) : Z -> Z :=
  let l := upd (upd (upd (upd (upd modeList 0 (u32 PLANAR_IDX)) 1 (u32 VER_IDX))
                         2 (u32 HOR_IDX)) 3 (u32 DC_IDX)) 4 (u32 LM_CHROMA_IDX) in
  if JVET_L0338_MDLM
  then upd (upd (upd l 5 (u32 MDLM_L_IDX)) 6 (u32 MDLM_T_IDX)) 7 (u32 DM_CHROMA_IDX)
  else upd l 5 (u32 DM_CHROMA_IDX).

(** The loop over the first four entries, with its [break]. *)
Fixpoint replaceFirst (lumaMode : Z) (idxs : list Z) (modeList : Z -> Z) : Z -> Z :=
  match idxs with
  | [] => modeList
  | i :: rest =>
    if lumaMode =? modeList i then upd modeList i (u32 VDIA_IDX)
    else replaceFirst lumaMode rest modeList
  end.

Definition getIntraChromaCandModes (isDualITree : bool)
           (lumaPUOfPicture : option PredictionUnit) (pu : PredictionUnit)
           (modeList : Z -> Z) : outcome (Z -> Z) :=
  let modeList := chromaCandDefaults modeList in
  lumaPU <- (if isDualITree
             then match lumaPUOfPicture with
                  | Some p => Normal p
                  | None => Undefined "null pointer dereference"
                  end
             else Normal pu) ;;
  let lumaMode := intraDir lumaPU CHANNEL_TYPE_LUMA in
  Normal (replaceFirst lumaMode [0; 1; 2; 3] modeList).

(** [PU::isLMCMode] *)
Definition isLMCMode (mode : Z) : bool :=
  if JVET_L0338_MDLM
  then (mode >=? u32 LM_CHROMA_IDX) && (mode <=? u32 MDLM_T_IDX)
  else mode =? u32 LM_CHROMA_IDX.

(** The five neighbours [PU::getLMSymbolList] looks at. *)
Definition lmNeighbours (pu : PredictionUnit) : list (option PredictionUnit) :=
  [ getPURestricted (offset (Cb_bottomLeft pu) (-1) 0) CHANNEL_TYPE_CHROMA;
    getPURestricted (offset (Cb_topRight pu) 0 (-1)) CHANNEL_TYPE_CHROMA;
    getPURestricted (offset (Cb_topRight pu) 1 (-1)) CHANNEL_TYPE_CHROMA;
    getPURestricted (offset (Cb_bottomLeft pu) (-1) 1) CHANNEL_TYPE_CHROMA;
    getPURestricted (offset (Cb_topLeft pu) (-1) (-1)) CHANNEL_TYPE_CHROMA ].

Definition countsAsNonLM (n : option PredictionUnit) : bool :=
  match n with
  | Some p =>
    cu_isIntra p
    && negb (isLMCMode (u32 (wrap32 (intraDir p CHANNEL_TYPE_CHROMA))))
  | None => false
  end.

(** [PU::getLMSymbolList]: the entries written to [pModeList], in order;
    their number is the value returned. *)
Definition getLMSymbolList (pu : PredictionUnit) : list Z :=
  let iCount := Z.of_nat (List.length (filter countsAsNonLM (lmNeighbours pu))) in
  let l := [LM_CHROMA_IDX] in
  let '(l, bNonLMInsert) :=
    if (iCount >=? g_aiNonLMPosThrs 0) && negb false then (l ++ [-1], true)
    else (l, false) in
  let l := if JVET_L0338_MDLM then l ++ [MDLM_L_IDX; MDLM_T_IDX] else l in
  let '(l, bNonLMInsert) :=
    if (iCount >=? g_aiNonLMPosThrs 1) && negb bNonLMInsert then (l ++ [-1], true)
    else (l, bNonLMInsert) in
  let '(l, bNonLMInsert) :=
    if negb bNonLMInsert then (l ++ [-1], true) else (l, bNonLMInsert) in
  l.

End Routines.
End Intra.

(** Mode numbers for the evaluation of the intra lists: 67 luma modes,
    planar 0, DC 1, horizontal 18, vertical 50, diagonal 66. *)
Module SampleIntra.
Import Intra.

Definition modes : IntraModes :=
  {| PLANAR_IDX := 0; DC_IDX := 1; HOR_IDX := 18; VER_IDX := 50; VDIA_IDX := 66;
     NUM_LUMA_MODE := 67; LM_CHROMA_IDX := 67; MDLM_L_IDX := 68; MDLM_T_IDX := 69;
     DM_CHROMA_IDX := 70; JVET_L0338_MDLM := true;
     g_aiNonLMPosThrs := fun i => if i =? 0 then 3 else 1 |}.

(** An intra unit at (16, 16) whose luma direction is [d]. *)
Definition unit_ (x y d : Z) : PredictionUnit :=
  mkPU true (mkPosition x y) (fun c => if isChroma c then 70 else d)
       (fun _ => mkPosition x y) (mkPosition x y) (mkPosition (x + 7) y)
       (mkPosition x (y + 7)).

(** The left neighbour has direction 34, the above one 50. *)
Definition neighbours (p : Position) (_ : ChannelType) : option PredictionUnit :=
  if (pos_x p =? 15) && (pos_y p =? 16) then Some (unit_ 8 16 34)
  else if (pos_x p =? 16) && (pos_y p =? 15) then Some (unit_ 16 8 50)
  else None.

End SampleIntra.

(** ** Further routines of [EncCu.cpp] *)

Module EncCuTools.
Import EncCu.

(** *** Limiting the candidates by their costs *)

(** The loop of [EncCu::updateRdCheckingNum]; [costList] is the
    [static_vector] of [double]s. *)
Fixpoint firstAboveThreshold (fuel : nat) (threshold : float) (costList : Z -> float)
         (i numMergeSatdCand : Z) : Z :=
  match fuel with
  | O => numMergeSatdCand
  | S fuel' =>
    if i <? numMergeSatdCand then
      if PrimFloat.ltb threshold (costList i) then i
      else firstAboveThreshold fuel' threshold costList (i + 1) numMergeSatdCand
    else numMergeSatdCand
  end.

(** [EncCu::updateRdCheckingNum]; the count is an [unsigned int], and the
    loop ends after that many rounds. *)
Definition updateRdCheckingNum (threshold : float) (numMergeSatdCand : Z)
           (costList : Z -> float) : Z :=
  firstAboveThreshold (Z.to_nat numMergeSatdCand) threshold costList 0 numMergeSatdCand.

(** *** Delta QP *)

Definition set_qp (cu : CodingUnit) (v : Z) : CodingUnit :=
  mkCU (skip cu) (firstPU cu) (predMode cu) v (chType cu) (tileIdx cu) (rootCbf cu)
       (lumaSizeArea cu).

Definition set_cus (c : CodingStructure) (l : list CodingUnit) : CodingStructure :=
  mkCS l (cost c) (fracBits c) (dist c) (costDbOffset c) (useDbCost c) (prevQP c)
       (isDualITree c) (areaTileIdx c) (areaLumaSizeArea c).

Definition set_fracBits_cost (c : CodingStructure) (b : Z) (v : float)
  : CodingStructure :=
  mkCS (cus c) v b (dist c) (costDbOffset c) (useDbCost c) (prevQP c)
       (isDualITree c) (areaTileIdx c) (areaLumaSizeArea c).

(** [cu->rootCbf && !isChroma( cu->chType )] *)
Definition codedLuma (cu : CodingUnit) : bool :=
  rootCbf cu && negb (match chType cu with CHROMA => true | LUMA => false end).

(** The loop that resets the QP of the units up to the first coded one. *)
Fixpoint resetUntilCoded (predQP : Z) (l : list CodingUnit) : list CodingUnit :=
  match l with
  | [] => []
  | cu :: rest =>
    if codedLuma cu then cu :: rest
    else set_qp cu predQP :: resetUntilCoded predQP rest
  end.

Section DQP.
Variable Ctx : Type.
Variable Partitioner : Type.
(** [cs.pps->getUseDQP()], the partitioner's [isSepTree( cs )], [chType],
    [currQgEnable()] and whether [getImplicitSplit( cs )] is
    [CU_DONT_SPLIT]; [cs.getCU( chType )]; [CU::predictQP]; the estimator's
    [resetBits(); cu_qp_delta( cu, predQP, qp ); getEstFracBits()] with the
    context it leaves; the assignment of the saved [Ctx::DeltaQP]
    sub-context to the context; [m_pcRdCost->calcRdCost]. *)
Variable getUseDQP : bool.
Variable isSepTree : Partitioner -> CodingStructure -> bool.
Variable partitioner_chType : Partitioner -> ChannelType.
Variable currQgEnable : Partitioner -> bool.
Variable implicitSplitIsDontSplit : Partitioner -> CodingStructure -> bool.
Variable getCU : CodingStructure -> ChannelType -> option CodingUnit.
Variable predictQP : CodingUnit -> Z -> outcome Z.
Variable cu_qp_delta : Ctx -> CodingUnit -> Z -> Z -> Z * Ctx.
Variable restoreDeltaQP : Ctx -> Ctx -> Ctx.
Variable calcRdCost : Z -> Z -> float.

(** [EncCu::xCheckDQP]: the coding structure and the estimator's context
    after the call.  [fracBits] is a [uint64_t].  The conversion of the
    predicted QP to the type of the member [qp], which is declared outside
    the sources, is left out. *)
Definition xCheckDQP (cs : CodingStructure) (partitioner : Partitioner)
           (bKeepCtx : bool) (ctx : Ctx) : outcome (CodingStructure * Ctx) :=
  let size := Z.of_nat (List.length (cus cs)) in
  _ <- CHECK (bKeepCtx && (size <=? 1) && implicitSplitIsDontSplit partitioner cs)
             "bKeepCtx should only be set in split case" ;;
  _ <- CHECK (negb bKeepCtx && (size >? 1))
             "bKeepCtx should never be set for non-split case" ;;
  if negb getUseDQP then Normal (cs, ctx)
  else if isSepTree partitioner cs
          && (match partitioner_chType partitioner with CHROMA => true | LUMA => false end)
  then Normal (cs, ctx)
  else if negb (currQgEnable partitioner) then Normal (cs, ctx)
  else
    match getCU cs (partitioner_chType partitioner) with
    | None => Thrown "No CU available"
    | Some cuFirst =>
      let hasResidual := existsb codedLuma (cus cs) in
      predQP <- predictQP cuFirst (prevQP cs (partitioner_chType partitioner)) ;;
      if hasResidual then
        let '(bits, ctx') := cu_qp_delta ctx cuFirst predQP (qp cuFirst) in
        let fracBits' := (fracBits cs + bits) mod 18446744073709551616 in
        let cs := set_fracBits_cost cs fracBits' (calcRdCost fracBits' (dist cs)) in
        let ctx' := if negb bKeepCtx then restoreDeltaQP ctx ctx' else ctx' in
        Normal (set_cus cs (resetUntilCoded predQP (cus cs)), ctx')
      else
        Normal (set_cus cs (map (fun cu => set_qp cu predQP) (cus cs)), ctx)
    end.

End DQP.

End EncCuTools.

(** A structure of three luma units of which the second is coded, and
    collaborators for [xCheckDQP]: the predicted QP is the previous QP,
    signalling the delta costs 3 bits and moves the context on by one. *)
Module SampleDqp.
Import EncCu.

Definition coded : CodingUnit :=
  mkCU false (Some (mkPU false)) MODE_INTER 33 LUMA 0 true 64.
Definition plain : CodingUnit :=
  mkCU false (Some (mkPU false)) MODE_INTER 35 LUMA 0 false 64.
Definition units : CodingStructure := SampleEncCu.region 12 [plain; coded; plain].

Definition xCheckDQP (cs : CodingStructure) (bKeepCtx : bool) (ctx : Z)
  : outcome (CodingStructure * Z) :=
  EncCuTools.xCheckDQP Z unit true (fun _ _ => false) (fun _ => LUMA)
    (fun _ => true) (fun _ _ => false) (fun c _ => hd_error (cus c))
    (fun _ prev => Normal prev) (fun ctx _ _ _ => (3, ctx + 1)) (fun saved _ => saved)
    SampleEncCu.calcRdCost cs tt bKeepCtx ctx.

Definition unitsAfter : CodingStructure :=
  EncCuTools.set_cus (EncCuTools.set_fracBits_cost units 103 0)
                     [EncCuTools.set_qp plain 30; coded; plain].

End SampleDqp.

(** * Properties *)

(** ** Temporal scaling *)

Section ColocatedFacts.
Context {cfg : BuildConfig} {ops : MvOps}.

Lemma xGetDistScaleFactor_equal (a b c d : Z) :
  sub32 c d = sub32 a b -> xGetDistScaleFactor a b c d = Normal 4096.
Proof.
  intros H. unfold xGetDistScaleFactor. rewrite H, Z.eqb_refl. reflexivity.
Qed.

Lemma Clip3_le_max (lo hi a : Z) : Clip3 lo hi a <= hi.
Proof. unfold Clip3. lia. Qed.

(** The scaling branch never yields the no-scaling constant. *)
Lemma xGetDistScaleFactor_scaled (a b c d s : Z) :
  sub32 c d <> sub32 a b -> xGetDistScaleFactor a b c d = Normal s -> s <= 4095.
Proof.
  intros Hne. unfold xGetDistScaleFactor.
  destruct (Z.eqb_spec (sub32 c d) (sub32 a b)) as [E | _]; [contradiction |].
  destruct (Clip3 (-128) 127 (sub32 c d) =? 0); [discriminate |].
  intros H. injection H as <-. apply Clip3_le_max.
Qed.

End ColocatedFacts.


Section ColocatedClaims.
Context {cfg : BuildConfig} {ops : MvOps}.
Variable cs : CodingStructure.
Variable eRefPicList : RefPicList.
Variable pos : Position.
Variable refIdx : Z.

Lemma getColocatedMVP_at_longTermTest pColPic eCol iCol colSlice currRef :
  reachesLongTermTest cs eRefPicList pos refIdx pColPic eCol iCol colSlice currRef ->
  getColocatedMVP cs eRefPicList pos refIdx =
  let mi := pic_getMotionInfo pColPic (compressPos cs pos) in
  if negb (Bool.eqb (longTerm currRef) (getIsUsedAsLongTerm colSlice eCol iCol))
  then Normal None
  else if longTerm currRef then Normal (Some (sel (mi_mv mi) eCol))
  else
    distscale <- xGetDistScaleFactor (getPOC (slice cs)) (poc currRef)
                   (getPOC colSlice) (getRefPOC colSlice eCol iCol) ;;
    if distscale =? 4096 then Normal (Some (sel (mi_mv mi) eCol))
    else Normal (Some (scaleMv
           (if negb REMOVE_MV_ADAPT_PREC && getUseHighPrecMv (spsNext cs)
            then setHighPrec (sel (mi_mv mi) eCol) else sel (mi_mv mi) eCol)
           distscale)).
Proof.
  intros (Hpic & Hinter & Hcol & Hslice & Href).
  unfold getColocatedMVP.
  rewrite Hpic, Hinter, Hcol, Hslice, Href. reflexivity.
Qed.

(** C4. In temporal motion-vector scaling, whenever the POC distance of the
    current picture to its reference equals the POC distance of the
    collocated picture to its reference, [xGetDistScaleFactor] returns the
    no-scaling constant 4096, and [getColocatedMVP] (which got as far as
    scaling: both references agree in long-term status) returns [true] with
    the collocated motion vector copied unchanged. *)
Theorem C4_equal_distance_copies_unscaled
        pColPic eCol iCol colSlice currRef :
  reachesLongTermTest cs eRefPicList pos refIdx pColPic eCol iCol colSlice currRef ->
  longTerm currRef = getIsUsedAsLongTerm colSlice eCol iCol ->
  sub32 (getPOC colSlice) (getRefPOC colSlice eCol iCol)
  = sub32 (getPOC (slice cs)) (poc currRef) ->
  xGetDistScaleFactor (getPOC (slice cs)) (poc currRef)
                      (getPOC colSlice) (getRefPOC colSlice eCol iCol)
  = Normal 4096
  /\ getColocatedMVP cs eRefPicList pos refIdx
     = Normal (Some (sel (mi_mv (pic_getMotionInfo pColPic (compressPos cs pos))) eCol)).
Proof.
  intros Hreach Hlt Hdist.
  pose proof (xGetDistScaleFactor_equal _ _ _ _ Hdist) as Hscale.
  split; [exact Hscale |].
  rewrite (getColocatedMVP_at_longTermTest _ _ _ _ _ Hreach).
  cbv zeta. rewrite Hlt, Bool.eqb_reflx. cbn [negb].
  destruct (getIsUsedAsLongTerm colSlice eCol iCol); [reflexivity |].
  rewrite Hscale. reflexivity.
Qed.

(** C5. [getColocatedMVP] returns [false] whenever the current reference
    picture and the collocated reference disagree in long-term status, and
    when both are long-term it returns [true] with the collocated motion
    vector copied without scaling. *)
Theorem C5_long_term_rule pColPic eCol iCol colSlice currRef :
  reachesLongTermTest cs eRefPicList pos refIdx pColPic eCol iCol colSlice currRef ->
  (longTerm currRef <> getIsUsedAsLongTerm colSlice eCol iCol ->
   getColocatedMVP cs eRefPicList pos refIdx = Normal None)
  /\ (longTerm currRef = true ->
      getIsUsedAsLongTerm colSlice eCol iCol = true ->
      getColocatedMVP cs eRefPicList pos refIdx
      = Normal (Some (sel (mi_mv (pic_getMotionInfo pColPic (compressPos cs pos))) eCol))).
Proof.
  intros Hreach.
  rewrite (getColocatedMVP_at_longTermTest _ _ _ _ _ Hreach). cbv zeta.
  split.
  - intros Hne.
    destruct (longTerm currRef), (getIsUsedAsLongTerm colSlice eCol iCol);
      try reflexivity; exfalso; apply Hne; reflexivity.
  - intros Hc Hl. rewrite Hc, Hl. reflexivity.
Qed.

End ColocatedClaims.

Lemma C4_witness :
  xGetDistScaleFactor 8 4 4 0 = Normal 4096
  /\ @getColocatedMVP Sample.cfg Sample.ops (Sample.csAlone 6 2 true)
       REF_PIC_LIST_0 (mkPosition 16 16) 0
     = Normal (Some (mkMv 4 0 false)).
Proof.
  apply (@C4_equal_distance_copies_unscaled Sample.cfg Sample.ops
           (Sample.csAlone 6 2 true) REF_PIC_LIST_0 (mkPosition 16 16) 0
           Sample.colPic REF_PIC_LIST_0 0 Sample.colSlice Sample.colPic).
  - repeat split; reflexivity.
  - reflexivity.
  - reflexivity.
Defined.

Lemma C5_witness :
  @getColocatedMVP Sample.cfg Sample.ops (Sample.csAlone 6 2 true)
     REF_PIC_LIST_0 (mkPosition 16 16) 1 = Normal None
  /\ @getColocatedMVP Sample.cfg Sample.ops Sample.csLongTerm
       REF_PIC_LIST_0 (mkPosition 16 16) 1 = Normal (Some (mkMv 4 0 false)).
Proof.
  split.
  - apply (proj1 (@C5_long_term_rule Sample.cfg Sample.ops
             (Sample.csAlone 6 2 true) REF_PIC_LIST_0 (mkPosition 16 16) 1
             Sample.colPic REF_PIC_LIST_0 0 Sample.colSlice Sample.longTermPic
             ltac:(repeat split; reflexivity))).
    discriminate.
  - apply (proj2 (@C5_long_term_rule Sample.cfg Sample.ops
             Sample.csLongTerm REF_PIC_LIST_0 (mkPosition 16 16) 1
             Sample.colPicLT REF_PIC_LIST_0 0 Sample.colSliceLT Sample.longTermPic
             ltac:(repeat split; reflexivity))); reflexivity.
Defined.

(** ** The best-mode ledger *)

Section LedgerClaims.
Import EncCu.
Variables Ctx ModeCtrl EncTestMode Partitioner : Type.
Variable useModeResult :
  ModeCtrl -> EncTestMode -> CodingStructure -> Partitioner ->
  bool * ModeCtrl * CodingStructure.

(** [xCheckBestMode] returns unless the [CHECK] on a skipped unit fires. *)
Lemma xCheckBestMode_returns (s : EncCuState Ctx ModeCtrl) tempCS bestCS
      (partitioner : Partitioner) (encTestMode : EncTestMode) :
  checkSkipMerge (objects s tempCS) = Normal tt ->
  exists r, xCheckBestMode useModeResult s tempCS bestCS partitioner encTestMode
            = Normal r.
Proof.
  intros Hchk. unfold xCheckBestMode.
  destruct (cus (objects s tempCS)) as [| cu0 rest] eqn:Hcus; cbn.
  - eexists; reflexivity.
  - rewrite Hchk. cbn.
    destruct (useModeResult _ _ _ _) as [[use ctrl] temp'].
    destruct use; cbn; eexists; reflexivity.
Qed.


End LedgerClaims.


(** ** Split acceptance *)

Lemma float_tie_not_less (a b : float) :
  PrimFloat.eqb a b = true -> PrimFloat.ltb a b = false.
Proof.
  rewrite FloatAxioms.eqb_spec, FloatAxioms.ltb_spec. unfold SFeqb, SFltb.
  destruct (SFcompare (Prim2SF a) (Prim2SF b)) as [[] |]; congruence.
Qed.

Section SplitClaims.
Import EncCu.
Variables Ctx EncTestMode Partitioner : Type.
Variable MAX_DOUBLE : float.
Variable calcRdCost : Z -> Z -> float.
Variable getUseEncDbOpt : bool.
Variable getPartSplit : EncTestMode -> Z.
Variable xCheckDQP :
  CodingStructure -> Partitioner -> Ctx -> outcome (CodingStructure * Ctx).

(** The ledger under the controller modelled from the spec: the decision is
    the strict comparison with the remembered best cost, and no structure
    changes. *)
Lemma xCheckBestMode_spec_decision
      (s : EncCuState Ctx float) tempCS bestCS (partitioner : Partitioner)
      (encTestMode : EncTestMode) updated tempCS' bestCS' s' :
  xCheckBestMode useModeResult_spec s tempCS bestCS partitioner encTestMode
  = Normal (updated, tempCS', bestCS', s') ->
  (forall p, objects s' p = objects s p)
  /\ (updated = true ->
      PrimFloat.ltb (cost (objects s tempCS)) (m_modeCtrl s) = true
      /\ tempCS' = bestCS /\ bestCS' = tempCS)
  /\ (updated = false -> tempCS' = tempCS /\ bestCS' = bestCS)
  /\ (PrimFloat.ltb (cost (objects s tempCS)) (m_modeCtrl s) = false ->
      updated = false).
Proof.
  unfold xCheckBestMode.
  destruct (cus (objects s tempCS)) as [| cu0 rest]; cbn.
  - intros H; injection H as <- <- <- <-. cbn.
    repeat split; try reflexivity; discriminate.
  - destruct (checkSkipMerge _) as [[] | msg | why]; cbn; try discriminate.
    unfold useModeResult_spec.
    destruct (PrimFloat.ltb (cost (objects s tempCS)) (m_modeCtrl s)) eqn:Hlt;
      cbn; intros H; injection H as <- <- <- <-; cbn.
    + repeat split; try reflexivity; try discriminate.
      intros p. unfold upd. destruct (Z.eqb_spec p tempCS); subst; reflexivity.
    + repeat split; try reflexivity; try discriminate.
      intros p. unfold upd. destruct (Z.eqb_spec p tempCS); subst; reflexivity.
Qed.


End SplitClaims.


(** ** The finishing block of [xCompressCU] *)

Lemma last_map_Some {A : Type} (l : list A) (a : A) :
  exists b, last (map Some (a :: l)) None = Some b.
Proof.
  revert a. induction l as [| x l IH]; intros a.
  - exists a. reflexivity.
  - destruct (IH x) as [b Hb]. exists b. exact Hb.
Qed.

Section FinishClaims.
Import EncCu.
Variables Ctx ModeCtrl Partitioner : Type.
Variable MAX_DOUBLE : float.
Variable finishCULevel : ModeCtrl -> Partitioner -> ModeCtrl.

(** Past the early return the finishing block hands back a value only by
    running to its end. *)
Lemma xCompressCU_finish_completes
      (s : EncCuState Ctx ModeCtrl) tempCS bestCS (partitioner : Partitioner) chTy r :
  PrimFloat.eqb (cost (objects s tempCS)) MAX_DOUBLE
  && PrimFloat.eqb (cost (objects s bestCS)) MAX_DOUBLE = false ->
  xCompressCU_finish MAX_DOUBLE finishCULevel s tempCS bestCS partitioner chTy
  = Normal r ->
  exists s', r = Finalized s'.
Proof.
  unfold xCompressCU_finish. intros -> H.
  destruct (last _ _) as [back |]; [| discriminate].
  match type of H with obind ?o _ = _ => destruct o as [q | |] end;
    cbn [obind] in H; try discriminate.
  destruct (cus (objects s bestCS)) as [| cu0 rest]; [discriminate |].
  repeat match type of H with
         | obind ?o _ = _ => destruct o as [[] | |]; cbn [obind] in H; try discriminate
         end.
  injection H as <-. eexists. reflexivity.
Qed.


End FinishClaims.



(** A best region with a unit but the sentinel cost, next to a temp region
    that was costed: the last [CHECK] raises. *)
Example xCompressCU_finish_sentinel_best :
  EncCu.xCompressCU_finish SampleEncCu.MAX_DOUBLE SampleEncCu.finishCULevel
    (SampleEncCu.node 10 SampleEncCu.MAX_DOUBLE
                      [SampleEncCu.mergedSkip] [SampleEncCu.mergedSkip])
    1 2 tt EncCu.LUMA
  = Thrown "No possible encoding found".
Proof. reflexivity. Qed.

(** An empty best region next to a costed temp region: [cus.back()] is
    reached before the [CHECK] on emptiness. *)
Example xCompressCU_finish_empty_best :
  EncCu.xCompressCU_finish SampleEncCu.MAX_DOUBLE SampleEncCu.finishCULevel
    (SampleEncCu.node 10 SampleEncCu.MAX_DOUBLE [SampleEncCu.mergedSkip] [])
    1 2 tt EncCu.LUMA
  = Undefined "back() of an empty vector".
Proof. reflexivity. Qed.

(** ** AMVP lists *)

Ltac break_if :=
  match goal with
  | |- context [if ?c then _ else _] =>
    lazymatch c with
    | context [if _ then _ else _] => fail
    | context [match _ with _ => _ end] => fail
    | _ => destruct c eqn:?
    end
  end.

Section AmvpFacts.
Context {cfg : BuildConfig} {ops : MvOps}.
Variable cs : CodingStructure.
Variable pu : PredictionUnit.

Lemma unscaledFromList_count poc0 mi l info aff info' :
  unscaledFromList cs poc0 mi l info aff = Some info' ->
  numCand info' = numCand info + 1.
Proof.
  unfold unscaledFromList. repeat break_if; intros H; inversion H; reflexivity.
Qed.

Lemma addMVPCandUnscaled_count l r pos d info aff :
  addsAtMostOne info (addMVPCandUnscaled cs l r pos d info aff).
Proof.
  unfold addsAtMostOne, addMVPCandUnscaled. intros b info'.
  destruct (getPURestricted cs _) as [neib |]; [| intros H; inversion H; subst; cbn; lia].
  destruct (negb (CU_isInter _)); [intros H; inversion H; subst; cbn; lia |].
  destruct (getRefPic cs l r) as [ref |]; [| discriminate].
  destruct (unscaledFromList _ _ _ l _ _) as [i1 |] eqn:H1.
  - apply unscaledFromList_count in H1. intros H; inversion H; subst; cbn; lia.
  - destruct (unscaledFromList _ _ _ (otherList l) _ _) as [i2 |] eqn:H2.
    + apply unscaledFromList_count in H2. intros H; inversion H; subst; cbn; lia.
    + intros H; inversion H; subst; cbn; lia.
Qed.

Lemma scaledFromList_count a b lt mi l info aff info' :
  scaledFromList cs a b lt mi l info aff = Normal (Some info') ->
  numCand info' = numCand info + 1.
Proof.
  unfold scaledFromList.
  break_if; [| discriminate].
  destruct (getRefPic cs l _) as [ref |]; [| discriminate].
  break_if; [| discriminate].
  match goal with |- context [obind ?o _] => destruct o as [cMv | |] end;
    cbn; try discriminate.
  repeat break_if; intros H; inversion H; reflexivity.
Qed.

Lemma addMVPCandWithScaling_count l r pos d info aff :
  addsAtMostOne info (addMVPCandWithScaling cs l r pos d info aff).
Proof.
  unfold addsAtMostOne, addMVPCandWithScaling. intros b info'.
  destruct (getPURestricted cs _) as [neib |]; [| intros H; inversion H; subst; cbn; lia].
  destruct (negb (CU_isInter _)); [intros H; inversion H; subst; cbn; lia |].
  destruct (getRefPic cs l r) as [ref |]; [| discriminate].
  destruct (scaledFromList _ _ _ _ _ l _ _) as [[i1 |] | |] eqn:H1; cbn; try discriminate.
  - apply scaledFromList_count in H1. intros H; inversion H; subst; cbn; lia.
  - destruct (scaledFromList _ _ _ _ _ (otherList l) _ _) as [[i2 |] | |] eqn:H2; cbn; try discriminate.
    + apply scaledFromList_count in H2. intros H; inversion H; subst; cbn; lia.
    + intros H; inversion H; subst; cbn; lia.
Qed.

Lemma orElse_count info a next :
  addsAtMostOne info a ->
  (forall i, addsAtMostOne i (next i)) ->
  addsAtMostOne info (orElse a next).
Proof.
  intros Ha Hn b info'. unfold orElse.
  destruct a as [[b1 i1] | |]; cbn; try discriminate.
  specialize (Ha b1 i1 eq_refl).
  destruct b1.
  - intros H; inversion H; subst; cbn; lia.
  - intros H. apply Hn in H. lia.
Qed.

Lemma padCands_count fuel info :
  0 <= numCand info <= AMVP_MAX_NUM_CANDS ->
  fuel = Z.to_nat (AMVP_MAX_NUM_CANDS - numCand info) ->
  numCand (padCands fuel info) = AMVP_MAX_NUM_CANDS.
Proof.
  unfold AMVP_MAX_NUM_CANDS.
  revert info. induction fuel as [| fuel IH]; intros info Hn Hf; cbn.
  - lia.
  - unfold AMVP_MAX_NUM_CANDS.
    destruct (Z.ltb_spec (numCand info) 2) as [Hlt | Hge]; [| lia].
    apply IH; unfold pushCand; cbn [numCand]; lia.
Qed.

Lemma forUpTo_invariant {S : Type} (P : S -> Prop) n body (s : S) :
  P s -> (forall i t, P t -> P (body i t)) -> P (forUpTo n body s).
Proof.
  intros H0 Hstep. induction n as [| n IH]; cbn; auto.
Qed.

Lemma roundCands_count info sh : numCand (roundCands info sh) = numCand info.
Proof.
  unfold roundCands.
  apply (forUpTo_invariant (fun i => numCand i = numCand info)); [reflexivity |].
  intros i t Ht. exact Ht.
Qed.

Lemma forAllCands_count mem f info : numCand (forAllCands mem f info) = numCand info.
Proof.
  unfold forAllCands.
  apply (forUpTo_invariant (fun i => numCand i = numCand info)); [reflexivity |].
  intros i t Ht. exact Ht.
Qed.

Lemma temporalCand_count l r info info' :
  temporalCand cs pu l r info = Normal info' ->
  numCand info <= numCand info' <= numCand info + 1.
Proof.
  unfold temporalCand. break_if; [| intros H; inversion H; subst; cbn; lia].
  destruct (colocatedC0C1 _ _ _ _ _ _) as [[m |] | |]; cbn;
    intros H; inversion H; subst; cbn; lia.
Qed.

(** [fillMvpCand] leaves exactly two candidates when the reference index
    is valid, none when it is negative. *)
Lemma fillMvpCand_count l r a info' :
  fillMvpCand cs pu l r a = Normal info' ->
  numCand info' = if r <? 0 then 0 else AMVP_MAX_NUM_CANDS.
Proof.
  unfold fillMvpCand. destruct (r <? 0); [intros H; inversion H; reflexivity |].
  set (i0 := mkAMVPInfo (mvCand a) 0).
  set (flag := if interAt cs _ then true else interAt cs _).
  match goal with |- context [obind ?o _] => destruct o as [[b1 i1] | |] eqn:H1 end;
    cbn; try discriminate.
  assert (Hc1 : 0 <= numCand i1 <= 1).
  { revert H1. destruct flag.
    - intros H1.
      assert (Hx : addsAtMostOne i0 (Normal (b1, i1))).
      { rewrite <- H1. repeat (apply orElse_count; [| intros ?]);
          first [apply addMVPCandUnscaled_count | apply addMVPCandWithScaling_count]. }
      specialize (Hx _ _ eq_refl). unfold i0 in Hx. cbn [numCand] in Hx. destruct b1; lia.
    - intros H1; inversion H1; subst; unfold i0; cbn [numCand]; lia. }
  clear H1.
  match goal with |- context [obind ?o _] => destruct o as [[b2 i2] | |] eqn:H2 end;
    cbn; try discriminate.
  assert (Hc2 : numCand i1 <= numCand i2 <= numCand i1 + 1).
  { assert (Hx : addsAtMostOne i1 (Normal (b2, i2))).
    { rewrite <- H2. repeat (apply orElse_count; [| intros ?]);
        apply addMVPCandUnscaled_count. }
    specialize (Hx _ _ eq_refl). destruct b2; lia. }
  clear H2.
  match goal with |- context [obind ?o _] => destruct o as [[b3 i3] | |] eqn:H3 end;
    cbn; try discriminate.
  assert (Hc3 : numCand i2 <= numCand i3 <= numCand i2 + 1).
  { revert H3. destruct flag; cbn [negb].
    - intros H3; inversion H3; subst; lia.
    - intros H3.
      assert (Hx : addsAtMostOne i2 (Normal (b3, i3))).
      { rewrite <- H3. repeat (apply orElse_count; [| intros ?]);
          apply addMVPCandWithScaling_count. }
      specialize (Hx _ _ eq_refl). destruct b3; lia. }
  clear H3.
  set (i4 := if negb (imv (cu pu) =? 0) then _ else i3).
  assert (Hc4 : numCand i4 = numCand i3).
  { subst i4. break_if; [apply roundCands_count | reflexivity]. }
  set (i5 := if _ && _ then _ else i4).
  assert (Hc5 : 0 <= numCand i5 <= numCand i4).
  { subst i5. destruct (Z.eqb_spec (numCand i4) 2); cbn [andb];
      [destruct (Mv_eqb _ _) |]; cbn; lia. }
  destruct (temporalCand cs pu l r i5) as [i6 | |] eqn:H6; cbn; try discriminate.
  apply temporalCand_count in H6.
  set (i7 := if numCand i6 >? AMVP_MAX_NUM_CANDS then _ else i6).
  assert (Hc7 : 0 <= numCand i7 <= AMVP_MAX_NUM_CANDS).
  { subst i7. destruct (Z.gtb_spec (numCand i6) AMVP_MAX_NUM_CANDS); cbn; [unfold AMVP_MAX_NUM_CANDS |]; lia. }
  intros H; inversion H; subst info'; clear H.
  repeat first [rewrite forAllCands_count | rewrite roundCands_count
               | match goal with
                 | |- context [numCand (if ?c then _ else _)] => destruct c
                 end].
  all: apply padCands_count; auto.
Qed.

Lemma inheritedBody_count poc0 l acc n :
  0 <= aff_numCand (fst acc) <= AMVP_MAX_NUM_CANDS ->
  0 <= aff_numCand (fst (inheritedBody cs pu poc0 l acc n)) <= AMVP_MAX_NUM_CANDS.
Proof.
  unfold AMVP_MAX_NUM_CANDS. destruct acc as [a out]. unfold inheritedBody.
  cbn [fst]. intros Ha.
  destruct (Z.ltb_spec (aff_numCand a) AMVP_MAX_NUM_CANDS) as [Hlt | Hge];
    cbn [negb]; [| exact Ha].
  destruct (_ || _); [exact Ha |].
  destruct (xInheritedAffineMv _ _ _ _) as [[o0 o1] o2].
  destruct (affineIsNew _ _ _); cbn [fst]; [| exact Ha].
  unfold pushAffine, AMVP_MAX_NUM_CANDS in *. cbn [aff_numCand]. lia.
Qed.

Lemma fold_left_invariant {A B : Type} (P : A -> Prop) (f : A -> B -> A) l a :
  P a -> (forall x b, P x -> P (f x b)) -> P (fold_left f l a).
Proof.
  intros Ha Hf. revert a Ha. induction l as [| b l IH]; cbn; auto.
Qed.

Lemma inheritedCands_count l poc0 acc :
  0 <= aff_numCand (fst acc) <= AMVP_MAX_NUM_CANDS ->
  0 <= aff_numCand (fst (inheritedCands cs pu l poc0 acc)) <= AMVP_MAX_NUM_CANDS.
Proof.
  intros Ha. unfold inheritedCands.
  apply (fold_left_invariant
           (fun x => 0 <= aff_numCand (fst x) <= AMVP_MAX_NUM_CANDS)); [exact Ha |].
  intros x b Hx. destruct (negb _); [exact Hx |].
  apply (fold_left_invariant
           (fun x => 0 <= aff_numCand (fst x) <= AMVP_MAX_NUM_CANDS)); [exact Hx |].
  intros y n Hy. apply inheritedBody_count. exact Hy.
Qed.

Lemma roundAffineCands_count a : aff_numCand (roundAffineCands a) = aff_numCand a.
Proof.
  unfold roundAffineCands.
  apply (forUpTo_invariant (fun i => aff_numCand i = aff_numCand a)); [reflexivity |].
  intros i t Ht. exact Ht.
Qed.

Lemma constructedCand_count l r a a' :
  constructedCand cs pu l r a = Normal a' ->
  aff_numCand a <= aff_numCand a' <= aff_numCand a + 1.
Proof.
  unfold constructedCand.
  repeat (match goal with |- context [obind ?o _] => destruct o as [? | |] end;
          cbn [obind]; try discriminate).
  destruct (_ || _ || _).
  - destruct (affineIsNew _ _ _); intros H; inversion H; subst;
      unfold pushAffine;
      repeat match goal with |- context [let '(_, _) := ?x in _] => destruct x end;
      cbn [aff_numCand]; lia.
  - intros H; inversion H; subst; lia.
Qed.

Lemma appendAmvp_count_k k a (f : Z -> AffineAMVPInfo -> Mv) :
  aff_numCand (forUpTo k (fun i a => pushAffine a (f i a, f i a, f i a)) a)
  = aff_numCand a + Z.of_nat k.
Proof.
  induction k as [| k IH].
  - cbn. lia.
  - cbn [forUpTo]. unfold pushAffine at 1. cbn [aff_numCand]. rewrite IH. lia.
Qed.

Lemma appendAmvp_count a info :
  aff_numCand a <= numCand info ->
  aff_numCand (appendAmvp a info) = numCand info.
Proof.
  intros Hle. unfold appendAmvp.
  rewrite (appendAmvp_count_k _ a
             (fun i _ => if REMOVE_MV_ADAPT_PREC then mvCand info i
                         else setHighPrec (mvCand info i))).
  lia.
Qed.

(** [fillAffineMvpCand] leaves exactly two candidates when the reference
    index is valid, none when it is negative. *)
Lemma fillAffineMvpCand_count l r a a' :
  fillAffineMvpCand cs pu l r a = Normal a' ->
  aff_numCand a' = if r <? 0 then 0 else AMVP_MAX_NUM_CANDS.
Proof.
  unfold fillAffineMvpCand.
  destruct (r <? 0) eqn:Hr; [intros H; inversion H; reflexivity |].
  match goal with
  | |- context [inheritedCands cs pu l ?p ?acc] =>
    pose proof (inheritedCands_count l p acc) as Hinh;
      destruct (inheritedCands cs pu l p acc) as [a1 out1]
  end.
  cbn [fst aff_numCand] in Hinh. unfold AMVP_MAX_NUM_CANDS in *.
  specialize (Hinh ltac:(lia)).
  destruct (Z.geb_spec (aff_numCand a1) 2) as [Hge | Hlt].
  - intros H; inversion H; subst.
    destruct REMOVE_MV_ADAPT_PREC; [rewrite roundAffineCands_count |]; lia.
  - destruct (constructedCand cs pu l r a1) as [a2 | |] eqn:Hc; cbn [obind];
      try discriminate.
    apply constructedCand_count in Hc.
    set (a3 := if REMOVE_MV_ADAPT_PREC then roundAffineCands a2 else a2).
    assert (H3 : aff_numCand a3 = aff_numCand a2).
    { subst a3. destruct REMOVE_MV_ADAPT_PREC;
        [apply roundAffineCands_count | reflexivity]. }
    destruct (Z.ltb_spec (aff_numCand a3) 2) as [Hlt3 | Hge3].
    + destruct (fillMvpCand cs pu l r AMVPInfo0) as [info | |] eqn:Hf; cbn [obind];
        try discriminate.
      apply fillMvpCand_count in Hf. rewrite Hr in Hf.
      unfold AMVP_MAX_NUM_CANDS in Hf.
      intros H; inversion H; subst. rewrite appendAmvp_count; lia.
    + intros H; inversion H; subst. lia.
Qed.


(** *** The list does not depend on what the caller's structure held *)

Lemma obind_rel {A A' B B' : Type} (R : A -> A' -> Prop) (S : B -> B' -> Prop)
      o o' (k : A -> outcome B) (k' : A' -> outcome B') :
  orel R o o' -> (forall a a', R a a' -> orel S (k a) (k' a')) ->
  orel S (obind o k) (obind o' k').
Proof.
  destruct o, o'; cbn; intros H Hk; try contradiction; auto.
Qed.

Lemma orel_refl {A : Type} (R : A -> A -> Prop) (o : outcome A) :
  (forall a, R a a) -> orel R o o.
Proof. intros HR. destruct o; cbn; auto. Qed.

Lemma pushCand_sameSoFar x y m :
  sameSoFar x y -> sameSoFar (pushCand x m) (pushCand y m).
Proof.
  intros (H0 & Hn & Hs). unfold sameSoFar, pushCand. cbn [numCand mvCand].
  split; [lia |]. split; [lia |]. intros i Hi. unfold upd. rewrite <- Hn.
  destruct (Z.eqb_spec i (numCand x)) as [-> | Hne]; [left; reflexivity |].
  destruct (Hs i Hi) as [He | [Hge Hf]]; [left; exact He |].
  right. split; [lia | exact Hf].
Qed.

Lemma unscaledFromList_rel poc0 mi l x y :
  sameSoFar x y ->
  match unscaledFromList cs poc0 mi l x false,
        unscaledFromList cs poc0 mi l y false with
  | Some x', Some y' => sameSoFar x' y'
  | None, None => True
  | _, _ => False
  end.
Proof.
  intros H. unfold unscaledFromList.
  destruct (_ && _); [| exact I]. apply pushCand_sameSoFar. exact H.
Qed.

Lemma addMVPCandUnscaled_rel l r pos d x y :
  sameSoFar x y ->
  orel sameAdded (addMVPCandUnscaled cs l r pos d x false)
                 (addMVPCandUnscaled cs l r pos d y false).
Proof.
  intros H. unfold addMVPCandUnscaled.
  destruct (getPURestricted cs _) as [neib |]; [| cbn; split; auto].
  destruct (negb (CU_isInter _)); [cbn; split; auto |].
  destruct (getRefPic cs l r) as [ref |]; [| reflexivity].
  pose proof (unscaledFromList_rel (poc ref) (getMotionInfo neib (neibPosOf pos d)) l
                                   x y H) as H1.
  destruct (unscaledFromList _ _ _ l x _), (unscaledFromList _ _ _ l y _);
    try contradiction; [cbn; split; auto |].
  pose proof (unscaledFromList_rel (poc ref) (getMotionInfo neib (neibPosOf pos d))
                                   (otherList l) x y H) as H2.
  destruct (unscaledFromList _ _ _ (otherList l) x _),
           (unscaledFromList _ _ _ (otherList l) y _);
    try contradiction; cbn; split; auto.
Qed.

Lemma scaledFromList_rel a b lt mi l x y :
  sameSoFar x y ->
  orel (fun r r' => match r, r' with
                    | Some x', Some y' => sameSoFar x' y'
                    | None, None => True
                    | _, _ => False
                    end)
       (scaledFromList cs a b lt mi l x false)
       (scaledFromList cs a b lt mi l y false).
Proof.
  intros H. unfold scaledFromList.
  destruct (_ >=? 0); [| exact I].
  destruct (getRefPic cs l _) as [ref |]; [| reflexivity].
  destruct (Bool.eqb _ _); [| exact I].
  match goal with |- context [obind ?o _] => destruct o as [cMv | |] end;
    cbn; try reflexivity.
  apply pushCand_sameSoFar. exact H.
Qed.

Lemma addMVPCandWithScaling_rel l r pos d x y :
  sameSoFar x y ->
  orel sameAdded (addMVPCandWithScaling cs l r pos d x false)
                 (addMVPCandWithScaling cs l r pos d y false).
Proof.
  intros H. unfold addMVPCandWithScaling.
  destruct (getPURestricted cs _) as [neib |]; [| cbn; split; auto].
  destruct (negb (CU_isInter _)); [cbn; split; auto |].
  destruct (getRefPic cs l r) as [ref |]; [| reflexivity].
  eapply obind_rel; [apply scaledFromList_rel; exact H |].
  intros [x1 |] [y1 |] H1; try contradiction; [cbn; split; auto |].
  eapply obind_rel; [apply scaledFromList_rel; exact H |].
  intros [x2 |] [y2 |] H2; try contradiction; cbn; split; auto.
Qed.

Lemma orElse_rel a a' next next' :
  orel sameAdded a a' ->
  (forall x y, sameSoFar x y -> orel sameAdded (next x) (next' y)) ->
  orel sameAdded (orElse a next) (orElse a' next').
Proof.
  intros Ha Hn. unfold orElse. eapply obind_rel; [exact Ha |].
  intros [b x] [b' y] [Hb Hs]. cbn in Hb, Hs. subst b'.
  destruct b; [cbn; split; auto | apply Hn; exact Hs].
Qed.

(** A loop that rewrites the slots below [k] one by one. *)
Lemma forUpTo_map_slots (f : Mv -> Mv) k info :
  numCand (forUpTo k (fun i inf => mkAMVPInfo (upd (mvCand inf) i (f (mvCand inf i)))
                                              (numCand inf)) info) = numCand info
  /\ forall i,
       mvCand (forUpTo k (fun i inf => mkAMVPInfo (upd (mvCand inf) i (f (mvCand inf i)))
                                                  (numCand inf)) info) i
       = if (0 <=? i) && (i <? Z.of_nat k) then f (mvCand info i) else mvCand info i.
Proof.
  induction k as [| k [IHn IHs]].
  - split; [reflexivity |]. intros i. cbn [forUpTo].
    destruct (0 <=? i) eqn:H0; cbn [andb]; [| reflexivity].
    destruct (Z.ltb_spec i (Z.of_nat 0)); [lia | reflexivity].
  - cbn [forUpTo]. cbn [numCand mvCand]. split; [exact IHn |].
    intros i. unfold upd.
    destruct (Z.eqb_spec i (Z.of_nat k)) as [-> | Hne]; rewrite IHs.
    + replace (0 <=? Z.of_nat k) with true by (symmetry; apply Z.leb_le; lia).
      replace (Z.of_nat k <? Z.of_nat (S k)) with true
        by (symmetry; apply Z.ltb_lt; lia).
      replace (Z.of_nat k <? Z.of_nat k) with false
        by (symmetry; apply Z.ltb_ge; lia).
      reflexivity.
    + destruct (0 <=? i); cbn [andb]; [| reflexivity].
      destruct (Z.ltb_spec i (Z.of_nat k)), (Z.ltb_spec i (Z.of_nat (S k)));
        try reflexivity; lia.
Qed.

Lemma roundCands_sameSoFar x y sh :
  sameSoFar x y -> sameSoFar (roundCands x sh) (roundCands y sh).
Proof.
  intros (H0 & Hn & Hs). unfold roundCands.
  destruct (forUpTo_map_slots (fun m => roundMV m sh) (Z.to_nat (numCand x)) x)
    as [Hnx Hsx].
  destruct (forUpTo_map_slots (fun m => roundMV m sh) (Z.to_nat (numCand y)) y)
    as [Hny Hsy].
  split; [rewrite Hnx; exact H0 |].
  split; [rewrite Hnx, Hny; exact Hn |].
  intros i Hi. rewrite Hnx, Hsx, Hsy, <- Hn.
  destruct ((0 <=? i) && (i <? Z.of_nat (Z.to_nat (numCand x)))) eqn:Hin.
  - apply andb_true_iff in Hin as [_ Hlt]. apply Z.ltb_lt in Hlt.
    destruct (Hs i Hi) as [-> | [Hge _]]; [left; reflexivity | lia].
  - exact (Hs i Hi).
Qed.

Lemma roundCands_sameList x y sh :
  sameList x y -> sameList (roundCands x sh) (roundCands y sh).
Proof.
  intros [Hn Hs]. unfold roundCands.
  destruct (forUpTo_map_slots (fun m => roundMV m sh) (Z.to_nat (numCand x)) x)
    as [Hnx Hsx].
  destruct (forUpTo_map_slots (fun m => roundMV m sh) (Z.to_nat (numCand y)) y)
    as [Hny Hsy].
  split; [rewrite Hnx, Hny; exact Hn |].
  intros i Hi. rewrite Hnx in Hi. rewrite Hsx, Hsy, <- Hn, (Hs i Hi). reflexivity.
Qed.

Lemma forAllCands_sameList mem f x y :
  sameList x y -> sameList (forAllCands mem f x) (forAllCands mem f y).
Proof.
  intros [Hn Hs]. unfold forAllCands.
  destruct (forUpTo_map_slots f (Z.to_nat mem) x) as [Hnx Hsx].
  destruct (forUpTo_map_slots f (Z.to_nat mem) y) as [Hny Hsy].
  split; [rewrite Hnx, Hny; exact Hn |].
  intros i Hi. rewrite Hnx in Hi. rewrite Hsx, Hsy, (Hs i Hi). reflexivity.
Qed.

Lemma padCands_sameSoFar fuel x y :
  sameSoFar x y -> sameSoFar (padCands fuel x) (padCands fuel y).
Proof.
  revert x y. induction fuel as [| fuel IH]; intros x y H; cbn [padCands];
    [exact H |].
  destruct H as (H0 & Hn & Hs). rewrite <- Hn.
  destruct (numCand x <? AMVP_MAX_NUM_CANDS); [| repeat split; assumption].
  apply IH.
  assert (Hz : (if REMOVE_MV_ADAPT_PREC then Mv0
                else mkMv 0 0 (highPrec (mvCand x (numCand x))))
               = (if REMOVE_MV_ADAPT_PREC then Mv0
                  else mkMv 0 0 (highPrec (mvCand y (numCand x))))).
  { destruct REMOVE_MV_ADAPT_PREC eqn:Hrm; [reflexivity |].
    destruct (Hs _ H0) as [-> | [_ [Hf | ->]]];
      [reflexivity | discriminate | reflexivity]. }
  rewrite Hz. apply pushCand_sameSoFar. repeat split; assumption.
Qed.

Lemma temporalCand_rel l r x y :
  sameSoFar x y -> orel sameSoFar (temporalCand cs pu l r x) (temporalCand cs pu l r y).
Proof.
  intros H. unfold temporalCand.
  destruct (getEnableTMVPFlag _); [| exact H].
  destruct (colocatedC0C1 _ _ _ _ _ _) as [[m |] | |]; cbn; try reflexivity;
    [apply pushCand_sameSoFar |]; exact H.
Qed.

Lemma sameSoFar_sameList x y : sameSoFar x y -> sameList x y.
Proof.
  intros (H0 & Hn & Hs). split; [exact Hn |].
  intros i Hi. destruct (Hs i ltac:(lia)) as [He | [Hge _]]; [exact He | lia].
Qed.

(** Two runs of [fillMvpCand] on the same neighbourhood, started on two
    structures whose slots carry the same precision flags (or built with
    [REMOVE_MV_ADAPT_PREC]), end the same way and with the same list. *)
Lemma fillMvpCand_rel l r a a' :
  (REMOVE_MV_ADAPT_PREC = true
   \/ forall i, highPrec (mvCand a i) = highPrec (mvCand a' i)) ->
  orel sameList (fillMvpCand cs pu l r a) (fillMvpCand cs pu l r a').
Proof.
  intros Hflags. unfold fillMvpCand.
  assert (H0 : sameSoFar (mkAMVPInfo (mvCand a) 0) (mkAMVPInfo (mvCand a') 0)).
  { split; [cbn; lia |]. split; [reflexivity |]. intros i Hi. right.
    split; [exact Hi |]. destruct Hflags as [Hr | Hf]; [left; exact Hr | right; apply Hf]. }
  destruct (r <? 0); [apply sameSoFar_sameList; exact H0 |].
  set (flag := if interAt cs _ then true else interAt cs _).
  eapply obind_rel with (R := sameAdded).
  { destruct flag; [| cbn; split; auto].
    repeat (apply orElse_rel; [| intros ? ? ?]);
      first [apply addMVPCandUnscaled_rel | apply addMVPCandWithScaling_rel]; assumption. }
  intros [b1 x1] [b1' y1] [_ H1]. cbn [snd] in H1.
  eapply obind_rel with (R := sameAdded).
  { repeat (apply orElse_rel; [| intros ? ? ?]);
      apply addMVPCandUnscaled_rel; assumption. }
  intros [b2 x2] [b2' y2] [_ H2]. cbn [snd] in H2.
  eapply obind_rel with (R := sameAdded).
  { destruct (negb flag); [| cbn; split; auto].
    repeat (apply orElse_rel; [| intros ? ? ?]);
      apply addMVPCandWithScaling_rel; assumption. }
  intros [b3 x3] [b3' y3] [_ H3]. cbn [snd] in H3.
  set (x4 := if negb (imv (cu pu) =? 0) then _ else x3).
  set (y4 := if negb (imv (cu pu) =? 0) then _ else y3).
  assert (H4 : sameSoFar x4 y4).
  { subst x4 y4. destruct (negb _); [apply roundCands_sameSoFar |]; exact H3. }
  clearbody x4 y4. clear H3 H2 H1.
  set (x5 := if _ && _ then _ else x4).
  set (y5 := if _ && _ then _ else y4).
  assert (H5 : sameSoFar x5 y5).
  { subst x5 y5. destruct H4 as (Hp & Hn & Hs). rewrite <- Hn.
    destruct (Z.eqb_spec (numCand x4) 2) as [E | _]; cbn [andb];
      [| repeat split; assumption].
    destruct (Hs 0 ltac:(lia)) as [E0 | [Hge _]]; [| lia].
    destruct (Hs 1 ltac:(lia)) as [E1 | [Hge _]]; [| lia].
    rewrite <- E0, <- E1.
    destruct (Mv_eqb _ _); [| repeat split; assumption].
    split; [cbn; lia |]. split; [reflexivity |]. cbn [numCand mvCand].
    intros i Hi. destruct (Hs i Hi) as [He | [Hge Hf]]; [left; exact He |].
    right. split; [lia | exact Hf]. }
  clearbody x5 y5. clear H4.
  eapply obind_rel; [apply temporalCand_rel; exact H5 |].
  intros x6 y6 H6.
  set (x7 := if numCand x6 >? AMVP_MAX_NUM_CANDS then _ else x6).
  set (y7 := if numCand y6 >? AMVP_MAX_NUM_CANDS then _ else y6).
  assert (H7 : sameSoFar x7 y7).
  { subst x7 y7. destruct H6 as (Hp & Hn & Hs). rewrite <- Hn.
    unfold AMVP_MAX_NUM_CANDS.
    destruct (Z.gtb_spec (numCand x6) 2) as [Hgt | _]; [| repeat split; assumption].
    split; [cbn; lia |]. split; [reflexivity |]. cbn [numCand mvCand].
    intros i Hi. destruct (Hs i Hi) as [He | [Hge Hf]]; [left; exact He |].
    right. split; [lia | exact Hf]. }
  clearbody x7 y7. clear H6.
  assert (H8 : sameList (padCands (Z.to_nat (AMVP_MAX_NUM_CANDS - numCand x7)) x7)
                        (padCands (Z.to_nat (AMVP_MAX_NUM_CANDS - numCand y7)) y7)).
  { destruct H7 as (Hp & Hn & Hs). rewrite <- Hn.
    apply sameSoFar_sameList, padCands_sameSoFar. repeat split; assumption. }
  cbn [orel].
  repeat first [apply forAllCands_sameList | apply roundCands_sameList
               | match goal with
                 | |- sameList (if ?c then _ else _) (if ?c then _ else _) => destruct c
                 end].
  all: exact H8.
Qed.

(** *** The same for the affine list *)

Lemma forUpTo_rel {S S' : Type} (R : S -> S' -> Prop) n
      (body : Z -> S -> S) (body' : Z -> S' -> S') s s' :
  R s s' ->
  (forall i t t', 0 <= i < Z.of_nat n -> R t t' -> R (body i t) (body' i t')) ->
  R (forUpTo n body s) (forUpTo n body' s').
Proof.
  intros H0 Hstep. induction n as [| n IH]; cbn [forUpTo]; [exact H0 |].
  apply Hstep; [lia |]. apply IH. intros i t t' Hi. apply Hstep. lia.
Qed.

Lemma pushAffine_same x y out :
  0 <= aff_numCand x -> sameAffineList x y ->
  sameAffineList (pushAffine x out) (pushAffine y out).
Proof.
  intros H0 [Hn Hs]. destruct out as [[o0 o1] o2]. unfold pushAffine, sameAffineList.
  cbn [aff_numCand mvCandLT mvCandRT mvCandLB]. split; [lia |].
  intros i Hi. unfold upd. rewrite <- Hn.
  destruct (Z.eqb_spec i (aff_numCand x)); [auto |]. apply Hs. lia.
Qed.

Lemma affineIsNew_same x y out :
  0 <= aff_numCand x -> sameAffineList x y ->
  affineIsNew pu x out = affineIsNew pu y out.
Proof.
  intros H0 [Hn Hs]. destruct out as [[o0 o1] o2]. unfold affineIsNew. rewrite <- Hn.
  destruct (Z.eqb_spec (aff_numCand x) 0) as [E | Hne]; [reflexivity |].
  destruct (Hs 0 ltac:(lia)) as (-> & -> & ->). reflexivity.
Qed.

Lemma inheritedBody_rel poc0 l s s' n :
  sameInherited s s' ->
  sameInherited (inheritedBody cs pu poc0 l s n) (inheritedBody cs pu poc0 l s' n).
Proof.
  destruct s as [x out], s' as [y out']. intros (H0 & Hs & Ho).
  cbn [fst snd] in H0, Hs, Ho. subst out'. unfold inheritedBody.
  pose proof (proj1 Hs) as Hn. rewrite <- Hn.
  assert (Hsame : sameInherited (x, out) (y, out))
    by (split; [exact H0 | split; [exact Hs | reflexivity]]).
  destruct (negb _); [exact Hsame |].
  destruct (_ || _); [exact Hsame |].
  destruct (xInheritedAffineMv _ _ _ _) as [[o0 o1] o2].
  rewrite <- (affineIsNew_same x y _ H0 Hs).
  destruct (affineIsNew _ _ _).
  - split; [| split; [apply pushAffine_same; assumption | reflexivity]].
    unfold pushAffine. cbn [fst aff_numCand]. lia.
  - split; [exact H0 | split; [exact Hs | reflexivity]].
Qed.

Lemma fold_left_rel {A A' B : Type} (R : A -> A' -> Prop)
      (f : A -> B -> A) (f' : A' -> B -> A') l a a' :
  R a a' -> (forall x x' b, R x x' -> R (f x b) (f' x' b)) ->
  R (fold_left f l a) (fold_left f' l a').
Proof.
  intros Ha Hf. revert a a' Ha. induction l as [| b l IH]; cbn; auto.
Qed.

Lemma inheritedCands_rel l poc0 s s' :
  sameInherited s s' ->
  sameInherited (inheritedCands cs pu l poc0 s) (inheritedCands cs pu l poc0 s').
Proof.
  intros H. unfold inheritedCands. apply fold_left_rel; [exact H |].
  intros x x' b Hx. rewrite <- (proj1 (proj1 (proj2 Hx))).
  destruct (negb _); [exact Hx |].
  apply fold_left_rel; [exact Hx |]. intros y y' n Hy. apply inheritedBody_rel, Hy.
Qed.

Lemma roundAffineCands_same x y :
  sameAffineList x y -> sameAffineList (roundAffineCands x) (roundAffineCands y).
Proof.
  intros Hs. unfold roundAffineCands. rewrite <- (proj1 Hs).
  apply (forUpTo_rel (fun t t' => aff_numCand t = aff_numCand x /\ sameAffineList t t'));
    [split; [reflexivity | exact Hs] |].
  intros i t t' Hi [Hc [Hn Ht]]. split; [exact Hc |].
  split; [exact Hn |]. cbn [aff_numCand mvCandLT mvCandRT mvCandLB].
  intros j Hj. unfold upd.
  destruct (Ht i ltac:(lia)) as (-> & -> & ->).
  destruct (Z.eqb_spec j i); [auto | apply Ht; exact Hj].
Qed.

Lemma sameAffineList_nonneg_push x y (f : Z -> Mv) k :
  0 <= aff_numCand x -> sameAffineList x y ->
  sameAffineList
    (forUpTo k (fun i a => pushAffine a (f i, f i, f i)) x)
    (forUpTo k (fun i a => pushAffine a (f i, f i, f i)) y).
Proof.
  intros H0 Hs.
  apply (forUpTo_rel (fun t t' => 0 <= aff_numCand t /\ sameAffineList t t'));
    [split; assumption |].
  intros i t t' _ [Hp Ht]. split; [unfold pushAffine; cbn [aff_numCand]; lia |].
  apply pushAffine_same; assumption.
Qed.

(** Two runs of [fillAffineMvpCand] on the same neighbourhood end the same
    way and with the same list, whatever the two structures held. *)
Lemma fillAffineMvpCand_rel l r a a' :
  orel sameAffineList (fillAffineMvpCand cs pu l r a) (fillAffineMvpCand cs pu l r a').
Proof.
  unfold fillAffineMvpCand.
  assert (H0 : sameInherited
                 (mkAffineAMVPInfo (mvCandLT a) (mvCandRT a) (mvCandLB a) 0,
                  (Mv0, Mv0, Mv0))
                 (mkAffineAMVPInfo (mvCandLT a') (mvCandRT a') (mvCandLB a') 0,
                  (Mv0, Mv0, Mv0))).
  { split; [cbn; lia |]. split; [| reflexivity]. split; [reflexivity |].
    cbn [fst aff_numCand]. intros i Hi. lia. }
  destruct (r <? 0); [apply H0 |].
  pose proof (inheritedCands_rel l (getRefPOC (slice cs) l r) _ _ H0) as H1.
  destruct (inheritedCands cs pu l _ (mkAffineAMVPInfo (mvCandLT a) _ _ _, _))
    as [x1 out1].
  destruct (inheritedCands cs pu l _ (mkAffineAMVPInfo (mvCandLT a') _ _ _, _))
    as [y1 out1'].
  destruct H1 as (Hp1 & Hs1 & _). cbn [fst] in Hp1, Hs1.
  rewrite <- (proj1 Hs1).
  destruct (aff_numCand x1 >=? AMVP_MAX_NUM_CANDS).
  { cbn [orel]. destruct REMOVE_MV_ADAPT_PREC;
      [apply roundAffineCands_same |]; exact Hs1. }
  eapply obind_rel with (R := fun t t' => 0 <= aff_numCand t /\ sameAffineList t t').
  { unfold constructedCand.
    repeat (match goal with
            | |- context [obind ?o _] => destruct o as [? | |]
            end; cbn [obind]; try reflexivity).
    destruct (_ || _ || _); [| cbn; split; assumption].
    rewrite <- (affineIsNew_same x1 y1 _ Hp1 Hs1).
    destruct (affineIsNew _ _ _); cbn [orel]; [| split; assumption].
    split; [| apply pushAffine_same; assumption].
    unfold pushAffine.
    repeat match goal with |- context [let '(_, _) := ?x in _] => destruct x end.
    cbn [aff_numCand]. lia. }
  intros x2 y2 [Hp2 Hs2].
  set (x3 := if REMOVE_MV_ADAPT_PREC then roundAffineCands x2 else x2).
  set (y3 := if REMOVE_MV_ADAPT_PREC then roundAffineCands y2 else y2).
  assert (Hs3 : sameAffineList x3 y3).
  { subst x3 y3. destruct REMOVE_MV_ADAPT_PREC;
      [apply roundAffineCands_same |]; exact Hs2. }
  assert (Hp3 : 0 <= aff_numCand x3).
  { subst x3. destruct REMOVE_MV_ADAPT_PREC;
      [rewrite roundAffineCands_count |]; exact Hp2. }
  clearbody x3 y3. rewrite <- (proj1 Hs3).
  destruct (aff_numCand x3 <? 2); [| exact Hs3].
  destruct (fillMvpCand cs pu l r AMVPInfo0) as [info | |]; cbn; try reflexivity.
  unfold appendAmvp. rewrite <- (proj1 Hs3).
  apply (sameAffineList_nonneg_push x3 y3
           (fun i => if REMOVE_MV_ADAPT_PREC then mvCand info i
                     else setHighPrec (mvCand info i))); assumption.
Qed.

End AmvpFacts.

(** C10. Called with a negative reference index, [fillMvpCand] returns at
    once with [numCand == 0] and with every candidate entry as the caller
    left it; the postcondition of exactly two entries is the one of the
    calls with [refIdx >= 0]. *)
Theorem C10_negative_refIdx_leaves_list_empty
        {cfg : BuildConfig} {ops : MvOps} (cs : CodingStructure)
        (pu : PredictionUnit) (eRefPicList : RefPicList) (refIdx : Z)
        (amvpInfo : AMVPInfo) :
  (refIdx < 0 ->
   fillMvpCand cs pu eRefPicList refIdx amvpInfo
   = Normal (mkAMVPInfo (mvCand amvpInfo) 0))
  /\ (0 <= refIdx ->
      forall info, fillMvpCand cs pu eRefPicList refIdx amvpInfo = Normal info ->
                   numCand info = AMVP_MAX_NUM_CANDS).
Proof.
  split.
  - intros Hneg. unfold fillMvpCand.
    destruct (Z.ltb_spec refIdx 0); [reflexivity | lia].
  - intros Hpos info H. apply fillMvpCand_count in H.
    destruct (Z.ltb_spec refIdx 0); [lia | exact H].
Qed.

(** *** The two parts of the derivations *)

Section AmvpPartsFacts.
Context {cfg : BuildConfig} {ops : MvOps}.
Variable cs : CodingStructure.
Variable pu : PredictionUnit.

Lemma fillMvpCand_parts l r a :
  0 <= r ->
  fillMvpCand cs pu l r a
  = (found <- mvpCandsFound cs pu l r a ;; Normal (finishMvpCands cs pu found)).
Proof.
  intros Hr. unfold fillMvpCand, mvpCandsFound.
  replace (r <? 0) with false by (symmetry; apply Z.ltb_ge; exact Hr).
  cbv zeta.
  repeat (match goal with
          | |- obind ?o _ = obind (obind ?o _) _ =>
            destruct o as [[? ?] | |]; cbn [obind]; try reflexivity
          end).
  all: try match goal with
           | |- obind ?o _ = obind ?o _ => destruct o; cbn [obind]; reflexivity
           end.
Qed.

Lemma fillAffineMvpCand_parts l r a :
  0 <= r ->
  fillAffineMvpCand cs pu l r a
  = (found <- affineCandsFound cs pu l r a ;; fillFromAmvp cs pu l r found).
Proof.
  intros Hr. unfold fillAffineMvpCand, affineCandsFound, fillFromAmvp.
  replace (r <? 0) with false by (symmetry; apply Z.ltb_ge; exact Hr).
  cbv zeta.
  destruct (inheritedCands cs pu l _ _) as [a0 out].
  destruct (Z.geb_spec (aff_numCand a0) AMVP_MAX_NUM_CANDS) as [Hge | Hlt].
  - cbn [obind].
    assert (E : aff_numCand (if REMOVE_MV_ADAPT_PREC then roundAffineCands a0 else a0)
                = aff_numCand a0)
      by (destruct REMOVE_MV_ADAPT_PREC; [apply roundAffineCands_count | reflexivity]).
    rewrite E.
    replace (aff_numCand a0 <? 2) with false
      by (symmetry; apply Z.ltb_ge; unfold AMVP_MAX_NUM_CANDS in Hge; lia).
    reflexivity.
  - destruct (constructedCand cs pu l r a0); cbn [obind]; reflexivity.
Qed.

Lemma roundToStore_zero :
  0 <= VCEG_AZ07_MV_ADD_PRECISION_BIT_FOR_STORE <= 31 -> roundToStore 0 = 0.
Proof.
  intros Hs. unfold roundToStore. cbv zeta.
  set (s := VCEG_AZ07_MV_ADD_PRECISION_BIT_FOR_STORE) in *.
  change (0 >=? 0) with true. cbv iota.
  destruct (Z.eq_dec s 0) as [-> | Hne]; [reflexivity |].
  rewrite Z.shiftl_1_l. unfold add32, wrap32. rewrite Z.add_0_l.
  assert (Hp : 0 < 2 ^ (s - 1) <= 2 ^ 30).
  { split; [apply Z.pow_pos_nonneg; lia |]. apply Z.pow_le_mono_r; lia. }
  rewrite Z.mod_small by lia.
  replace (2 ^ (s - 1) + 2147483648 - 2147483648) with (2 ^ (s - 1)) by lia.
  rewrite Z.shiftr_div_pow2 by lia.
  apply Z.div_small. split; [lia |]. apply Z.pow_lt_mono_r; lia.
Qed.

Lemma roundMvToStore_zero m :
  0 <= VCEG_AZ07_MV_ADD_PRECISION_BIT_FOR_STORE <= 31 ->
  isZeroMv m -> isZeroMv (roundMvToStore m).
Proof.
  intros Hs [Hh Hv]. unfold roundMvToStore, isZeroMv. cbn [hor ver].
  rewrite Hh, Hv, roundToStore_zero by exact Hs. split; reflexivity.
Qed.

Lemma lowerIfHigh_zero m :
  (forall m, isZeroMv m -> isZeroMv (setLowPrec m)) ->
  isZeroMv m -> isZeroMv (lowerIfHigh m).
Proof.
  intros Hlow Hm. unfold lowerIfHigh. destruct (highPrec m); [apply Hlow |]; exact Hm.
Qed.

Lemma forAllCands_zero mem f info k :
  (forall m, isZeroMv m -> isZeroMv (f m)) ->
  isZeroMv (mvCand info k) -> isZeroMv (mvCand (forAllCands mem f info) k).
Proof.
  intros Hf Hk. unfold forAllCands.
  destruct (forUpTo_map_slots f (Z.to_nat mem) info) as [_ Hs]. rewrite Hs.
  destruct (_ && _); [apply Hf |]; exact Hk.
Qed.

Lemma roundCands_zero info sh k :
  (forall m s, isZeroMv m -> isZeroMv (roundMV m s)) ->
  isZeroMv (mvCand info k) -> isZeroMv (mvCand (roundCands info sh) k).
Proof.
  intros Hf Hk. unfold roundCands.
  destruct (forUpTo_map_slots (fun m => roundMV m sh) (Z.to_nat (numCand info)) info)
    as [_ Hs].
  rewrite Hs. destruct (_ && _); [apply Hf |]; exact Hk.
Qed.

(** The padding writes a zero vector to every slot from the count up to
    the capacity. *)
Lemma padCands_zero fuel info k :
  fuel = Z.to_nat (AMVP_MAX_NUM_CANDS - numCand info) ->
  numCand info <= k < AMVP_MAX_NUM_CANDS ->
  isZeroMv (mvCand (padCands fuel info) k).
Proof.
  unfold AMVP_MAX_NUM_CANDS.
  assert (Hkeep : forall fuel info j,
            j < numCand info -> mvCand (padCands fuel info) j = mvCand info j).
  { clear. intros fuel. induction fuel as [| fuel IH]; intros info j Hj; cbn [padCands].
    - reflexivity.
    - destruct (numCand info <? AMVP_MAX_NUM_CANDS); [| reflexivity].
      rewrite IH by (unfold pushCand; cbn [numCand]; lia).
      unfold pushCand. cbn [mvCand]. unfold upd.
      destruct (Z.eqb_spec j (numCand info)); [lia | reflexivity]. }
  revert info. induction fuel as [| fuel IH]; intros info Hf Hk; [lia |].
  cbn [padCands]. unfold AMVP_MAX_NUM_CANDS.
  destruct (Z.ltb_spec (numCand info) 2) as [Hlt | Hge]; [| lia].
  set (z := if REMOVE_MV_ADAPT_PREC then Mv0 else mkMv 0 0 _).
  assert (Hz : isZeroMv z) by (subst z; destruct REMOVE_MV_ADAPT_PREC; split; reflexivity).
  destruct (Z.eq_dec k (numCand info)) as [-> | Hne].
  - rewrite Hkeep by (unfold pushCand; cbn [numCand]; lia).
    unfold pushCand. cbn [mvCand]. unfold upd. rewrite Z.eqb_refl. exact Hz.
  - apply IH; unfold pushCand; cbn [numCand]; lia.
Qed.

Lemma finishMvpCands_zero found k :
  zeroStaysZero ->
  numCand found <= k < AMVP_MAX_NUM_CANDS ->
  isZeroMv (mvCand (finishMvpCands cs pu found) k).
Proof.
  intros (Hround & Hlow & Hs) Hk. unfold finishMvpCands. cbv zeta.
  assert (Hcut : (numCand found >? AMVP_MAX_NUM_CANDS) = false)
    by (rewrite Z.gtb_ltb; apply Z.ltb_ge; lia).
  rewrite Hcut.
  pose proof (padCands_zero (Z.to_nat (AMVP_MAX_NUM_CANDS - numCand found)) found k
                eq_refl Hk) as Hpad.
  set (padded := padCands _ found) in *. clearbody padded.
  repeat match goal with
         | |- isZeroMv (mvCand (if ?c then _ else _) _) => destruct c
         | |- isZeroMv (mvCand (forAllCands _ roundMvToStore _) _) =>
           apply forAllCands_zero;
           [intros m Hm; apply roundMvToStore_zero; assumption |]
         | |- isZeroMv (mvCand (forAllCands _ lowerIfHigh _) _) =>
           apply forAllCands_zero;
           [intros m Hm; apply lowerIfHigh_zero; assumption |]
         | |- isZeroMv (mvCand (roundCands _ _) _) =>
           apply roundCands_zero; [exact Hround |]
         end;
    exact Hpad.
Qed.

(** What [appendAmvp] leaves in the list: the entries there were, and after
    them the candidates of the AMVP list from its first one on. *)
Lemma appendAmvp_contents_k k a (amvpInfo : AMVPInfo) :
  let a' := forUpTo k (fun i a => let m := affineFill (mvCand amvpInfo i) in
                                  pushAffine a (m, m, m)) a in
  aff_numCand a' = aff_numCand a + Z.of_nat k
  /\ (forall j, j < aff_numCand a ->
        mvCandLT a' j = mvCandLT a j /\ mvCandRT a' j = mvCandRT a j
        /\ mvCandLB a' j = mvCandLB a j)
  /\ (forall i, 0 <= i < Z.of_nat k ->
        mvCandLT a' (aff_numCand a + i) = affineFill (mvCand amvpInfo i)
        /\ mvCandRT a' (aff_numCand a + i) = affineFill (mvCand amvpInfo i)
        /\ mvCandLB a' (aff_numCand a + i) = affineFill (mvCand amvpInfo i)).
Proof.
  induction k as [| k (IHn & IHold & IHnew)]; cbv zeta in *.
  - cbn [forUpTo]. split; [cbn; lia |]. split; [auto | intros i Hi; lia].
  - cbn [forUpTo].
    match goal with
    | |- context [pushAffine ?x _] => set (X := x) in *
    end.
    clearbody X. unfold pushAffine.
    cbn [aff_numCand mvCandLT mvCandRT mvCandLB]. rewrite IHn.
    split; [lia |]. split.
    + intros j Hj. unfold upd.
      destruct (Z.eqb_spec j (aff_numCand a + Z.of_nat k)); [lia |].
      apply IHold, Hj.
    + intros i Hi. unfold upd.
      destruct (Z.eqb_spec (aff_numCand a + i) (aff_numCand a + Z.of_nat k)) as [E | E].
      * replace i with (Z.of_nat k) by lia. repeat split; reflexivity.
      * apply IHnew. lia.
Qed.

Lemma fillFromAmvp_contents l r found info :
  0 <= r ->
  fillFromAmvp cs pu l r found = Normal info ->
  (forall j, j < aff_numCand found ->
     mvCandLT info j = mvCandLT found j /\ mvCandRT info j = mvCandRT found j
     /\ mvCandLB info j = mvCandLB found j)
  /\ (aff_numCand found < 2 ->
      exists amvpInfo,
        fillMvpCand cs pu l r AMVPInfo0 = Normal amvpInfo
        /\ forall k, aff_numCand found <= k < 2 ->
             mvCandLT info k = affineFill (mvCand amvpInfo (k - aff_numCand found))
             /\ mvCandRT info k = affineFill (mvCand amvpInfo (k - aff_numCand found))
             /\ mvCandLB info k = affineFill (mvCand amvpInfo (k - aff_numCand found))).
Proof.
  intros Hr. unfold fillFromAmvp.
  destruct (Z.ltb_spec (aff_numCand found) 2) as [Hlt | Hge].
  - destruct (fillMvpCand cs pu l r AMVPInfo0) as [amvpInfo | |] eqn:Hfill;
      cbn [obind]; try discriminate.
    intros H. injection H as <-.
    pose proof (fillMvpCand_count cs pu l r AMVPInfo0 amvpInfo Hfill) as Hn.
    replace (r <? 0) with false in Hn by (symmetry; apply Z.ltb_ge; exact Hr).
    unfold AMVP_MAX_NUM_CANDS in Hn.
    pose proof (appendAmvp_contents_k (Z.to_nat (numCand amvpInfo - aff_numCand found))
                  found amvpInfo) as Hc.
    cbv zeta in Hc.
    change (forUpTo (Z.to_nat (numCand amvpInfo - aff_numCand found))
              (fun i a => pushAffine a (affineFill (mvCand amvpInfo i),
                                        affineFill (mvCand amvpInfo i),
                                        affineFill (mvCand amvpInfo i))) found)
      with (appendAmvp found amvpInfo) in Hc.
    destruct Hc as (_ & Hold & Hnew).
    split; [exact Hold |]. intros _. exists amvpInfo. split; [reflexivity |].
    intros k Hk.
    pose proof (Hnew (k - aff_numCand found) ltac:(lia)) as Hnk.
    replace (aff_numCand found + (k - aff_numCand found)) with k in Hnk by lia.
    exact Hnk.
  - intros H. injection H as <-. split; [auto | intros; lia].
Qed.

End AmvpPartsFacts.

(** The claim as the spec words it does not hold: with a negative reference
    index both derivations return with an empty list. *)
Lemma C6_counterexample :
  (exists info,
     @fillMvpCand Sample.cfg Sample.ops (Sample.csAlone 6 2 true) Sample.block
        REF_PIC_LIST_0 (-1) AMVPInfo0 = Normal info
     /\ numCand info = 0)
  /\ (exists info,
        @fillAffineMvpCand Sample.cfg Sample.ops (Sample.csAlone 6 2 true) Sample.block
           REF_PIC_LIST_0 (-1) (mkAffineAMVPInfo (fun _ => Mv0) (fun _ => Mv0)
                                                 (fun _ => Mv0) 0) = Normal info
        /\ aff_numCand info = 0).
Proof.
  split; eexists; split; reflexivity.
Qed.

(** C6 (as the code has it). Called with a negative reference index,
    [fillMvpCand] and [fillAffineMvpCand] return at once with an empty
    list.  Called with one that is not negative, they return with exactly
    [AMVP_MAX_NUM_CANDS = 2] entries.  [fillMvpCand] is the search for
    candidates followed by the cut and the padding, and every slot the
    candidates found did not reach holds a zero vector (for roundings that
    keep zero at zero).  [fillAffineMvpCand] is the search for affine
    candidates followed by the filling from the list of [fillMvpCand]: the
    entries found stay, and a slot they did not reach holds, in its three
    corners, the next candidate of that list, beginning with its first -
    which need not be zero.  The lists are determined by the neighbour
    state: two runs end the same way and with the same list, whatever the
    caller's structure held before (for [fillMvpCand] built without
    [REMOVE_MV_ADAPT_PREC], as long as the slots carried the same precision
    flags, which the padding reads). *)
Theorem C6_two_entries_and_deterministic
        {cfg : BuildConfig} {ops : MvOps} (cs : CodingStructure)
        (pu : PredictionUnit) (eRefPicList : RefPicList) (refIdx : Z) :
  (refIdx < 0 ->
   (forall a, fillMvpCand cs pu eRefPicList refIdx a
              = Normal (mkAMVPInfo (mvCand a) 0))
   /\ (forall a, fillAffineMvpCand cs pu eRefPicList refIdx a
                 = Normal (mkAffineAMVPInfo (mvCandLT a) (mvCandRT a) (mvCandLB a) 0)))
  /\ (0 <= refIdx ->
      (forall a info, fillMvpCand cs pu eRefPicList refIdx a = Normal info ->
                      numCand info = 2)
      /\ (forall a info, fillAffineMvpCand cs pu eRefPicList refIdx a = Normal info ->
                         aff_numCand info = 2)
      /\ (forall a,
            fillMvpCand cs pu eRefPicList refIdx a
            = (found <- mvpCandsFound cs pu eRefPicList refIdx a ;;
               Normal (finishMvpCands cs pu found)))
      /\ (forall a found info,
            zeroStaysZero ->
            mvpCandsFound cs pu eRefPicList refIdx a = Normal found ->
            fillMvpCand cs pu eRefPicList refIdx a = Normal info ->
            forall k, numCand found <= k < 2 ->
                      hor (mvCand info k) = 0 /\ ver (mvCand info k) = 0)
      /\ (forall a,
            fillAffineMvpCand cs pu eRefPicList refIdx a
            = (found <- affineCandsFound cs pu eRefPicList refIdx a ;;
               fillFromAmvp cs pu eRefPicList refIdx found))
      /\ (forall a found info,
            affineCandsFound cs pu eRefPicList refIdx a = Normal found ->
            fillAffineMvpCand cs pu eRefPicList refIdx a = Normal info ->
            (forall j, j < aff_numCand found ->
               mvCandLT info j = mvCandLT found j /\ mvCandRT info j = mvCandRT found j
               /\ mvCandLB info j = mvCandLB found j)
            /\ (aff_numCand found < 2 ->
                exists amvpInfo,
                  fillMvpCand cs pu eRefPicList refIdx AMVPInfo0 = Normal amvpInfo
                  /\ forall k, aff_numCand found <= k < 2 ->
                       mvCandLT info k
                       = affineFill (mvCand amvpInfo (k - aff_numCand found))
                       /\ mvCandRT info k
                          = affineFill (mvCand amvpInfo (k - aff_numCand found))
                       /\ mvCandLB info k
                          = affineFill (mvCand amvpInfo (k - aff_numCand found))))
      /\ (forall a a',
            REMOVE_MV_ADAPT_PREC = true
            \/ (forall i, highPrec (mvCand a i) = highPrec (mvCand a' i)) ->
            orel sameList (fillMvpCand cs pu eRefPicList refIdx a)
                          (fillMvpCand cs pu eRefPicList refIdx a'))
      /\ (forall a a',
            orel sameAffineList (fillAffineMvpCand cs pu eRefPicList refIdx a)
                                (fillAffineMvpCand cs pu eRefPicList refIdx a'))).
Proof.
  split.
  - intros Hneg.
    assert (Hr : (refIdx <? 0) = true) by (apply Z.ltb_lt; exact Hneg).
    split; intros a; [unfold fillMvpCand | unfold fillAffineMvpCand];
      rewrite Hr; reflexivity.
  - intros Hpos.
    assert (Hr : (refIdx <? 0) = false) by (apply Z.ltb_ge; exact Hpos).
    split; [| split; [| split; [| split; [| split; [| split; [| split]]]]]].
    + intros a info H. apply fillMvpCand_count in H. rewrite Hr in H. exact H.
    + intros a info H. apply fillAffineMvpCand_count in H. rewrite Hr in H. exact H.
    + intros a. apply fillMvpCand_parts. exact Hpos.
    + intros a found info Hzero Hfound Hfill k Hk.
      rewrite (fillMvpCand_parts cs pu eRefPicList refIdx a Hpos), Hfound in Hfill.
      cbn [obind] in Hfill. injection Hfill as <-.
      apply finishMvpCands_zero; [exact Hzero | exact Hk].
    + intros a. apply fillAffineMvpCand_parts. exact Hpos.
    + intros a found info Hfound Hfill.
      rewrite (fillAffineMvpCand_parts cs pu eRefPicList refIdx a Hpos), Hfound in Hfill.
      cbn [obind] in Hfill.
      exact (fillFromAmvp_contents cs pu eRefPicList refIdx found info Hpos Hfill).
    + intros a a' Hf. apply fillMvpCand_rel. exact Hf.
    + intros a a'. apply fillAffineMvpCand_rel.
Qed.

(** No spatial neighbour, the temporal predictor available: one candidate
    is found, the list is the temporal candidate followed by the zero
    vector. *)
Lemma C6_witness :
  exists found info,
    @mvpCandsFound Sample.cfg Sample.ops (Sample.csAlone 6 2 true) Sample.block
       REF_PIC_LIST_0 0 AMVPInfo0 = Normal found
    /\ @fillMvpCand Sample.cfg Sample.ops (Sample.csAlone 6 2 true) Sample.block
         REF_PIC_LIST_0 0 AMVPInfo0 = Normal info
    /\ numCand found = 1
    /\ numCand info = 2
    /\ mvCand info 0 = mkMv 1 0 false
    /\ (hor (mvCand info 1) = 0 /\ ver (mvCand info 1) = 0).
Proof.
  eexists. eexists. split; [reflexivity |]. split; [reflexivity |].
  split; [reflexivity |].
  pose proof (proj2 (@C6_two_entries_and_deterministic Sample.cfg Sample.ops
                       (Sample.csAlone 6 2 true) Sample.block REF_PIC_LIST_0 0)
                    ltac:(lia)) as (Hcount & _ & _ & Hzero & _).
  split; [exact (Hcount AMVPInfo0 _ eq_refl) |].
  split; [reflexivity |].
  refine (Hzero AMVPInfo0 _ _ _ eq_refl eq_refl 1 _).
  - split; [intros m s H; exact H |]. split; [intros m H; exact H | cbn; lia].
  - cbn. lia.
Defined.

(** ** The merge candidate list *)

Section MergeFacts.
Context {cfg : BuildConfig} {ops : MvOps}.
Variable cs : CodingStructure.
Variable pu : PredictionUnit.
Variable sampleSubPu : MergeCtx -> Z -> SubPuSampling.
Variable mrgCandIdx : Z.

Lemma fbind_post (P : MrgState -> Prop) (Q : MergeCtx -> Prop) o k :
  flowPost P Q o -> (forall s, P s -> post Q (k s)) -> post Q (fbind o k).
Proof.
  destruct o as [[s | m] | |]; cbn; auto.
Qed.

Lemma obind_post {A B : Type} (P : A -> Prop) (Q : B -> Prop) o (k : A -> outcome B) :
  post P o -> (forall a, P a -> post Q (k a)) -> post Q (obind o k).
Proof.
  destruct o; cbn; auto.
Qed.

Lemma sameFrame_refl m : sameFrame m m.
Proof. split; reflexivity. Qed.

Lemma sameFrame_trans a b c : sameFrame a b -> sameFrame b c -> sameFrame a c.
Proof. intros [H1 H2] [H3 H4]. split; congruence. Qed.

Lemma set_mvField_frame m i v : sameFrame m (set_mvField m i v).
Proof. split; reflexivity. Qed.
Lemma set_interDir_frame m i v : sameFrame m (set_interDir m i v).
Proof. split; reflexivity. Qed.
Lemma set_GBiIdx_frame m i v : sameFrame m (set_GBiIdx m i v).
Proof. split; reflexivity. Qed.
Lemma set_subPuBuf_frame m b : sameFrame m (set_subPuBuf m b).
Proof. split; reflexivity. Qed.

Ltac frame :=
  repeat first
    [ apply sameFrame_refl
    | match goal with
      | |- sameFrame ?m (if ?c then _ else _) => destruct c
      | |- sameFrame ?m (set_mvField _ _ _) =>
        eapply sameFrame_trans; [| apply set_mvField_frame]
      | |- sameFrame ?m (set_interDir _ _ _) =>
        eapply sameFrame_trans; [| apply set_interDir_frame]
      | |- sameFrame ?m (set_GBiIdx _ _ _) =>
        eapply sameFrame_trans; [| apply set_GBiIdx_frame]
      | |- sameFrame ?m (set_subPuBuf _ _) =>
        eapply sameFrame_trans; [| apply set_subPuBuf_frame]
      end ].

Lemma addSpatialCand_stepsOne st mi n :
  stepsOne st (addSpatialCand cs mrgCandIdx st mi n).
Proof.
  unfold stepsOne, addSpatialCand.
  destruct (_ && _); cbn [flowPost mrgCtx cnt]; [| split; [| lia]]; frame.
Qed.

Lemma spatialStep_stepsOne st avail keep mi n :
  stepsOne st (spatialStep cs mrgCandIdx st avail keep mi n).
Proof.
  unfold spatialStep.
  destruct n as [n |]; [destruct (avail && keep) |];
    try apply addSpatialCand_stepsOne;
    cbn; (split; [apply sameFrame_refl | lia]).
Qed.

Lemma subPuCenterList_frame count smp acc l :
  post (fun r => sameFrame (snd acc) (snd r)) (subPuCenterList count smp acc l).
Proof.
  unfold subPuCenterList. destruct acc as [found c]. cbn [snd].
  destruct (deriveCenter smp l) as [[m |] | |]; cbn [obind post snd]; auto; frame.
Qed.

Lemma getInterMergeSubPuMvpCand_frame c count :
  post (fun r => sameFrame c (snd r))
       (getInterMergeSubPuMvpCand cs sampleSubPu c count).
Proof.
  unfold getInterMergeSubPuMvpCand.
  eapply obind_post with (P := fun _ => True); [destruct (centerIsInter _); exact I |].
  intros inter _.
  eapply obind_post with (P := fun r => sameFrame c (snd r)).
  - destruct inter; [| apply sameFrame_refl].
    eapply obind_post; [apply subPuCenterList_frame |].
    intros acc Hacc. cbn [snd] in Hacc.
    destruct (isInterB _); [| exact Hacc].
    pose proof (subPuCenterList_frame count (sampleSubPu c count) acc REF_PIC_LIST_1) as H.
    destruct (subPuCenterList _ _ _ _); cbn [post] in *; auto.
    eapply sameFrame_trans; eassumption.
  - intros [found c'] Hc. cbn [snd] in Hc.
    destruct (negb found); [exact Hc |].
    destruct (subBlockMotion _); cbn [obind post snd]; auto;
      try (eapply sameFrame_trans; [exact Hc | apply set_subPuBuf_frame]).
Qed.

Lemma subPuStep_post st :
  post (fun r =>
          match fst (fst r) with
          | Go s => subPuTypes cs st (mrgCtx s)
                    /\ (cnt s = cnt st
                        \/ (cnt s = cnt st + 1 /\ cnt s <> maxNumMergeCand cs))
          | Ret m => subPuTypes cs st m
          end)
       (subPuStep cs sampleSubPu mrgCandIdx st).
Proof.
  unfold subPuStep.
  eapply obind_post with (P := fun c => sameFrame (mrgCtx st) c).
  { destruct (getUseSubPuMvp _); [| apply sameFrame_refl].
    destruct (CHECK _ _); cbn [obind post]; auto. apply set_subPuBuf_frame. }
  intros c Hc.
  assert (Hsame : forall c', sameFrame (mrgCtx st) c' -> subPuTypes cs st c').
  { intros c' [Hn Ht]. split; [symmetry; exact Hn | left; symmetry; exact Ht]. }
  destruct (getUseSubPuMvp (spsNext cs)) eqn:Hsub; cbn [andb];
    [| cbn; split; [apply Hsame; exact Hc | left; reflexivity]].
  destruct (getEnableTMVPFlag (slice cs)) eqn:Htmvp;
    [| cbn; split; [apply Hsame; exact Hc | left; reflexivity]].
  eapply obind_post with (P := fun r => sameFrame (mrgCtx st) (snd r)
                                        /\ (fst r = true -> subPuEnabled cs)).
  { destruct (getUseATMVP (spsNext cs)) eqn:Hat.
    - pose proof (getInterMergeSubPuMvpCand_frame c (cnt st)) as H.
      destruct (getInterMergeSubPuMvpCand _ _ _ _) as [[b c'] | |]; cbn [post] in *; auto.
      split; [eapply sameFrame_trans; eassumption |].
      intros _. repeat split; assumption.
    - cbn. split; [exact Hc | discriminate]. }
  intros [avail c'] [Hc' Hen]. cbn [fst snd] in Hc', Hen.
  destruct avail.
  - assert (Ht : subPuTypes cs st (set_mrgType c' (cnt st) MRG_TYPE_SUBPU_ATMVP)).
    { destruct Hc' as [Hn Ht]. split; [symmetry; exact Hn |].
      right. split; [apply Hen; reflexivity |]. cbn. rewrite Ht. reflexivity. }
    destruct (mrgCandIdx =? cnt st); [exact Ht |].
    destruct (Z.eqb_spec (cnt st + 1) (maxNumMergeCand cs)); cbn; [exact Ht |].
    split; [exact Ht | right; split; [reflexivity | assumption]].
  - cbn. split; [apply Hsame; exact Hc' | left; reflexivity].
Qed.

Lemma aboveLeftStep_stepsOne st :
  stepsOne st (aboveLeftStep cs pu mrgCandIdx st).
Proof.
  unfold aboveLeftStep. destruct (cnt st <? _); [apply spatialStep_stepsOne |].
  cbn. split; [apply sameFrame_refl | lia].
Qed.

Lemma tmvpStep_stepsOne st avail pos :
  stepsOne st (tmvpStep cs pu mrgCandIdx st avail pos).
Proof.
  unfold tmvpStep, stepsOne.
  destruct (getEnableTMVPFlag _); [| cbn; split; [apply sameFrame_refl | lia]].
  destruct (colocatedC0C1 cs REF_PIC_LIST_0 _ _ _ _) as [r0 | |]; cbn [obind flowPost];
    auto.
  set (dc := match r0 with Some _ => _ | None => _ end).
  assert (Hdc : sameFrame (mrgCtx st) (snd dc)).
  { subst dc. destruct r0; cbn [snd]; frame. }
  destruct dc as [dir c]. cbn [snd] in Hdc.
  match goal with |- context [obind ?o _] =>
    assert (Hb : post (fun r => sameFrame (mrgCtx st) (snd r)) o)
  end.
  { destruct (isInterB _); [| exact Hdc].
    destruct (colocatedC0C1 cs REF_PIC_LIST_1 _ _ _ _) as [[m |] | |];
      cbn [obind post snd]; auto;
      try (eapply sameFrame_trans; [exact Hdc | apply set_mvField_frame]). }
  match goal with |- context [obind ?o _] => destruct o as [[dir' c'] | |] end;
    cbn [obind flowPost post snd] in *; auto.
  destruct (negb (dir' =? 0)); [| cbn; split; [exact Hb | lia]].
  match goal with |- context [if ?c then _ else Normal (Go _)] => destruct c end;
    [| cbn; split; [exact Hb | lia]].
  destruct (_ && _); cbn [flowPost mrgCtx cnt]; [| split; [| lia]];
    (eapply sameFrame_trans; [exact Hb |]); frame.
Qed.

Lemma earlyTermination_post st :
  cnt st <= maxNumMergeCand cs -> stepsBelowMax cs st (earlyTermination cs st).
Proof.
  intros Hle. unfold stepsBelowMax, earlyTermination.
  destruct (Z.eqb_spec (cnt st) (maxNumMergeCand cs)); cbn;
    [apply sameFrame_refl | split; [apply sameFrame_refl | lia]].
Qed.

Lemma pairAvgList_frame i j acc l :
  sameFrame (snd (fst acc)) (snd (fst (pairAvgList cs i j acc l)))
  /\ snd (pairAvgList cs i j acc l) = snd acc.
Proof.
  destruct acc as [[d c] n]. unfold pairAvgList. cbn [fst snd].
  repeat match goal with
         | |- context [if ?c then _ else _] =>
           lazymatch c with
           | context [if _ then _ else _] => fail
           | _ => destruct c
           end
         end; cbn [fst snd]; split; try reflexivity; frame.
Qed.

Lemma pairAvgBody_post st ij :
  cnt st <= maxNumMergeCand cs ->
  sameFrame (mrgCtx st) (mrgCtx (pairAvgBody cs st ij))
  /\ cnt st <= cnt (pairAvgBody cs st ij) <= maxNumMergeCand cs.
Proof.
  intros Hle. unfold pairAvgBody.
  destruct (Z.eqb_spec (cnt st) (maxNumMergeCand cs)) as [E | Hne];
    [split; [apply sameFrame_refl | lia] |].
  destruct ij as [i j].
  set (c0 := set_mvField (set_mvField _ _ _) _ _).
  assert (H0 : sameFrame (mrgCtx st) c0) by (subst c0; frame).
  pose proof (pairAvgList_frame i j (0, c0, cnt st) 0) as [H1 H1n].
  set (acc1 := pairAvgList cs i j (0, c0, cnt st) 0) in *.
  set (acc2 := if isInterB (slice cs) then _ else acc1).
  assert (H2 : sameFrame c0 (snd (fst acc2))).
  { subst acc2. destruct (isInterB _); [| exact H1].
    pose proof (pairAvgList_frame i j acc1 1) as [H2 _].
    eapply sameFrame_trans; eassumption. }
  destruct acc2 as [[d c] n]. cbn [fst snd] in H2. cbn [mrgCtx cnt].
  split; [eapply sameFrame_trans; [exact H0 |];
          eapply sameFrame_trans; [exact H2 | apply set_interDir_frame] |].
  destruct (d >? 0); lia.
Qed.

Lemma fold_left_post {B : Type} (f : MrgState -> B -> MrgState) l st :
  cnt st <= maxNumMergeCand cs ->
  (forall s b, cnt s <= maxNumMergeCand cs ->
               sameFrame (mrgCtx s) (mrgCtx (f s b))
               /\ cnt s <= cnt (f s b) <= maxNumMergeCand cs) ->
  sameFrame (mrgCtx st) (mrgCtx (fold_left f l st))
  /\ cnt st <= cnt (fold_left f l st) <= maxNumMergeCand cs.
Proof.
  intros Hle Hf. revert st Hle. induction l as [| b l IH]; intros st Hle; cbn.
  - split; [apply sameFrame_refl | lia].
  - destruct (Hf st b Hle) as [H1 H2]. destruct (IH (f st b) ltac:(lia)) as [H3 H4].
    split; [eapply sameFrame_trans; eassumption | lia].
Qed.

Lemma pairAvgStep_post st :
  cnt st <= maxNumMergeCand cs -> stepsBelowMax cs st (pairAvgStep cs st).
Proof.
  intros Hle. unfold pairAvgStep.
  match goal with |- context [fold_left ?f ?l st] =>
    destruct (fold_left_post f l st Hle (fun s b H => pairAvgBody_post s b H))
      as [Hf Hc];
    pose proof (earlyTermination_post (fold_left f l st) ltac:(lia)) as He;
    destruct (earlyTermination cs (fold_left f l st)) as [[s | m] | |]
  end; cbn in *; auto.
  - destruct He as [He1 He2]. split; [eapply sameFrame_trans; eassumption | lia].
  - eapply sameFrame_trans; eassumption.
Qed.

Lemma combinedBody_post st ij :
  cnt st <= maxNumMergeCand cs ->
  sameFrame (mrgCtx st) (mrgCtx (combinedBody cs st ij))
  /\ cnt st <= cnt (combinedBody cs st ij) <= maxNumMergeCand cs.
Proof.
  intros Hle. unfold combinedBody.
  destruct (Z.eqb_spec (cnt st) (maxNumMergeCand cs)) as [E | Hne];
    [split; [apply sameFrame_refl | lia] |].
  destruct ij as [i j].
  destruct (_ && _ && _ && _); [| split; [apply sameFrame_refl | lia]].
  match goal with |- context [if ?c then _ else _] => destruct c end;
    cbn [mrgCtx cnt]; (split; [frame | lia]).
Qed.

Lemma combinedStep_post st :
  cnt st <= maxNumMergeCand cs -> stepsBelowMax cs st (combinedStep cs st).
Proof.
  intros Hle. unfold combinedStep.
  set (st' := if isInterB (slice cs) then _ else st).
  assert (H : sameFrame (mrgCtx st) (mrgCtx st')
              /\ cnt st <= cnt st' <= maxNumMergeCand cs).
  { subst st'. destruct (isInterB _); [| split; [apply sameFrame_refl | lia]].
    apply fold_left_post; [exact Hle |]. intros s b Hs. apply combinedBody_post, Hs. }
  destruct H as [Hf Hc].
  pose proof (earlyTermination_post st' ltac:(lia)) as He.
  destruct (earlyTermination cs st') as [[s | m] | |]; cbn in *; auto.
  - destruct He as [He1 He2]. split; [eapply sameFrame_trans; eassumption | lia].
  - eapply sameFrame_trans; eassumption.
Qed.

Lemma zeroFill_post fuel c addr r refcnt n :
  addr <= maxNumMergeCand cs ->
  fuel = Z.to_nat (maxNumMergeCand cs - addr) ->
  sameFrame c (fst (zeroFill cs fuel c addr r refcnt n))
  /\ snd (zeroFill cs fuel c addr r refcnt n) = maxNumMergeCand cs.
Proof.
  revert c addr r refcnt.
  induction fuel as [| fuel IH]; intros c addr r refcnt Hle Hf; cbn [zeroFill].
  - cbn. split; [apply sameFrame_refl | lia].
  - destruct (Z.ltb_spec addr (maxNumMergeCand cs)) as [Hlt | Hge]; [| lia].
    set (c1 := if isInterB (slice cs) then _ else _).
    assert (H1 : sameFrame c c1) by (subst c1; frame).
    destruct (refcnt =? n - 1);
      match goal with |- context [zeroFill cs fuel c1 ?a ?r' ?rc n] =>
        destruct (IH c1 a r' rc ltac:(lia) ltac:(lia)) as [H2 H3]
      end;
      (split; [eapply sameFrame_trans; eassumption | exact H3]).
Qed.

Lemma zeroFillStep_numValid st :
  cnt st <= maxNumMergeCand cs ->
  numValidMergeCand (zeroFillStep cs st) = maxNumMergeCand cs
  /\ mrgTypeNeighbours (zeroFillStep cs st) = mrgTypeNeighbours (mrgCtx st).
Proof.
  intros Hle. unfold zeroFillStep.
  match goal with |- context [zeroFill cs ?f ?c ?a ?r ?rc ?n] =>
    destruct (zeroFill_post f c a r rc n Hle eq_refl) as [[_ Ht] Ha];
    destruct (zeroFill cs f c a r rc n) as [c' addr']
  end.
  cbn in *. split; [exact Ha | symmetry; exact Ht].
Qed.

Lemma initCand_props ui st :
  cnt (initCand ui st) = cnt st
  /\ numValidMergeCand (mrgCtx (initCand ui st)) = numValidMergeCand (mrgCtx st)
  /\ mrgTypeNeighbours (mrgCtx (initCand ui st))
     = upd (mrgTypeNeighbours (mrgCtx st)) ui MRG_TYPE_DEFAULT_N.
Proof.
  unfold initCand. cbv beta zeta. cbn [cnt mrgCtx].
  split; [reflexivity |].
  destruct JVET_L0646_GBI; cbn; split; reflexivity.
Qed.

Lemma forUpTo_initCand n st0 :
  let st := forUpTo n (initCand) st0 in
  cnt st = cnt st0
  /\ numValidMergeCand (mrgCtx st) = numValidMergeCand (mrgCtx st0)
  /\ forall i, 0 <= i < Z.of_nat n ->
       mrgTypeNeighbours (mrgCtx st) i = MRG_TYPE_DEFAULT_N.
Proof.
  induction n as [| n (IHc & IHn & IHt)]; cbn zeta.
  - cbn. repeat split; try reflexivity. intros i Hi. lia.
  - cbn [forUpTo].
    destruct (initCand_props (Z.of_nat n) (forUpTo n initCand st0)) as (Hc & Hn & Ht).
    rewrite Hc, Hn, Ht.
    split; [exact IHc |]. split; [exact IHn |].
    intros i Hi. unfold upd. destruct (Z.eqb_spec i (Z.of_nat n)); [reflexivity |].
    apply IHt. lia.
Qed.

Lemma initMerge_post c0 cand0 :
  0 <= maxNumMergeCand cs ->
  let st := initMerge cs c0 cand0 in
  cnt st = 0
  /\ numValidMergeCand (mrgCtx st) = maxNumMergeCand cs
  /\ forall i, 0 <= i < maxNumMergeCand cs ->
       mrgTypeNeighbours (mrgCtx st) i = MRG_TYPE_DEFAULT_N.
Proof.
  intros Hmax. unfold initMerge. cbn zeta. cbn [cnt mrgCtx].
  destruct (forUpTo_initCand (Z.to_nat (maxNumMergeCand cs)) (mkMrgState c0 0 cand0))
    as (_ & _ & Ht).
  repeat split; try reflexivity. intros i Hi. cbn. apply Ht. lia.
Qed.

Lemma flowPost_weaken (P P' : MrgState -> Prop) (Q Q' : MergeCtx -> Prop) o :
  flowPost P Q o -> (forall s, P s -> P' s) -> (forall m, Q m -> Q' m) ->
  flowPost P' Q' o.
Proof.
  destruct o as [[s | m] | |]; cbn; auto.
Qed.

Lemma earlyTermination_cases st :
  (earlyTermination cs st = Normal (Ret (mrgCtx st)) /\ cnt st = maxNumMergeCand cs)
  \/ (earlyTermination cs st = Normal (Go st) /\ cnt st <> maxNumMergeCand cs).
Proof.
  unfold earlyTermination.
  destruct (Z.eqb_spec (cnt st) (maxNumMergeCand cs)); [left | right]; auto.
Qed.

(** A step that adds at most one candidate, followed by the
    early-termination test. *)
Lemma stepsOne_then_early st o (Q : MergeCtx -> Prop) k :
  stepsOne st o ->
  cnt st < maxNumMergeCand cs ->
  (forall m, sameFrame (mrgCtx st) m -> Q m) ->
  (forall s, sameFrame (mrgCtx st) (mrgCtx s) ->
             cnt st <= cnt s <= cnt st + 1 -> cnt s < maxNumMergeCand cs ->
             post Q (k s)) ->
  post Q (s <~ o ;; s <~ earlyTermination cs s ;; k s).
Proof.
  intros Ho Hlt HQ Hk.
  eapply fbind_post.
  { eapply flowPost_weaken; [exact Ho | intros s H; exact H | exact HQ]. }
  cbn beta. intros s [Hf Hc].
  destruct (earlyTermination_cases s) as [[-> He] | [-> He]]; cbn [fbind post].
  - apply HQ, Hf.
  - apply Hk; [exact Hf | exact Hc | lia].
Qed.

Lemma sameFrame_mergeListOk m m' :
  sameFrame m m' -> mergeListOk cs m -> mergeListOk cs m'.
Proof.
  intros [Hn Ht] [H1 H2]. split; [congruence |]. rewrite <- Ht. exact H2.
Qed.

(** The framework of C1 and C7: every list the derivation returns for a
    signalled maximum of at least one satisfies [mergeListOk]. *)
Lemma getInterMergeCandidates_ok mrgCtx0 cand0 :
  1 <= getMaxNumMergeCand (slice cs) ->
  post (mergeListOk cs)
       (getInterMergeCandidates cs pu sampleSubPu mrgCandIdx mrgCtx0 cand0).
Proof.
  intros Hmax. unfold getInterMergeCandidates, spatialSteps.
  destruct (initMerge_post mrgCtx0 cand0 ltac:(unfold maxNumMergeCand; lia))
    as (Hc0 & Hn0 & Ht0).
  set (st0 := initMerge cs mrgCtx0 cand0) in *.
  unfold maxNumMergeCand in *.
  assert (Hok0 : forall m, sameFrame (mrgCtx st0) m -> mergeListOk cs m).
  { intros m [Hn Ht]. split; [congruence |]. intros i Hi Hty.
    rewrite <- Ht, Ht0 in Hty by exact Hi. discriminate. }
  apply (stepsOne_then_early st0);
    [apply spatialStep_stepsOne | unfold maxNumMergeCand; lia | exact Hok0 |].
  intros s1 Hf1 Hc1 Hlt1.
  apply (stepsOne_then_early s1); [apply spatialStep_stepsOne | exact Hlt1 | |].
  { intros m Hm. apply Hok0. eapply sameFrame_trans; eassumption. }
  intros s2 Hf2 Hc2 Hlt2.
  assert (Hf02 : sameFrame (mrgCtx st0) (mrgCtx s2))
    by (eapply sameFrame_trans; [exact Hf1 | exact Hf2]).
  apply (stepsOne_then_early s2); [apply spatialStep_stepsOne | exact Hlt2 | |].
  { intros m Hm. apply Hok0. eapply sameFrame_trans; [exact Hf02 | exact Hm]. }
  intros s3 Hf3 Hc3 Hlt3.
  assert (Hf03 : sameFrame (mrgCtx st0) (mrgCtx s3))
    by (eapply sameFrame_trans; [exact Hf02 | exact Hf3]).
  apply (stepsOne_then_early s3); [apply spatialStep_stepsOne | exact Hlt3 | |].
  { intros m Hm. apply Hok0. eapply sameFrame_trans; [exact Hf03 | exact Hm]. }
  intros s4 Hf4 Hc4 Hlt4.
  assert (Hf04 : sameFrame (mrgCtx st0) (mrgCtx s4))
    by (eapply sameFrame_trans; [exact Hf03 | exact Hf4]).
  assert (Hcnt4 : 0 <= cnt s4 <= 4) by lia.
  clear Hf1 Hf2 Hf3 Hf4 Hf02 Hf03 Hc1 Hc2 Hc3 Hc4 Hlt1 Hlt2 Hlt3.
  eapply obind_post; [apply subPuStep_post |].
  intros [[f avail] pos] Hsub. cbn [fst] in Hsub.
  assert (Hty : forall m, subPuTypes cs s4 m -> mergeListOk cs m).
  { intros m [Hn [Ht | [Hen Ht]]].
    - apply Hok0. destruct Hf04 as [Hn4 Ht4]. split; congruence.
    - destruct Hf04 as [Hn4 Ht4]. split; [congruence |].
      intros i Hi Hi2. rewrite Ht in Hi2. unfold upd in Hi2.
      destruct (Z.eqb_spec i (cnt s4)) as [-> | Hne]; [split; [exact Hen | lia] |].
      rewrite <- Ht4, Ht0 in Hi2 by exact Hi. discriminate. }
  destruct f as [s5 | m]; cbn [fbind post]; [| apply Hty; exact Hsub].
  destruct Hsub as [Hty5 Hc5].
  assert (Hlt5 : cnt s5 < getMaxNumMergeCand (slice cs))
    by (unfold maxNumMergeCand in *; lia).
  apply Hty in Hty5.
  apply (stepsOne_then_early s5);
    [apply aboveLeftStep_stepsOne | exact Hlt5
     | intros m Hm; eapply sameFrame_mergeListOk; [exact Hm | exact Hty5] |].
  intros s6 Hf6 _ Hlt6.
  apply (stepsOne_then_early s6);
    [apply tmvpStep_stepsOne | exact Hlt6
     | intros m Hm; eapply sameFrame_mergeListOk;
       [eapply sameFrame_trans; [exact Hf6 | exact Hm] | exact Hty5] |].
  intros s7 Hf7 _ Hlt7.
  assert (Hok7 : mergeListOk cs (mrgCtx s7)).
  { eapply sameFrame_mergeListOk; [| exact Hty5].
    eapply sameFrame_trans; [exact Hf6 | exact Hf7]. }
  eapply fbind_post with
    (P := fun s => mergeListOk cs (mrgCtx s) /\ cnt s < getMaxNumMergeCand (slice cs)).
  { destruct JVET_L0090_PAIR_AVG;
      (eapply flowPost_weaken;
       [first [apply pairAvgStep_post | apply combinedStep_post];
        unfold maxNumMergeCand in *; lia
       | intros s [Hf Hc]; split;
         [eapply sameFrame_mergeListOk; [exact Hf | exact Hok7]
         | unfold maxNumMergeCand in Hc; lia]
       | intros m Hm; eapply sameFrame_mergeListOk; [exact Hm | exact Hok7]]). }
  cbn beta. intros s8 [Hok8 Hlt8]. cbn [post].
  destruct (zeroFillStep_numValid s8 ltac:(unfold maxNumMergeCand in *; lia)) as [Hn Ht].
  destruct Hok8 as [_ H8]. split; [exact Hn |]. rewrite Ht. exact H8.
Qed.

Lemma shiftl_1 (k : Z) : Z.shiftl k 1 = 2 * k.
Proof. rewrite Z.shiftl_mul_pow2 by lia. lia. Qed.

(** What the zero-motion fill leaves in the slots from [addr] on, and that
    it leaves the slots before [addr] alone. *)
Lemma zeroFill_contents fuel c addr r refcnt n :
  0 <= addr <= maxNumMergeCand cs ->
  fuel = Z.to_nat (maxNumMergeCand cs - addr) ->
  refcnt <= n - 1 ->
  let c' := fst (zeroFill cs fuel c addr r refcnt n) in
  (forall k, addr <= k < maxNumMergeCand cs ->
     interDirNeighbours c' k = (if isInterB (slice cs) then 3 else 1)
     /\ mvFieldNeighbours c' (2 * k)
        = mkMvField Mv0 (zeroFillRefIdx r refcnt n (k - addr))
     /\ (isInterB (slice cs) = true ->
         mvFieldNeighbours c' (2 * k + 1)
         = mkMvField Mv0 (zeroFillRefIdx r refcnt n (k - addr))))
  /\ (forall k, k < addr -> interDirNeighbours c' k = interDirNeighbours c k)
  /\ (forall i, i < 2 * addr -> mvFieldNeighbours c' i = mvFieldNeighbours c i).
Proof.
  revert c addr r refcnt.
  induction fuel as [| fuel IH]; intros c addr r refcnt Haddr Hf Hrc; cbn zeta;
    cbn [zeroFill].
  - cbn [fst]. repeat split; intros; try reflexivity; lia.
  - destruct (Z.ltb_spec addr (maxNumMergeCand cs)) as [Hlt | Hge]; [| lia].
    set (c1 := if isInterB (slice cs) then _ else _).
    assert (Hc1 : interDirNeighbours c1 addr = (if isInterB (slice cs) then 3 else 1)
                  /\ mvFieldNeighbours c1 (2 * addr) = mkMvField Mv0 r
                  /\ (isInterB (slice cs) = true ->
                      mvFieldNeighbours c1 (2 * addr + 1) = mkMvField Mv0 r)
                  /\ (forall k, k < addr ->
                        interDirNeighbours c1 k = interDirNeighbours c k)
                  /\ (forall i, i < 2 * addr ->
                        mvFieldNeighbours c1 i = mvFieldNeighbours c i)).
    { subst c1. rewrite !shiftl_1.
      destruct (isInterB (slice cs)), JVET_L0646_GBI;
        cbn [set_mvField set_interDir set_GBiIdx interDirNeighbours mvFieldNeighbours];
        unfold upd;
        repeat split; intros;
        repeat match goal with
               | |- context [?a =? ?b] => destruct (Z.eqb_spec a b); try lia
               end; try reflexivity; try discriminate. }
    destruct Hc1 as (Hd1 & Hm1 & Hm1' & Hk1 & Hi1).
    assert (Hnext : forall r' rc',
               rc' <= n - 1 ->
               (forall j, 0 <= j -> zeroFillRefIdx r' rc' n j
                                    = zeroFillRefIdx r refcnt n (j + 1)) ->
               let c' := fst (zeroFill cs fuel c1 (addr + 1) r' rc' n) in
               (forall k, addr <= k < maxNumMergeCand cs ->
                  interDirNeighbours c' k = (if isInterB (slice cs) then 3 else 1)
                  /\ mvFieldNeighbours c' (2 * k)
                     = mkMvField Mv0 (zeroFillRefIdx r refcnt n (k - addr))
                  /\ (isInterB (slice cs) = true ->
                      mvFieldNeighbours c' (2 * k + 1)
                      = mkMvField Mv0 (zeroFillRefIdx r refcnt n (k - addr))))
               /\ (forall k, k < addr -> interDirNeighbours c' k = interDirNeighbours c k)
               /\ (forall i, i < 2 * addr -> mvFieldNeighbours c' i = mvFieldNeighbours c i)).
    { intros r' rc' Hrc' Hseq. cbn zeta.
      destruct (IH c1 (addr + 1) r' rc' ltac:(lia) ltac:(lia) Hrc') as (Hin & Hbk & Hbi).
      assert (H0 : zeroFillRefIdx r refcnt n (addr - addr) = r).
      { unfold zeroFillRefIdx. replace (addr - addr) with 0 by lia.
        destruct (Z.leb_spec (refcnt + 0) (n - 1)); lia. }
      split; [| split].
      - intros k Hk. destruct (Z.eq_dec k addr) as [-> | Hne].
        + rewrite H0, (Hbk addr ltac:(lia)), (Hbi (2 * addr) ltac:(lia)), Hd1, Hm1.
          split; [reflexivity |]. split; [reflexivity |].
          intros HB. rewrite (Hbi (2 * addr + 1) ltac:(lia)). apply Hm1', HB.
        + destruct (Hin k ltac:(lia)) as (Ha & Hb & Hc).
          replace (k - addr) with (k - (addr + 1) + 1) by lia.
          rewrite <- (Hseq (k - (addr + 1)) ltac:(lia)). repeat split; assumption.
      - intros k Hk. rewrite (Hbk k ltac:(lia)). apply Hk1, Hk.
      - intros i Hi. rewrite (Hbi i ltac:(lia)). apply Hi1, Hi. }
    destruct (Z.eqb_spec refcnt (n - 1)) as [E | Hne]; apply Hnext; try lia.
    + intros j Hj. unfold zeroFillRefIdx.
      destruct (Z.leb_spec (refcnt + j) (n - 1)), (Z.leb_spec (refcnt + (j + 1)) (n - 1));
        lia.
    + intros j Hj. unfold zeroFillRefIdx.
      destruct (Z.leb_spec (refcnt + 1 + j) (n - 1)),
               (Z.leb_spec (refcnt + (j + 1)) (n - 1)); lia.
Qed.

Lemma spatialStep_unavailable st keep mi n :
  spatialStep cs mrgCandIdx st false keep mi n = Normal (Go st).
Proof. unfold spatialStep. destruct n; reflexivity. Qed.

Lemma isAvailableA1_puLeft :
  isAvailableA1 cs pu = true -> exists n, puLeft cs pu = Some n.
Proof.
  unfold isAvailableA1, availableDiffMER.
  destruct (puLeft cs pu) as [n |]; [eauto | discriminate].
Qed.

End MergeFacts.

(** *** The candidates stored so far are left alone *)

Section MergeSlots.
Context {cfg : BuildConfig} {ops : MvOps}.
Variable cs : CodingStructure.
Variable pu : PredictionUnit.
Variable sampleSubPu : MergeCtx -> Z -> SubPuSampling.
Variable mrgCandIdx : Z.

Lemma keepsBelow_refl n m : keepsBelow n m m.
Proof. split; reflexivity. Qed.

Lemma keepsBelow_trans n n' a b c :
  n <= n' -> keepsBelow n a b -> keepsBelow n' b c -> keepsBelow n a c.
Proof.
  intros Hle [H1 H2] [H3 H4]. split.
  - intros k Hk. rewrite H3 by lia. apply H1, Hk.
  - intros i Hi. rewrite H4 by lia. apply H2, Hi.
Qed.

Lemma set_mvField_keeps n m i v : 2 * n <= i -> keepsBelow n m (set_mvField m i v).
Proof.
  intros Hi. split; [reflexivity |]. intros j Hj. cbn. unfold upd.
  destruct (Z.eqb_spec j i); [lia | reflexivity].
Qed.

Lemma set_interDir_keeps n m k v : n <= k -> keepsBelow n m (set_interDir m k v).
Proof.
  intros Hk. split; [| reflexivity]. intros j Hj. cbn. unfold upd.
  destruct (Z.eqb_spec j k); [lia | reflexivity].
Qed.

Lemma set_GBiIdx_keeps n m i v : keepsBelow n m (set_GBiIdx m i v).
Proof. split; reflexivity. Qed.
Lemma set_subPuBuf_keeps n m b : keepsBelow n m (set_subPuBuf m b).
Proof. split; reflexivity. Qed.
Lemma set_mrgType_keeps n m i v : keepsBelow n m (set_mrgType m i v).
Proof. split; reflexivity. Qed.
Lemma set_numValid_keeps n m v : keepsBelow n m (set_numValid m v).
Proof. split; reflexivity. Qed.

Ltac keeps :=
  repeat first
    [ apply keepsBelow_refl
    | match goal with
      | |- keepsBelow ?n ?m (if ?c then _ else _) => destruct c
      | |- keepsBelow ?n ?m (set_mvField ?x ?i ?v) =>
        refine (keepsBelow_trans n n m x _ (Z.le_refl n) _
                  (set_mvField_keeps n x i v _)); [| rewrite ?shiftl_1; lia]
      | |- keepsBelow ?n ?m (set_interDir ?x ?i ?v) =>
        refine (keepsBelow_trans n n m x _ (Z.le_refl n) _
                  (set_interDir_keeps n x i v _)); [| lia]
      | |- keepsBelow ?n ?m (set_GBiIdx ?x ?i ?v) =>
        refine (keepsBelow_trans n n m x _ (Z.le_refl n) _ (set_GBiIdx_keeps n x i v))
      | |- keepsBelow ?n ?m (set_subPuBuf ?x ?b) =>
        refine (keepsBelow_trans n n m x _ (Z.le_refl n) _ (set_subPuBuf_keeps n x b))
      | |- keepsBelow ?n ?m (set_mrgType ?x ?i ?v) =>
        refine (keepsBelow_trans n n m x _ (Z.le_refl n) _ (set_mrgType_keeps n x i v))
      | |- keepsBelow ?n ?m (set_numValid ?x ?v) =>
        refine (keepsBelow_trans n n m x _ (Z.le_refl n) _ (set_numValid_keeps n x v))
      end ].

Lemma slotHolds_keeps n a b k mi :
  0 <= k < n -> keepsBelow n a b -> slotHolds cs a k mi -> slotHolds cs b k mi.
Proof.
  intros Hk [H1 H2] (Hd & H0 & H1'). unfold slotHolds.
  rewrite H1, !H2 by lia. auto.
Qed.

(** The block of an accepted spatial neighbour: the candidate lands in the
    slot at [cnt], the slots before it stay, and the routine returns at
    once exactly when [mrgCandIdx] names that slot and the fast exit is
    allowed. *)
Lemma addSpatialCand_slots st mi n :
  flowPost
    (fun s => keepsBelow (cnt st) (mrgCtx st) (mrgCtx s)
              /\ cnt s = cnt st + 1
              /\ slotHolds cs (mrgCtx s) (cnt st) mi)
    (fun m => keepsBelow (cnt st) (mrgCtx st) m
              /\ slotHolds cs m (cnt st) mi
              /\ mrgCandIdx = cnt st /\ canFastExit cs = true)
    (addSpatialCand cs mrgCandIdx st mi n).
Proof.
  unfold addSpatialCand.
  set (c := if isInterB (slice cs) then _ else _).
  assert (Hk : keepsBelow (cnt st) (mrgCtx st) c) by (subst c; keeps).
  assert (Hs : slotHolds cs c (cnt st) mi).
  { subst c. unfold slotHolds. rewrite !shiftl_1.
    destruct (isInterB (slice cs)), JVET_L0646_GBI;
      cbn [set_mvField set_interDir set_GBiIdx interDirNeighbours mvFieldNeighbours
           setMvField];
      unfold upd;
      repeat match goal with
             | |- context [?a =? ?b] => destruct (Z.eqb_spec a b); try lia
             end;
      repeat split; try reflexivity; try discriminate. }
  destruct (Z.eqb_spec mrgCandIdx (cnt st)) as [E | E]; cbn [andb].
  - destruct (canFastExit cs) eqn:Hf; cbn [flowPost mrgCtx cnt]; auto.
  - cbn [flowPost mrgCtx cnt]. auto.
Qed.

Lemma spatialStep_slots st avail keep mi neib :
  keepsSlots st (spatialStep cs mrgCandIdx st avail keep mi neib).
Proof.
  unfold spatialStep, keepsSlots.
  destruct neib as [n |]; [destruct (avail && keep) |];
    try (cbn; split; [apply keepsBelow_refl | lia]).
  pose proof (addSpatialCand_slots st mi n) as H.
  destruct (addSpatialCand cs mrgCandIdx st mi n) as [[s | m] | |]; cbn in *; auto.
  - destruct H as (H1 & H2 & _). split; [exact H1 | lia].
  - apply H.
Qed.

Lemma subPuCenterList_keeps count smp acc l :
  post (fun r => keepsBelow count (snd acc) (snd r)) (subPuCenterList count smp acc l).
Proof.
  unfold subPuCenterList. destruct acc as [found c]. cbn [snd].
  destruct (deriveCenter smp l) as [[m |] | |]; cbn [obind post snd]; auto;
    destruct l; cbn [listIdx]; keeps.
Qed.

Lemma getInterMergeSubPuMvpCand_keeps c count :
  post (fun r => keepsBelow count c (snd r))
       (getInterMergeSubPuMvpCand cs sampleSubPu c count).
Proof.
  unfold getInterMergeSubPuMvpCand.
  eapply obind_post with (P := fun _ => True); [destruct (centerIsInter _); exact I |].
  intros inter _.
  eapply obind_post with (P := fun r => keepsBelow count c (snd r)).
  - destruct inter; [| apply keepsBelow_refl].
    eapply obind_post; [apply subPuCenterList_keeps |].
    intros acc Hacc. cbn [snd] in Hacc.
    destruct (isInterB _); [| exact Hacc].
    pose proof (subPuCenterList_keeps count (sampleSubPu c count) acc REF_PIC_LIST_1) as H.
    destruct (subPuCenterList _ _ _ _); cbn [post] in *; auto.
    eapply keepsBelow_trans; [apply Z.le_refl | exact Hacc | exact H].
  - intros [found c'] Hc. cbn [snd] in Hc.
    destruct (negb found); [exact Hc |].
    destruct (subBlockMotion _); cbn [obind post snd]; auto;
      try (eapply keepsBelow_trans;
           [apply Z.le_refl | exact Hc | apply set_subPuBuf_keeps]).
Qed.

Lemma subPuStep_keeps st :
  post (fun r =>
          match fst (fst r) with
          | Go s => keepsBelow (cnt st) (mrgCtx st) (mrgCtx s) /\ cnt st <= cnt s
          | Ret m => keepsBelow (cnt st) (mrgCtx st) m
          end)
       (subPuStep cs sampleSubPu mrgCandIdx st).
Proof.
  unfold subPuStep.
  eapply obind_post with (P := fun c => keepsBelow (cnt st) (mrgCtx st) c).
  { destruct (getUseSubPuMvp _); [| apply keepsBelow_refl].
    destruct (CHECK _ _); cbn [obind post]; auto. apply set_subPuBuf_keeps. }
  intros c Hc.
  destruct (getUseSubPuMvp (spsNext cs) && getEnableTMVPFlag (slice cs));
    [| cbn; split; [exact Hc | lia]].
  eapply obind_post with (P := fun r => keepsBelow (cnt st) (mrgCtx st) (snd r)).
  { destruct (getUseATMVP (spsNext cs)); [| exact Hc].
    pose proof (getInterMergeSubPuMvpCand_keeps c (cnt st)) as H.
    destruct (getInterMergeSubPuMvpCand _ _ _ _) as [[b c'] | |]; cbn [post] in *; auto.
    eapply keepsBelow_trans; [apply Z.le_refl | exact Hc | exact H]. }
  intros [avail c'] Hc'. cbn [snd] in Hc'.
  destruct avail; [| cbn; split; [exact Hc' | lia]].
  assert (Ht : keepsBelow (cnt st) (mrgCtx st)
                 (set_mrgType c' (cnt st) MRG_TYPE_SUBPU_ATMVP))
    by (eapply keepsBelow_trans; [apply Z.le_refl | exact Hc' | apply set_mrgType_keeps]).
  destruct (mrgCandIdx =? cnt st); [exact Ht |].
  destruct (cnt st + 1 =? maxNumMergeCand cs); cbn; [exact Ht |].
  split; [exact Ht | lia].
Qed.

Lemma aboveLeftStep_slots st : keepsSlots st (aboveLeftStep cs pu mrgCandIdx st).
Proof.
  unfold aboveLeftStep. destruct (cnt st <? _); [apply spatialStep_slots |].
  cbn. split; [apply keepsBelow_refl | lia].
Qed.

Lemma tmvpStep_slots st avail pos :
  keepsSlots st (tmvpStep cs pu mrgCandIdx st avail pos).
Proof.
  unfold tmvpStep, keepsSlots.
  destruct (getEnableTMVPFlag _); [| cbn; split; [apply keepsBelow_refl | lia]].
  destruct (colocatedC0C1 cs REF_PIC_LIST_0 _ _ _ _) as [r0 | |]; cbn [obind flowPost];
    auto.
  set (dc := match r0 with Some _ => _ | None => _ end).
  assert (Hdc : keepsBelow (cnt st) (mrgCtx st) (snd dc)).
  { subst dc. destruct r0; cbn [snd]; keeps. }
  destruct dc as [dir c]. cbn [snd] in Hdc.
  match goal with |- context [obind ?o _] =>
    assert (Hb : post (fun r => keepsBelow (cnt st) (mrgCtx st) (snd r)) o)
  end.
  { destruct (isInterB _); [| exact Hdc].
    destruct (colocatedC0C1 cs REF_PIC_LIST_1 _ _ _ _) as [[m |] | |];
      cbn [obind post snd]; auto.
    eapply keepsBelow_trans; [apply Z.le_refl | exact Hdc |].
    apply set_mvField_keeps. lia. }
  match goal with |- context [obind ?o _] => destruct o as [[dir' c'] | |] end;
    cbn [obind flowPost post snd] in *; auto.
  destruct (negb (dir' =? 0)); [| cbn; split; [exact Hb | lia]].
  match goal with |- context [if ?c then _ else Normal (Go _)] => destruct c end;
    [| cbn; split; [exact Hb | lia]].
  destruct (_ && _); cbn [flowPost mrgCtx cnt]; [| split; [| lia]];
    (eapply keepsBelow_trans; [apply Z.le_refl | exact Hb |]); keeps.
Qed.

Lemma earlyTermination_slots st : keepsSlots st (earlyTermination cs st).
Proof.
  unfold keepsSlots, earlyTermination.
  destruct (cnt st =? maxNumMergeCand cs); cbn;
    [apply keepsBelow_refl | split; [apply keepsBelow_refl | lia]].
Qed.

Lemma pairAvgList_keeps n i j acc l :
  0 <= l -> n <= snd acc ->
  keepsBelow n (snd (fst acc)) (snd (fst (pairAvgList cs i j acc l)))
  /\ snd (pairAvgList cs i j acc l) = snd acc.
Proof.
  intros Hl Hn. destruct acc as [[d c] k]. unfold pairAvgList. cbn [fst snd] in *.
  repeat match goal with
         | |- context [if ?c then _ else _] =>
           lazymatch c with
           | context [if _ then _ else _] => fail
           | _ => destruct c
           end
         end; cbn [fst snd]; split; try reflexivity; try apply keepsBelow_refl;
    apply set_mvField_keeps; lia.
Qed.

Lemma pairAvgBody_keeps st ij :
  keepsBelow (cnt st) (mrgCtx st) (mrgCtx (pairAvgBody cs st ij))
  /\ cnt st <= cnt (pairAvgBody cs st ij).
Proof.
  unfold pairAvgBody.
  destruct (cnt st =? maxNumMergeCand cs); [split; [apply keepsBelow_refl | lia] |].
  destruct ij as [i j].
  set (c0 := set_mvField (set_mvField _ _ _) _ _).
  assert (H0 : keepsBelow (cnt st) (mrgCtx st) c0) by (subst c0; keeps).
  pose proof (pairAvgList_keeps (cnt st) i j (0, c0, cnt st) 0 ltac:(lia)
                ltac:(cbn; lia)) as [H1 H1n].
  set (acc1 := pairAvgList cs i j (0, c0, cnt st) 0) in *.
  set (acc2 := if isInterB (slice cs) then _ else acc1).
  assert (H2 : keepsBelow (cnt st) c0 (snd (fst acc2))).
  { subst acc2. destruct (isInterB _); [| exact H1].
    pose proof (pairAvgList_keeps (cnt st) i j acc1 1 ltac:(lia)
                  ltac:(rewrite H1n; cbn; lia)) as [H2 _].
    eapply keepsBelow_trans; [apply Z.le_refl | exact H1 | exact H2]. }
  destruct acc2 as [[d c] n]. cbn [fst snd] in H2. cbn [mrgCtx cnt].
  split.
  - eapply keepsBelow_trans; [apply Z.le_refl | exact H0 |].
    eapply keepsBelow_trans; [apply Z.le_refl | exact H2 |].
    apply set_interDir_keeps. lia.
  - destruct (d >? 0); lia.
Qed.

Lemma fold_left_keeps {B : Type} (f : MrgState -> B -> MrgState) l st :
  (forall s b, keepsBelow (cnt s) (mrgCtx s) (mrgCtx (f s b)) /\ cnt s <= cnt (f s b)) ->
  keepsBelow (cnt st) (mrgCtx st) (mrgCtx (fold_left f l st))
  /\ cnt st <= cnt (fold_left f l st).
Proof.
  intros Hf. revert st. induction l as [| b l IH]; intros st; cbn.
  - split; [apply keepsBelow_refl | lia].
  - destruct (Hf st b) as [H1 H2]. destruct (IH (f st b)) as [H3 H4].
    split; [eapply keepsBelow_trans; [exact H2 | exact H1 | exact H3] | lia].
Qed.

Lemma then_earlyTermination_slots st st' :
  keepsBelow (cnt st) (mrgCtx st) (mrgCtx st') -> cnt st <= cnt st' ->
  keepsSlots st (earlyTermination cs st').
Proof.
  intros Hk Hc. unfold keepsSlots, earlyTermination.
  destruct (cnt st' =? maxNumMergeCand cs); cbn; auto.
Qed.

Lemma pairAvgStep_slots st : keepsSlots st (pairAvgStep cs st).
Proof.
  unfold pairAvgStep.
  match goal with |- context [fold_left ?f ?l st] =>
    destruct (fold_left_keeps f l st pairAvgBody_keeps) as [Hf Hc]
  end.
  apply then_earlyTermination_slots; assumption.
Qed.

Lemma combinedBody_keeps st ij :
  keepsBelow (cnt st) (mrgCtx st) (mrgCtx (combinedBody cs st ij))
  /\ cnt st <= cnt (combinedBody cs st ij).
Proof.
  unfold combinedBody.
  destruct (cnt st =? maxNumMergeCand cs); [split; [apply keepsBelow_refl | lia] |].
  destruct ij as [i j].
  destruct (_ && _ && _ && _); [| split; [apply keepsBelow_refl | lia]].
  match goal with |- context [if ?c then _ else _] => destruct c end;
    cbn [mrgCtx cnt]; (split; [keeps | lia]).
Qed.

Lemma combinedStep_slots st : keepsSlots st (combinedStep cs st).
Proof.
  unfold combinedStep.
  set (st' := if isInterB (slice cs) then _ else st).
  assert (H : keepsBelow (cnt st) (mrgCtx st) (mrgCtx st') /\ cnt st <= cnt st').
  { subst st'. destruct (isInterB _); [| split; [apply keepsBelow_refl | lia]].
    apply fold_left_keeps. apply combinedBody_keeps. }
  destruct H. apply then_earlyTermination_slots; assumption.
Qed.

Lemma zeroFill_keeps fuel c addr r refcnt n :
  keepsBelow addr c (fst (zeroFill cs fuel c addr r refcnt n)).
Proof.
  revert c addr r refcnt.
  induction fuel as [| fuel IH]; intros c addr r refcnt; cbn [zeroFill].
  - apply keepsBelow_refl.
  - destruct (addr <? maxNumMergeCand cs); [| apply keepsBelow_refl].
    set (c1 := if isInterB (slice cs) then _ else _).
    assert (H1 : keepsBelow addr c c1) by (subst c1; keeps).
    destruct (refcnt =? n - 1);
      (eapply keepsBelow_trans; [| exact H1 | apply IH]; lia).
Qed.

Lemma zeroFillStep_keeps st : keepsBelow (cnt st) (mrgCtx st) (zeroFillStep cs st).
Proof.
  unfold zeroFillStep.
  match goal with |- context [zeroFill cs ?f ?c ?a ?r ?rc ?n] =>
    pose proof (zeroFill_keeps f c a r rc n) as H;
    destruct (zeroFill cs f c a r rc n) as [c' addr']
  end.
  cbn [fst] in H.
  eapply keepsBelow_trans; [apply Z.le_refl | exact H | apply set_numValid_keeps].
Qed.

(** A step that keeps the slots, inside a sequence that is to keep the slots
    below [n0] of [m0]. *)
Lemma keepsSlots_bind n0 m0 st o k :
  keepsSlots st o ->
  keepsBelow n0 m0 (mrgCtx st) -> n0 <= cnt st ->
  (forall s, keepsBelow n0 m0 (mrgCtx s) -> n0 <= cnt s -> post (keepsBelow n0 m0) (k s)) ->
  post (keepsBelow n0 m0) (fbind o k).
Proof.
  intros Ho Hk Hn Hcont.
  destruct o as [[s | m] | |]; cbn in *; auto.
  - destruct Ho as [H1 H2]. apply Hcont; [| lia].
    eapply keepsBelow_trans; [exact Hn | exact Hk | exact H1].
  - eapply keepsBelow_trans; [exact Hn | exact Hk | exact Ho].
Qed.

(** The steps after the four spatial ones leave the candidates stored by
    then alone. *)
Lemma laterSteps_keep st :
  post (keepsBelow (cnt st) (mrgCtx st))
       (r <- subPuStep cs sampleSubPu mrgCandIdx st ;;
        let '(f, isAvailableSubPu, subPuMvpPos) := r in
        st <~ Normal f ;;
        st <~ aboveLeftStep cs pu mrgCandIdx st ;;
        st <~ earlyTermination cs st ;;
        st <~ tmvpStep cs pu mrgCandIdx st isAvailableSubPu subPuMvpPos ;;
        st <~ earlyTermination cs st ;;
        st <~ (if JVET_L0090_PAIR_AVG then pairAvgStep cs st else combinedStep cs st) ;;
        Normal (zeroFillStep cs st)).
Proof.
  eapply obind_post; [apply subPuStep_keeps |].
  intros [[f avail] pos] Hsub. cbn [fst] in Hsub.
  destruct f as [s5 | m]; cbn [fbind post]; [| exact Hsub].
  destruct Hsub as [Hk5 Hc5].
  eapply keepsSlots_bind; [apply aboveLeftStep_slots | exact Hk5 | exact Hc5 |].
  intros s6 Hk6 Hc6.
  eapply keepsSlots_bind; [apply earlyTermination_slots | exact Hk6 | exact Hc6 |].
  intros s7 Hk7 Hc7.
  eapply keepsSlots_bind; [apply tmvpStep_slots | exact Hk7 | exact Hc7 |].
  intros s8 Hk8 Hc8.
  eapply keepsSlots_bind; [apply earlyTermination_slots | exact Hk8 | exact Hc8 |].
  intros s9 Hk9 Hc9.
  eapply keepsSlots_bind;
    [destruct JVET_L0090_PAIR_AVG; [apply pairAvgStep_slots | apply combinedStep_slots]
    | exact Hk9 | exact Hc9 |].
  intros s10 Hk10 Hc10. cbn [post].
  eapply keepsBelow_trans; [exact Hc10 | exact Hk10 | apply zeroFillStep_keeps].
Qed.

Lemma holdsSpatial_app st s l mi :
  holdsSpatial cs l st ->
  keepsBelow (cnt st) (mrgCtx st) (mrgCtx s) -> cnt s = cnt st + 1 ->
  slotHolds cs (mrgCtx s) (cnt st) mi ->
  holdsSpatial cs (l ++ [mi]) s.
Proof.
  intros [Hc Hl] Hk Hs Hm. split.
  - rewrite length_app, Nat2Z.inj_add. cbn. lia.
  - intros k mi' Hnth.
    destruct (Nat.lt_ge_cases k (List.length l)) as [Hlt | Hge].
    + rewrite nth_error_app1 in Hnth by exact Hlt.
      eapply slotHolds_keeps; [| exact Hk | apply Hl, Hnth]. lia.
    + rewrite nth_error_app2 in Hnth by exact Hge.
      destruct (k - List.length l)%nat as [| j] eqn:E; cbn in Hnth;
        [| destruct j; discriminate].
      injection Hnth as <-. replace (Z.of_nat k) with (cnt st) by lia. exact Hm.
Qed.

Lemma startsWith_of_holds l rest m :
  (forall k mi, nth_error l k = Some mi -> slotHolds cs m (Z.of_nat k) mi) ->
  (forall k, (List.length l <= k)%nat ->
             Z.of_nat k < getMaxNumMergeCand (slice cs) ->
             beforeFastExit cs mrgCandIdx (Z.of_nat k) -> False) ->
  startsWith cs mrgCandIdx (l ++ rest) m.
Proof.
  intros Hl Hno k mi Hnth Hlt Hg.
  destruct (Nat.lt_ge_cases k (List.length l)) as [Hk | Hk].
  - rewrite nth_error_app1 in Hnth by exact Hk. apply Hl, Hnth.
  - exfalso. exact (Hno k Hk Hlt Hg).
Qed.

(** A spatial step with the early-termination test after it, in the course
    of storing the spatial candidates [L]. *)
Lemma spatialStep_then_early st l avail keep mi neib rest
      (k : MrgState -> outcome MergeCtx) :
  holdsSpatial cs l st ->
  (avail = true -> neib <> None) ->
  cnt st < maxNumMergeCand cs ->
  (forall s, holdsSpatial cs (l ++ keptCand avail keep mi) s ->
             cnt s < maxNumMergeCand cs ->
             post (startsWith cs mrgCandIdx (l ++ keptCand avail keep mi ++ rest)) (k s)) ->
  post (startsWith cs mrgCandIdx (l ++ keptCand avail keep mi ++ rest))
       (s <~ spatialStep cs mrgCandIdx st avail keep mi neib ;;
        s <~ earlyTermination cs s ;; k s).
Proof.
  intros Hinv Hneib Hlt Hk. unfold keptCand in *.
  assert (Hearly : forall s l',
            holdsSpatial cs l' s -> cnt s <= maxNumMergeCand cs ->
            (forall s', holdsSpatial cs l' s' -> cnt s' < maxNumMergeCand cs ->
                        post (startsWith cs mrgCandIdx (l' ++ rest)) (k s')) ->
            post (startsWith cs mrgCandIdx (l' ++ rest))
                 (s <~ earlyTermination cs s ;; k s)).
  { intros s l' Hs Hle Hk'.
    destruct (earlyTermination_cases cs s) as [[-> He] | [-> He]]; cbn [fbind post].
    - destruct Hs as [Hc Hl]. apply startsWith_of_holds; [exact Hl |].
      intros j Hj Hjm _. unfold maxNumMergeCand in He. lia.
    - apply Hk'; [exact Hs | lia]. }
  destruct (avail && keep) eqn:Hak.
  - assert (Ha : avail = true) by (destruct avail; [reflexivity | discriminate]).
    destruct neib as [n |]; [| exfalso; apply (Hneib Ha); reflexivity].
    unfold spatialStep. rewrite Hak.
    pose proof (addSpatialCand_slots st mi n) as H.
    rewrite app_assoc.
    destruct (addSpatialCand cs mrgCandIdx st mi n) as [[s | m] | |];
      cbn [flowPost fbind post] in *; auto.
    + destruct H as (H1 & H2 & H3).
      apply Hearly; [eapply holdsSpatial_app; eassumption | lia |].
      intros s' Hs' Hlt'. rewrite <- app_assoc. apply Hk; assumption.
    + destruct H as (H1 & H3 & Hidx & Hfast).
      apply startsWith_of_holds.
      * pose (s := mkMrgState m (cnt st + 1) (isCandInter st)).
        apply (holdsSpatial_app st s l mi Hinv H1 eq_refl H3).
      * intros j Hj Hjm Hg. destruct Hinv as [Hc _].
        rewrite length_app in Hj. cbn in Hj.
        specialize (Hg Hfast ltac:(lia)). lia.
  - assert (E : spatialStep cs mrgCandIdx st avail keep mi neib = Normal (Go st))
      by (unfold spatialStep; rewrite Hak; destruct neib; reflexivity).
    rewrite E. cbn [fbind]. cbn [app] in *.
    assert (Hinv' : holdsSpatial cs (l ++ []) st) by (rewrite app_nil_r; exact Hinv).
    replace (l ++ rest) with ((l ++ []) ++ rest) by (rewrite app_nil_r; reflexivity).
    apply Hearly; [exact Hinv' | lia |].
    intros s' Hs' Hlt'. rewrite app_nil_r. rewrite app_nil_r in Hs'.
    specialize (Hk s'). rewrite app_nil_r in Hk. apply Hk; assumption.
Qed.

Lemma availableDiffMER_Some neib rest :
  availableDiffMER cs pu neib rest = true -> neib <> None.
Proof. destruct neib; [discriminate | discriminate]. Qed.

(** The list the derivation returns starts with the spatial candidates that
    passed their tests. *)
Lemma getInterMergeCandidates_startsWith mrgCtx0 cand0 :
  1 <= getMaxNumMergeCand (slice cs) ->
  post (startsWith cs mrgCandIdx (spatialCandidates cs pu))
       (getInterMergeCandidates cs pu sampleSubPu mrgCandIdx mrgCtx0 cand0).
Proof.
  intros Hmax. unfold getInterMergeCandidates, spatialSteps, spatialCandidates.
  set (st0 := initMerge cs mrgCtx0 cand0).
  set (l1 := keptCand (isAvailableA1 cs pu) true (miLeft cs pu)).
  set (l2 := keptCand (isAvailableB1 cs pu) (keepB1 cs pu) (miAbove cs pu)).
  set (l3 := keptCand (isAvailableB0 cs pu) (keepB0 cs pu) (miAboveRight cs pu)).
  set (l4 := keptCand (isAvailableA0 cs pu) (keepA0 cs pu) (miBelowLeft cs pu)).
  assert (H0 : holdsSpatial cs [] st0).
  { split; [reflexivity |]. intros k mi Hk. destruct k; discriminate. }
  apply (spatialStep_then_early st0 [] _ _ _ _ (l2 ++ l3 ++ l4));
    [exact H0 | apply availableDiffMER_Some | unfold maxNumMergeCand; cbn; lia |].
  fold l1. intros s1 H1 Hlt1. cbn [app] in H1 |- *.
  apply (spatialStep_then_early s1 l1 _ _ _ _ (l3 ++ l4));
    [exact H1 | apply availableDiffMER_Some | exact Hlt1 |].
  fold l2. intros s2 H2 Hlt2.
  rewrite (app_assoc l1 l2).
  apply (spatialStep_then_early s2 (l1 ++ l2) _ _ _ _ l4);
    [exact H2 | apply availableDiffMER_Some | exact Hlt2 |].
  fold l3. intros s3 H3 Hlt3.
  rewrite (app_assoc (l1 ++ l2) l3).
  rewrite <- (app_nil_r l4) at 1.
  apply (spatialStep_then_early s3 ((l1 ++ l2) ++ l3) _ _ _ _ []);
    [exact H3 | apply availableDiffMER_Some | exact Hlt3 |].
  fold l4. intros s4 H4 Hlt4.
  pose proof (laterSteps_keep s4) as Hlater.
  match goal with |- post _ ?o => destruct o as [m | |] end; cbn [post] in *; auto.
  rewrite app_nil_r. destruct H4 as [Hc4 Hl4].
  intros k mi Hnth _ _.
  eapply slotHolds_keeps; [| exact Hlater | apply Hl4, Hnth].
  assert (k < List.length (((l1 ++ l2) ++ l3) ++ l4))%nat
    by (apply nth_error_Some; congruence).
  lia.
Qed.

(** *** The list of a block with the left neighbour only *)

Lemma initCand_buf ui st :
  subPuMvpMiBuf (mrgCtx (initCand ui st)) = subPuMvpMiBuf (mrgCtx st).
Proof. unfold initCand. destruct JVET_L0646_GBI; reflexivity. Qed.

Lemma initMerge_buf mrgCtx0 cand0 :
  subPuMvpMiBuf (mrgCtx (initMerge cs mrgCtx0 cand0)) = subPuMvpMiBuf mrgCtx0.
Proof.
  unfold initMerge. cbn [mrgCtx set_numValid subPuMvpMiBuf].
  induction (Z.to_nat (maxNumMergeCand cs)) as [| n IH]; [reflexivity |].
  cbn [forUpTo]. rewrite initCand_buf. exact IH.
Qed.

(** The sub-block step when there is no sub-block candidate: it goes on
    with the count it found, having written at most the slot at the
    count. *)
Lemma subPuStep_none st mrgCtx0 :
  noSubPuCand cs sampleSubPu mrgCtx0 (cnt st) ->
  subPuMvpMiBuf (mrgCtx st) = subPuMvpMiBuf mrgCtx0 ->
  exists c',
    subPuStep cs sampleSubPu mrgCandIdx st
    = Normal (Go (mkMrgState c' (cnt st) (isCandInter st)), false, 0)
    /\ keepsBelow (cnt st) (mrgCtx st) c'.
Proof.
  intros Hno Hbuf. unfold subPuStep.
  destruct Hno as [Hoff | [Hinit Hnone]].
  - rewrite Hoff. cbn [andb obind]. eexists. split; [reflexivity |].
    apply keepsBelow_refl.
  - destruct (getUseSubPuMvp (spsNext cs)) eqn:Hsub;
      [| cbn [andb obind]; eexists; split; [reflexivity | apply keepsBelow_refl]].
    rewrite Hbuf, Hinit. cbn [CHECK obind andb].
    set (c := set_subPuBuf (mrgCtx st) _).
    assert (Hc : keepsBelow (cnt st) (mrgCtx st) c) by apply set_subPuBuf_keeps.
    destruct (getEnableTMVPFlag (slice cs)) eqn:Htmvp;
      [| eexists; split; [reflexivity | exact Hc]].
    destruct (getUseATMVP (spsNext cs)) eqn:Hat;
      [| cbn [obind]; eexists; split; [reflexivity | exact Hc]].
    destruct Hnone as [Hf | [Hf | Hnone]]; try discriminate.
    destruct (Hnone c) as [c' Hc'].
    pose proof (getInterMergeSubPuMvpCand_keeps c (cnt st)) as Hk.
    rewrite Hc' in Hk |- *. cbn [post snd obind] in *.
    eexists. split; [reflexivity |].
    eapply keepsBelow_trans; [apply Z.le_refl | exact Hc | exact Hk].
Qed.

(** The temporal step when there is no temporal candidate. *)
Lemma tmvpStep_none c n cand :
  noTemporalCand cs pu ->
  tmvpStep cs pu mrgCandIdx (mkMrgState c n cand) false 0
  = Normal (Go (mkMrgState c n cand)).
Proof.
  intros [Hoff | [H0 H1]]; unfold tmvpStep.
  - rewrite Hoff. reflexivity.
  - destruct (getEnableTMVPFlag (slice cs)); [| reflexivity].
    cbv zeta in H0, H1 |- *. rewrite H0. cbn [obind mrgCtx cnt isCandInter].
    destruct (isInterB (slice cs)).
    + rewrite (H1 eq_refl). reflexivity.
    + reflexivity.
Qed.

(** The list in the scenario: the left neighbour's candidate, then the
    zero-motion fill from slot 1 on, over a context that still holds the
    candidate in slot 0. *)
Lemma getInterMergeCandidates_onlyLeft mrgCtx0 cand0 n :
  onlyLeftNeighbour cs pu sampleSubPu mrgCandIdx mrgCtx0 ->
  puLeft cs pu = Some n ->
  1 <= maxNumMergeCand cs ->
  exists c1 cand1 c',
    addSpatialCand cs mrgCandIdx (initMerge cs mrgCtx0 cand0) (miLeft cs pu) n
    = Normal (Go (mkMrgState c1 1 cand1))
    /\ keepsBelow 1 c1 c'
    /\ getInterMergeCandidates cs pu sampleSubPu mrgCandIdx mrgCtx0 cand0
       = Normal (if maxNumMergeCand cs =? 1 then c1
                 else zeroFillStep cs (mkMrgState c' 1 cand1)).
Proof.
  intros (HA1 & HB1 & HB0 & HA0 & HB2 & Htmvp & Hsub & Hfast) Hn Hmax.
  unfold getInterMergeCandidates, spatialSteps.
  rewrite HA1, HB1, HB0, HA0, Hn. unfold spatialStep at 1. cbn [andb].
  pose proof (initMerge_buf mrgCtx0 cand0) as Hbuf0.
  unfold addSpatialCand.
  assert (Hc0 : cnt (initMerge cs mrgCtx0 cand0) = 0) by reflexivity.
  rewrite Hc0, Hfast. cbn [Z.add].
  match goal with
  | |- context [Normal (Go (mkMrgState ?c 1 ?cand))] =>
    set (c1 := c); set (cand1 := cand)
  end.
  assert (Hbuf1 : subPuMvpMiBuf c1 = subPuMvpMiBuf mrgCtx0).
  { rewrite <- Hbuf0. subst c1.
    destruct (isInterB (slice cs)), JVET_L0646_GBI; reflexivity. }
  destruct (subPuStep_none (mkMrgState c1 1 cand1) mrgCtx0 Hsub Hbuf1)
    as (c' & Hstep & Hkeep).
  cbn [cnt mrgCtx isCandInter] in Hstep, Hkeep.
  exists c1, cand1, c'. split; [reflexivity |]. split; [exact Hkeep |].
  cbn [fbind]. unfold earlyTermination at 1. cbn [cnt mrgCtx].
  destruct (Z.eqb_spec 1 (maxNumMergeCand cs)) as [E | Hne].
  - rewrite <- E. reflexivity.
  - assert (Hne' : (1 =? maxNumMergeCand cs) = false) by (apply Z.eqb_neq; lia).
    replace (maxNumMergeCand cs =? 1) with false by (symmetry; apply Z.eqb_neq; lia).
    rewrite ?Hne'. cbn [fbind].
    do 3 (rewrite spatialStep_unavailable; cbn [fbind];
          unfold earlyTermination at 1; cbn [cnt mrgCtx]; rewrite Hne'; cbn [fbind]).
    rewrite Hstep. cbn [obind fbind].
    unfold aboveLeftStep. cbn [cnt]. rewrite HB2.
    replace (1 <? (if getUseSubPuMvp (spsNext cs) then 6 else 4)) with true
      by (destruct (getUseSubPuMvp (spsNext cs)); reflexivity).
    rewrite spatialStep_unavailable. cbn [fbind].
    unfold earlyTermination at 1; cbn [cnt mrgCtx]; rewrite Hne'; cbn [fbind].
    rewrite (tmvpStep_none c' 1 cand1 Htmvp). cbn [fbind].
    unfold earlyTermination at 1; cbn [cnt mrgCtx]; rewrite Hne'; cbn [fbind].
    unfold pairAvgStep, combinedStep, earlyTermination. cbn [cnt].
    change (Z.to_nat (Z.min 1 4 * (Z.min 1 4 - 1) ÷ 2)) with 0%nat.
    change (Z.to_nat (Z.min 1 4 * (Z.min 1 4 - 1))) with 0%nat.
    cbn [firstn fold_left].
    destruct JVET_L0090_PAIR_AVG, (isInterB (slice cs));
      cbn [cnt mrgCtx fold_left firstn fbind];
      rewrite ?Hne'; reflexivity.
Qed.

End MergeSlots.

Section MergeClaims.
Context {cfg : BuildConfig} {ops : MvOps}.
Variable cs : CodingStructure.
Variable pu : PredictionUnit.
Variable sampleSubPu : MergeCtx -> Z -> SubPuSampling.
Variable mrgCandIdx : Z.

(** C8 (as the code has it). A block whose only available spatial
    neighbour is the left one A1, coded with inter direction list 0, vector
    (4, 0) and reference index 0, with no temporal candidate (the tool off,
    or the collocated picture without motion at the two positions) and no
    sub-block candidate (the tools off, or the derivation finding none), at
    least one candidate signalled, at least one reference picture, and no
    fast exit on candidate 0: the derivation returns a list of the
    signalled maximum of entries; candidate 0 is list 0, (4, 0), index 0;
    every further slot is a zero-motion fill, for both lists in a B slice,
    whose reference index counts 0, 1, ..., N-1 once over the N reference
    pictures and is 0 in all slots after that. *)
Theorem C8_left_neighbour_then_zero_fill (mrgCtx0 : MergeCtx) (cand0 : Z -> bool)
        (hp : bool) :
  onlyLeftNeighbour cs pu sampleSubPu mrgCandIdx mrgCtx0 ->
  interDir (miLeft cs pu) = 1 ->
  fst (mi_mv (miLeft cs pu)) = mkMv 4 0 hp ->
  fst (mi_refIdx (miLeft cs pu)) = 0 ->
  1 <= getMaxNumMergeCand (slice cs) ->
  1 <= iNumRefIdxOf cs ->
  exists m,
    getInterMergeCandidates cs pu sampleSubPu mrgCandIdx mrgCtx0 cand0 = Normal m
    /\ numValidMergeCand m = getMaxNumMergeCand (slice cs)
    /\ interDirNeighbours m 0 = 1
    /\ mvFieldNeighbours m 0 = mkMvField (mkMv 4 0 hp) 0
    /\ forall k, 1 <= k < getMaxNumMergeCand (slice cs) ->
         interDirNeighbours m k = (if isInterB (slice cs) then 3 else 1)
         /\ mvFieldNeighbours m (2 * k)
            = mkMvField Mv0 (if k - 1 <? iNumRefIdxOf cs then k - 1 else 0)
         /\ (isInterB (slice cs) = true ->
             mvFieldNeighbours m (2 * k + 1)
             = mkMvField Mv0 (if k - 1 <? iNumRefIdxOf cs then k - 1 else 0)).
Proof.
  intros Hscen Hdir Hmv Href Hmax Hn.
  destruct (isAvailableA1_puLeft cs pu (proj1 Hscen)) as [n Hpu].
  destruct (getInterMergeCandidates_onlyLeft cs pu sampleSubPu mrgCandIdx
              mrgCtx0 cand0 n Hscen Hpu Hmax) as (c1 & cand1 & c' & Hadd & Hkeep & Hres).
  assert (Hfast : (mrgCandIdx =? 0) && canFastExit cs = false) by apply Hscen.
  unfold addSpatialCand in Hadd.
  change (cnt (initMerge cs mrgCtx0 cand0)) with 0 in Hadd.
  rewrite Hfast, Hdir, Hmv, Href in Hadd.
  change (Z.shiftl 0 1) with 0 in Hadd.
  assert (Hc1 : numValidMergeCand c1 = getMaxNumMergeCand (slice cs)
                /\ interDirNeighbours c1 0 = 1
                /\ mvFieldNeighbours c1 0 = mkMvField (mkMv 4 0 hp) 0).
  { injection Hadd as <- _.
    destruct (isInterB (slice cs)), JVET_L0646_GBI; repeat split; reflexivity. }
  clear Hadd. destruct Hc1 as (Hv & Hd & Hf).
  assert (Hd' : interDirNeighbours c' 0 = 1)
    by (rewrite (proj1 Hkeep 0 ltac:(lia)); exact Hd).
  assert (Hf' : mvFieldNeighbours c' 0 = mkMvField (mkMv 4 0 hp) 0)
    by (rewrite (proj2 Hkeep 0 ltac:(lia)); exact Hf).
  rewrite Hres. unfold maxNumMergeCand in *.
  destruct (Z.eqb_spec (getMaxNumMergeCand (slice cs)) 1) as [E | Hne].
  - exists c1. repeat split; try assumption; lia.
  - eexists. split; [reflexivity |].
    unfold zeroFillStep. cbn [cnt mrgCtx].
    fold (iNumRefIdxOf cs).
    pose proof (zeroFill_contents cs (Z.to_nat (maxNumMergeCand cs - 1)) c' 1 0 0
                  (iNumRefIdxOf cs)
                  ltac:(unfold maxNumMergeCand; lia) eq_refl ltac:(lia)) as Hz.
    pose proof (zeroFill_post cs (Z.to_nat (maxNumMergeCand cs - 1)) c' 1 0 0
                  (iNumRefIdxOf cs)
                  ltac:(unfold maxNumMergeCand; lia) eq_refl) as Hp.
    unfold maxNumMergeCand in *.
    destruct (zeroFill cs _ c' 1 0 0 (iNumRefIdxOf cs)) as [c'' addr'].
    cbn [fst snd] in *. cbn zeta in Hz.
    destruct Hz as (Hfill & Hdir0 & Hfld0). destruct Hp as [_ Haddr].
    cbn [numValidMergeCand interDirNeighbours mvFieldNeighbours set_numValid].
    split; [exact Haddr |].
    split; [rewrite Hdir0 by lia; exact Hd' |].
    split; [rewrite Hfld0 by lia; exact Hf' |].
    intros k Hk. destruct (Hfill k Hk) as (H1 & H2 & H3).
    unfold zeroFillRefIdx in H2, H3.
    replace (0 + (k - 1) <=? iNumRefIdxOf cs - 1) with (k - 1 <? iNumRefIdxOf cs)
      in H2, H3
      by (destruct (Z.ltb_spec (k - 1) (iNumRefIdxOf cs));
          destruct (Z.leb_spec (0 + (k - 1)) (iNumRefIdxOf cs - 1)); lia || reflexivity).
    rewrite Z.add_0_l in H2, H3.
    split; [exact H1 | split; [exact H2 | exact H3]].
Qed.

(** C1 (as the code has it). With a signalled maximum of at least one,
    every list the derivation returns has its count equal to that maximum,
    hence between 0 and it.  Its entries need not differ pairwise: the
    zero-motion fills repeat.  What the list guarantees about redundant
    motion is its start: the first
    slots hold, in order, the motion of those of the spatial neighbours A1,
    B1, B0 and A0 that are available and pass their test - every one that
    has a slot below the maximum, up to the candidate of a fast exit - and
    B1 is not among them when A1 is available with the same motion, B0 not
    when B1 is available with the same motion, A0 not when A1 is available
    with the same motion.  So when A1 and B1 are available with the same
    motion and B0 passes its test, a list of two or more entries has A1's
    motion in slot 0 and B0's in slot 1. *)
Theorem C1_count_is_maximum_and_spatial_pruning (mrgCtx0 : MergeCtx)
        (cand0 : Z -> bool) :
  1 <= getMaxNumMergeCand (slice cs) ->
  (forall m,
     getInterMergeCandidates cs pu sampleSubPu mrgCandIdx mrgCtx0 cand0 = Normal m ->
     numValidMergeCand m = getMaxNumMergeCand (slice cs)
     /\ 0 <= numValidMergeCand m <= getMaxNumMergeCand (slice cs)
     /\ forall k mi,
          nth_error (spatialCandidates cs pu) k = Some mi ->
          Z.of_nat k < getMaxNumMergeCand (slice cs) ->
          (canFastExit cs = true -> 0 <= mrgCandIdx -> Z.of_nat k <= mrgCandIdx) ->
          interDirNeighbours m (Z.of_nat k) = interDir mi
          /\ mvFieldNeighbours m (2 * Z.of_nat k)
             = mkMvField (fst (mi_mv mi)) (fst (mi_refIdx mi))
          /\ (isInterB (slice cs) = true ->
              mvFieldNeighbours m (2 * Z.of_nat k + 1)
              = mkMvField (snd (mi_mv mi)) (snd (mi_refIdx mi))))
  /\ (isAvailableA1 cs pu = true ->
      MotionInfo_eqb (miAbove cs pu) (miLeft cs pu) = true ->
      spatialCandidates cs pu
      = [miLeft cs pu]
        ++ keptCand (isAvailableB0 cs pu) (keepB0 cs pu) (miAboveRight cs pu)
        ++ keptCand (isAvailableA0 cs pu) (keepA0 cs pu) (miBelowLeft cs pu))
  /\ (isAvailableB1 cs pu = true ->
      MotionInfo_eqb (miAbove cs pu) (miAboveRight cs pu) = true ->
      spatialCandidates cs pu
      = keptCand (isAvailableA1 cs pu) true (miLeft cs pu)
        ++ keptCand (isAvailableB1 cs pu) (keepB1 cs pu) (miAbove cs pu)
        ++ keptCand (isAvailableA0 cs pu) (keepA0 cs pu) (miBelowLeft cs pu))
  /\ (isAvailableA1 cs pu = true ->
      MotionInfo_eqb (miBelowLeft cs pu) (miLeft cs pu) = true ->
      spatialCandidates cs pu
      = [miLeft cs pu]
        ++ keptCand (isAvailableB1 cs pu) (keepB1 cs pu) (miAbove cs pu)
        ++ keptCand (isAvailableB0 cs pu) (keepB0 cs pu) (miAboveRight cs pu))
  /\ (forall m,
        getInterMergeCandidates cs pu sampleSubPu mrgCandIdx mrgCtx0 cand0 = Normal m ->
        2 <= getMaxNumMergeCand (slice cs) ->
        (canFastExit cs = true -> 0 <= mrgCandIdx -> 1 <= mrgCandIdx) ->
        isAvailableA1 cs pu = true -> isAvailableB1 cs pu = true ->
        MotionInfo_eqb (miAbove cs pu) (miLeft cs pu) = true ->
        isAvailableB0 cs pu = true -> keepB0 cs pu = true ->
        slotHolds cs m 0 (miLeft cs pu) /\ slotHolds cs m 1 (miAboveRight cs pu)).
Proof.
  intros Hmax. split; [| split; [| split; [| split]]].
  - intros m Hm.
    pose proof (getInterMergeCandidates_ok cs pu sampleSubPu mrgCandIdx
                  mrgCtx0 cand0 Hmax) as H.
    pose proof (getInterMergeCandidates_startsWith cs pu sampleSubPu mrgCandIdx
                  mrgCtx0 cand0 Hmax) as Hs.
    rewrite Hm in H, Hs. destruct H as [Hn _]. cbn in Hn, Hs.
    split; [exact Hn |]. split; [lia |].
    intros k mi Hnth Hk Hfast. exact (Hs k mi Hnth Hk Hfast).
  - intros HA He. unfold spatialCandidates, keptCand at 1 2, keepB1, MotionInfo_neqb.
    rewrite HA, He. cbn [andb negb orb]. rewrite andb_false_r. reflexivity.
  - intros HB He. unfold spatialCandidates.
    replace (keptCand (isAvailableB0 cs pu) (keepB0 cs pu) (miAboveRight cs pu))
      with (@nil MotionInfo); [reflexivity |].
    unfold keptCand, keepB0, MotionInfo_neqb. rewrite HB, He. cbn [negb orb andb].
    destruct HM_JEM_MERGE_CANDS; rewrite ?andb_false_r; reflexivity.
  - intros HA He. unfold spatialCandidates.
    replace (keptCand (isAvailableA0 cs pu) (keepA0 cs pu) (miBelowLeft cs pu))
      with (@nil MotionInfo);
      [unfold keptCand at 1; rewrite HA; cbn [andb app]; rewrite !app_nil_r;
       reflexivity |].
    unfold keptCand, keepA0, MotionInfo_neqb. rewrite HA, He. cbn [negb orb andb].
    destruct HM_JEM_MERGE_CANDS; rewrite ?andb_false_r; reflexivity.
  - intros m Hm Hmax2 Hfast HA HB He HB0 Hk0.
    pose proof (getInterMergeCandidates_startsWith cs pu sampleSubPu mrgCandIdx
                  mrgCtx0 cand0 Hmax) as Hs.
    rewrite Hm in Hs. cbn [post] in Hs.
    assert (Hl : spatialCandidates cs pu
                 = miLeft cs pu :: miAboveRight cs pu
                   :: keptCand (isAvailableA0 cs pu) (keepA0 cs pu) (miBelowLeft cs pu)).
    { unfold spatialCandidates, keptCand at 1 2 3, keepB1, MotionInfo_neqb.
      rewrite HA, HB, He, HB0, Hk0. reflexivity. }
    split.
    + apply (Hs 0%nat); [rewrite Hl; reflexivity | cbn; lia |].
      intros _ H0. cbn. exact H0.
    + apply (Hs 1%nat); [rewrite Hl; reflexivity | cbn; lia | exact Hfast].
Qed.


End MergeClaims.

(** The claim as the spec words it does not hold: with no neighbour, no
    temporal candidate, a P slice with one reference picture and two
    candidates signalled, both entries of the list are the zero vector with
    index 0. *)
Lemma C1_counterexample :
  exists m,
    @getInterMergeCandidates Sample.cfg Sample.ops (Sample.csAlone 2 1 false)
       Sample.block SampleMerge.noSubPu (-1) SampleMerge.mrgCtx0 SampleMerge.cand0
    = Normal m
    /\ numValidMergeCand m = 2
    /\ interDirNeighbours m 0 = interDirNeighbours m 1
    /\ mvFieldNeighbours m 0 = mvFieldNeighbours m 2
    /\ mvFieldNeighbours m 1 = mvFieldNeighbours m 3.
Proof.
  eexists. split; [vm_compute; reflexivity |].
  vm_compute. repeat split.
Qed.

(** The left and the above neighbour with the same vector (4, 0), the
    above-right one with (12, 0), six candidates signalled: the list has
    six entries, the above neighbour is left out, and the above-right one
    follows the left one. *)
Lemma C1_witness :
  exists m,
    @getInterMergeCandidates Sample.cfg Sample.ops SampleMerge.csSameLeftAbove
       Sample.block SampleMerge.noSubPu (-1) SampleMerge.mrgCtx0 SampleMerge.cand0
    = Normal m
    /\ numValidMergeCand m = 6 /\ 0 <= numValidMergeCand m <= 6
    /\ mvFieldNeighbours m 0 = mkMvField (mkMv 4 0 false) 0
    /\ mvFieldNeighbours m 2 = mkMvField (mkMv 12 0 false) 0.
Proof.
  eexists. split; [vm_compute; reflexivity |].
  pose proof (@C1_count_is_maximum_and_spatial_pruning Sample.cfg Sample.ops
                SampleMerge.csSameLeftAbove Sample.block SampleMerge.noSubPu (-1)
                SampleMerge.mrgCtx0 SampleMerge.cand0 ltac:(cbn; lia))
    as (Hcount & _ & _ & _ & Hslots).
  destruct (Hcount _ ltac:(vm_compute; reflexivity)) as (Hn & Hb & _).
  split; [exact Hn |]. split; [exact Hb |].
  destruct (Hslots _ ltac:(vm_compute; reflexivity) ltac:(cbn; lia)
                   ltac:(intros _ H; lia) eq_refl eq_refl eq_refl eq_refl eq_refl)
    as ((_ & H0 & _) & (_ & H1 & _)).
  split; [exact H0 | exact H1].
Defined.



(** The claim as the spec words it does not hold: with two reference
    pictures and six candidates signalled the fills in the slots 1 to 5
    carry the indices 0, 1, 0, 0, 0, not the cycle 0, 1, 0, 1, 0. *)
Lemma C8_counterexample :
  exists m,
    @getInterMergeCandidates Sample.cfg Sample.ops (SampleMerge.csLeftOnly 6 2)
       Sample.block SampleMerge.noSubPu (-1) SampleMerge.mrgCtx0 SampleMerge.cand0
    = Normal m
    /\ mvFieldNeighbours m 0 = mkMvField (mkMv 4 0 false) 0
    /\ map (fun k => refIdx (mvFieldNeighbours m (2 * k))) [1; 2; 3; 4; 5]
       = [0; 1; 0; 0; 0]
    /\ map (fun k => (k - 1) mod 2) [1; 2; 3; 4; 5] = [0; 1; 0; 1; 0]
    /\ refIdx (mvFieldNeighbours m (2 * 4)) <> (4 - 1) mod 2.
Proof.
  eexists. split; [vm_compute; reflexivity |].
  vm_compute. repeat split. discriminate.
Qed.

(** The scenario on the sample block, with six candidates signalled and
    two reference pictures in a P slice; the temporal candidate and the
    sub-block tools are enabled, but the collocated picture has no
    motion. *)
Lemma C8_witness :
  exists m,
    @getInterMergeCandidates Sample.cfg Sample.ops (SampleMerge.csLeftOnlyNoMotion 6 2)
       Sample.block SampleMerge.noSubPu (-1) SampleMerge.mrgCtx0 SampleMerge.cand0
    = Normal m
    /\ numValidMergeCand m = 6
    /\ interDirNeighbours m 0 = 1
    /\ mvFieldNeighbours m 0 = mkMvField (mkMv 4 0 false) 0
    /\ forall k, 1 <= k < 6 ->
         interDirNeighbours m k = 1
         /\ mvFieldNeighbours m (2 * k)
            = mkMvField Mv0 (if k - 1 <? 2 then k - 1 else 0)
         /\ (false = true ->
             mvFieldNeighbours m (2 * k + 1)
             = mkMvField Mv0 (if k - 1 <? 2 then k - 1 else 0)).
Proof.
  apply (@C8_left_neighbour_then_zero_fill Sample.cfg Sample.ops
           (SampleMerge.csLeftOnlyNoMotion 6 2) Sample.block SampleMerge.noSubPu (-1)
           SampleMerge.mrgCtx0 SampleMerge.cand0 false).
  - unfold onlyLeftNeighbour. repeat split; try reflexivity.
    + right. split; [reflexivity | discriminate].
    + right. split; [reflexivity |]. right. right.
      intros c. eexists. reflexivity.
  - reflexivity.
  - reflexivity.
  - reflexivity.
  - cbn. lia.
  - cbn. lia.
Defined.

(** ** Further properties of the temporal scaling *)

(** X1. [xGetDistScaleFactor] divides by the clipped POC distance of the
    collocated picture: the division is by zero, and the result undefined,
    exactly when that distance is 0 while the distance of the current
    picture is not; in every other case a factor is returned. *)
Theorem xGetDistScaleFactor_undefined_iff (iCurrPOC iCurrRefPOC iColPOC iColRefPOC : Z) :
  (sub32 iColPOC iColRefPOC = 0 /\ sub32 iCurrPOC iCurrRefPOC <> 0
   <-> xGetDistScaleFactor iCurrPOC iCurrRefPOC iColPOC iColRefPOC
       = Undefined "division by zero")
  /\ (~ (sub32 iColPOC iColRefPOC = 0 /\ sub32 iCurrPOC iCurrRefPOC <> 0)
      <-> exists s, xGetDistScaleFactor iCurrPOC iCurrRefPOC iColPOC iColRefPOC
                    = Normal s).
Proof.
  unfold xGetDistScaleFactor.
  set (d := sub32 iColPOC iColRefPOC). set (b := sub32 iCurrPOC iCurrRefPOC).
  destruct (Z.eqb_spec d b) as [E | NE].
  - split; split.
    + intros [H0 Hb]. exfalso. apply Hb. congruence.
    + discriminate.
    + intros _. eauto.
    + intros _ [H0 Hb]. apply Hb. congruence.
  - destruct (Z.eqb_spec (Clip3 (-128) 127 d) 0) as [C0 | C1].
    + assert (d = 0) by (unfold Clip3 in C0; lia).
      split; split.
      * reflexivity.
      * intros _. split; [assumption | congruence].
      * intros H1. exfalso. apply H1. split; [assumption | congruence].
      * intros [s Hs]. discriminate.
    + assert (d <> 0) by (unfold Clip3 in C1; lia).
      split; split.
      * intros [H0 _]. contradiction.
      * discriminate.
      * intros _. eauto.
      * intros _ [H0 _]. contradiction.
Qed.

(** The quotient [iX] has the sign of the divisor and is at least 128 in
    absolute value. *)
Lemma iX_bounds (t : Z) :
  -128 <= t <= 127 -> t <> 0 ->
  let iX := Z.quot (16384 + Z.abs (Z.quot t 2)) t in
  (0 < t -> 128 <= iX <= 16384) /\ (t < 0 -> -16384 <= iX <= -128).
Proof.
  intros Hr Hn iX. subst iX. split; intros Hs.
  - pose proof (Z.abs_nonneg (Z.quot t 2)) as Ha.
    rewrite Z.quot_div_nonneg by lia.
    rewrite Z.abs_eq by (apply Z.quot_pos; lia).
    rewrite (Z.quot_div_nonneg t 2) by lia.
    pose proof (Z.div_mod t 2 ltac:(lia)) as E2.
    pose proof (Z.mod_pos_bound t 2 ltac:(lia)) as B2.
    split.
    + apply Z.div_le_lower_bound; lia.
    + apply Z.div_le_upper_bound; [lia |]. nia.
  - assert (Hq : Z.quot t 2 = - ((- t) / 2)).
    { rewrite <- (Z.opp_involutive t) at 1. rewrite Z.quot_opp_l by lia.
      rewrite Z.quot_div_nonneg by lia. reflexivity. }
    rewrite Hq. rewrite Z.abs_opp, Z.abs_eq by (apply Z.div_pos; lia).
    pose proof (Z.div_mod (- t) 2 ltac:(lia)) as E2.
    pose proof (Z.mod_pos_bound (- t) 2 ltac:(lia)) as B2.
    set (n := 16384 + - t / 2) in *.
    assert (Hq2 : Z.quot n t = - (n / (- t))).
    { rewrite <- (Z.opp_involutive t) at 1. rewrite Z.quot_opp_r by lia.
      rewrite Z.quot_div_nonneg by lia. reflexivity. }
    rewrite Hq2.
    assert (128 <= n / (- t)) by (apply Z.div_le_lower_bound; lia).
    assert (n / - t <= 16384) by (apply Z.div_le_upper_bound; [lia |]; nia).
    lia.
Qed.

(** X2. The factor [xGetDistScaleFactor] returns for two different POC
    distances is positive when the two distances have the same sign and
    negative when they have opposite signs, and its absolute value is at
    most 4096; it is 0 only for a current distance of 0. *)
Theorem xGetDistScaleFactor_sign (iCurrPOC iCurrRefPOC iColPOC iColRefPOC s : Z) :
  sub32 iColPOC iColRefPOC <> sub32 iCurrPOC iCurrRefPOC ->
  xGetDistScaleFactor iCurrPOC iCurrRefPOC iColPOC iColRefPOC = Normal s ->
  -4096 <= s <= 4095
  /\ (0 < sub32 iCurrPOC iCurrRefPOC * sub32 iColPOC iColRefPOC -> 2 <= s)
  /\ (sub32 iCurrPOC iCurrRefPOC * sub32 iColPOC iColRefPOC < 0 -> s <= -2)
  /\ (sub32 iCurrPOC iCurrRefPOC = 0 -> s = 0).
Proof.
  intros Hne. unfold xGetDistScaleFactor.
  set (d := sub32 iColPOC iColRefPOC) in *. set (b := sub32 iCurrPOC iCurrRefPOC) in *.
  destruct (Z.eqb_spec d b) as [E | _]; [contradiction |].
  destruct (Z.eqb_spec (Clip3 (-128) 127 d) 0) as [C0 | C1]; [discriminate |].
  set (td := Clip3 (-128) 127 d) in *. set (tb := Clip3 (-128) 127 b).
  assert (Htd : -128 <= td <= 127) by (unfold td, Clip3; lia).
  assert (Htb : -128 <= tb <= 127) by (unfold tb, Clip3; lia).
  pose proof (iX_bounds td Htd C1) as [Hpos Hneg]. cbv zeta in Hpos, Hneg.
  set (iX := Z.quot (16384 + Z.abs (Z.quot td 2)) td) in *.
  assert (Hsd : (0 < d <-> 0 < td) /\ (d < 0 <-> td < 0)) by (unfold td, Clip3; lia).
  assert (Hsb : (0 < b <-> 0 < tb) /\ (b < 0 <-> tb < 0) /\ (b = 0 <-> tb = 0))
    by (unfold tb, Clip3; lia).
  clearbody td tb iX.
  intros H.
  assert (Hs : s = Clip3 (-4096) 4095 (Z.shiftr (tb * iX + 32) 6)) by congruence.
  clear H. subst s.
  split; [unfold Clip3; lia |].
  rewrite Z.shiftr_div_pow2 by lia. change (2 ^ 6) with 64.
  split; [| split].
  - intros Hp.
    assert (Hq : 128 <= tb * iX) by nia.
    assert (2 <= (tb * iX + 32) / 64) by (apply Z.div_le_lower_bound; lia).
    unfold Clip3. lia.
  - intros Hp.
    assert (Hq : tb * iX <= -128) by nia.
    assert ((tb * iX + 32) / 64 < -1) by (apply Z.div_lt_upper_bound; lia).
    unfold Clip3. lia.
  - intros Hb0. assert (tb = 0) by (apply Hsb; exact Hb0).
    replace (tb * iX + 32) with 32 by lia. reflexivity.
Qed.

Lemma xGetDistScaleFactor_sign_witness :
  -4096 <= 128 <= 4095
  /\ (0 < sub32 8 6 * sub32 4 0 -> 2 <= 128)
  /\ (sub32 8 6 * sub32 4 0 < 0 -> 128 <= -2)
  /\ (sub32 8 6 = 0 -> 128 = 0).
Proof.
  apply (xGetDistScaleFactor_sign 8 6 4 0 128).
  - vm_compute. discriminate.
  - vm_compute. reflexivity.
Defined.

(** ** Further tools of [UnitTools.cpp] *)

Lemma wrap32_id (z : Z) : -2147483648 <= z < 2147483648 -> wrap32 z = z.
Proof.
  intros H. unfold wrap32. rewrite Z.mod_small by lia. lia.
Qed.

(** X3. For POCs of at most 15 bits, [isBiPredFromDifferentDir] holds
    exactly when both reference indices are valid and the current picture
    lies strictly between the two reference pictures in output order. *)
Theorem isBiPredFromDifferentDir_iff (s : Slice) (pu : PredictionUnit) :
  -16384 <= getPOC s <= 16384 ->
  -16384 <= getRefPOC s REF_PIC_LIST_0 (fst (pu_refIdx pu)) <= 16384 ->
  -16384 <= getRefPOC s REF_PIC_LIST_1 (snd (pu_refIdx pu)) <= 16384 ->
  (isBiPredFromDifferentDir s pu = true
   <-> 0 <= fst (pu_refIdx pu) /\ 0 <= snd (pu_refIdx pu)
       /\ (getRefPOC s REF_PIC_LIST_0 (fst (pu_refIdx pu)) < getPOC s
           < getRefPOC s REF_PIC_LIST_1 (snd (pu_refIdx pu))
           \/ getRefPOC s REF_PIC_LIST_1 (snd (pu_refIdx pu)) < getPOC s
              < getRefPOC s REF_PIC_LIST_0 (fst (pu_refIdx pu)))).
Proof.
  intros H H0 H1. unfold isBiPredFromDifferentDir.
  set (iPOC0 := getRefPOC s REF_PIC_LIST_0 (fst (pu_refIdx pu))) in *.
  set (iPOC1 := getRefPOC s REF_PIC_LIST_1 (snd (pu_refIdx pu))) in *.
  set (iPOC := getPOC s) in *.
  unfold mul32, sub32.
  rewrite (wrap32_id (iPOC - iPOC0)), (wrap32_id (iPOC - iPOC1)) by lia.
  rewrite wrap32_id by nia.
  destruct (Z.geb_spec (fst (pu_refIdx pu)) 0), (Z.geb_spec (snd (pu_refIdx pu)) 0);
    cbn [andb]; try (split; [discriminate | lia]).
  destruct (Z.ltb_spec ((iPOC - iPOC0) * (iPOC - iPOC1)) 0); split; intros Hx;
    try reflexivity; try discriminate.
  - repeat split; try lia. nia.
  - exfalso. nia.
Qed.

Lemma isBiPredFromDifferentDir_iff_witness :
  isBiPredFromDifferentDir SampleTools.sliceB SampleTools.blockBi = true
  <-> 0 <= 0 /\ 0 <= 0 /\ (4 < 8 < 12 \/ 12 < 8 < 4).
Proof.
  apply (isBiPredFromDifferentDir_iff SampleTools.sliceB SampleTools.blockBi);
    cbn; lia.
Defined.

(** X4. [clipColBlkMv], for a block and a picture within 2^20 samples and a
    CTU size that is not 0: the displaced block ends at or before the right
    edge of the picture and at most 4 samples past the right edge of the
    block's CTU, and at or before the lower edge of picture and CTU.  When
    that leaves room, it starts at or after the left edge of the CTU, but
    vertically only at or after the top of the picture.  A displacement
    inside these bounds is returned as it is. *)
Theorem clipColBlkMv_bounds (mvX mvY : Z) (pu : PredictionUnit)
        (ctuSize picWidth picHeight : Z) :
  0 < ctuSize <= 1048576 ->
  0 <= pos_x (lumaPos pu) <= 1048576 -> 0 <= pos_y (lumaPos pu) <= 1048576 ->
  0 <= Y_width pu <= 1048576 -> 0 <= Y_height pu <= 1048576 ->
  0 <= picWidth <= 1048576 -> 0 <= picHeight <= 1048576 ->
  let x := pos_x (lumaPos pu) in
  let y := pos_y (lumaPos pu) in
  let ctuX := x / ctuSize * ctuSize in
  let ctuY := y / ctuSize * ctuSize in
  let right := Z.min picWidth (ctuX + ctuSize + 4) in
  let bottom := Z.min picHeight (ctuY + ctuSize) in
  exists mx my,
    clipColBlkMv mvX mvY pu ctuSize picWidth picHeight = Normal (mx, my)
    /\ x + mx + Y_width pu <= right
    /\ y + my + Y_height pu <= bottom
    /\ (ctuX + Y_width pu <= right -> ctuX <= x + mx)
    /\ (Y_height pu <= bottom -> 0 <= y + my)
    /\ (ctuX <= x + mvX -> x + mvX + Y_width pu <= right -> mx = mvX)
    /\ (0 <= y + mvY -> y + mvY + Y_height pu <= bottom -> my = mvY).
Proof.
  intros Hc Hx Hy Hw Hh Hpw Hph x y ctuX ctuY right bottom.
  unfold clipColBlkMv. fold x y.
  replace (ctuSize =? 0) with false by (symmetry; apply Z.eqb_neq; lia).
  rewrite !Z.quot_div_nonneg by lia.
  assert (Hcx : 0 <= ctuX <= x).
  { unfold ctuX. pose proof (Z.mul_div_le x ctuSize ltac:(lia)).
    pose proof (Z.div_pos x ctuSize ltac:(lia) ltac:(lia)). nia. }
  assert (Hcy : 0 <= ctuY <= y).
  { unfold ctuY. pose proof (Z.mul_div_le y ctuSize ltac:(lia)).
    pose proof (Z.div_pos y ctuSize ltac:(lia) ltac:(lia)). nia. }
  unfold mul32, add32, sub32. fold ctuX ctuY.
  rewrite (wrap32_id ctuX), (wrap32_id ctuY) by lia.
  rewrite (wrap32_id (ctuX + ctuSize)), (wrap32_id (ctuY + ctuSize)) by lia.
  rewrite (wrap32_id (ctuX + ctuSize + 4)) by lia.
  fold right bottom.
  assert (Hr : 0 <= right <= 1048576) by (unfold right; lia).
  assert (Hb : 0 <= bottom <= 1048576) by (unfold bottom; lia).
  rewrite (wrap32_id (right - Y_width pu)), (wrap32_id (bottom - Y_height pu)) by lia.
  rewrite (wrap32_id (right - Y_width pu - x)) by lia.
  rewrite (wrap32_id (bottom - Y_height pu - y)) by lia.
  rewrite (wrap32_id (Z.max 0 ctuX - x)), (wrap32_id (Z.min 0 ctuY - y)) by lia.
  eexists. eexists. split; [reflexivity |].
  clearbody right bottom ctuX ctuY. lia.
Qed.

Lemma clipColBlkMv_bounds_witness :
  exists mx my,
    clipColBlkMv 100 (-50) Sample.block 64 1920 1080 = Normal (mx, my)
    /\ 16 + mx + 16 <= 68
    /\ 16 + my + 16 <= 64
    /\ (0 + 16 <= 68 -> 0 <= 16 + mx)
    /\ (16 <= 64 -> 0 <= 16 + my)
    /\ (0 <= 16 + 100 -> 16 + 100 + 16 <= 68 -> mx = 100)
    /\ (0 <= 16 + -50 -> 16 + -50 + 16 <= 64 -> my = -50).
Proof.
  exact (clipColBlkMv_bounds 100 (-50) Sample.block 64 1920 1080
           ltac:(lia) ltac:(cbn; lia) ltac:(cbn; lia) ltac:(cbn; lia)
           ltac:(cbn; lia) ltac:(lia) ltac:(lia)).
Defined.

(** A check over the first [n] naturals. *)
Lemma forallb_below (P : Z -> bool) (n : nat) :
  forallb P (map Z.of_nat (seq 0 n)) = true ->
  forall w, 0 <= w < Z.of_nat n -> P w = true.
Proof.
  intros H w Hw. rewrite forallb_forall in H. apply H.
  apply in_map_iff. exists (Z.to_nat w). split; [lia |].
  apply in_seq. lia.
Qed.

Lemma countWidthBits_stable (fuel : nat) :
  (fuel <= 8)%nat ->
  forall w c k, 0 <= w < 2 ^ Z.of_nat fuel ->
    countWidthBits (fuel + k) w c = countWidthBits fuel w c.
Proof.
  induction fuel as [| fuel IH]; intros Hf w c k Hw.
  - assert (w = 0) by (cbn in Hw; lia). subst w.
    destruct k; reflexivity.
  - cbn [Nat.add countWidthBits].
    destruct (Z.eqb_spec w 0); [reflexivity |].
    apply IH; [lia |].
    rewrite Nat2Z.inj_succ, Z.pow_succ_r in Hw by lia.
    assert (Hp : 2 ^ Z.of_nat fuel <= 2 ^ 7) by (apply Z.pow_le_mono_r; lia).
    change (2 ^ 7) with 128 in Hp.
    rewrite Z.shiftr_div_pow2 by lia. change (2 ^ 1) with 2.
    pose proof (Z.div_mod w 2 ltac:(lia)). pose proof (Z.mod_pos_bound w 2 ltac:(lia)).
    unfold u8. rewrite Z.mod_small by lia. lia.
Qed.

(** X5. [CU::getIntraSizeIdx] looks only at the low 8 bits of the luma
    width.  If these are 2 or more the index is the binary logarithm of
    that value less one, and 6 at most (1 to 6 for the widths 4 to 128);
    if they are 0 or 1, as for a width of 256, the unsigned counter wraps
    around and the index is 6.  The loop has ended after eight rounds. *)
Theorem getIntraSizeIdx_value (width : Z) :
  getIntraSizeIdx width
  = (if u8 width <? 2 then 6 else Z.min (Z.log2 (u8 width) - 1) 6)
  /\ forall k, countWidthBits (8 + k) (u8 width) 0 = countWidthBits 8 (u8 width) 0.
Proof.
  assert (Hu : 0 <= u8 width < Z.of_nat 256)
    by (unfold u8; pose proof (Z.mod_pos_bound width 256 ltac:(lia)); lia).
  split.
  - unfold getIntraSizeIdx.
    pose proof (forallb_below
      (fun w => (let uiCnt := u32 (countWidthBits 8 w 0 - 2) in
                 if uiCnt >? 6 then 6 else uiCnt)
                =? (if w <? 2 then 6 else Z.min (Z.log2 w - 1) 6))
      256 ltac:(vm_compute; reflexivity) (u8 width) Hu) as H.
    cbv beta zeta in H. apply Z.eqb_eq in H. exact H.
  - intros k. apply countWidthBits_stable; [lia |]. change (2 ^ Z.of_nat 8) with 256. lia.
Qed.

(** X6. [getCtuAddr] numbers the CTUs in raster order: for a position
    inside a picture of [widthInCtus] columns whose CTU count fits 32 bits,
    the address modulo [widthInCtus] is the CTU column of the position and
    the address divided by [widthInCtus] is its CTU row; hence two such
    positions have the same address exactly when they lie in the same
    CTU. *)
Theorem getCtuAddr_row_and_column (pos : Position)
        (maxCUWidthLog2 maxCUHeightLog2 widthInCtus : Z) :
  0 <= pos_x pos -> 0 <= pos_y pos ->
  Z.shiftr (pos_x pos) maxCUWidthLog2 < widthInCtus ->
  (Z.shiftr (pos_y pos) maxCUHeightLog2 + 1) * widthInCtus <= 4294967296 ->
  getCtuAddr pos maxCUWidthLog2 maxCUHeightLog2 widthInCtus mod widthInCtus
  = Z.shiftr (pos_x pos) maxCUWidthLog2
  /\ getCtuAddr pos maxCUWidthLog2 maxCUHeightLog2 widthInCtus / widthInCtus
     = Z.shiftr (pos_y pos) maxCUHeightLog2.
Proof.
  intros Hx Hy Hc Hr. unfold getCtuAddr.
  pose proof (Z.shiftr_nonneg (pos_x pos) maxCUWidthLog2) as [_ Hcx].
  pose proof (Z.shiftr_nonneg (pos_y pos) maxCUHeightLog2) as [_ Hcy].
  specialize (Hcx Hx). specialize (Hcy Hy).
  set (c := Z.shiftr (pos_x pos) maxCUWidthLog2) in *.
  set (r := Z.shiftr (pos_y pos) maxCUHeightLog2) in *.
  clearbody c r.
  assert (0 <= r * widthInCtus) by (apply Z.mul_nonneg_nonneg; lia).
  assert ((r + 1) * widthInCtus = r * widthInCtus + widthInCtus) by ring.
  unfold u32. rewrite (Z.mod_small (c + r * widthInCtus) 4294967296) by lia.
  split.
  - rewrite Z.mod_add by lia. apply Z.mod_small. lia.
  - rewrite Z.div_add by lia. rewrite Z.div_small by lia. lia.
Qed.

Lemma getCtuAddr_row_and_column_witness :
  getCtuAddr (mkPosition 200 70) 6 6 30 mod 30 = 3
  /\ getCtuAddr (mkPosition 200 70) 6 6 30 / 30 = 1.
Proof.
  apply (getCtuAddr_row_and_column (mkPosition 200 70) 6 6 30); cbn; lia.
Defined.

Section PredictQPFacts.
Variable ENABLE_WPP_PARALLELISM : bool.
Variable getUseNextDQP : bool.
Variable blockPos : Position.
Variable maxCUWidthMask maxCUHeightMask : Z.
Variable scaleX scaleY : Z.
Variable getCU_qp : Position -> option Z.
Variable getCURestricted_qp : Position -> option Z.
Variable getSliceQpBase : Z.

(** X7. [CU::predictQP] never leaves the range of the quantisation
    parameters it can read: if the previous QP, the slice's base QP and
    the QP of every unit lie between [lo] and [hi], so does the QP it
    returns. *)
Theorem predictQP_in_range (prevQP lo hi q : Z) :
  -1073741824 <= lo -> hi < 1073741824 ->
  lo <= prevQP <= hi -> lo <= getSliceQpBase <= hi ->
  (forall p v, getCU_qp p = Some v -> lo <= v <= hi) ->
  (forall p v, getCURestricted_qp p = Some v -> lo <= v <= hi) ->
  predictQP ENABLE_WPP_PARALLELISM getUseNextDQP blockPos maxCUWidthMask
            maxCUHeightMask scaleX scaleY getCU_qp getCURestricted_qp
            getSliceQpBase prevQP = Normal q ->
  lo <= q <= hi.
Proof.
  intros Hlo Hhi Hp Hb Hcu Hre. unfold predictQP.
  assert (Hr : forall p, lo <= restrictedQp getCURestricted_qp getSliceQpBase p <= hi).
  { intros p. unfold restrictedQp.
    destruct (getCURestricted_qp p) eqn:E; [eapply Hre; exact E | exact Hb]. }
  destruct (ENABLE_WPP_PARALLELISM && getUseNextDQP).
  - intros H. injection H as <-.
    pose proof (Hr (offset blockPos 0 (-1))). pose proof (Hr (offset blockPos (-1) 0)).
    set (a := restrictedQp _ _ (offset blockPos 0 (-1))) in *.
    set (b := restrictedQp _ _ (offset blockPos (-1) 0)) in *.
    destruct (Z.ltb_spec a b), (Z.gtb_spec a b); unfold Clip3; lia.
  - assert (Hq : forall (c : bool) p a,
               (if c then qpAt getCU_qp p else Normal prevQP) = Normal a ->
               lo <= a <= hi).
    { intros c p a. destruct c.
      - unfold qpAt. destruct (getCU_qp p) eqn:E; [| discriminate].
        intros H. injection H as <-. eapply Hcu. exact E.
      - intros H. injection H as <-. exact Hp. }
    destruct (if negb _ then qpAt getCU_qp (offset blockPos 0 (-1)) else _)
      as [a | |] eqn:Ea; cbn [obind]; try discriminate.
    destruct (if negb _ then qpAt getCU_qp (offset blockPos (-1) 0) else _)
      as [b | |] eqn:Eb; cbn [obind]; try discriminate.
    apply Hq in Ea. apply Hq in Eb.
    intros H. injection H as <-.
    unfold add32. rewrite (wrap32_id (a + b)) by lia. rewrite wrap32_id by lia.
    rewrite Z.shiftr_div_pow2 by lia. change (2 ^ 1) with 2.
    pose proof (Z.div_mod (a + b + 1) 2 ltac:(lia)).
    pose proof (Z.mod_pos_bound (a + b + 1) 2 ltac:(lia)). lia.
Qed.

(** X8. Built without the planar predictor, [CU::predictQP] of a unit
    whose position has no bit of the two masks set - the first unit of a
    CTU - returns the previous QP and looks at no neighbour. *)
Theorem predictQP_at_ctu_start (prevQP : Z) :
  ENABLE_WPP_PARALLELISM && getUseNextDQP = false ->
  Z.land (u32 (pos_x blockPos)) (Z.shiftr (u32 maxCUWidthMask) scaleX) = 0 ->
  Z.land (u32 (pos_y blockPos)) (Z.shiftr (u32 maxCUHeightMask) scaleY) = 0 ->
  -1073741824 <= prevQP < 1073741824 ->
  predictQP ENABLE_WPP_PARALLELISM getUseNextDQP blockPos maxCUWidthMask
            maxCUHeightMask scaleX scaleY getCU_qp getCURestricted_qp
            getSliceQpBase prevQP = Normal prevQP.
Proof.
  intros Hw Hx Hy Hp. unfold predictQP. rewrite Hw, Hx, Hy.
  change (0 =? 0) with true. cbn [negb obind].
  unfold add32. rewrite (wrap32_id (prevQP + prevQP)) by lia. rewrite wrap32_id by lia.
  rewrite Z.shiftr_div_pow2 by lia. change (2 ^ 1) with 2.
  f_equal.
  pose proof (Z.div_mod (prevQP + prevQP + 1) 2 ltac:(lia)).
  pose proof (Z.mod_pos_bound (prevQP + prevQP + 1) 2 ltac:(lia)). lia.
Qed.

End PredictQPFacts.

(** The bit [getCbfAtDepth] reads. *)
Lemma getCbfAtDepth_testbit (cbf depth : Z) :
  0 <= depth < 32 -> getCbfAtDepth cbf depth = Normal (Z.testbit cbf depth).
Proof.
  intros Hd. unfold getCbfAtDepth.
  replace (32 <=? depth) with false by (symmetry; apply Z.leb_gt; lia).
  f_equal. rewrite Z.testbit_odd.
  change 1 with (Z.ones 1) at 1. rewrite Z.land_ones by lia. change (2 ^ 1) with 2.
  rewrite Zodd_mod. reflexivity.
Qed.

Lemma setCbfAtDepth_bits (cbfBits cbf depth : Z) (flag : bool) (cbf' : Z) :
  0 <= depth < 31 -> 0 <= cbfBits -> 0 <= cbf < 2 ^ cbfBits ->
  setCbfAtDepth cbfBits cbf depth flag = Normal cbf' ->
  forall d, 0 <= d ->
    Z.testbit cbf' d
    = if d <? cbfBits then (if d =? depth then flag else Z.testbit cbf d) else false.
Proof.
  intros Hd Hw Hc. unfold setCbfAtDepth.
  replace (31 <=? depth) with false by (symmetry; apply Z.leb_gt; lia).
  intros H. injection H as <-. intros d Hd0.
  destruct (Z.ltb_spec d cbfBits) as [Hlt | Hge].
  - rewrite Z.mod_pow2_bits_low by lia.
    rewrite Z.lor_spec, Z.mod_pow2_bits_low by lia.
    rewrite Z.land_spec, Z.lnot_spec by lia.
    rewrite Z.shiftl_1_l, Z.pow2_bits_eqb by lia.
    rewrite (Z.eqb_sym depth d).
    destruct (Z.eqb_spec d depth) as [-> | Hne].
    + cbn [negb]. rewrite andb_false_r. cbn [orb].
      destruct flag.
      * rewrite Z.shiftl_1_l, Z.pow2_bits_eqb by lia. apply Z.eqb_refl.
      * rewrite Z.shiftl_0_l. apply Z.bits_0.
    + cbn [negb]. rewrite andb_true_r.
      destruct flag.
      * rewrite Z.shiftl_1_l, Z.pow2_bits_eqb by lia.
        replace (depth =? d) with false by (symmetry; apply Z.eqb_neq; lia).
        apply orb_false_r.
      * rewrite Z.shiftl_0_l, Z.bits_0. apply orb_false_r.
  - apply Z.mod_pow2_bits_high. lia.
Qed.

(** X9. [TU::setCbfAtDepth] followed by [TU::getCbfAtDepth], for stored
    flags of [cbfBits] bits and a depth below 31: at a depth below
    [cbfBits] the flag that was set is read back, and what is read at every
    other depth is as before; at a depth of [cbfBits] or more the stored
    flags do not change at all, so that a flag set there is lost. *)
Theorem setCbfAtDepth_then_getCbfAtDepth (cbfBits cbf depth : Z) (flag : bool) :
  0 <= depth < 31 -> 0 <= cbfBits -> 0 <= cbf < 2 ^ cbfBits ->
  exists cbf',
    setCbfAtDepth cbfBits cbf depth flag = Normal cbf'
    /\ 0 <= cbf' < 2 ^ cbfBits
    /\ (depth < cbfBits -> getCbfAtDepth cbf' depth = Normal flag)
    /\ (forall d, 0 <= d < 32 -> d <> depth ->
          getCbfAtDepth cbf' d = getCbfAtDepth cbf d)
    /\ (cbfBits <= depth -> cbf' = cbf).
Proof.
  intros Hd Hw Hc.
  assert (Hex : exists cbf', setCbfAtDepth cbfBits cbf depth flag = Normal cbf').
  { unfold setCbfAtDepth.
    replace (31 <=? depth) with false by (symmetry; apply Z.leb_gt; lia). eauto. }
  destruct Hex as [cbf' Hset]. exists cbf'.
  pose proof (setCbfAtDepth_bits cbfBits cbf depth flag cbf' Hd Hw Hc Hset) as Hbits.
  assert (Hhigh : forall d, cbfBits <= d -> Z.testbit cbf d = false).
  { intros d Hge. rewrite <- (Z.mod_small cbf (2 ^ cbfBits)) by lia.
    apply Z.mod_pow2_bits_high. lia. }
  split; [exact Hset |].
  split.
  { unfold setCbfAtDepth in Hset.
    replace (31 <=? depth) with false in Hset by (symmetry; apply Z.leb_gt; lia).
    injection Hset as <-. apply Z.mod_pos_bound. apply Z.pow_pos_nonneg; lia. }
  split; [| split].
  - intros Hlt. rewrite getCbfAtDepth_testbit by lia. rewrite Hbits by lia.
    replace (depth <? cbfBits) with true by (symmetry; apply Z.ltb_lt; lia).
    rewrite Z.eqb_refl. reflexivity.
  - intros d Hd32 Hne. rewrite !getCbfAtDepth_testbit by lia. rewrite Hbits by lia.
    replace (d =? depth) with false by (symmetry; apply Z.eqb_neq; lia).
    destruct (Z.ltb_spec d cbfBits); [reflexivity |].
    rewrite Hhigh by lia. reflexivity.
  - intros Hge. apply Z.bits_inj'. intros d Hd0. rewrite Hbits by lia.
    destruct (Z.ltb_spec d cbfBits).
    + replace (d =? depth) with false by (symmetry; apply Z.eqb_neq; lia). reflexivity.
    + rewrite Hhigh by lia. reflexivity.
Qed.

Lemma setCbfAtDepth_then_getCbfAtDepth_witness :
  exists cbf',
    setCbfAtDepth 8 5 1 true = Normal cbf'
    /\ 0 <= cbf' < 2 ^ 8
    /\ (1 < 8 -> getCbfAtDepth cbf' 1 = Normal true)
    /\ (forall d, 0 <= d < 32 -> d <> 1 -> getCbfAtDepth cbf' d = getCbfAtDepth 5 d)
    /\ (8 <= 1 -> cbf' = 5).
Proof.
  apply (setCbfAtDepth_then_getCbfAtDepth 8 5 1 true); cbn; lia.
Defined.

Lemma predictQP_in_range_witness : 26 <= 32 <= 34.
Proof.
  apply (predictQP_in_range false false (mkPosition 8 8) 63 63 0 0
           SampleTools.qpNeighbours (fun _ => None) 26 26 26 34 32);
    try lia; try reflexivity.
  - intros p v. unfold SampleTools.qpNeighbours.
    destruct (_ && _); [intros H; injection H as <-; lia |].
    destruct (_ && _); [intros H; injection H as <-; lia | discriminate].
  - discriminate.
Defined.

Lemma predictQP_at_ctu_start_witness :
  predictQP false false (mkPosition 64 128) 63 63 0 0 SampleTools.qpNeighbours
            (fun _ => None) 26 26 = Normal 26.
Proof.
  apply (predictQP_at_ctu_start false false (mkPosition 64 128) 63 63 0 0
           SampleTools.qpNeighbours (fun _ => None) 26 26);
    try reflexivity; lia.
Defined.

Section GbiFacts.
Context {cfg : BuildConfig}.
Import Gbi.


(** X11. When [CU::isGBiIdxCoded] answers yes, the tool is enabled, the
    unit is inter-coded in a slice that is not a P slice, has at least
    [GBI_SIZE_CONSTRAINT] luma samples, and [CU::getValidGbiIdx] returns
    the index stored in the unit.  With the tool disabled the answer is no
    for a unit with the default index, and a unit with another index raises. *)
Theorem isGBiIdxCoded_true (getUseGBi isInterP : bool) (GBI_SIZE_CONSTRAINT : Z)
        (cu : CodingUnit) :
  (isGBiIdxCoded getUseGBi isInterP GBI_SIZE_CONSTRAINT cu = Normal true ->
   getUseGBi = true /\ isInterP = false /\ predMode cu <> MODE_INTRA
   /\ u32 GBI_SIZE_CONSTRAINT <= u32 (lwidth cu * lheight cu)
   /\ getValidGbiIdx cu = Normal (GBiIdx cu))
  /\ (getUseGBi = false ->
      isGBiIdxCoded getUseGBi isInterP GBI_SIZE_CONSTRAINT cu
      = if GBiIdx cu =? GBI_DEFAULT then Normal false
        else Thrown "Error: cu.GBiIdx != GBI_DEFAULT").
Proof.
  unfold isGBiIdxCoded, getValidGbiIdx. split.
  - destruct getUseGBi; cbn [negb].
    + destruct (predMode cu) eqn:Hp, isInterP; cbn [orb]; try discriminate;
        (destruct (Z.ltb_spec (u32 (lwidth cu * lheight cu)) (u32 GBI_SIZE_CONSTRAINT));
         [discriminate |];
         destruct ((interDir (firstPU cu) =? 3) && negb (mergeFlag (firstPU cu)));
         [| discriminate];
         intros _; repeat split; try discriminate; lia).
    + destruct (negb (GBiIdx cu =? GBI_DEFAULT)); cbn; discriminate.
  - intros ->. cbn [negb]. destruct (GBiIdx cu =? GBI_DEFAULT); reflexivity.
Qed.

End GbiFacts.

(** ** Restricting bi-prediction in a merge list *)

Section BipredRestrictionFacts.
Context {cfg : BuildConfig} {ops : MvOps}.
Variable only2Nx2N : bool.
Variable cuLumaWidth : Z.
Variable cs : CodingStructure.
Variable pu : PredictionUnit.

(** One round of the loop. *)
Lemma restrictCand_spec (j : Z) (X : MergeCtx) :
  0 <= j ->
  numValidMergeCand (restrictCand j X) = numValidMergeCand X
  /\ mrgTypeNeighbours (restrictCand j X) = mrgTypeNeighbours X
  /\ (forall k, interDirNeighbours (restrictCand j X) k
                = if (k =? j) && (interDirNeighbours X j =? 3) then 1
                  else interDirNeighbours X k)
  /\ (forall i, mvFieldNeighbours (restrictCand j X) i
                = if (i =? 2 * j + 1) && (interDirNeighbours X j =? 3)
                  then mkMvField Mv0 (-1) else mvFieldNeighbours X i).
Proof.
  intros Hj. unfold restrictCand.
  rewrite Z.shiftl_mul_pow2 by lia. change (2 ^ 1) with 2.
  replace (j * 2 + 1) with (2 * j + 1) by lia.
  destruct (interDirNeighbours X j =? 3).
  - destruct JVET_L0646_GBI; cbn; unfold upd; repeat split; intros;
      rewrite ?andb_true_r; reflexivity.
  - repeat split; intros; rewrite andb_false_r; reflexivity.
Qed.

(** What the first [n] rounds of the loop leave in a slot. *)
Lemma forUpTo_restrictCand (n : nat) (m : MergeCtx) :
  let m' := forUpTo n restrictCand m in
  numValidMergeCand m' = numValidMergeCand m
  /\ mrgTypeNeighbours m' = mrgTypeNeighbours m
  /\ forall k, 0 <= k ->
       (interDirNeighbours m' k
        = if (k <? Z.of_nat n) && (interDirNeighbours m k =? 3) then 1
          else interDirNeighbours m k)
       /\ mvFieldNeighbours m' (2 * k) = mvFieldNeighbours m (2 * k)
       /\ mvFieldNeighbours m' (2 * k + 1)
          = if (k <? Z.of_nat n) && (interDirNeighbours m k =? 3)
            then mkMvField Mv0 (-1) else mvFieldNeighbours m (2 * k + 1).
Proof.
  induction n as [| n IH]; cbn zeta.
  - cbn [forUpTo]. repeat split; try reflexivity;
      replace (k <? Z.of_nat 0) with false by (symmetry; apply Z.ltb_ge; lia);
      reflexivity.
  - cbn [forUpTo]. cbn zeta in IH. destruct IH as (IHv & IHt & IHk).
    set (m1 := forUpTo n restrictCand m) in *.
    destruct (restrictCand_spec (Z.of_nat n) m1 ltac:(lia)) as (Sv & St & Sd & Sf).
    rewrite Sv, St. split; [exact IHv |]. split; [exact IHt |].
    intros k Hk. rewrite Sd, !Sf.
    destruct (IHk (Z.of_nat n) ltac:(lia)) as (Hd & _ & _).
    rewrite Z.ltb_irrefl in Hd. cbn [andb] in Hd. rewrite Hd.
    destruct (IHk k Hk) as (Kd & K0 & K1). rewrite Kd, K0, K1.
    replace (2 * k =? 2 * Z.of_nat n + 1) with false
      by (symmetry; apply Z.eqb_neq; lia).
    cbn [andb].
    replace (2 * k + 1 =? 2 * Z.of_nat n + 1) with (k =? Z.of_nat n)
      by (destruct (Z.eqb_spec k (Z.of_nat n)),
                   (Z.eqb_spec (2 * k + 1) (2 * Z.of_nat n + 1));
          try reflexivity; lia).
    destruct (Z.eqb_spec k (Z.of_nat n)) as [-> | Hne].
    + replace (Z.of_nat n <? Z.of_nat (S n)) with true
        by (symmetry; apply Z.ltb_lt; lia).
      rewrite Z.ltb_irrefl. cbn [andb].
      destruct (interDirNeighbours m (Z.of_nat n) =? 3); repeat split; reflexivity.
    + replace (k <? Z.of_nat (S n)) with (k <? Z.of_nat n)
        by (destruct (Z.ltb_spec k (Z.of_nat n)), (Z.ltb_spec k (Z.of_nat (S n)));
            try reflexivity; lia).
      cbn [andb]. repeat split; reflexivity.
Qed.

(** X12. Under the bi-prediction restriction, [PU::restrictBiPredMergeCands]
    leaves no bi-predictive candidate among the valid ones: a candidate
    that was bi-predictive becomes a list-0 candidate, keeps its list-0
    field and gets the zero vector with index -1 for list 1; every other
    candidate, the count and the merge types stay as they were.  Without
    the restriction nothing changes. *)
Theorem restrictBiPredMergeCands_result (m : MergeCtx) :
  0 <= numValidMergeCand m < 4294967296 ->
  (isBipredRestriction only2Nx2N cuLumaWidth cs pu = true ->
   let m' := restrictBiPredMergeCands only2Nx2N cuLumaWidth cs pu m in
   numValidMergeCand m' = numValidMergeCand m
   /\ mrgTypeNeighbours m' = mrgTypeNeighbours m
   /\ forall k, 0 <= k < numValidMergeCand m ->
        interDirNeighbours m' k <> 3
        /\ mvFieldNeighbours m' (2 * k) = mvFieldNeighbours m (2 * k)
        /\ (interDirNeighbours m k = 3 ->
            interDirNeighbours m' k = 1
            /\ mvFieldNeighbours m' (2 * k + 1) = mkMvField Mv0 (-1))
        /\ (interDirNeighbours m k <> 3 ->
            interDirNeighbours m' k = interDirNeighbours m k
            /\ mvFieldNeighbours m' (2 * k + 1) = mvFieldNeighbours m (2 * k + 1)))
  /\ (isBipredRestriction only2Nx2N cuLumaWidth cs pu = false ->
      restrictBiPredMergeCands only2Nx2N cuLumaWidth cs pu m = m).
Proof.
  intros Hn. unfold restrictBiPredMergeCands. split.
  - intros ->. cbv zeta.
    destruct (forUpTo_restrictCand (Z.to_nat (u32 (numValidMergeCand m))) m)
      as (Hv & Ht & Hk).
    split; [exact Hv |]. split; [exact Ht |].
    intros k Hkr. destruct (Hk k ltac:(lia)) as (Kd & K0 & K1).
    unfold u32 in *. rewrite Z.mod_small in * by lia.
    rewrite Z2Nat.id in * by lia.
    replace (k <? numValidMergeCand m) with true in *
      by (symmetry; apply Z.ltb_lt; lia).
    cbn [andb] in *.
    destruct (Z.eqb_spec (interDirNeighbours m k) 3) as [E | NE].
    + split; [rewrite Kd; lia |]. split; [exact K0 |].
      split; [intros _; split; assumption | intros Hc; contradiction].
    + split; [rewrite Kd; exact NE |]. split; [exact K0 |].
      split; [intros Hc; contradiction | intros _; split; assumption].
  - intros ->. reflexivity.
Qed.

(** X13. [PU::getInterMergeCandidates] followed by
    [PU::restrictBiPredMergeCands], as the callers run them, for a unit
    under the bi-prediction restriction and a signalled maximum of at least
    one: the list has the signalled maximum of candidates, none of them
    bi-predictive, and their list-0 fields are those of the derivation. *)
Theorem merge_list_then_restriction (sampleSubPu : MergeCtx -> Z -> SubPuSampling)
        (mrgCandIdx : Z) (mrgCtx0 : MergeCtx) (cand0 : Z -> bool) (m : MergeCtx) :
  1 <= getMaxNumMergeCand (slice cs) < 4294967296 ->
  isBipredRestriction only2Nx2N cuLumaWidth cs pu = true ->
  getInterMergeCandidates cs pu sampleSubPu mrgCandIdx mrgCtx0 cand0 = Normal m ->
  numValidMergeCand (restrictBiPredMergeCands only2Nx2N cuLumaWidth cs pu m)
  = getMaxNumMergeCand (slice cs)
  /\ forall k, 0 <= k < getMaxNumMergeCand (slice cs) ->
       interDirNeighbours (restrictBiPredMergeCands only2Nx2N cuLumaWidth cs pu m) k <> 3
       /\ mvFieldNeighbours (restrictBiPredMergeCands only2Nx2N cuLumaWidth cs pu m) (2 * k)
          = mvFieldNeighbours m (2 * k).
Proof.
  intros Hmax Hr Hm.
  pose proof (getInterMergeCandidates_ok cs pu sampleSubPu mrgCandIdx mrgCtx0 cand0
                ltac:(lia)) as Hok.
  rewrite Hm in Hok. destruct Hok as [Hn _]. cbn in Hn.
  unfold restrictBiPredMergeCands. rewrite Hr.
  destruct (forUpTo_restrictCand (Z.to_nat (u32 (numValidMergeCand m))) m)
    as (Hv & _ & Hk).
  split; [rewrite Hv; exact Hn |].
  intros k Hkr. destruct (Hk k ltac:(lia)) as (Kd & K0 & _).
  split; [| exact K0]. rewrite Kd.
  unfold u32. rewrite Hn, Z.mod_small, Z2Nat.id by lia.
  replace (k <? getMaxNumMergeCand (slice cs)) with true
    by (symmetry; apply Z.ltb_lt; lia).
  cbn [andb]. destruct (Z.eqb_spec (interDirNeighbours m k) 3); [lia | assumption].
Qed.

End BipredRestrictionFacts.

Lemma restrictBiPredMergeCands_result_witness :
  interDirNeighbours
    (@restrictBiPredMergeCands Sample.cfg false 8 (Sample.csAlone 6 2 false)
       SampleRestrict.smallBlock SampleRestrict.twoCands) 0 = 1
  /\ mvFieldNeighbours
       (@restrictBiPredMergeCands Sample.cfg false 8 (Sample.csAlone 6 2 false)
          SampleRestrict.smallBlock SampleRestrict.twoCands) (2 * 0 + 1)
     = mkMvField Mv0 (-1).
Proof.
  pose proof (proj1 (@restrictBiPredMergeCands_result Sample.cfg false 8
                       (Sample.csAlone 6 2 false) SampleRestrict.smallBlock
                       SampleRestrict.twoCands ltac:(cbn; lia)) eq_refl) as W.
  cbv zeta in W. destruct W as (_ & _ & Wk).
  destruct (Wk 0 ltac:(cbn; lia)) as (_ & _ & W3 & _).
  apply W3. reflexivity.
Defined.

Lemma merge_list_then_restriction_witness :
  exists m,
    @getInterMergeCandidates Sample.cfg Sample.ops (Sample.csAlone 2 1 false)
       SampleRestrict.smallBlock SampleMerge.noSubPu (-1) SampleMerge.mrgCtx0
       SampleMerge.cand0 = Normal m
    /\ numValidMergeCand
         (@restrictBiPredMergeCands Sample.cfg false 8 (Sample.csAlone 2 1 false)
            SampleRestrict.smallBlock m) = 2
    /\ forall k, 0 <= k < 2 ->
         interDirNeighbours
           (@restrictBiPredMergeCands Sample.cfg false 8 (Sample.csAlone 2 1 false)
              SampleRestrict.smallBlock m) k <> 3
         /\ mvFieldNeighbours
              (@restrictBiPredMergeCands Sample.cfg false 8 (Sample.csAlone 2 1 false)
                 SampleRestrict.smallBlock m) (2 * k)
            = mvFieldNeighbours m (2 * k).
Proof.
  eexists. split; [vm_compute; reflexivity |].
  apply (@merge_list_then_restriction Sample.cfg Sample.ops false 8
           (Sample.csAlone 2 1 false) SampleRestrict.smallBlock SampleMerge.noSubPu
           (-1) SampleMerge.mrgCtx0 SampleMerge.cand0).
  - cbn. lia.
  - reflexivity.
  - vm_compute. reflexivity.
Defined.

(** ** The affine merge candidate *)

Section AffineMergeFacts.
Context {cfg : BuildConfig} {ops : MvOps}.
Variable cs : CodingStructure.
Variable pu : PredictionUnit.
Variable motionInfoOf : PredictionUnit -> MotionInfo.

Lemma cornerFields_sameRefIdx (c : Mv * Mv * Mv) (r : Z) :
  sameRefIdx (cornerFields c r).
Proof. destruct c as [[c0 c1] c2]. cbn. split; reflexivity. Qed.

Lemma affineNeighbour_Some (o : option PredictionUnit) (n : PredictionUnit) :
  affineNeighbour o = Some n -> o = Some n /\ affine (cu n) = true.
Proof.
  unfold affineNeighbour. destruct o as [p |]; [| discriminate].
  destruct (affine (cu p)) eqn:E; [| discriminate].
  intros H. injection H as <-. split; [reflexivity | exact E].
Qed.

(** X14. [PU::getAffineMergeCand] reports one candidate exactly when
    [getFirstAvailableAffineNeighbour] finds a neighbour, and -1 otherwise.
    In both lists the three corners carry one and the same reference
    index; without a neighbour, and for list 1 in a slice that is not a B
    slice, all corners are the zero vector with index -1.  The neighbour
    found is affine and is one of the five spatial neighbours; the left
    one is taken whenever it is affine. *)
Theorem getAffineMergeCand_result (interDir0 gbiIdx0 : Z) :
  let r := getAffineMergeCand cs pu motionInfoOf interDir0 gbiIdx0 in
  (am_numValid r = 1 <-> exists n, getFirstAvailableAffineNeighbour cs pu = Some n)
  /\ (am_numValid r = -1 <-> getFirstAvailableAffineNeighbour cs pu = None)
  /\ sameRefIdx (fst (am_mvField r)) /\ sameRefIdx (snd (am_mvField r))
  /\ (getFirstAvailableAffineNeighbour cs pu = None ->
      am_mvField r = (noAffineFields, noAffineFields) /\ am_interDir r = interDir0)
  /\ (isInterB (slice cs) = false -> snd (am_mvField r) = noAffineFields)
  /\ (forall n, getFirstAvailableAffineNeighbour cs pu = Some n ->
        affine (cu n) = true
        /\ In (Some n) [puLeft cs pu; puAbove cs pu; puAboveRight cs pu;
                        puLeftBottom cs pu; puAboveLeft cs pu]
        /\ am_affineType r = affineType (cu n))
  /\ (forall n, puLeft cs pu = Some n -> affine (cu n) = true ->
        getFirstAvailableAffineNeighbour cs pu = Some n).
Proof.
  cbv zeta. unfold getAffineMergeCand.
  assert (Hin : forall n, getFirstAvailableAffineNeighbour cs pu = Some n ->
                  affine (cu n) = true
                  /\ In (Some n) [puLeft cs pu; puAbove cs pu; puAboveRight cs pu;
                                  puLeftBottom cs pu; puAboveLeft cs pu]).
  { intros n. unfold getFirstAvailableAffineNeighbour.
    destruct (affineNeighbour (puLeft cs pu)) eqn:E1.
    { intros H. injection H as ->. apply affineNeighbour_Some in E1.
      destruct E1 as [-> ?]. split; [assumption | left; reflexivity]. }
    destruct (affineNeighbour (puAbove cs pu)) eqn:E2.
    { intros H. injection H as ->. apply affineNeighbour_Some in E2.
      destruct E2 as [-> ?]. split; [assumption | right; left; reflexivity]. }
    destruct (affineNeighbour (puAboveRight cs pu)) eqn:E3.
    { intros H. injection H as ->. apply affineNeighbour_Some in E3.
      destruct E3 as [-> ?]. split; [assumption | right; right; left; reflexivity]. }
    destruct (affineNeighbour (puLeftBottom cs pu)) eqn:E4.
    { intros H. injection H as ->. apply affineNeighbour_Some in E4.
      destruct E4 as [-> ?].
      split; [assumption | right; right; right; left; reflexivity]. }
    intros E5. apply affineNeighbour_Some in E5. destruct E5 as [-> ?].
    split; [assumption | right; right; right; right; left; reflexivity]. }
  assert (Hleft : forall n, puLeft cs pu = Some n -> affine (cu n) = true ->
                    getFirstAvailableAffineNeighbour cs pu = Some n).
  { intros n Hn Ha. unfold getFirstAvailableAffineNeighbour, affineNeighbour.
    rewrite Hn, Ha. reflexivity. }
  destruct (getFirstAvailableAffineNeighbour cs pu) as [n |] eqn:En.
  - set (d := u8 (interDir (motionInfoOf n))).
    destruct (negb (d =? 2)); destruct (isInterB (slice cs) && negb (d =? 1)) eqn:Eb;
      cbn [am_numValid am_mvField am_interDir am_affineType fst snd];
      (split; [split; [eauto | reflexivity] |]);
      (split; [split; discriminate |]);
      (split; [try apply cornerFields_sameRefIdx; cbn; split; reflexivity |]);
      (split; [try apply cornerFields_sameRefIdx; cbn; split; reflexivity |]);
      (split; [discriminate |]);
      (split; [intros Hb; rewrite Hb in Eb; cbn in Eb; try discriminate; reflexivity |]);
      (split; [intros n' Hn'; injection Hn' as <-;
               destruct (Hin n eq_refl); repeat split; assumption |]);
      exact Hleft.
  - cbn [am_numValid am_mvField am_interDir am_affineType fst snd].
    split; [split; [discriminate | intros [n Hn]; discriminate] |].
    split; [split; reflexivity |].
    split; [cbn; split; reflexivity |].
    split; [cbn; split; reflexivity |].
    split; [intros _; split; reflexivity |].
    split; [intros _; reflexivity |].
    split; [intros n Hn; discriminate | exact Hleft].
Qed.

(** X15. [PU::isAffineMrgFlagCoded] holds exactly when the coding unit is
    at least 8 luma samples wide and high and [PU::getAffineMergeCand]
    reports a candidate. *)
Theorem isAffineMrgFlagCoded_iff (cuLumaWidth cuLumaHeight interDir0 gbiIdx0 : Z) :
  isAffineMrgFlagCoded cs pu cuLumaWidth cuLumaHeight = true
  <-> 8 <= cuLumaWidth /\ 8 <= cuLumaHeight
      /\ am_numValid (getAffineMergeCand cs pu motionInfoOf interDir0 gbiIdx0) = 1.
Proof.
  unfold isAffineMrgFlagCoded, getAffineMergeCand.
  destruct (Z.ltb_spec cuLumaWidth 8), (Z.ltb_spec cuLumaHeight 8); cbn [orb];
    try (split; [discriminate | lia]).
  destruct (getFirstAvailableAffineNeighbour cs pu) as [n |].
  - destruct (negb _); destruct (_ && _); cbn; split; intros; try reflexivity; lia.
  - cbn. split; [discriminate | lia].
Qed.

End AffineMergeFacts.

(** ** The fast exit of the merge candidate list *)

Section FastExitFacts.
Context {cfg : BuildConfig} {ops : MvOps}.
Variable cs : CodingStructure.
Variable pu : PredictionUnit.
Variable sampleSubPu : MergeCtx -> Z -> SubPuSampling.

(** The slots the first loop has been through. *)
Lemma forUpTo_initCand_slots (n : nat) (st0 : MrgState) :
  forall i, 0 <= i < Z.of_nat n ->
    interDirNeighbours (mrgCtx (forUpTo n initCand st0)) i = 0
    /\ mrgTypeNeighbours (mrgCtx (forUpTo n initCand st0)) i = MRG_TYPE_DEFAULT_N
    /\ refIdx (mvFieldNeighbours (mrgCtx (forUpTo n initCand st0)) (2 * i)) = NOT_VALID
    /\ refIdx (mvFieldNeighbours (mrgCtx (forUpTo n initCand st0)) (2 * i + 1))
       = NOT_VALID.
Proof.
  induction n as [| n IH]; intros i Hi; [lia |].
  cbn [forUpTo]. set (st := forUpTo n initCand st0) in *.
  unfold initCand. cbv zeta. cbn [mrgCtx].
  rewrite Z.shiftl_mul_pow2 by lia. change (2 ^ 1) with 2.
  destruct (Z.eq_dec i (Z.of_nat n)) as [-> | Hne].
  - destruct JVET_L0646_GBI;
      cbn [mrgCtx interDirNeighbours mrgTypeNeighbours mvFieldNeighbours set_GBiIdx
           set_interDir set_mrgType set_refIdx set_mvField refIdx mv];
      unfold upd;
      cbn [mrgCtx interDirNeighbours mrgTypeNeighbours mvFieldNeighbours refIdx mv];
      rewrite ?Z.eqb_refl;
      replace (2 * Z.of_nat n =? Z.of_nat n * 2 + 1) with false
        by (symmetry; apply Z.eqb_neq; lia);
      replace (2 * Z.of_nat n =? Z.of_nat n * 2) with true
        by (symmetry; apply Z.eqb_eq; lia);
      replace (2 * Z.of_nat n + 1 =? Z.of_nat n * 2 + 1) with true
        by (symmetry; apply Z.eqb_eq; lia);
      repeat split; reflexivity.
  - destruct (IH i ltac:(lia)) as (H1 & H2 & H3 & H4).
    destruct JVET_L0646_GBI;
      cbn [mrgCtx interDirNeighbours mrgTypeNeighbours mvFieldNeighbours set_GBiIdx
           set_interDir set_mrgType set_refIdx set_mvField refIdx mv];
      unfold upd;
      cbn [mrgCtx interDirNeighbours mrgTypeNeighbours mvFieldNeighbours refIdx mv];
      replace (i =? Z.of_nat n) with false by (symmetry; apply Z.eqb_neq; lia);
      replace (2 * i =? Z.of_nat n * 2 + 1) with false
        by (symmetry; apply Z.eqb_neq; lia);
      replace (2 * i =? Z.of_nat n * 2) with false
        by (symmetry; apply Z.eqb_neq; lia);
      replace (2 * i + 1 =? Z.of_nat n * 2 + 1) with false
        by (symmetry; apply Z.eqb_neq; lia);
      replace (2 * i + 1 =? Z.of_nat n * 2) with false
        by (symmetry; apply Z.eqb_neq; lia);
      repeat split; assumption.
Qed.

(** X16. When the caller asks for candidate 0, the parallel merge level
    allows the fast exit and the left neighbour A1 is available,
    [PU::getInterMergeCandidates] returns right after that candidate: slot
    0 holds the motion of A1, the count is the signalled maximum all the
    same, and every further slot below it is as the first loop left it -
    inter direction 0, both reference indices [NOT_VALID] - so that only
    the candidate asked for can be used. *)
Theorem getInterMergeCandidates_fast_exit (mrgCtx0 : MergeCtx) (cand0 : Z -> bool) :
  isAvailableA1 cs pu = true ->
  canFastExit cs = true ->
  0 <= getMaxNumMergeCand (slice cs) ->
  exists m,
    getInterMergeCandidates cs pu sampleSubPu 0 mrgCtx0 cand0 = Normal m
    /\ numValidMergeCand m = getMaxNumMergeCand (slice cs)
    /\ interDirNeighbours m 0 = interDir (miLeft cs pu)
    /\ mvFieldNeighbours m 0
       = mkMvField (fst (mi_mv (miLeft cs pu))) (fst (mi_refIdx (miLeft cs pu)))
    /\ (isInterB (slice cs) = true ->
        mvFieldNeighbours m 1
        = mkMvField (snd (mi_mv (miLeft cs pu))) (snd (mi_refIdx (miLeft cs pu))))
    /\ forall k, 1 <= k < getMaxNumMergeCand (slice cs) ->
         interDirNeighbours m k = 0
         /\ refIdx (mvFieldNeighbours m (2 * k)) = NOT_VALID
         /\ refIdx (mvFieldNeighbours m (2 * k + 1)) = NOT_VALID.
Proof.
  intros HA1 Hfast Hmax.
  destruct (isAvailableA1_puLeft cs pu HA1) as [n Hn].
  unfold getInterMergeCandidates, spatialSteps.
  rewrite HA1, Hn. unfold spatialStep at 1. cbn [andb].
  unfold addSpatialCand.
  change (cnt (initMerge cs mrgCtx0 cand0)) with 0.
  rewrite Hfast. change (0 =? 0) with true. cbn [andb fbind].
  change (Z.shiftl 0 1) with 0. cbn [Z.add].
  eexists. split; [reflexivity |].
  assert (Hinit : forall k, 0 <= k < getMaxNumMergeCand (slice cs) ->
            interDirNeighbours (mrgCtx (initMerge cs mrgCtx0 cand0)) k = 0
            /\ refIdx (mvFieldNeighbours (mrgCtx (initMerge cs mrgCtx0 cand0)) (2 * k))
               = NOT_VALID
            /\ refIdx (mvFieldNeighbours (mrgCtx (initMerge cs mrgCtx0 cand0))
                         (2 * k + 1)) = NOT_VALID).
  { intros k Hk. unfold initMerge. cbv zeta. cbn [mrgCtx].
    destruct (forUpTo_initCand_slots (Z.to_nat (maxNumMergeCand cs))
                (mkMrgState mrgCtx0 0 cand0) k
                ltac:(unfold maxNumMergeCand; lia)) as (H1 & _ & H3 & H4).
    cbn. repeat split; assumption. }
  assert (Hnum : numValidMergeCand (mrgCtx (initMerge cs mrgCtx0 cand0))
                 = getMaxNumMergeCand (slice cs)) by reflexivity.
  set (c0 := mrgCtx (initMerge cs mrgCtx0 cand0)) in *. clearbody c0.
  destruct (isInterB (slice cs)) eqn:EB, JVET_L0646_GBI;
    cbn [numValidMergeCand interDirNeighbours mvFieldNeighbours set_mvField
         set_interDir set_GBiIdx setMvField]; unfold upd;
    (split; [exact Hnum |]); (split; [reflexivity |]); (split; [reflexivity |]);
    (split; [intros Hb; try discriminate Hb; reflexivity |]);
    intros k Hk; destruct (Hinit k ltac:(lia)) as (H1 & H2 & H3);
    replace (k =? 0) with false by (symmetry; apply Z.eqb_neq; lia);
    replace (2 * k =? 0) with false by (symmetry; apply Z.eqb_neq; lia);
    replace (2 * k =? 1) with false by (symmetry; apply Z.eqb_neq; lia);
    replace (2 * k + 1 =? 0) with false by (symmetry; apply Z.eqb_neq; lia);
    replace (2 * k + 1 =? 1) with false by (symmetry; apply Z.eqb_neq; lia);
    repeat split; assumption.
Qed.

End FastExitFacts.

(** The left neighbour alone, candidate 0 asked for. *)
Lemma getInterMergeCandidates_fast_exit_witness :
  exists m,
    @getInterMergeCandidates Sample.cfg Sample.ops (SampleMerge.csLeftOnly 6 2)
       Sample.block SampleMerge.noSubPu 0 SampleMerge.mrgCtx0 SampleMerge.cand0
    = Normal m
    /\ numValidMergeCand m = 6
    /\ interDirNeighbours m 0 = 1
    /\ mvFieldNeighbours m 0 = mkMvField (mkMv 4 0 false) 0
    /\ (false = true -> mvFieldNeighbours m 1 = mkMvField Mv0 NOT_VALID)
    /\ forall k, 1 <= k < 6 ->
         interDirNeighbours m k = 0
         /\ refIdx (mvFieldNeighbours m (2 * k)) = NOT_VALID
         /\ refIdx (mvFieldNeighbours m (2 * k + 1)) = NOT_VALID.
Proof.
  apply (@getInterMergeCandidates_fast_exit Sample.cfg Sample.ops
           (SampleMerge.csLeftOnly 6 2) Sample.block SampleMerge.noSubPu
           SampleMerge.mrgCtx0 SampleMerge.cand0).
  - reflexivity.
  - reflexivity.
  - cbn. lia.
Defined.

(** ** Intra mode lists *)

Lemma wrap32_bounds (z : Z) : -2147483648 <= wrap32 z < 2147483648.
Proof.
  unfold wrap32.
  pose proof (Z.mod_pos_bound (z + 2147483648) 4294967296 ltac:(lia)). lia.
Qed.

Lemma u32_below_inv (z bound : Z) :
  -2147483648 <= z < 2147483648 -> 0 <= bound <= 2147483648 ->
  u32 z < bound -> 0 <= z < bound /\ u32 z = z.
Proof.
  intros Hz Hb. unfold u32. intros H.
  destruct (Z_lt_le_dec z 0) as [Hneg | Hpos].
  - exfalso.
    assert (E : z mod 4294967296 = z + 4294967296).
    { symmetry. apply Z.mod_unique with (q := -1); lia. }
    lia.
  - rewrite Z.mod_small in * by lia. lia.
Qed.

Lemma existsb_range_false (f : Z -> bool) (n : Z) :
  existsb f (map Z.of_nat (seq 0 (Z.to_nat n))) = false ->
  forall i, 0 <= i < n -> f i = false.
Proof.
  intros H i Hi.
  destruct (f i) eqn:E; [| reflexivity].
  assert (Hex : existsb f (map Z.of_nat (seq 0 (Z.to_nat n))) = true).
  { apply existsb_exists. exists i. split; [| exact E].
    apply in_map_iff. exists (Z.to_nat i). split; [lia |]. apply in_seq. lia. }
  congruence.
Qed.

Lemma existsb_range_true (f : Z -> bool) (n : Z) :
  existsb f (map Z.of_nat (seq 0 (Z.to_nat n))) = true ->
  exists i, 0 <= i < n /\ f i = true.
Proof.
  intros H. apply existsb_exists in H. destruct H as (i & Hin & Hf).
  apply in_map_iff in Hin. destruct Hin as (k & <- & Hk). apply in_seq in Hk.
  exists (Z.of_nat k). split; [lia | exact Hf].
Qed.

Section IntraFacts.
Import Intra.
Context {cfg : BuildConfig} {modes : IntraModes}.
Variable numMPMs : Z.
Variable getMaxCUWidth : Z.
Variable getPURestricted : Position -> ChannelType -> option PredictionUnit.

(** The three modes derived from an angular direction. *)
Lemma angular_mpms (l : Z) :
  2 <= l < 67 ->
  let m1 := u32 (add32 (Z.rem (add32 l 61) 64) 2) in
  let m2 := u32 (add32 (Z.rem (sub32 l 1) 64) 2) in
  l <> m1 /\ l <> m2 /\ m1 <> m2 /\ 2 <= m1 < 67 /\ 2 <= m2 < 67.
Proof.
  intros Hl.
  pose proof (forallb_below
    (fun l => (l <? 2)
              || (let m1 := u32 (add32 (Z.rem (add32 l 61) 64) 2) in
                  let m2 := u32 (add32 (Z.rem (sub32 l 1) 64) 2) in
                  negb (l =? m1) && negb (l =? m2) && negb (m1 =? m2)
                  && (2 <=? m1) && (m1 <? 67) && (2 <=? m2) && (m2 <? 67)))
    67 ltac:(vm_compute; reflexivity) l ltac:(lia)) as H.
  cbv beta zeta in H.
  replace (l <? 2) with false in H by (symmetry; apply Z.ltb_ge; lia).
  cbn [orb] in H. cbv zeta.
  repeat (apply andb_prop in H; destruct H as [H ?]).
  repeat match goal with
         | X : negb (_ =? _) = true |- _ =>
           apply negb_true_iff in X; apply Z.eqb_neq in X
         | X : (_ <=? _) = true |- _ => apply Z.leb_le in X
         | X : (_ <? _) = true |- _ => apply Z.ltb_lt in X
         end.
  repeat split; assumption.
Qed.

Lemma neighbourDir_range (n : PredictionUnit) (c : ChannelType) :
  -2147483648 <= neighbourDir n c < 2147483648.
Proof.
  unfold neighbourDir. destruct (_ && _); apply wrap32_bounds.
Qed.

(** X17. With the mode numbers planar 0, DC 1, vertical 50 and 67 luma
    modes: whenever [PU::getIntraMPMs] returns, the list has at least three
    entries, the first three are pairwise different, every entry is a luma
    mode (below 67), and the value returned is 1 when the directions of the
    left and the above neighbour agree and 2 otherwise.  With exactly three
    entries asked for and both directions luma modes it does return. *)
Theorem getIntraMPMs_distinct (pu : PredictionUnit) (mpm : Z -> Z)
        (channelType : ChannelType) :
  PLANAR_IDX = 0 -> DC_IDX = 1 -> VER_IDX = 50 -> NUM_LUMA_MODE = 67 ->
  (forall numCand mpm',
     getIntraMPMs numMPMs getMaxCUWidth getPURestricted pu mpm channelType
     = Normal (numCand, mpm') ->
     3 <= u32 numMPMs
     /\ mpm' 0 <> mpm' 1 /\ mpm' 0 <> mpm' 2 /\ mpm' 1 <> mpm' 2
     /\ (forall i, 0 <= i < u32 numMPMs -> mpm' i < 67)
     /\ numCand
        = (if leftIntraDirOf getPURestricted pu channelType
              =? aboveIntraDirOf getMaxCUWidth getPURestricted pu channelType
           then 1 else 2))
  /\ (numMPMs = 3 ->
      0 <= leftIntraDirOf getPURestricted pu channelType < 67 ->
      0 <= aboveIntraDirOf getMaxCUWidth getPURestricted pu channelType < 67 ->
      exists numCand mpm',
        getIntraMPMs numMPMs getMaxCUWidth getPURestricted pu mpm channelType
        = Normal (numCand, mpm')).
Proof.
  intros HP HD HV HN.
  assert (Hl : -2147483648 <= leftIntraDirOf getPURestricted pu channelType
               < 2147483648).
  { unfold leftIntraDirOf. destruct (getPURestricted _ _) as [n |];
      [destruct (cu_isIntra n); [apply neighbourDir_range |] |]; rewrite HD; lia. }
  assert (Ha : -2147483648
               <= aboveIntraDirOf getMaxCUWidth getPURestricted pu channelType
               < 2147483648).
  { unfold aboveIntraDirOf. destruct (getPURestricted _ _) as [n |];
      [destruct (_ && _); [apply neighbourDir_range |] |]; rewrite HD; lia. }
  unfold getIntraMPMs.
  set (l := leftIntraDirOf getPURestricted pu channelType) in *.
  set (a := aboveIntraDirOf getMaxCUWidth getPURestricted pu channelType) in *.
  clearbody l a. rewrite HP, HD, HV, HN.
  change (u32 0) with 0. change (u32 1) with 1. change (u32 50) with 50.
  change (u32 67) with 67.
  split.
  - intros numCand mpm'.
    destruct (Z.geb_spec 2 (u32 numMPMs)) as [Hn | Hn]; [discriminate |].
    cbn [CHECK obind].
    set (res := if l =? a then _ else _).
    destruct res as [nc mp] eqn:Eres.
    destruct (existsb _ _) eqn:Eex; [discriminate |]. cbn [CHECK obind].
    destruct (nc =? 0); [discriminate |]. cbn [CHECK obind].
    intros H. injection H as <- <-.
    pose proof (existsb_range_false _ _ Eex) as Hall.
    assert (Hlt : forall i, 0 <= i < u32 numMPMs -> mp i < 67).
    { intros i Hi. specialize (Hall i Hi). cbv beta in Hall.
      destruct (Z.geb_spec (mp i) 67); [discriminate | lia]. }
    split; [lia |].
    pose proof (Hlt 0 ltac:(lia)) as H0. pose proof (Hlt 1 ltac:(lia)) as H1.
    pose proof (Hlt 2 ltac:(lia)) as H2.
    subst res.
    destruct (Z.eqb_spec l a) as [E | NE].
    + destruct (Z.gtb_spec l 1) as [Hang | Hnon].
      * injection Eres as <- <-. unfold upd in *. cbn in H0, H1, H2 |- *.
        destruct (u32_below_inv l 67 Hl ltac:(lia) H0) as [Hr Hu].
        rewrite Hu in *.
        destruct (angular_mpms l ltac:(lia)) as (A1 & A2 & A3 & _). cbv zeta in *.
        repeat split; try assumption; try lia; try reflexivity;
          try (intros i Hi; apply (Hlt i Hi)).
      * injection Eres as <- <-. unfold upd in *. cbn.
        repeat split; try assumption; try lia; try reflexivity;
          try (intros i Hi; apply (Hlt i Hi)).
    + destruct (negb (l =? 0) && negb (a =? 0)) eqn:Enz.
      * injection Eres as <- <-. unfold upd in *. cbn in H0, H1, H2 |- *.
        destruct (u32_below_inv l 67 Hl ltac:(lia) H0) as [Hr Hu].
        destruct (u32_below_inv a 67 Ha ltac:(lia) H1) as [Hr' Hu'].
        rewrite Hu, Hu' in *.
        apply andb_prop in Enz. destruct Enz as [Z1 Z2].
        apply negb_true_iff, Z.eqb_neq in Z1. apply negb_true_iff, Z.eqb_neq in Z2.
        repeat split; try assumption; try lia; try reflexivity;
          try (intros i Hi; apply (Hlt i Hi)).
      * injection Eres as <- <-. unfold upd in *. cbn in H0, H1, H2 |- *.
        destruct (u32_below_inv l 67 Hl ltac:(lia) H0) as [Hr Hu].
        destruct (u32_below_inv a 67 Ha ltac:(lia) H1) as [Hr' Hu'].
        rewrite Hu, Hu' in *.
        assert (Hz : l = 0 \/ a = 0).
        { destruct (Z.eqb_spec l 0), (Z.eqb_spec a 0); cbn in Enz;
            try discriminate; auto. }
        unfold add32 in *. rewrite (wrap32_id (l + a)) in * by lia.
        destruct (Z.ltb_spec (l + a) 2); change (u32 50) with 50; change (u32 1) with 1;
          (repeat split; try assumption; try lia; try reflexivity;
          try (intros i Hi; apply (Hlt i Hi))).
  - intros -> Hlr Har. change (u32 3) with 3. change (2 >=? 3) with false.
    cbn [CHECK obind].
    set (res := if l =? a then _ else _).
    assert (Hres : exists nc mp, res = (nc, mp) /\ (nc = 1 \/ nc = 2)
                    /\ mp 0 < 67 /\ mp 1 < 67 /\ mp 2 < 67).
    { subst res. destruct (Z.eqb_spec l a) as [E | NE].
      - destruct (Z.gtb_spec l 1) as [Hang | Hnon].
        + destruct (angular_mpms l ltac:(lia)) as (_ & _ & _ & B1 & B2).
          cbv zeta in B1, B2.
          eexists. eexists. split; [reflexivity |]. split; [left; reflexivity |].
          unfold upd. cbn. unfold u32 at 1. rewrite Z.mod_small by lia. lia.
        + eexists. eexists. split; [reflexivity |]. split; [left; reflexivity |].
          unfold upd. cbn. lia.
      - assert (u32 l = l) by (unfold u32; apply Z.mod_small; lia).
        assert (u32 a = a) by (unfold u32; apply Z.mod_small; lia).
        destruct (negb (l =? 0) && negb (a =? 0)).
        + eexists. eexists. split; [reflexivity |]. split; [right; reflexivity |].
          unfold upd. cbn. lia.
        + eexists. eexists. split; [reflexivity |]. split; [right; reflexivity |].
          unfold upd. cbn. destruct (_ <? 2); cbn; lia. }
    destruct Hres as (nc & mp & -> & Hnc & M0 & M1 & M2).
    assert (Hex : existsb (fun i => mp i >=? 67) (map Z.of_nat (seq 0 (Z.to_nat 3)))
                  = false).
    { change (map Z.of_nat (seq 0 (Z.to_nat 3))) with [0; 1; 2]. cbn [existsb].
      replace (mp 0 >=? 67) with false
        by (destruct (Z.geb_spec (mp 0) 67); [lia | reflexivity]).
      replace (mp 1 >=? 67) with false
        by (destruct (Z.geb_spec (mp 1) 67); [lia | reflexivity]).
      replace (mp 2 >=? 67) with false
        by (destruct (Z.geb_spec (mp 2) 67); [lia | reflexivity]).
      reflexivity. }
    rewrite Hex. cbn [CHECK obind].
    replace (nc =? 0) with false by (symmetry; apply Z.eqb_neq; lia).
    cbn [CHECK obind]. eauto.
Qed.

End IntraFacts.

Section ChromaListFacts.
Import Intra.
Context {modes : IntraModes}.

(** X18. [PU::getIntraChromaCandModes], for mode numbers of planar,
    vertical, horizontal, DC and diagonal that are pairwise different: none
    of the first four candidates is the mode of the luma unit; a candidate
    that would be is replaced by the diagonal mode, and this is the only
    change to the default list.  In a dual tree without a luma unit at the
    position the routine dereferences a null pointer. *)
Theorem getIntraChromaCandModes_avoids_luma_mode (isDualITree : bool)
        (lumaPUOfPicture : option PredictionUnit) (pu : PredictionUnit)
        (modeList : Z -> Z) :
  NoDup [u32 PLANAR_IDX; u32 VER_IDX; u32 HOR_IDX; u32 DC_IDX; u32 VDIA_IDX] ->
  (forall lumaPU,
     (if isDualITree then lumaPUOfPicture = Some lumaPU else lumaPU = pu) ->
     exists ml',
       getIntraChromaCandModes isDualITree lumaPUOfPicture pu modeList = Normal ml'
       /\ (forall i, 0 <= i < 4 -> ml' i <> intraDir lumaPU CHANNEL_TYPE_LUMA)
       /\ (forall i, 0 <= i < 4 ->
             ml' i = chromaCandDefaults modeList i
             \/ (chromaCandDefaults modeList i = intraDir lumaPU CHANNEL_TYPE_LUMA
                 /\ ml' i = u32 VDIA_IDX))
       /\ (forall i, 4 <= i -> ml' i = chromaCandDefaults modeList i))
  /\ (isDualITree = true -> lumaPUOfPicture = None ->
      getIntraChromaCandModes isDualITree lumaPUOfPicture pu modeList
      = Undefined "null pointer dereference").
Proof.
  intros Hnd. split.
  - intros lumaPU Hlu. unfold getIntraChromaCandModes.
    assert (Hsel : (if isDualITree
                    then match lumaPUOfPicture with
                         | Some p => Normal p
                         | None => Undefined "null pointer dereference"
                         end
                    else Normal pu) = Normal lumaPU).
    { destruct isDualITree; [rewrite Hlu | rewrite Hlu]; reflexivity. }
    rewrite Hsel. cbn [obind].
    eexists. split; [reflexivity |].
    set (lm := intraDir lumaPU CHANNEL_TYPE_LUMA).
    set (d := chromaCandDefaults modeList).
    assert (Hd : d 0 = u32 PLANAR_IDX /\ d 1 = u32 VER_IDX /\ d 2 = u32 HOR_IDX
                 /\ d 3 = u32 DC_IDX).
    { subst d. unfold chromaCandDefaults. destruct JVET_L0338_MDLM; cbn;
        repeat split; reflexivity. }
    destruct Hd as (D0 & D1 & D2 & D3). clearbody d lm.
    repeat match goal with
           | H : NoDup (_ :: _) |- _ => inversion H; subst; clear H
           end.
    cbn [In] in *.
    assert (Hcase : forall i, 0 <= i < 4 -> i = 0 \/ i = 1 \/ i = 2 \/ i = 3) by lia.
    cbn [replaceFirst].
    destruct (Z.eqb_spec lm (d 0)) as [E0 | N0];
      [| destruct (Z.eqb_spec lm (d 1)) as [E1 | N1];
         [| destruct (Z.eqb_spec lm (d 2)) as [E2 | N2];
            [| destruct (Z.eqb_spec lm (d 3)) as [E3 | N3]]]];
      unfold upd;
      (split; [intros i Hi;
               destruct (Hcase i Hi) as [-> | [-> | [-> | ->]]];
               cbn [Z.eqb Pos.eqb]; intuition congruence |]);
      (split; [intros i Hi;
               destruct (Hcase i Hi) as [-> | [-> | [-> | ->]]];
               cbn [Z.eqb Pos.eqb]; intuition congruence |]);
      intros i Hi;
      repeat match goal with
             | |- context [i =? ?k] =>
               replace (i =? k) with false by (symmetry; apply Z.eqb_neq; lia)
             end; reflexivity.
  - intros -> ->. reflexivity.
Qed.

End ChromaListFacts.

Section LMListFacts.
Import Intra.
Context {modes : IntraModes}.
Variable getPURestricted : Position -> ChannelType -> option PredictionUnit.

(** X19. [PU::getLMSymbolList], for mode numbers of the linear-model modes
    that are not -1: the list starts with [LM_CHROMA_IDX], holds the marker
    -1 exactly once, and has 2 entries, or 4 with the two further
    linear-model modes; the marker is the second entry when the neighbours
    that count reach the first threshold, and the last entry when they
    reach neither threshold. *)
Theorem getLMSymbolList_one_marker (pu : PredictionUnit) :
  LM_CHROMA_IDX <> -1 -> MDLM_L_IDX <> -1 -> MDLM_T_IDX <> -1 ->
  let l := getLMSymbolList getPURestricted pu in
  let iCount :=
    Z.of_nat (List.length (filter countsAsNonLM (lmNeighbours getPURestricted pu))) in
  count_occ Z.eq_dec l (-1) = 1%nat
  /\ hd 0 l = LM_CHROMA_IDX
  /\ List.length l = (if JVET_L0338_MDLM then 4%nat else 2%nat)
  /\ (g_aiNonLMPosThrs 0 <= iCount -> nth 1 l 0 = -1)
  /\ (iCount < g_aiNonLMPosThrs 0 -> iCount < g_aiNonLMPosThrs 1 -> last l 0 = -1)
  /\ 0 <= iCount <= 5.
Proof.
  intros H1 H2 H3. cbv zeta. unfold getLMSymbolList.
  set (iCount := Z.of_nat _).
  assert (Hc : 0 <= iCount <= 5).
  { subst iCount. pose proof (filter_length_le countsAsNonLM
                                (lmNeighbours getPURestricted pu)) as Hle.
    cbn [lmNeighbours List.length] in Hle. lia. }
  clearbody iCount.
  destruct (Z.geb_spec iCount (g_aiNonLMPosThrs 0)),
           (Z.geb_spec iCount (g_aiNonLMPosThrs 1)), JVET_L0338_MDLM;
    cbn [andb negb app count_occ hd List.length nth last];
    repeat match goal with
           | |- context [Z.eq_dec ?a ?b] => destruct (Z.eq_dec a b); try congruence
           end;
    repeat split; try reflexivity; try lia.
Qed.

End LMListFacts.


(** The left neighbour has direction 34 and the above one 50: the list is
    34, 50 and planar. *)
Lemma getIntraMPMs_distinct_witness :
  exists numCand mpm',
    @Intra.getIntraMPMs Sample.cfg SampleIntra.modes 3 64 SampleIntra.neighbours
       (SampleIntra.unit_ 16 16 0) (fun _ => 0) Intra.CHANNEL_TYPE_LUMA
    = Normal (numCand, mpm')
    /\ mpm' 0 <> mpm' 1 /\ mpm' 0 <> mpm' 2 /\ mpm' 1 <> mpm' 2.
Proof.
  destruct (@getIntraMPMs_distinct Sample.cfg SampleIntra.modes 3 64
              SampleIntra.neighbours (SampleIntra.unit_ 16 16 0) (fun _ => 0)
              Intra.CHANNEL_TYPE_LUMA eq_refl eq_refl eq_refl eq_refl) as [Hd Hr].
  destruct (Hr eq_refl ltac:(vm_compute; split; [discriminate | reflexivity])
               ltac:(vm_compute; split; [discriminate | reflexivity]))
    as (numCand & mpm' & Hm).
  exists numCand, mpm'. split; [exact Hm |].
  destruct (Hd numCand mpm' Hm) as (_ & D1 & D2 & D3 & _).
  repeat split; assumption.
Defined.

(** The luma unit has the vertical direction: the second chroma candidate
    is the diagonal mode instead. *)
Lemma getIntraChromaCandModes_avoids_luma_mode_witness :
  exists ml',
    @Intra.getIntraChromaCandModes SampleIntra.modes false None
       (SampleIntra.unit_ 16 16 50) (fun _ => 0) = Normal ml'
    /\ (forall i, 0 <= i < 4 -> ml' i <> 50).
Proof.
  destruct (proj1 (@getIntraChromaCandModes_avoids_luma_mode SampleIntra.modes
                     false None (SampleIntra.unit_ 16 16 50) (fun _ => 0)
                     ltac:(repeat constructor; cbn; intuition discriminate))
                  (SampleIntra.unit_ 16 16 50) eq_refl)
    as (ml' & Hm & Hne & _).
  exists ml'. split; [exact Hm | exact Hne].
Defined.

Lemma getLMSymbolList_one_marker_witness :
  count_occ Z.eq_dec
    (@Intra.getLMSymbolList SampleIntra.modes SampleIntra.neighbours
       (SampleIntra.unit_ 16 16 0)) (-1) = 1%nat.
Proof.
  apply (@getLMSymbolList_one_marker SampleIntra.modes SampleIntra.neighbours
           (SampleIntra.unit_ 16 16 0)); discriminate.
Defined.

(** ** Further routines of [EncCu.cpp] *)

Section LedgerEdgeFacts.
Import EncCu.
Variables Ctx ModeCtrl EncTestMode Partitioner : Type.
Variable useModeResult :
  ModeCtrl -> EncTestMode -> CodingStructure -> Partitioner ->
  bool * ModeCtrl * CodingStructure.

(** X20. [EncCu::xCheckBestMode] at its edges.  A temp structure without
    units is not offered to the mode controller at all: nothing is
    accepted, the pointers stay, and only the estimator's context changes,
    to the start checkpoint.  A temp structure whose only unit has the skip
    flag but a first prediction unit without the merge flag raises before
    the controller is asked. *)
Theorem xCheckBestMode_edges (s : EncCuState Ctx ModeCtrl) (tempCS bestCS : Z)
        (partitioner : Partitioner) (encTestMode : EncTestMode) :
  (cus (objects s tempCS) = [] ->
   xCheckBestMode useModeResult s tempCS bestCS partitioner encTestMode
   = Normal (false, tempCS, bestCS,
             mkEncCu (objects s) (start (m_CurrCtx s)) (m_CurrCtx s)
                     (m_bestModeUpdated s) (m_modeCtrl s)))
  /\ (forall cu pu,
        cus (objects s tempCS) = [cu] -> skip cu = true -> firstPU cu = Some pu ->
        mergeFlag pu = false ->
        xCheckBestMode useModeResult s tempCS bestCS partitioner encTestMode
        = Thrown "Skip flag without a merge flag is not allowed!").
Proof.
  unfold xCheckBestMode. split.
  - intros ->. reflexivity.
  - intros cu pu Hc Hs Hp Hm. rewrite Hc. unfold checkSkipMerge.
    rewrite Hc, Hs, Hp, Hm. reflexivity.
Qed.

End LedgerEdgeFacts.

Lemma xCheckBestMode_edges_witness :
  EncCu.xCheckBestMode (@EncCu.useModeResult_spec unit unit)
    (SampleEncCu.node 10 20 [] [SampleEncCu.mergedSkip]) 1 2 tt tt
  = Normal (false, 1, 2,
            EncCu.mkEncCu
              (EncCu.objects (SampleEncCu.node 10 20 [] [SampleEncCu.mergedSkip]))
              3 (EncCu.mkCtxPair 3 5) false 20%float).
Proof.
  exact (proj1 (xCheckBestMode_edges Z float unit unit
                  (@EncCu.useModeResult_spec unit unit)
                  (SampleEncCu.node 10 20 [] [SampleEncCu.mergedSkip]) 1 2 tt tt)
               eq_refl).
Defined.


Section RdCheckingFacts.
Import EncCuTools.

Lemma firstAboveThreshold_spec (fuel : nat) (threshold : float) (costList : Z -> float)
      (i n : Z) :
  0 <= i <= n -> (Z.to_nat (n - i) <= fuel)%nat ->
  let r := firstAboveThreshold fuel threshold costList i n in
  i <= r <= n
  /\ (forall k, i <= k < r -> PrimFloat.ltb threshold (costList k) = false)
  /\ (r < n -> PrimFloat.ltb threshold (costList r) = true).
Proof.
  revert i. induction fuel as [| fuel IH]; intros i Hi Hf; cbn [firstAboveThreshold].
  - cbv zeta. assert (i = n) by lia. subst i.
    split; [lia |]. split; [intros k Hk; lia | intros Hk; lia].
  - destruct (Z.ltb_spec i n) as [Hlt | Hge].
    + destruct (PrimFloat.ltb threshold (costList i)) eqn:E.
      * cbv zeta. split; [lia |]. split; [intros k Hk; lia | intros _; exact E].
      * specialize (IH (i + 1) ltac:(lia) ltac:(lia)). cbv zeta in IH |- *.
        destruct IH as (Hr & Hbelow & Hat).
        split; [lia |]. split; [| exact Hat].
        intros k Hk. destruct (Z.eq_dec k i) as [-> | Hne]; [exact E |].
        apply Hbelow. lia.
    + cbv zeta. assert (i = n) by lia. subst i.
      split; [lia |]. split; [intros k Hk; lia | intros Hk; lia].
Qed.

(** X22. [EncCu::updateRdCheckingNum] returns the index of the first cost
    above the threshold among the first [numMergeSatdCand] ones, and
    [numMergeSatdCand] itself when there is none: the result never exceeds
    the count passed in, no cost before it is above the threshold, and if
    it is smaller than the count the cost at it is above the threshold.  A
    cost that is not a number never ends the search, as it compares false.
    So when the first cost is not above the threshold and the count is
    positive, at least one candidate is kept. *)
Theorem updateRdCheckingNum_first_above (threshold : float) (numMergeSatdCand : Z)
        (costList : Z -> float) :
  0 <= numMergeSatdCand ->
  let r := updateRdCheckingNum threshold numMergeSatdCand costList in
  0 <= r <= numMergeSatdCand
  /\ (forall k, 0 <= k < r -> PrimFloat.ltb threshold (costList k) = false)
  /\ (r < numMergeSatdCand -> PrimFloat.ltb threshold (costList r) = true)
  /\ (0 < numMergeSatdCand -> PrimFloat.ltb threshold (costList 0) = false -> 1 <= r).
Proof.
  intros Hn. unfold updateRdCheckingNum.
  pose proof (firstAboveThreshold_spec (Z.to_nat numMergeSatdCand) threshold costList
                0 numMergeSatdCand ltac:(lia) ltac:(lia)) as H.
  cbv zeta in H |- *. destruct H as (Hr & Hbelow & Hat).
  split; [exact Hr |]. split; [exact Hbelow |]. split; [exact Hat |].
  intros Hpos H0.
  destruct (Z.eq_dec (firstAboveThreshold (Z.to_nat numMergeSatdCand) threshold
                        costList 0 numMergeSatdCand) 0) as [E | E]; [| lia].
  rewrite E in Hat. rewrite Hat in H0 by lia. discriminate.
Qed.

End RdCheckingFacts.

Lemma updateRdCheckingNum_first_above_witness :
  let costList := fun k => if k =? 0 then 10%float else if k =? 1 then 12%float
                           else 20%float in
  EncCuTools.updateRdCheckingNum 12.5%float 4 costList = 2
  /\ 0 <= EncCuTools.updateRdCheckingNum 12.5%float 4 costList <= 4.
Proof.
  cbv zeta. split; [vm_compute; reflexivity |].
  exact (proj1 (updateRdCheckingNum_first_above 12.5%float 4
           (fun k => if k =? 0 then 10%float else if k =? 1 then 12%float
                     else 20%float) ltac:(lia))).
Defined.

Section DQPFacts.
Import EncCu EncCuTools.
Variables Ctx Partitioner : Type.
Variable getUseDQP : bool.
Variable isSepTree : Partitioner -> CodingStructure -> bool.
Variable partitioner_chType : Partitioner -> ChannelType.
Variable currQgEnable : Partitioner -> bool.
Variable implicitSplitIsDontSplit : Partitioner -> CodingStructure -> bool.
Variable getCU : CodingStructure -> ChannelType -> option CodingUnit.
Variable predictQP : CodingUnit -> Z -> outcome Z.
Variable cu_qp_delta : Ctx -> CodingUnit -> Z -> Z -> Z * Ctx.
Variable restoreDeltaQP : Ctx -> Ctx -> Ctx.
Variable calcRdCost : Z -> Z -> float.

Lemma resetUntilCoded_nth (predQP : Z) (l : list CodingUnit) (i : nat) (cu : CodingUnit) :
  nth_error l i = Some cu ->
  nth_error (resetUntilCoded predQP l) i
  = Some (if existsb codedLuma (firstn (S i) l) then cu else set_qp cu predQP).
Proof.
  revert i. induction l as [| c rest IH]; intros i H.
  - destruct i; discriminate.
  - cbn [resetUntilCoded]. destruct (codedLuma c) eqn:E.
    + cbn [firstn existsb]. rewrite E. cbn [orb]. exact H.
    + destruct i as [| i].
      * cbn in H. injection H as <-. cbn. rewrite E. reflexivity.
      * cbn [nth_error] in H |- *. rewrite (IH i H).
        change (firstn (S (S i)) (c :: rest)) with (c :: firstn (S i) rest).
        cbn [existsb]. rewrite E. reflexivity.
Qed.

Lemma existsb_firstn_false {A : Type} (f : A -> bool) (l : list A) (n : nat) :
  existsb f l = false -> existsb f (firstn n l) = false.
Proof.
  revert n. induction l as [| a l IH]; intros n H.
  - destruct n; reflexivity.
  - destruct n; [reflexivity |]. cbn in H |- *.
    apply orb_false_elim in H. destruct H as [-> H]. cbn. apply IH. exact H.
Qed.

(** X23. What [EncCu::xCheckDQP] does to the units when it returns: one
    rule covers both of its branches.  A unit's QP is set to the predicted
    QP exactly when no luma unit with a root cbf stands at or before it in
    the structure; every other unit is as it was, and so are the number of
    units and the distortion.  When no unit is coded, the bit count, the
    cost and the estimator's context are not touched.  When delta QP is off,
    the partitioner is in a separate chroma tree, or the quantisation group
    is not enabled, nothing changes. *)
Theorem xCheckDQP_resets_up_to_first_coded
        (cs cs' : CodingStructure) (partitioner : Partitioner) (bKeepCtx : bool)
        (ctx ctx' : Ctx) :
  xCheckDQP Ctx Partitioner getUseDQP isSepTree partitioner_chType currQgEnable
            implicitSplitIsDontSplit getCU predictQP cu_qp_delta restoreDeltaQP
            calcRdCost cs partitioner bKeepCtx ctx
  = Normal (cs', ctx') ->
  let applies :=
    getUseDQP
    && negb (isSepTree partitioner cs
             && match partitioner_chType partitioner with
                | CHROMA => true | LUMA => false end)
    && currQgEnable partitioner in
  List.length (cus cs') = List.length (cus cs)
  /\ dist cs' = dist cs
  /\ (applies = false -> cs' = cs /\ ctx' = ctx)
  /\ (applies = true ->
      exists cuFirst predQP,
        getCU cs (partitioner_chType partitioner) = Some cuFirst
        /\ predictQP cuFirst (prevQP cs (partitioner_chType partitioner))
           = Normal predQP
        /\ (forall i cu,
              nth_error (cus cs) i = Some cu ->
              nth_error (cus cs') i
              = Some (if existsb codedLuma (firstn (S i) (cus cs)) then cu
                      else set_qp cu predQP))
        /\ (existsb codedLuma (cus cs) = false ->
            fracBits cs' = fracBits cs /\ cost cs' = cost cs /\ ctx' = ctx)).
Proof.
  unfold xCheckDQP.
  destruct (CHECK _ _); cbn [obind]; try discriminate.
  destruct (CHECK _ _); cbn [obind]; try discriminate.
  destruct getUseDQP; cbn [negb andb].
  2:{ intros H. injection H as <- <-. cbv zeta. repeat split; try reflexivity.
      discriminate. }
  destruct (isSepTree partitioner cs
            && match partitioner_chType partitioner with
               | CHROMA => true | LUMA => false end)%bool; cbn [negb andb].
  { intros H. injection H as <- <-. cbv zeta. repeat split; try reflexivity.
    discriminate. }
  destruct (currQgEnable partitioner); cbn [negb andb].
  2:{ intros H. injection H as <- <-. cbv zeta. repeat split; try reflexivity.
      discriminate. }
  destruct (getCU cs (partitioner_chType partitioner)) as [cuFirst |] eqn:Ecu;
    try discriminate.
  destruct (predictQP cuFirst (prevQP cs (partitioner_chType partitioner)))
    as [predQP | |] eqn:Epred; cbn [obind]; try discriminate.
  destruct (existsb codedLuma (cus cs)) eqn:Eres.
  - destruct (cu_qp_delta ctx cuFirst predQP (qp cuFirst)) as [bits ctx1].
    intros H. injection H as <- <-. cbv zeta. cbn [cus set_cus set_fracBits_cost dist].
    split.
    { clear. induction (cus cs) as [| c l IH]; [reflexivity |].
      cbn [resetUntilCoded]. destruct (codedLuma c); [reflexivity |].
      cbn. f_equal. exact IH. }
    split; [reflexivity |]. split; [discriminate |].
    intros _. exists cuFirst, predQP. split; [reflexivity |]. split; [exact Epred |].
    split; [intros i cu Hi; apply resetUntilCoded_nth; exact Hi | discriminate].
  - intros H. injection H as <- <-. cbv zeta. cbn [cus set_cus dist].
    split; [apply length_map |]. split; [reflexivity |]. split; [discriminate |].
    intros _. exists cuFirst, predQP. split; [reflexivity |]. split; [exact Epred |].
    split.
    + intros i cu Hi. rewrite nth_error_map, Hi. cbn [option_map].
      rewrite (existsb_firstn_false codedLuma (cus cs) (S i) Eres). reflexivity.
    + intros _. repeat split; reflexivity.
Qed.

End DQPFacts.

Lemma xCheckDQP_resets_up_to_first_coded_witness :
  SampleDqp.xCheckDQP SampleDqp.units true 7 = Normal (SampleDqp.unitsAfter, 8)
  /\ List.length (EncCu.cus SampleDqp.unitsAfter) = 3%nat
  /\ EncCu.dist SampleDqp.unitsAfter = 50.
Proof.
  assert (E : SampleDqp.xCheckDQP SampleDqp.units true 7
              = Normal (SampleDqp.unitsAfter, 8)) by reflexivity.
  split; [exact E |].
  destruct (xCheckDQP_resets_up_to_first_coded Z unit true (fun _ _ => false)
    (fun _ => EncCu.LUMA) (fun _ => true) (fun _ _ => false)
    (fun c _ => hd_error (EncCu.cus c)) (fun _ prev => Normal prev)
    (fun ctx _ _ _ => (3, ctx + 1)) (fun saved _ => saved) SampleEncCu.calcRdCost
    SampleDqp.units SampleDqp.unitsAfter tt true 7 8 E) as (Hl & Hd & _).
  split; [exact Hl | exact Hd].
Defined.
